(** * NameCaseLib (NodeJS port): a shallow embedding of the declension engine

    The development follows the layout of the repository:
    - [JS]: the few built-ins of the host language the library relies on
      (strings as sequences of UTF-16 code units, [slice], [substring],
      [split], [includes], [toLowerCase], thrown errors);
    - [NCLStr]: the text helpers of [src/NCL/NCLStr.js];
    - [NCL]: constants and the registry of concrete classes;
    - [NCLNameCaseWord]: the per-token record;
    - [NCLNameCaseCore]: the engine;
    - [NCLNameCaseRu], [NCLNameCaseUa]: the two language modules.

    Definitions come first, theorems afterwards. *)

From Stdlib Require Import List Bool Arith NArith ZArith Lia.
From Stdlib Require Import Floats.PrimFloat.
From Stdlib Require Import Strings.String Strings.Ascii Numbers.DecimalString.
Import ListNotations.

Set Implicit Arguments.
Open Scope Z_scope.

(* ================================================================== *)
(** ** Host language *)

Module JS.

(** A string is a sequence of UTF-16 code units. Every letter the library
    handles lies in the Basic Multilingual Plane, one unit per letter. *)
Definition jsstring := list N.

(** *** String literals

    Literals of the source are written as UTF-8 text and decoded to code
    units, so that the tables below can be read against the JavaScript. *)

Definition byte (a : ascii) : N := N_of_ascii a.

Fixpoint U (s : string) : jsstring :=
  match s with
  | EmptyString => []
  | String a rest =>
      let b := byte a in
      if (b <? 128)%N then b :: U rest
      else if (b <? 224)%N then
        match rest with
        | String a2 rest2 =>
            ((b - 192) * 64 + (byte a2 - 128))%N :: U rest2
        | EmptyString => [b]
        end
      else
        match rest with
        | String a2 (String a3 rest3) =>
            ((b - 224) * 4096 + (byte a2 - 128) * 64 + (byte a3 - 128))%N
              :: U rest3
        | _ => [b]
        end
  end.

Definition str_eqb (a b : jsstring) : bool :=
  if list_eq_dec N.eq_dec a b then true else false.

(** *** Errors that the code can throw *)

Inductive JSError : Type :=
| ReferenceError (name : string)   (* an identifier nothing binds *)
| TypeError (msg : string)
| Error (msg : string).            (* [throw new Error(msg)] *)

Inductive Result (A : Type) : Type :=
| Ok (a : A)
| Err (e : JSError).
Arguments Ok {A} a.
Arguments Err {A} e.

Definition bind {A B} (r : Result A) (k : A -> Result B) : Result B :=
  match r with
  | Ok a => k a
  | Err e => Err e
  end.

(** Evaluating an identifier that no declaration of the enclosing file
    binds and that is not a global of the host raises [ReferenceError]. *)
Definition unbound {A} (name : string) : Result A :=
  Err (ReferenceError name).

(** *** [String.prototype] *)

Definition strlen (s : jsstring) : Z := Z.of_nat (List.length s).

(** Characters at positions [b <= i < e], both already clamped. *)
Definition range (s : jsstring) (b e : Z) : jsstring :=
  firstn (Z.to_nat (e - b)) (skipn (Z.to_nat b) s).

(** [s.slice(b, e)]; [e = None] stands for [undefined]. *)
Definition slice (s : jsstring) (b : Z) (e : option Z) : jsstring :=
  let len := strlen s in
  let from := if b <? 0 then Z.max (len + b) 0 else Z.min b len in
  let to :=
    match e with
    | None => len
    | Some e => if e <? 0 then Z.max (len + e) 0 else Z.min e len
    end in
  range s from to.

(** [s.substring(b, e)]: negative bounds count as 0, the bounds are
    clamped to the length and swapped when out of order. *)
Definition substring (s : jsstring) (b e : Z) : jsstring :=
  let len := strlen s in
  let b' := Z.min (Z.max b 0) len in
  let e' := Z.min (Z.max e 0) len in
  range s (Z.min b' e') (Z.max b' e').

Fixpoint starts_with (needle hay : jsstring) : bool :=
  match needle, hay with
  | [], _ => true
  | n :: ns, h :: hs => (n =? h)%N && starts_with ns hs
  | _ :: _, [] => false
  end.

(** [hay.includes(needle)] on strings. *)
Fixpoint includes (hay needle : jsstring) : bool :=
  starts_with needle hay ||
  match hay with
  | [] => false
  | _ :: hs => includes hs needle
  end.

(** [arr.includes(x)] on arrays of strings. *)
Definition arr_includes (arr : list jsstring) (x : jsstring) : bool :=
  existsb (str_eqb x) arr.

(** [s.split(sep)] for a one-unit separator: always at least one piece. *)
Fixpoint split (sep : N) (s : jsstring) : list jsstring :=
  match s with
  | [] => [[]]
  | c :: rest =>
      if (c =? sep)%N then [] :: split sep rest
      else
        match split sep rest with
        | piece :: pieces => (c :: piece) :: pieces
        | [] => [[c]]
        end
  end.

(** [arr.join(sep)]. *)
Fixpoint join (sep : jsstring) (arr : list jsstring) : jsstring :=
  match arr with
  | [] => []
  | [x] => x
  | x :: rest => x ++ sep ++ join sep rest
  end.

(** *** Letter case

    [toLowerCase] and [toUpperCase] on the two alphabets the library is
    written for: Basic Latin and the Cyrillic block U+0400..U+045F together
    with the letter pair U+0490/U+0491. Other units are left as they are. *)

Definition lower_unit (c : N) : N :=
  if (65 <=? c)%N && (c <=? 90)%N then (c + 32)%N
  else if (1040 <=? c)%N && (c <=? 1071)%N then (c + 32)%N
  else if (1024 <=? c)%N && (c <=? 1039)%N then (c + 80)%N
  else if (c =? 1168)%N then 1169%N
  else c.

Definition upper_unit (c : N) : N :=
  if (97 <=? c)%N && (c <=? 122)%N then (c - 32)%N
  else if (1072 <=? c)%N && (c <=? 1103)%N then (c - 32)%N
  else if (1104 <=? c)%N && (c <=? 1119)%N then (c - 80)%N
  else if (c =? 1169)%N then 1168%N
  else c.

Definition toLowerCase (s : jsstring) : jsstring := map lower_unit s.
Definition toUpperCase (s : jsstring) : jsstring := map upper_unit s.

(** [s.trim()]: white space and line terminators go from both ends. *)
Definition is_space (c : N) : bool :=
  existsb (N.eqb c)
    [9; 10; 11; 12; 13; 32; 160; 5760; 8192; 8193; 8194; 8195; 8196; 8197;
     8198; 8199; 8200; 8201; 8202; 8232; 8233; 8239; 8287; 12288; 65279]%N.

Fixpoint trim_start (s : jsstring) : jsstring :=
  match s with
  | c :: rest => if is_space c then trim_start rest else s
  | [] => []
  end.

Definition trim (s : jsstring) : jsstring :=
  rev (trim_start (rev (trim_start s))).

(** The hyphen, U+002D. *)
Definition hyphen : N := 45%N.

(** The text of [undefined] when it is concatenated to a string. *)
Definition undefined_text : jsstring := U "undefined".

End JS.
Import JS.

Notation "x <- e ;; k" := (JS.bind e (fun x => k))
  (at level 61, e at next level, right associativity).

(* ================================================================== *)
(** ** NCLStr *)

Module NCLStr.

(** The file [src/NCL/NCLStr.js] is not part of the sources at hand. The
    spec calls its helpers the trivial "Unicode-safe substring, case-fold,
    and letter-enumeration helpers"; their names and argument conventions
    are those of the PHP functions they stand for. *)

(** Modelled from the spec: [NCLStr.strlen], the number of letters. *)
Definition strlen (s : jsstring) : Z := JS.strlen s.

(** Modelled from the spec: [NCLStr.strtolower], case folding. *)
Definition strtolower (s : jsstring) : jsstring := toLowerCase s.

(** Modelled from the spec: [NCLStr.strtoupper]. *)
Definition strtoupper (s : jsstring) : jsstring := toUpperCase s.

(** Modelled from the spec: [NCLStr.splitLetters], one entry per letter. *)
Definition splitLetters (s : jsstring) : list jsstring :=
  map (fun c => [c]) s.

(** Modelled from the spec: [NCLStr.isLowerCase]; a letter is lower case
    when case folding leaves it alone. *)
Definition isLowerCase (letter : jsstring) : bool :=
  str_eqb (strtolower letter) letter.

(** Modelled from the spec: [NCLStr.substr(str, start, length)]; a
    negative [start] counts from the end, a negative [length] leaves that
    many letters off the end, and an empty range yields the empty
    string. *)
Definition substr (s : jsstring) (start len : Z) : jsstring :=
  let n := JS.strlen s in
  let from := if start <? 0 then Z.max (n + start) 0 else Z.min start n in
  let to := if len <? 0 then n + len else Z.min (from + len) n in
  JS.range s from to.

(** Modelled from the spec: [NCLStr.strrpos], the position of the last
    occurrence of a one-letter [needle], [None] when there is none. *)
Fixpoint strrpos_from (s : jsstring) (needle : N) (pos : Z) (found : option Z)
  : option Z :=
  match s with
  | [] => found
  | c :: rest =>
      strrpos_from rest needle (pos + 1)
        (if (c =? needle)%N then Some pos else found)
  end.

Definition strrpos (s : jsstring) (needle : N) : option Z :=
  strrpos_from s needle 0 None.

End NCLStr.

Example U_cyrillic : U "Павел" = [1055; 1072; 1074; 1077; 1083]%N.
Proof. reflexivity. Qed.

Example U_apostrophe : U "’" = [8217%N].
Proof. reflexivity. Qed.

Example slice_last : slice (U "abcdef") (-3) (Some 5) = U "de".
Proof. reflexivity. Qed.

Example split_hyphen : split hyphen (U "a-bc-") = [U "a"; U "bc"; U ""].
Proof. reflexivity. Qed.

(* ================================================================== *)
(** ** Numbers

    The gender and name-part scores are JavaScript numbers (IEEE doubles).
    The engine only adds them, compares them and writes decimal literals, so
    the development is parametric in an interface with exactly these
    operations and holds for every interpretation of it. *)

Class JSNumber : Type := {
  num : Type;
  nzero : num;
  nadd : num -> num -> num;          (* a + b *)
  ngtb : num -> num -> bool;         (* a > b *)
  ngeb : num -> num -> bool;         (* a >= b *)
  neqb : num -> num -> bool;         (* a == b *)
  nlit : Z -> nat -> num             (* the literal m * 10^-e *)
}.

(* ================================================================== *)
(** ** NCL: constants and the registry of concrete classes *)

Module NCL.

Definition MAN : Z := 1.
Definition WOMAN : Z := 2.

(** [NCL._concreteClasses]: [None] until [setConcreteClasses] is called,
    then an object from language codes to classes. *)
Definition Registry (Class_ : Type) : Type := option (list (string * Class_)).

Fixpoint lookup {Class_} (o : list (string * Class_)) (lang : string)
  : option Class_ :=
  match o with
  | [] => None
  | (k, v) :: rest => if String.eqb k lang then Some v else lookup rest lang
  end.

(** [getConcreteClass(lang)]: the registered class, or [null]. *)
Definition getConcreteClass {Class_} (reg : Registry Class_) (lang : string)
  : option Class_ :=
  match reg with
  | Some classes => lookup classes lang
  | None => None
  end.

Definition setConcreteClasses {Class_} (classes : list (string * Class_))
  : Registry Class_ := Some classes.

End NCL.

(* ================================================================== *)
(** ** NCLNameCaseWord: everything known about one token *)

Module NCLNameCaseWord.
Section Word.
Context {JN : JSNumber}.

(** The anthroponym type: ['N'] name, ['S'] surname, ['F'] patronymic. *)
Inductive Part : Type := N_ | S_ | F_.

Definition Part_eqb (a b : Part) : bool :=
  match a, b with
  | N_, N_ | S_, S_ | F_, F_ => true
  | _, _ => false
  end.

(** One entry of the letter mask: ['x'] lower case, ['X'] upper case. *)
Inductive MaskLetter : Type := mask_x | mask_X.

Record Word : Type := mkWord {
  word : jsstring;                (* lower-cased text *)
  word_orig : jsstring;           (* text as supplied *)
  namePart : option Part;         (* [None] is [null] *)
  genderMan : num;
  genderWoman : num;
  genderSolved : Z;               (* 0, [NCL.MAN] or [NCL.WOMAN] *)
  letterMask : list MaskLetter;
  isUpperCase : bool;
  NameCases : list jsstring;
  rule : Z
}.

(** [generateMask(word)]: the mask and the all-upper-case flag. *)
Fixpoint generateMask_loop (letters : list jsstring)
         (mask : list MaskLetter) (upper : bool)
  : list MaskLetter * bool :=
  match letters with
  | [] => (mask, upper)
  | letter :: rest =>
      if NCLStr.isLowerCase letter
      then generateMask_loop rest (mask ++ [mask_x]) false
      else generateMask_loop rest (mask ++ [mask_X]) upper
  end.

Definition generateMask (w : jsstring) : list MaskLetter * bool :=
  generateMask_loop (NCLStr.splitLetters w) [] true.

(** [new NCLNameCaseWord(word)]. *)
Definition new (w : jsstring) : Word :=
  let (mask, upper) := generateMask w in
  {| word := NCLStr.strtolower w;
     word_orig := w;
     namePart := None;
     genderMan := nzero;
     genderWoman := nzero;
     genderSolved := 0;
     letterMask := mask;
     isUpperCase := upper;
     NameCases := [];
     rule := 0 |}.

Definition set_NameCases (w : Word) (v : list jsstring) : Word :=
  {| word := word w; word_orig := word_orig w; namePart := namePart w;
     genderMan := genderMan w; genderWoman := genderWoman w;
     genderSolved := genderSolved w; letterMask := letterMask w;
     isUpperCase := isUpperCase w; NameCases := v; rule := rule w |}.

(** The inner loop of [returnMask]: letters [0 .. max-1] of [kase], each
    upper-cased where the mask says ['X']. *)
Definition mask_letter (splitedMask : list MaskLetter) (kase : jsstring)
           (acc : jsstring) (letterIndex : nat) : jsstring :=
  let letter := NCLStr.substr kase (Z.of_nat letterIndex) 1 in
  let letter :=
    match nth_error splitedMask letterIndex with
    | Some mask_X => NCLStr.strtoupper letter
    | _ => letter
    end in
  acc ++ letter.

Definition returnMask_case (splitedMask : list MaskLetter) (kase : jsstring)
  : jsstring :=
  let maskLength := Z.of_nat (List.length splitedMask) in
  let caseLength := NCLStr.strlen kase in
  let max := Z.min caseLength maskLength in
  let out := fold_left (mask_letter splitedMask kase)
                       (seq 0 (Z.to_nat max)) [] in
  out ++ NCLStr.substr kase max (caseLength - maskLength).

(** [returnMask()]. *)
Definition returnMask (w : Word) : Word :=
  if isUpperCase w
  then set_NameCases w (map NCLStr.strtoupper (NameCases w))
  else set_NameCases w (map (returnMask_case (letterMask w)) (NameCases w)).

(** [setNameCases(nameCases, is_return_mask = true)]. *)
Definition setNameCases (w : Word) (nameCases : list jsstring)
           (is_return_mask : bool) : Word :=
  let w := set_NameCases w nameCases in
  if is_return_mask then returnMask w else w.

Definition getNameCases (w : Word) : list jsstring := NameCases w.

Definition setTrueGender (w : Word) (gender : Z) : Word :=
  {| word := word w; word_orig := word_orig w; namePart := namePart w;
     genderMan := genderMan w; genderWoman := genderWoman w;
     genderSolved := gender; letterMask := letterMask w;
     isUpperCase := isUpperCase w; NameCases := NameCases w;
     rule := rule w |}.

(** [gender()]: settles the gender from the two rates when it is still
    open, and returns it. *)
Definition gender (w : Word) : Z * Word :=
  if genderSolved w =? 0 then
    if ngeb (genderMan w) (genderWoman w)
    then (NCL.MAN, setTrueGender w NCL.MAN)
    else (NCL.WOMAN, setTrueGender w NCL.WOMAN)
  else (genderSolved w, w).

(** [setGender(man, woman)]. *)
Definition setGender (w : Word) (man woman : num) : Word :=
  {| word := word w; word_orig := word_orig w; namePart := namePart w;
     genderMan := man; genderWoman := woman;
     genderSolved := genderSolved w; letterMask := letterMask w;
     isUpperCase := isUpperCase w; NameCases := NameCases w;
     rule := rule w |}.

(** [getGender()]: the two rates, under the keys [MAN] and [WOMAN]. *)
Definition getGender (w : Word) : num * num := (genderMan w, genderWoman w).

Definition setNamePart (w : Word) (p : Part) : Word :=
  {| word := word w; word_orig := word_orig w; namePart := Some p;
     genderMan := genderMan w; genderWoman := genderWoman w;
     genderSolved := genderSolved w; letterMask := letterMask w;
     isUpperCase := isUpperCase w; NameCases := NameCases w;
     rule := rule w |}.

Definition getNamePart (w : Word) : option Part := namePart w.
Definition getWord (w : Word) : jsstring := word w.
Definition getWordOrig (w : Word) : jsstring := word_orig w.

Definition isGenderSolved (w : Word) : bool := negb (genderSolved w =? 0).

Definition setRule (w : Word) (ruleID : Z) : Word :=
  {| word := word w; word_orig := word_orig w; namePart := namePart w;
     genderMan := genderMan w; genderWoman := genderWoman w;
     genderSolved := genderSolved w; letterMask := letterMask w;
     isUpperCase := isUpperCase w; NameCases := NameCases w;
     rule := ruleID |}.

(** [getNameCase(number)]: the form at [number], or [false] ([None]) when
    the list has no such entry. *)
Definition getNameCase (w : Word) (number : Z) : option jsstring :=
  if number <? 0 then None else nth_error (NameCases w) (Z.to_nat number).

End Word.
End NCLNameCaseWord.

(* ================================================================== *)
(** ** NCLNameCaseCore: the engine *)

Module NCLNameCaseCore.
Import NCLNameCaseWord.
Section Core.
Context {JN : JSNumber}.

(** [this.index]: for each anthroponym type, the keys of [this.words]
    holding a word of that type. The keys are the property names that
    [for ... in] enumerates, written here as positions. *)
Record Index : Type := mkIndex {
  index_N : list nat;
  index_S : list nat;
  index_F : list nat
}.

Definition empty_index : Index := mkIndex [] [] [].

(** The mutable fields of an engine instance. The memo table of [Last] is
    treated apart, see [Last_memo]. *)
Record Core : Type := mkCore {
  ready : bool;
  finished : bool;
  words : list Word;
  workingWord : jsstring;
  lastRule : Z;
  lastResult : list jsstring;
  index : Index
}.

(** The state the constructor leaves. Its [index] is the empty object;
    every reader of the index runs [generateIndex] first, which puts the
    three arrays in place. *)
Definition init : Core :=
  {| ready := false; finished := false; words := [];
     workingWord := []; lastRule := 0; lastResult := [];
     index := empty_index |}.

Definition set_ready (c : Core) (v : bool) : Core :=
  mkCore v (finished c) (words c) (workingWord c) (lastRule c)
         (lastResult c) (index c).
Definition set_finished (c : Core) (v : bool) : Core :=
  mkCore (ready c) v (words c) (workingWord c) (lastRule c)
         (lastResult c) (index c).
Definition set_words (c : Core) (v : list Word) : Core :=
  mkCore (ready c) (finished c) v (workingWord c) (lastRule c)
         (lastResult c) (index c).
Definition set_workingWord (c : Core) (v : jsstring) : Core :=
  mkCore (ready c) (finished c) (words c) v (lastRule c)
         (lastResult c) (index c).
Definition set_lastRule (c : Core) (v : Z) : Core :=
  mkCore (ready c) (finished c) (words c) (workingWord c) v
         (lastResult c) (index c).
Definition set_lastResult (c : Core) (v : list jsstring) : Core :=
  mkCore (ready c) (finished c) (words c) (workingWord c) (lastRule c)
         v (index c).
Definition set_index (c : Core) (v : Index) : Core :=
  mkCore (ready c) (finished c) (words c) (workingWord c) (lastRule c)
         (lastResult c) v.

(** What a declension method or a rule returns: the success flag and the
    engine it leaves, or a thrown error. *)
Definition Method : Type := Core -> Result (bool * Core).

(** The two prefixes of rule and method names. *)
Inductive GenderTag : Type := man | woman.

(** The members a language class defines or overrides. *)
Record Lang : Type := mkLang {
  CaseCount : nat;
  manFirstName : Method;
  womanFirstName : Method;
  manSecondName : Method;
  womanSecondName : Method;
  manFatherName : Method;
  womanFatherName : Method;
  GenderByFirstName : Core -> Word -> Core * Word;
  GenderBySecondName : Core -> Word -> Core * Word;
  GenderByFatherName : Core -> Word -> Core * Word;
  detectNamePart : Core -> Word -> Core * Word
}.

Definition reset (c : Core) : Core :=
  set_lastResult (set_lastRule c 0) [].

Definition notReady (c : Core) : Core :=
  set_finished (set_ready c false) false.

Definition fullReset (c : Core) : Core :=
  notReady (reset (set_index (set_words c []) empty_index)).

Definition Rule (c : Core) (index : Z) : Core := set_lastRule c index.

(** [setWorkingWord(word)]; the memo table of [Last] is emptied too. *)
Definition setWorkingWord (c : Core) (word : jsstring) : Core :=
  set_workingWord (reset c) word.

Definition makeResultTheSame (cc : nat) (c : Core) : Core :=
  set_lastResult c (repeat (workingWord c) cc).

(** [Last(length = 1, stopAfter = 0)] as a function of the working word. *)
Definition Last_of (w : jsstring) (length stopAfter : Z) : jsstring :=
  let cut := if stopAfter >? 0
             then Some (JS.strlen w - length + stopAfter)
             else None in
  slice w (- length) cut.

Definition Last (c : Core) (length stopAfter : Z) : jsstring :=
  Last_of (workingWord c) length stopAfter.

(** [Last] with its memo table [workingLastCache], keyed by the two
    arguments. *)
Definition LastCache : Type := list ((Z * Z) * jsstring).

Fixpoint cache_get (cache : LastCache) (length stopAfter : Z)
  : option jsstring :=
  match cache with
  | [] => None
  | ((l, s), v) :: rest =>
      if (l =? length) && (s =? stopAfter) then Some v
      else cache_get rest length stopAfter
  end.

Definition Last_memo (w : jsstring) (cache : LastCache) (length stopAfter : Z)
  : jsstring * LastCache :=
  match cache_get cache length stopAfter with
  | Some v => (v, cache)
  | None =>
      let v := Last_of w length stopAfter in
      (v, ((length, stopAfter), v) :: cache)
  end.

(** [in(letter, string)] with a string as second argument. *)
Definition in_str (letter string : jsstring) : bool :=
  match letter with
  | [] => false
  | _ => includes string letter
  end.

(** [in(letter, string)] with an array as second argument. *)
Definition in_arr (letter : jsstring) (array : list jsstring) : bool :=
  match letter with
  | [] => false
  | _ => arr_includes array letter
  end.

Definition inNames (nameNeedle : jsstring) (names : list jsstring) : bool :=
  existsb (fun name => str_eqb (toLowerCase nameNeedle) (toLowerCase name))
          names.

(** [wordForms(word, endings, replaceLast = 0)]. A missing ending reads
    as [undefined]. *)
Definition wordForms (cc : nat) (c : Core) (word : jsstring)
           (endings : list jsstring) (replaceLast : Z) : Core :=
  let word := substring word 0 (JS.strlen word - replaceLast) in
  let form padegIndex :=
    word ++ nth (padegIndex - 1) endings undefined_text in
  set_lastResult c (workingWord c :: map form (seq 1 (cc - 1))).

(** The text of a gender prefix, and the name [gender + 'Rule' + ruleID]
    of a rule method. *)
Definition gender_text (gender : GenderTag) : string :=
  match gender with
  | man => "man"
  | woman => "woman"
  end.

Definition rule_name (gender : GenderTag) (ruleID : Z) : string :=
  gender_text gender ++ "Rule" ++ NilEmpty.string_of_int (Z.to_int ruleID).

Definition method_not_found (name : string) : JSError :=
  Error ("Method " ++ name ++ " not found").

(** [RulesChain(gender, rulesArray)]; [rules] is the lookup of the
    method named [gender + 'Rule' + ruleID] in the instance. *)
Fixpoint RulesChain (rules : GenderTag -> Z -> option Method)
         (gender : GenderTag) (rulesArray : list Z) (c : Core)
  : Result (bool * Core) :=
  match rulesArray with
  | [] => Ok (false, c)
  | ruleID :: rest =>
      match rules gender ruleID with
      | None => Err (method_not_found (rule_name gender ruleID))
      | Some ruleMethod =>
          r <- ruleMethod c ;;
          if fst r then Ok (true, snd r)
          else RulesChain rules gender rest (snd r)
      end
  end.

(** The three setters share one body, apart from the type they record. *)
Definition addWord (c : Core) (text : jsstring) (p : Part) : Core :=
  match text with
  | [] => c
  | _ => notReady (set_words c (words c ++ [setNamePart (new text) p]))
  end.

Definition setFirstName (c : Core) (firstname : jsstring) : Core :=
  addWord c firstname N_.
Definition setSecondName (c : Core) (secondname : jsstring) : Core :=
  addWord c secondname S_.
Definition setFatherName (c : Core) (fathername : jsstring) : Core :=
  addWord c fathername F_.

Definition setGender (c : Core) (gender : Z) : Core :=
  set_words c (map (fun w => setTrueGender w gender) (words c)).

Definition setFullName (c : Core) (secondName firstName fatherName : jsstring)
  : Core :=
  setFatherName (setSecondName (setFirstName c firstName) secondName)
                fatherName.

(** Runs [f] on every word in order, threading the engine; the words are
    objects changed in place, so the list ends up holding the results. *)
Fixpoint each_word (f : Core -> Word -> Core * Word)
         (c : Core) (ws : list Word) : Core * list Word :=
  match ws with
  | [] => (c, [])
  | w :: rest =>
      let (c1, w1) := f c w in
      let (c2, rest') := each_word f c1 rest in
      (c2, w1 :: rest')
  end.

Definition prepareNamePart (L : Lang) (c : Core) (w : Word) : Core * Word :=
  match getNamePart w with
  | None => detectNamePart L c w
  | Some _ => (c, w)
  end.

Definition prepareAllNameParts (L : Lang) (c : Core) : Core :=
  let (c1, ws) := each_word (prepareNamePart L) c (words c) in
  set_words c1 ws.

Definition prepareGender (L : Lang) (c : Core) (w : Word) : Core * Word :=
  if negb (isGenderSolved w) then
    match getNamePart w with
    | Some N_ => GenderByFirstName L c w
    | Some F_ => GenderByFatherName L c w
    | Some S_ => GenderBySecondName L c w
    | None => (c, w)
    end
  else (c, w).

(** The second loop of [solveGender]: infer, then add up the two rates. *)
Fixpoint solveGender_sum (L : Lang) (c : Core) (ws : list Word)
         (man_ woman_ : num) : Core * list Word * num * num :=
  match ws with
  | [] => (c, [], man_, woman_)
  | w :: rest =>
      let (c1, w1) := prepareGender L c w in
      let g := getGender w1 in
      let man_ := nadd man_ (fst g) in
      let woman_ := nadd woman_ (snd g) in
      let '(c2, rest', man_, woman_) :=
        solveGender_sum L c1 rest man_ woman_ in
      (c2, w1 :: rest', man_, woman_)
  end.

Definition solveGender (L : Lang) (c : Core) : Core :=
  match find isGenderSolved (words c) with
  | Some w => setGender c (fst (gender w))
  | None =>
      let '(c1, ws, man_, woman_) :=
        solveGender_sum L c (words c) nzero nzero in
      let c1 := set_words c1 ws in
      if ngtb man_ woman_
      then setGender c1 NCL.MAN
      else setGender c1 NCL.WOMAN
  end.

(** [generateIndex()]. A word without a type has no entry to push to. *)
Fixpoint generateIndex_loop (ws : list Word) (key : nat) (ix : Index)
  : Result Index :=
  match ws with
  | [] => Ok ix
  | w :: rest =>
      match getNamePart w with
      | Some N_ =>
          generateIndex_loop rest (S key)
            (mkIndex (index_N ix ++ [key]) (index_S ix) (index_F ix))
      | Some S_ =>
          generateIndex_loop rest (S key)
            (mkIndex (index_N ix) (index_S ix ++ [key]) (index_F ix))
      | Some F_ =>
          generateIndex_loop rest (S key)
            (mkIndex (index_N ix) (index_S ix) (index_F ix ++ [key]))
      | None =>
          Err (TypeError "Cannot read properties of undefined (reading 'push')")
      end
  end.

Definition generateIndex (c : Core) : Result Core :=
  ix <- generateIndex_loop (words c) 0 empty_index ;;
  Ok (set_index c ix).

Definition prepareEverything (L : Lang) (c : Core) : Result Core :=
  if ready c then Ok c
  else
    let c := prepareAllNameParts L c in
    let c := solveGender L c in
    c <- generateIndex c ;;
    Ok (set_ready c true).

(** Helpers for the language classes: [x += v] under a condition, and
    [math_max] on two numbers. *)
Definition add_if (cond : bool) (x v : num) : num :=
  if cond then nadd x v else x.

Definition nmax (a b : num) : num := if ngtb b a then b else a.

(** [splitFullName(fullname)]. The file binds neither [trim] nor
    [explode]: it requires only [NCL] and [NCLNameCaseWord]. *)
Definition splitFullName (L : Lang) (c : Core) (fullname : jsstring)
  : Result (Core * list Word) :=
  trim_ <- unbound (A := jsstring -> jsstring) "trim" ;;
  let fullname := trim_ fullname in
  explode_ <- unbound (A := jsstring -> jsstring -> list jsstring)
                      "explode" ;;
  let list := explode_ (U " ") fullname in
  let c := set_words c (words c ++ map new list) in
  c <- prepareEverything L c ;;
  Ok (c, words c).

(** The name of the declension method: [gender + namepart + 'Name'],
    where [namepart] stays empty for a word without a type, and no
    method is called [manName] or [womanName]. *)
Definition declension_method (L : Lang) (gender : GenderTag)
           (name_part_letter : option Part) : option Method :=
  match gender, name_part_letter with
  | man, Some F_ => Some (manFatherName L)
  | man, Some N_ => Some (manFirstName L)
  | man, Some S_ => Some (manSecondName L)
  | woman, Some F_ => Some (womanFatherName L)
  | woman, Some N_ => Some (womanFirstName L)
  | woman, Some S_ => Some (womanSecondName L)
  | _, None => None
  end.

(** The sub-tokens of a surname that are never re-classified. *)
Definition exclusion : list jsstring := [U "тулуз"].

(** Whether a chunk of a hyphenated word follows the normal rules
    ([is_norm_rules]). For every chunk of a surname but the last, a fresh
    instance of the class registered under ['ru'] classifies the chunk's
    word object [o_ncw]; [new cls()] on [null] throws. *)
Definition is_norm_rules (reg : NCL.Registry Lang)
           (name_part_letter : option Part) (cnt k : nat)
           (cur_word : jsstring) (o_ncw : Word) : Result (Word * bool) :=
  match name_part_letter with
  | Some S_ =>
      if (1 <? cnt)%nat && (k <? cnt - 1)%nat then
        if negb (arr_includes exclusion (toLowerCase cur_word)) then
          match NCL.getConcreteClass reg "ru" with
          | None => Err (TypeError "cls is not a constructor")
          | Some cls =>
              let o_nc := init in
              let o_ncw := snd (detectNamePart cls o_nc o_ncw) in
              Ok (o_ncw, match getNamePart o_ncw with
                         | Some S_ => true
                         | _ => false
                         end)
          end
        else Ok (o_ncw, false)
      else Ok (o_ncw, true)
  | _ => Ok (o_ncw, true)
  end.

(** One turn of the first loop of [WordCase]: the chunk [cur_word] at
    key [k] is declined on its own; the result is the chunk's word object
    with its cases (mask restored) and the rule that produced them. *)
Definition WordCase_chunk (L : Lang) (reg : NCL.Registry Lang)
           (method : Method) (name_part_letter : option Part)
           (cnt k : nat) (cur_word : jsstring) (c : Core)
  : Result (Core * Word * Z) :=
  n <- is_norm_rules reg name_part_letter cnt k cur_word (new cur_word) ;;
  let o_ncw := fst n in
  let c := setWorkingWord c cur_word in
  r <- (if snd n then method c else Ok (false, c)) ;;
  let c := snd r in
  let result_tmp :=
    if fst r then lastResult c else repeat cur_word (CaseCount L) in
  let last_rule := if fst r then lastRule c else -1 in
  Ok (c, setNameCases o_ncw result_tmp true, last_rule).

Fixpoint WordCase_chunks (L : Lang) (reg : NCL.Registry Lang)
         (method : Method) (name_part_letter : option Part)
         (cnt k : nat) (cur_words : list jsstring)
         (c : Core) (last_rule : Z)
  : Result (Core * list Word * Z) :=
  match cur_words with
  | [] => Ok (c, [], last_rule)
  | cur_word :: rest =>
      r <- WordCase_chunk L reg method name_part_letter cnt k cur_word c ;;
      let '(c1, o_ncw, last_rule) := r in
      r' <- WordCase_chunks L reg method name_part_letter cnt (S k) rest
                            c1 last_rule ;;
      let '(c2, o_cur_words, last_rule) := r' in
      Ok (c2, o_ncw :: o_cur_words, last_rule)
  end.

(** The second loop of [WordCase] for one chunk: each case is appended,
    behind a hyphen, to what [result] already holds under the same key. *)
Fixpoint glue (result namecases : list jsstring) : list jsstring :=
  match result, namecases with
  | r :: rs, n :: ns => (r ++ [hyphen] ++ n) :: glue rs ns
  | [], ns => ns
  | rs, [] => rs
  end.

Definition glue_all (o_cur_words : list Word) : list jsstring :=
  fold_left (fun result o_ncw => glue result (getNameCases o_ncw))
            o_cur_words [].

(** [WordCase(word)]. *)
Definition WordCase (L : Lang) (reg : NCL.Registry Lang)
           (c : Core) (w : Word) : Result (Core * Word) :=
  let (g, w) := NCLNameCaseWord.gender w in
  let gender := if g =? NCL.MAN then man else woman in
  let name_part_letter := getNamePart w in
  match declension_method L gender name_part_letter with
  | None => Err (method_not_found (gender_text gender ++ "Name"))
  | Some method =>
      let cur_words := split hyphen (getWordOrig w) in
      let cnt := List.length cur_words in
      r <- WordCase_chunks L reg method name_part_letter cnt 0
                           cur_words c (-1) ;;
      let '(c, o_cur_words, last_rule) := r in
      let result := glue_all o_cur_words in
      Ok (c, setRule (setNameCases w result false) last_rule)
  end.

Fixpoint each_word_r (f : Core -> Word -> Result (Core * Word))
         (c : Core) (ws : list Word) : Result (Core * list Word) :=
  match ws with
  | [] => Ok (c, [])
  | w :: rest =>
      r <- f c w ;;
      r' <- each_word_r f (fst r) rest ;;
      Ok (fst r', snd r :: snd r')
  end.

(** [AllWordCases()]. *)
Definition AllWordCases (L : Lang) (reg : NCL.Registry Lang) (c : Core)
  : Result Core :=
  if finished c then Ok c
  else
    c <- prepareEverything L c ;;
    r <- each_word_r (WordCase L reg) c (words c) ;;
    Ok (set_finished (set_words (fst r) (snd r)) true).

(** What reaches [getWordCase] as its first argument: a word object, or
    a key of [this.words] taken from the index. *)
Inductive Arg : Type :=
| ArgWord (w : Word)
| ArgKey (key : nat).

(** The values the getters hand back: one string, the array of all
    cases, or [undefined]. *)
Inductive CaseValue : Type :=
| VUndefined
| VString (s : jsstring)
| VArray (cases : list jsstring).

(** An element as [Array.prototype.join] renders it. *)
Definition joined_text (v : CaseValue) : jsstring :=
  match v with
  | VUndefined => []
  | VString s => s
  | VArray cases => join (U ",") cases
  end.

(** A value as string concatenation renders it. *)
Definition concat_text (v : CaseValue) : jsstring :=
  match v with
  | VUndefined => undefined_text
  | VString s => s
  | VArray cases => join (U ",") cases
  end.

(** [v[i]] for a value [v]. *)
Definition item (v : CaseValue) (i : nat) : Result CaseValue :=
  match v with
  | VUndefined => Err (TypeError "Cannot read properties of undefined")
  | VString s =>
      Ok (match nth_error s i with
          | Some u => VString [u]
          | None => VUndefined
          end)
  | VArray cases =>
      Ok (match nth_error cases i with
          | Some s => VString s
          | None => VUndefined
          end)
  end.

Fixpoint map_r {A B} (f : A -> Result B) (l : list A) : Result (list B) :=
  match l with
  | [] => Ok []
  | a :: rest =>
      b <- f a ;;
      bs <- map_r f rest ;;
      Ok (b :: bs)
  end.

(** [getWordCase(word, number = null)]; in the comparisons [null] counts
    as 0, and [cases[null]] is [undefined]. *)
Definition getWordCase (L : Lang) (word : Arg) (number : option Z)
  : Result CaseValue :=
  match word with
  | ArgKey _ => Err (Error "word should be of class NCLNameCaseWord")
  | ArgWord w =>
      let cases := getNameCases w in
      let n := match number with Some n => n | None => 0 end in
      if (n <? 0) || (n >? Z.of_nat (CaseCount L) - 1)
      then Ok (VArray cases)
      else
        match number with
        | None => Ok VUndefined
        | Some n =>
            Ok (match nth_error cases (Z.to_nat n) with
                | Some s => VString s
                | None => VUndefined
                end)
        end
  end.

(** [getCasesConnected(indexArray, number = null)]: the entries of the
    index are handed to [getWordCase] as they are. *)
Definition getCasesConnected (L : Lang) (indexArray : list nat)
           (number : option Z) : Result CaseValue :=
  readyArr <- map_r (fun word => getWordCase L (ArgKey word) number)
                    indexArray ;;
  match readyArr with
  | [] => Ok (VString [])
  | VArray _ :: _ =>
      resultArr <-
        map_r (fun kase =>
                 tmp <- map_r (fun r => item r kase) readyArr ;;
                 Ok (join (U " ") (map joined_text tmp)))
              (seq 0 (CaseCount L)) ;;
      Ok (VArray resultArr)
  | _ :: _ => Ok (VString (join (U " ") (map joined_text readyArr)))
  end.

(** The three getters differ in the entry of the index they read. *)
Definition getPartCase (sel : Index -> list nat)
           (L : Lang) (reg : NCL.Registry Lang) (c : Core)
           (number : option Z) : Result (Core * CaseValue) :=
  c <- AllWordCases L reg c ;;
  v <- getCasesConnected L (sel (index c)) number ;;
  Ok (c, v).

Definition getFirstNameCase := getPartCase index_N.
Definition getSecondNameCase := getPartCase index_S.
Definition getFatherNameCase := getPartCase index_F.

(** The second argument of the formatting functions: a template string
    or an array of word objects. *)
Inductive Format : Type :=
| FString (format : jsstring)
| FArray (format : list Word).

(** [value[curCase] + ' '] for every entry, then [trim()]. *)
Definition hard_line (cases : list (list jsstring)) (curCase : option nat)
  : jsstring :=
  let cell value :=
    match curCase with
    | Some i => nth i value undefined_text
    | None => undefined_text
    end ++ U " " in
  JS.trim (List.concat (map cell cases)).

(** [getFormattedArrayHard(format)]. *)
Definition getFormattedArrayHard (L : Lang) (format : list Word)
  : list jsstring :=
  let cases := map getNameCases format in
  map (fun curCase => hard_line cases (Some curCase)) (seq 0 (CaseCount L)).

(** [getFormattedHard(caseNum, format)]. *)
Definition getFormattedHard (caseNum : Z) (format : list Word) : jsstring :=
  hard_line (map getNameCases format)
            (if caseNum <? 0 then None else Some (Z.to_nat caseNum)).

(** One line of [getFormattedArray]: the template with each marker
    replaced by the entry [curCase] of the matching value. *)
Fixpoint template_line (cases_S cases_N cases_F : CaseValue)
         (curCase : nat) (format : jsstring) : Result jsstring :=
  match format with
  | [] => Ok []
  | symbol :: rest =>
      head <-
        (if str_eqb [symbol] (U "S") then
           v <- item cases_S curCase ;; Ok (concat_text v)
         else if str_eqb [symbol] (U "N") then
           v <- item cases_N curCase ;; Ok (concat_text v)
         else if str_eqb [symbol] (U "F") then
           v <- item cases_F curCase ;; Ok (concat_text v)
         else Ok [symbol]) ;;
      tail <- template_line cases_S cases_N cases_F curCase rest ;;
      Ok (head ++ tail)
  end.

(** [getFormattedArray(format)]. With a template string the three
    values are read from [index], an identifier the file does not bind
    (the index of the instance is [this.index]). *)
Definition getFormattedArray (L : Lang) (c : Core) (format : Format)
  : Result CaseValue :=
  match format with
  | FArray format => Ok (VArray (getFormattedArrayHard L format))
  | FString format =>
      index_ <- unbound (A := Index) "index" ;;
      cases_S <- getCasesConnected L (index_S index_) None ;;
      cases_N <- getCasesConnected L (index_N index_) None ;;
      cases_F <- getCasesConnected L (index_F index_) None ;;
      result <- map_r (fun curCase =>
                         template_line cases_S cases_N cases_F curCase format)
                      (seq 0 (CaseCount L)) ;;
      Ok (VArray result)
  end.

(** The loop of [getFormatted] over the symbols of a template. *)
Fixpoint getFormatted_loop (L : Lang) (reg : NCL.Registry Lang)
         (caseNum : Z) (format : jsstring) (c : Core) (result : jsstring)
  : Result (Core * jsstring) :=
  match format with
  | [] => Ok (c, result)
  | symbol :: rest =>
      r <-
        (if str_eqb [symbol] (U "S") then
           r <- getSecondNameCase L reg c (Some caseNum) ;;
           Ok (fst r, result ++ concat_text (snd r))
         else if str_eqb [symbol] (U "N") then
           r <- getFirstNameCase L reg c (Some caseNum) ;;
           Ok (fst r, result ++ concat_text (snd r))
         else if str_eqb [symbol] (U "F") then
           r <- getFatherNameCase L reg c (Some caseNum) ;;
           Ok (fst r, result ++ concat_text (snd r))
         else Ok (c, result ++ [symbol])) ;;
      getFormatted_loop L reg caseNum rest (fst r) (snd r)
  end.

(** Whether [caseNum == null || !caseNum] holds. *)
Definition not_specified (caseNum : option Z) : bool :=
  match caseNum with
  | None => true
  | Some n => n =? 0
  end.

(** [getFormatted(caseNum = 0, format = 'S N F')]. *)
Definition getFormatted (L : Lang) (reg : NCL.Registry Lang) (c : Core)
           (caseNum : option Z) (format : Format)
  : Result (Core * CaseValue) :=
  c <- AllWordCases L reg c ;;
  if not_specified caseNum then
    v <- getFormattedArray L c format ;;
    Ok (c, v)
  else
    let caseNum := match caseNum with Some n => n | None => 0 end in
    match format with
    | FArray format => Ok (c, VString (getFormattedHard caseNum format))
    | FString format =>
        r <- getFormatted_loop L reg caseNum format c [] ;;
        Ok (fst r, VString (snd r))
    end.

(** The three aliases of the setters. *)
Definition setName (c : Core) (firstname : jsstring) : Core :=
  setFirstName c firstname.
Definition setLastName (c : Core) (secondname : jsstring) : Core :=
  setSecondName c secondname.
Definition setSirName (c : Core) (secondname : jsstring) : Core :=
  setSecondName c secondname.

Definition getWordsArray (c : Core) : list Word := words c.

(** [genderAutoDetect()]. The loop [for (var k of this.words)] binds [k]
    to a word object and reads [this.words[k]]: the key is the text of
    the object, a property no array has, so the first turn calls
    [getGender] on [undefined]. Without words the loop is skipped. *)
Definition genderAutoDetect (L : Lang) (c : Core) : Result (Core * Z) :=
  c <- prepareEverything L c ;;
  match words c with
  | [] => Ok (c, -1)
  | _ :: _ =>
      Err (TypeError
             "Cannot read properties of undefined (reading 'getGender')")
  end.

(** The text of [word.getNamePart()] in a concatenation. *)
Definition part_text (p : option Part) : jsstring :=
  match p with
  | Some N_ => U "N"
  | Some S_ => U "S"
  | Some F_ => U "F"
  | None => U "null"
  end.

(** [getFullNameFormat(fullname)]. *)
Definition getFullNameFormat (L : Lang) (c : Core) (fullname : jsstring)
  : Result (Core * jsstring) :=
  let c := fullReset c in
  r <- splitFullName L c fullname ;;
  let format :=
    fold_left (fun format word =>
                 format ++ part_text (getNamePart word) ++ U " ")
              (snd r) [] in
  Ok (fst r, format).

(** [if (gender) this.setGender(gender)]. *)
Definition with_gender (c : Core) (gender : Z) : Core :=
  if gender =? 0 then c else setGender c gender.

(** [qFirstName], [qSecondName], [qFatherName]. *)
Definition qFirstName (L : Lang) (reg : NCL.Registry Lang) (c : Core)
           (firstName : jsstring) (CaseNumber : option Z) (gender : Z)
  : Result (Core * CaseValue) :=
  let c := fullReset c in
  let c := setFirstName c firstName in
  let c := with_gender c gender in
  getFirstNameCase L reg c CaseNumber.

Definition qSecondName (L : Lang) (reg : NCL.Registry Lang) (c : Core)
           (secondName : jsstring) (CaseNumber : option Z) (gender : Z)
  : Result (Core * CaseValue) :=
  let c := fullReset c in
  let c := setSecondName c secondName in
  let c := with_gender c gender in
  getSecondNameCase L reg c CaseNumber.

Definition qFatherName (L : Lang) (reg : NCL.Registry Lang) (c : Core)
           (fatherName : jsstring) (CaseNumber : option Z) (gender : Z)
  : Result (Core * CaseValue) :=
  let c := fullReset c in
  let c := setFatherName c fatherName in
  let c := with_gender c gender in
  getFatherNameCase L reg c CaseNumber.

(** [qFullName(secondName, firstName, fatherName, gender, caseNum,
    format)]. *)
Definition qFullName (L : Lang) (reg : NCL.Registry Lang) (c : Core)
           (secondName firstName fatherName : jsstring) (gender : Z)
           (caseNum : option Z) (format : Format)
  : Result (Core * CaseValue) :=
  let c := fullReset c in
  let c := setFirstName c firstName in
  let c := setSecondName c secondName in
  let c := setFatherName c fatherName in
  let c := with_gender c gender in
  getFormatted L reg c caseNum format.

(** [getFormatted(caseNum, format)] when [format] is the array
    [this.words] itself, as [getWordsArray()] and [splitFullName] hand it
    out: its words are read after [AllWordCases] has stored their forms. *)
Definition getFormatted_words (L : Lang) (reg : NCL.Registry Lang)
           (c : Core) (caseNum : option Z) : Result (Core * CaseValue) :=
  c <- AllWordCases L reg c ;;
  getFormatted L reg c caseNum (FArray (words c)).

(** [q(fullname, caseNum = null, gender = null)]. *)
Definition q (L : Lang) (reg : NCL.Registry Lang) (c : Core)
           (fullname : jsstring) (caseNum : option Z) (gender : option Z)
  : Result (Core * CaseValue) :=
  let c := fullReset c in
  r <- splitFullName L c fullname ;;
  let c := fst r in
  let c := match gender with
           | Some gender => with_gender c gender
           | None => c
           end in
  getFormatted_words L reg c caseNum.

(** [genderDetect(fullname)]. *)
Definition genderDetect (L : Lang) (c : Core) (fullname : jsstring)
  : Result (Core * Z) :=
  let c := fullReset c in
  r <- splitFullName L c fullname ;;
  genderAutoDetect L (fst r).

End Core.
End NCLNameCaseCore.

(* ================================================================== *)
(** ** NCLNameCaseRu: the Russian language module *)

Module NCLNameCaseRu.
Import NCLNameCaseWord NCLNameCaseCore.
Section Ru.
Context {JN : JSNumber}.

Definition CaseCount : nat := 6.

Definition vowels : jsstring := U "аеёиоуыэюя".
Definition consonant : jsstring := U "бвгджзйклмнпрстфхцчшщ".

(** Endings of names and surnames that are not inflected. *)
Definition ovo : list jsstring := [U "ово"; U "аго"; U "яго"; U "ирь"].
Definition ih : list jsstring := [U "их"; U "ых"; U "ко"; U "уа"].

(** [splitSecondExclude]: letter => the following letters that do not make
    a surname ending. *)
Definition splitSecondExclude : list (jsstring * jsstring) :=
  [ (U "а", U "взйкмнпрстфя"); (U "б", U "а"); (U "в", U "аь");
    (U "г", U "а"); (U "д", U "ар"); (U "е", U "бвгдйлмня");
    (U "ё", U "бвгдйлмня"); (U "ж", U ""); (U "з", U "а");
    (U "и", U "гдйклмнопрсфя"); (U "й", U "ля"); (U "к", U "аст");
    (U "л", U "аилоья"); (U "м", U "аип"); (U "н", U "ат");
    (U "о", U "вдлнпря"); (U "п", U "п"); (U "р", U "адикпть");
    (U "с", U "атуя"); (U "т", U "аор"); (U "у", U "дмр");
    (U "ф", U "аь"); (U "х", U "а"); (U "ц", U "а"); (U "ч", U "");
    (U "ш", U "а"); (U "щ", U ""); (U "ъ", U ""); (U "ы", U "дн");
    (U "ь", U "я"); (U "э", U ""); (U "ю", U ""); (U "я", U "нс") ].

Definition names_man : list jsstring :=
  [ U "Вова"; U "Анри"; U "Питер"; U "Пауль"; U "Франц"; U "Вильям";
    U "Уильям"; U "Альфонс"; U "Ганс"; U "Франс"; U "Филиппо"; U "Андреа";
    U "Корнелис"; U "Фрэнк"; U "Леонардо"; U "Джеймс"; U "Отто";
    U "жан-пьер"; U "Джованни"; U "Джозеф"; U "Педро"; U "Адольф";
    U "Уолтер"; U "Антонио"; U "Якоб"; U "Эсташ"; U "Адрианс";
    U "Франческо"; U "Доменико"; U "Ханс"; U "Гун"; U "Шарль"; U "Хендрик";
    U "Амброзиус"; U "Таддео"; U "Фердинанд"; U "Джошуа"; U "Изак";
    U "Иоганн"; U "Фридрих"; U "Эмиль"; U "Умберто"; U "Франсуа"; U "Ян";
    U "Эрнст"; U "Георг"; U "Карл" ].

(** Masculine names ending in [ь] and [й]. *)
Definition manRule1 (c : Core) : Result (bool * Core) :=
  if in_str (Last c 1 0) (U "ьй") then
    if inNames (workingWord c) [U "Дель"] then
      let c := Rule c 101 in
      let c := makeResultTheSame CaseCount c in
      Ok (true, c)
    else if negb (str_eqb (Last c 2 1) (U "и")) then
      let c := wordForms CaseCount c (workingWord c)
                 [U "я"; U "ю"; U "я"; U "ем"; U "е"] 1 in
      let c := Rule c 102 in
      Ok (true, c)
    else
      let c := wordForms CaseCount c (workingWord c)
                 [U "я"; U "ю"; U "я"; U "ем"; U "и"] 1 in
      let c := Rule c 103 in
      Ok (true, c)
  else Ok (false, c).

(** Masculine names ending in a hard consonant. *)
Definition manRule2 (c : Core) : Result (bool * Core) :=
  if in_str (Last c 1 0) consonant then
    if inNames (workingWord c) [U "Павел"] then
      let c := set_lastResult c
                 [U "Павел"; U "Павла"; U "Павлу"; U "Павла"; U "Павлом";
                  U "Павле"] in
      let c := Rule c 201 in
      Ok (true, c)
    else if inNames (workingWord c) [U "Лев"] then
      let c := set_lastResult c
                 [U "Лев"; U "Льва"; U "Льву"; U "Льва"; U "Львом";
                  U "Льве"] in
      let c := Rule c 202 in
      Ok (true, c)
    else if inNames (workingWord c) [U "ван"] then
      let c := Rule c 203 in
      let c := makeResultTheSame CaseCount c in
      Ok (true, c)
    else
      let c := wordForms CaseCount c (workingWord c)
                 [U "а"; U "у"; U "а"; U "ом"; U "е"] 0 in
      let c := Rule c 204 in
      Ok (true, c)
  else Ok (false, c).

(** Masculine and feminine names ending in [а] and [я]. *)
Definition manRule3 (c : Core) : Result (bool * Core) :=
  if str_eqb (Last c 1 0) (U "а") then
    if inNames (workingWord c)
               [U "фра"; U "Дега"; U "Андреа"; U "Сёра"; U "Сера"] then
      let c := Rule c 301 in
      let c := makeResultTheSame CaseCount c in
      Ok (true, c)
    else if negb (in_str (Last c 2 1) (U "кшгх")) then
      let c := wordForms CaseCount c (workingWord c)
                 [U "ы"; U "е"; U "у"; U "ой"; U "е"] 1 in
      let c := Rule c 302 in
      Ok (true, c)
    else
      let c := wordForms CaseCount c (workingWord c)
                 [U "и"; U "е"; U "у"; U "ой"; U "е"] 1 in
      let c := Rule c 303 in
      Ok (true, c)
  else if str_eqb (Last c 1 0) (U "я") then
    let c := wordForms CaseCount c (workingWord c)
               [U "и"; U "е"; U "ю"; U "ей"; U "е"] 1 in
    let c := Rule c 303 in
    Ok (true, c)
  else Ok (false, c).

(** Masculine surnames ending in [ь] and [й]. *)
Definition manRule4 (c : Core) : Result (bool * Core) :=
  if in_str (Last c 1 0) (U "ьй") then
    if str_eqb (Last c 3 0) (U "бей") then
      let c := wordForms CaseCount c (workingWord c)
                 [U "ья"; U "ью"; U "ья"; U "ьем"; U "ье"] 2 in
      let c := Rule c 400 in
      Ok (true, c)
    else if str_eqb (Last c 3 1) (U "а") || in_str (Last c 2 1) (U "ел") then
      let c := wordForms CaseCount c (workingWord c)
                 [U "я"; U "ю"; U "я"; U "ем"; U "е"] 1 in
      let c := Rule c 401 in
      Ok (true, c)
    else if str_eqb (Last c 2 1) (U "ы") || str_eqb (Last c 3 1) (U "т") then
      let c := wordForms CaseCount c (workingWord c)
                 [U "ого"; U "ому"; U "ого"; U "ым"; U "ом"] 2 in
      let c := Rule c 402 in
      Ok (true, c)
    else if str_eqb (Last c 3 0) (U "чий") then
      let c := wordForms CaseCount c (workingWord c)
                 [U "ьего"; U "ьему"; U "ьего"; U "ьим"; U "ьем"] 2 in
      let c := Rule c 403 in
      Ok (true, c)
    else if negb (in_str (Last c 2 1) vowels)
            || str_eqb (Last c 2 1) (U "и") then
      let c := wordForms CaseCount c (workingWord c)
                 [U "ого"; U "ому"; U "ого"; U "им"; U "ом"] 2 in
      let c := Rule c 404 in
      Ok (true, c)
    else
      let c := makeResultTheSame CaseCount c in
      let c := Rule c 405 in
      Ok (true, c)
  else Ok (false, c).

(** Masculine surnames ending in [к]. The test on the letter before [ек]
    calls [in_array], which the file does not bind. *)
Definition manRule5 (c : Core) : Result (bool * Core) :=
  if str_eqb (Last c 1 0) (U "к") then
    if str_eqb (Last c 4 0) (U "енок") || str_eqb (Last c 4 0) (U "ёнок") then
      let c := wordForms CaseCount c (workingWord c)
                 [U "ка"; U "ку"; U "ка"; U "ком"; U "ке"] 2 in
      let c := Rule c 501 in
      Ok (true, c)
    else
      cond <-
        (if str_eqb (Last c 2 1) (U "е") then
           in_array <- unbound (A := jsstring -> list jsstring -> bool)
                               "in_array" ;;
           Ok (negb (in_array (Last c 3 1) [U "р"]))
         else Ok false) ;;
      if (cond : bool) then
        let c := wordForms CaseCount c (workingWord c)
                   [U "ька"; U "ьку"; U "ька"; U "ьком"; U "ьке"] 2 in
        let c := Rule c 502 in
        Ok (true, c)
      else
        let c := wordForms CaseCount c (workingWord c)
                   [U "а"; U "у"; U "а"; U "ом"; U "е"] 0 in
        let c := Rule c 503 in
        Ok (true, c)
  else Ok (false, c).

(** Masculine surnames ending in a consonant. *)
Definition manRule6 (c : Core) : Result (bool * Core) :=
  if str_eqb (Last c 1 0) (U "ч") then
    let c := wordForms CaseCount c (workingWord c)
               [U "а"; U "у"; U "а"; U "ем"; U "е"] 0 in
    let c := Rule c 601 in
    Ok (true, c)
  else if str_eqb (Last c 2 0) (U "ец") then
    let c := wordForms CaseCount c (workingWord c)
               [U "ца"; U "цу"; U "ца"; U "цом"; U "це"] 2 in
    let c := Rule c 604 in
    Ok (true, c)
  else if in_str (Last c 1 0) (U "цсршмхт") then
    let c := wordForms CaseCount c (workingWord c)
               [U "а"; U "у"; U "а"; U "ом"; U "е"] 0 in
    let c := Rule c 602 in
    Ok (true, c)
  else if in_str (Last c 1 0) consonant then
    let c := wordForms CaseCount c (workingWord c)
               [U "а"; U "у"; U "а"; U "ым"; U "е"] 0 in
    let c := Rule c 603 in
    Ok (true, c)
  else Ok (false, c).

(** Masculine surnames ending in [а] and [я]. *)
Definition manRule7 (c : Core) : Result (bool * Core) :=
  if str_eqb (Last c 1 0) (U "а") then
    if inNames (workingWord c) [U "да"] then
      let c := Rule c 701 in
      let c := makeResultTheSame CaseCount c in
      Ok (true, c)
    else if str_eqb (Last c 2 1) (U "ш") then
      let c := wordForms CaseCount c (workingWord c)
                 [U "и"; U "е"; U "у"; U "ей"; U "е"] 1 in
      let c := Rule c 702 in
      Ok (true, c)
    else if in_str (Last c 2 1) (U "хкг") then
      let c := wordForms CaseCount c (workingWord c)
                 [U "и"; U "е"; U "у"; U "ой"; U "е"] 1 in
      let c := Rule c 703 in
      Ok (true, c)
    else
      let c := wordForms CaseCount c (workingWord c)
                 [U "ы"; U "е"; U "у"; U "ой"; U "е"] 1 in
      let c := Rule c 704 in
      Ok (true, c)
  else if str_eqb (Last c 1 0) (U "я") then
    let c := wordForms CaseCount c (workingWord c)
               [U "ой"; U "ой"; U "ую"; U "ой"; U "ой"] 2 in
    let c := Rule c 705 in
    Ok (true, c)
  else Ok (false, c).

(** Masculine surnames that are not inflected. *)
Definition manRule8 (c : Core) : Result (bool * Core) :=
  if in_arr (Last c 3 0) ovo || in_arr (Last c 2 0) ih then
    if inNames (workingWord c) [U "рерих"] then Ok (false, c)
    else
      let c := Rule c 8 in
      let c := makeResultTheSame CaseCount c in
      Ok (true, c)
  else Ok (false, c).

(** Feminine names ending in [а]. *)
Definition womanRule1 (c : Core) : Result (bool * Core) :=
  if str_eqb (Last c 1 0) (U "а") && negb (str_eqb (Last c 2 1) (U "и")) then
    if negb (in_str (Last c 2 1) (U "шхкг")) then
      let c := wordForms CaseCount c (workingWord c)
                 [U "ы"; U "е"; U "у"; U "ой"; U "е"] 1 in
      let c := Rule c 101 in
      Ok (true, c)
    else if str_eqb (Last c 2 1) (U "ш") then
      let c := wordForms CaseCount c (workingWord c)
                 [U "и"; U "е"; U "у"; U "ей"; U "е"] 1 in
      let c := Rule c 102 in
      Ok (true, c)
    else
      let c := wordForms CaseCount c (workingWord c)
                 [U "и"; U "е"; U "у"; U "ой"; U "е"] 1 in
      let c := Rule c 103 in
      Ok (true, c)
  else Ok (false, c).

(** Feminine names ending in [я]. *)
Definition womanRule2 (c : Core) : Result (bool * Core) :=
  if str_eqb (Last c 1 0) (U "я") then
    if negb (str_eqb (Last c 2 1) (U "и")) then
      let c := wordForms CaseCount c (workingWord c)
                 [U "и"; U "е"; U "ю"; U "ей"; U "е"] 1 in
      let c := Rule c 201 in
      Ok (true, c)
    else
      let c := wordForms CaseCount c (workingWord c)
                 [U "и"; U "и"; U "ю"; U "ей"; U "и"] 1 in
      let c := Rule c 202 in
      Ok (true, c)
  else Ok (false, c).

(** Feminine names ending in a soft consonant. *)
Definition womanRule3 (c : Core) : Result (bool * Core) :=
  if str_eqb (Last c 1 0) (U "ь") then
    let c := wordForms CaseCount c (workingWord c)
               [U "и"; U "и"; U "ь"; U "ью"; U "и"] 1 in
    let c := Rule c 3 in
    Ok (true, c)
  else Ok (false, c).

(** Feminine surnames ending in [а] and [я]. *)
Definition womanRule4 (c : Core) : Result (bool * Core) :=
  if str_eqb (Last c 1 0) (U "а") then
    if in_str (Last c 2 1) (U "гк") then
      let c := wordForms CaseCount c (workingWord c)
                 [U "и"; U "е"; U "у"; U "ой"; U "е"] 1 in
      let c := Rule c 401 in
      Ok (true, c)
    else if in_str (Last c 2 1) (U "ш") then
      let c := wordForms CaseCount c (workingWord c)
                 [U "и"; U "е"; U "у"; U "ей"; U "е"] 1 in
      let c := Rule c 402 in
      Ok (true, c)
    else
      let c := wordForms CaseCount c (workingWord c)
                 [U "ой"; U "ой"; U "у"; U "ой"; U "ой"] 1 in
      let c := Rule c 403 in
      Ok (true, c)
  else if str_eqb (Last c 1 0) (U "я") then
    let c := wordForms CaseCount c (workingWord c)
               [U "ой"; U "ой"; U "ую"; U "ой"; U "ой"] 2 in
    let c := Rule c 404 in
    Ok (true, c)
  else Ok (false, c).

(** The methods [manRule1] .. [manRule8] and [womanRule1] .. [womanRule4]
    of the class, by gender prefix and number. *)
Definition rules (gender : GenderTag) (ruleID : Z) : option Method :=
  match gender, ruleID with
  | man, 1 => Some manRule1
  | man, 2 => Some manRule2
  | man, 3 => Some manRule3
  | man, 4 => Some manRule4
  | man, 5 => Some manRule5
  | man, 6 => Some manRule6
  | man, 7 => Some manRule7
  | man, 8 => Some manRule8
  | woman, 1 => Some womanRule1
  | woman, 2 => Some womanRule2
  | woman, 3 => Some womanRule3
  | woman, 4 => Some womanRule4
  | _, _ => None
  end.

Definition manFirstName (c : Core) : Result (bool * Core) :=
  if inNames (workingWord c) [U "Старший"; U "Младший"] then
    let c := wordForms CaseCount c (workingWord c)
               [U "его"; U "ему"; U "его"; U "им"; U "ем"] 2 in
    Ok (true, c)
  else if inNames (workingWord c) [U "Мариа"] then
    let c := wordForms CaseCount c (workingWord c)
               [U "и"; U "и"; U "ю"; U "ей"; U "ии"] 1 in
    Ok (true, c)
  else RulesChain rules man [1; 2; 3] c.

Definition womanFirstName (c : Core) : Result (bool * Core) :=
  RulesChain rules woman [1; 2; 3] c.

Definition manSecondName (c : Core) : Result (bool * Core) :=
  RulesChain rules man [8; 4; 5; 6; 7] c.

Definition womanSecondName (c : Core) : Result (bool * Core) :=
  RulesChain rules woman [4] c.

Definition manFatherName (c : Core) : Result (bool * Core) :=
  if inNames (workingWord c) [U "Ильич"] then
    let c := wordForms CaseCount c (workingWord c)
               [U "а"; U "у"; U "а"; U "ом"; U "е"] 0 in
    Ok (true, c)
  else if str_eqb (Last c 2 0) (U "ич") then
    let c := wordForms CaseCount c (workingWord c)
               [U "а"; U "у"; U "а"; U "ем"; U "е"] 0 in
    Ok (true, c)
  else Ok (false, c).

Definition womanFatherName (c : Core) : Result (bool * Core) :=
  if str_eqb (Last c 2 0) (U "на") then
    let c := wordForms CaseCount c (workingWord c)
               [U "ы"; U "е"; U "у"; U "ой"; U "е"] 1 in
    Ok (true, c)
  else Ok (false, c).

Definition GenderByFirstName (c : Core) (w : Word) : Core * Word :=
  let c := setWorkingWord c (getWord w) in
  let man_ := nzero in
  let woman_ := nzero in
  let man_ := add_if (str_eqb (Last c 1 0) (U "й")) man_ (nlit 9 1) in
  let man_ :=
    add_if (in_arr (Last c 2 0)
              [U "он"; U "ов"; U "ав"; U "ам"; U "ол"; U "ан"; U "рд"; U "мп";
               U "по"; U "до"; U "др"; U "рт"])
           man_ (nlit 3 1) in
  let man_ := add_if (in_str (Last c 1 0) consonant) man_ (nlit 1 2) in
  let man_ := add_if (str_eqb (Last c 1 0) (U "ь")) man_ (nlit 2 2) in
  let woman_ :=
    add_if (in_arr (Last c 2 0) [U "вь"; U "фь"; U "ль"; U "на"])
           woman_ (nlit 1 1) in
  let woman_ := add_if (in_arr (Last c 2 0) [U "ла"]) woman_ (nlit 4 2) in
  let man_ := add_if (in_arr (Last c 2 0) [U "то"; U "ма"]) man_ (nlit 1 2) in
  let man_ :=
    add_if (in_arr (Last c 3 0)
              [U "лья"; U "вва"; U "ока"; U "ука"; U "ита"; U "эль"; U "реа"])
           man_ (nlit 2 1) in
  let woman_ := add_if (in_arr (Last c 3 0) [U "има"]) woman_ (nlit 15 2) in
  let woman_ :=
    add_if (in_arr (Last c 3 0)
              [U "лия"; U "ния"; U "сия"; U "дра"; U "лла"; U "кла"; U "опа";
               U "вия"])
           woman_ (nlit 5 1) in
  let woman_ :=
    add_if (in_arr (Last c 4 0)
              [U "льда"; U "фира"; U "нина"; U "лита"; U "алья"])
           woman_ (nlit 5 1) in
  let man_ := add_if (inNames (workingWord c) names_man) man_ (nlit 10 0) in
  let woman_ :=
    add_if (inNames (workingWord c)
              [U "Бриджет"; U "Элизабет"; U "Маргарет"; U "Джанет";
               U "Жаклин"; U "Эвелин"])
           woman_ (nlit 10 0) in
  let woman_ := add_if (inNames (workingWord c) [U "Берил"])
                       woman_ (nlit 5 2) in
  (c, NCLNameCaseWord.setGender w man_ woman_).

Definition GenderBySecondName (c : Core) (w : Word) : Core * Word :=
  let c := setWorkingWord c (getWord w) in
  let man_ := nzero in
  let woman_ := nzero in
  let man_ :=
    add_if (in_arr (Last c 2 0)
              [U "ов"; U "ин"; U "ев"; U "ий"; U "ёв"; U "ый"; U "ын"; U "ой"])
           man_ (nlit 4 1) in
  let woman_ :=
    add_if (in_arr (Last c 3 0)
              [U "ова"; U "ина"; U "ева"; U "ёва"; U "ына"; U "мин"])
           woman_ (nlit 4 1) in
  let woman_ := add_if (in_arr (Last c 2 0) [U "ая"]) woman_ (nlit 4 1) in
  (c, NCLNameCaseWord.setGender w man_ woman_).

Definition GenderByFatherName (c : Core) (w : Word) : Core * Word :=
  let c := setWorkingWord c (getWord w) in
  let w := if str_eqb (Last c 2 0) (U "ич")
           then NCLNameCaseWord.setGender w (nlit 10 0) nzero else w in
  let w := if str_eqb (Last c 2 0) (U "на")
           then NCLNameCaseWord.setGender w nzero (nlit 12 0) else w in
  (c, w).

(** [this.splitSecondExclude[letter]]. *)
Fixpoint exclude_of (table : list (jsstring * jsstring)) (letter : jsstring)
  : option jsstring :=
  match table with
  | [] => None
  | (k, v) :: rest => if str_eqb k letter then Some v else exclude_of rest letter
  end.

Definition detectNamePart (c : Core) (w : Word) : Core * Word :=
  let namepart := getWord w in
  let length := NCLStr.strlen namepart in
  let c := setWorkingWord c namepart in
  let first := nzero in
  let second := nzero in
  let father := nzero in
  (* similar to a patronymic *)
  let father :=
    add_if (in_arr (Last c 3 0) [U "вна"; U "чна"; U "вич"; U "ьич"])
           father (nlit 3 0) in
  let first := add_if (in_arr (Last c 2 0) [U "ша"]) first (nlit 5 1) in
  let first := add_if (in_arr (Last c 3 0) [U "эль"]) first (nlit 5 1) in
  (* letters that names never end with *)
  let '(first, second) :=
    if in_str (Last c 1 0) (U "еёжхцочшщъыэю") then
      if inNames namepart [U "Мауриц"]
      then (nadd first (nlit 10 0), second)
      else (first, nadd second (nlit 3 1))
    else (first, second) in
  (* the table of specific endings *)
  let second :=
    match exclude_of splitSecondExclude (Last c 2 1) with
    | Some ((_ :: _) as exclude) =>
        add_if (negb (in_str (Last c 1 0) exclude)) second (nlit 4 1)
    | _ => second
    end in
  (* short affectionate names *)
  let first :=
    add_if (str_eqb (Last c 1 0) (U "я") && in_str (Last c 3 1) vowels)
           first (nlit 5 1) in
  (* no name has such a letter before the last one *)
  let second := add_if (in_str (Last c 2 1) (U "жчщъэю")) second (nlit 3 1) in
  (* words ending in a soft sign; else two final consonants *)
  let '(first, second) :=
    if str_eqb (Last c 1 0) (U "ь") then
      if str_eqb (Last c 3 2) (U "ел") then (nadd first (nlit 7 1), second)
      else if inNames namepart [U "Лазарь"; U "Игорь"; U "Любовь"]
      then (nadd first (nlit 10 0), second)
      else (first, nadd second (nlit 3 1))
    else if in_str (Last c 1 0) (consonant ++ U "" ++ U "ь")
            && in_str (Last c 2 1) (consonant ++ U "" ++ U "ь") then
      if negb (in_arr (Last c 2 0)
                 [U "др"; U "кт"; U "лл"; U "пп"; U "рд"; U "рк"; U "рп";
                  U "рт"; U "тр"])
      then (first, nadd second (nlit 25 2))
      else (first, second)
    else (first, second) in
  (* words ending in "тин" *)
  let first :=
    add_if (str_eqb (Last c 3 0) (U "тин") && in_str (Last c 4 1) (U "нст"))
           first (nlit 5 1) in
  (* exceptions *)
  let first :=
    add_if (inNames namepart
              [U "Лев"; U "Яков"; U "Вова"; U "Маша"; U "Ольга"; U "Еремей";
               U "Исак"; U "Исаак"; U "Ева"; U "Ирина"; U "Элькин";
               U "Мерлин"; U "Макс"; U "Алекс"; U "Мариа";
               U "Бриджет"; U "Элизабет"; U "Маргарет"; U "Джанет";
               U "Жаклин"; U "Эвелин"]
            || inNames namepart names_man)
           first (nlit 10 0) in
  (* surnames ending in "ли" *)
  let second :=
    add_if (str_eqb (Last c 2 0) (U "ли")
            && negb (str_eqb (Last c 3 1) (U "а")))
           second (nlit 4 1) in
  (* surnames ending in "ян" *)
  let second :=
    add_if (str_eqb (Last c 2 0) (U "ян") && (length >? 2)
            && negb (in_str (Last c 3 1) (U "ьи")))
           second (nlit 4 1) in
  (* surnames ending in "ур" *)
  let second :=
    add_if (str_eqb (Last c 2 0) (U "ур")
            && negb (inNames namepart [U "Артур"; U "Тимур"]))
           second (nlit 4 1) in
  (* diminutives ending in "ик" *)
  let '(first, second) :=
    if str_eqb (Last c 2 0) (U "ик") then
      if in_str (Last c 3 1) (U "лшхд")
      then (nadd first (nlit 3 1), second)
      else (first, nadd second (nlit 4 1))
    else (first, second) in
  (* names and surnames ending in "ина" *)
  let '(first, second) :=
    if str_eqb (Last c 3 0) (U "ина") then
      if in_arr (Last c 7 0) [U "атерина"; U "ристина"]
      then (nadd first (nlit 10 0), second)
      else if inNames namepart
                [U "Мальвина"; U "Антонина"; U "Альбина"; U "Агриппина";
                 U "Фаина"; U "Карина"; U "Марина"; U "Валентина";
                 U "Калина"; U "Аделина"; U "Алина"; U "Ангелина";
                 U "Галина"; U "Каролина"; U "Павлина"; U "Полина";
                 U "Элина"; U "Мина"; U "Нина"; U "Дина"]
      then (nadd first (nlit 10 0), second)
      else (first, nadd second (nlit 4 1))
    else (first, second) in
  (* names like "Николай" *)
  let first := add_if (str_eqb (Last c 4 0) (U "олай")) first (nlit 6 1) in
  (* surname endings *)
  let second :=
    add_if (in_arr (Last c 2 0)
              [U "ов"; U "ин"; U "ев"; U "ёв"; U "ый"; U "ын"; U "ой"; U "ук";
               U "як"; U "ца"; U "ун"; U "ок"; U "ая"; U "ёк"; U "ив"; U "ус";
               U "ак"; U "яр"; U "уз"; U "ах"; U "ай"])
           second (nlit 4 1) in
  let second :=
    add_if (in_arr (Last c 3 0)
              [U "ова"; U "ева"; U "ёва"; U "ына"; U "шен"; U "мей"; U "вка";
               U "шир"; U "бан"; U "чий"; U "кий"; U "бей"; U "чан"; U "ган";
               U "ким"; U "кан"; U "мар"; U "лис"])
           second (nlit 4 1) in
  let second := add_if (in_arr (Last c 4 0) [U "шена"]) second (nlit 4 1) in
  (* exceptions and particles *)
  let second :=
    add_if (inNames namepart [U "да"; U "валадон"; U "Данбар"])
           second (nlit 10 0) in
  let max := nmax (nmax first second) father in
  if neqb first max then (c, setNamePart w N_)
  else if neqb second max then (c, setNamePart w S_)
  else (c, setNamePart w F_).

(** The class, as the engine sees it. *)
Definition lang : Lang :=
  {| NCLNameCaseCore.CaseCount := CaseCount;
     NCLNameCaseCore.manFirstName := manFirstName;
     NCLNameCaseCore.womanFirstName := womanFirstName;
     NCLNameCaseCore.manSecondName := manSecondName;
     NCLNameCaseCore.womanSecondName := womanSecondName;
     NCLNameCaseCore.manFatherName := manFatherName;
     NCLNameCaseCore.womanFatherName := womanFatherName;
     NCLNameCaseCore.GenderByFirstName := GenderByFirstName;
     NCLNameCaseCore.GenderBySecondName := GenderBySecondName;
     NCLNameCaseCore.GenderByFatherName := GenderByFatherName;
     NCLNameCaseCore.detectNamePart := detectNamePart |}.

End Ru.
End NCLNameCaseRu.

(* ================================================================== *)
(** ** NCLNameCaseUa: the Ukrainian language module *)

Module NCLNameCaseUa.
Import NCLNameCaseWord NCLNameCaseCore.
Section Ua.
Context {JN : JSNumber}.

Definition CaseCount : nat := 7.

Definition vowels : jsstring := U "аеиоуіїєюя".
Definition consonant : jsstring := U "бвгджзйклмнпрстфхцчшщ".
Definition shyplyachi : jsstring := U "жчшщ".
Definition neshyplyachi : jsstring := U "бвгдзклмнпрстфхц".
Definition myaki : jsstring := U "ьюяєї".
Definition gubni : jsstring := U "мвпбф".

(** Alternation [г] [к] [х] => [з] [ц] [с]. *)
Definition inverseGKH (letter : jsstring) : jsstring :=
  if str_eqb letter (U "г") then U "з"
  else if str_eqb letter (U "к") then U "ц"
  else if str_eqb letter (U "х") then U "с"
  else letter.

Definition isApostrof (char : jsstring) : bool :=
  if in_str char (U " " ++ consonant ++ vowels) then false else true.

(** Alternation [г] [к] => [ж] [ч]. *)
Definition inverse2 (letter : jsstring) : jsstring :=
  if str_eqb letter (U "к") then U "ч"
  else if str_eqb letter (U "г") then U "ж"
  else letter.

(** The [while] loop of [detect2Group]: vowels and soft signs are cut off
    the end and pushed on the stack. Each turn shortens [osnova] by one
    letter, so the length of the word bounds the number of turns. *)
Fixpoint detect2Group_loop (turns : nat) (osnova : jsstring)
         (stack : list jsstring) : jsstring * list jsstring :=
  match turns with
  | O => (osnova, stack)
  | S turns =>
      if in_str (NCLStr.substr osnova (-1) 1) (vowels ++ U "ь") then
        detect2Group_loop turns
          (NCLStr.substr osnova 0 (NCLStr.strlen osnova - 1))
          (stack ++ [NCLStr.substr osnova (-1) 1])
      else (osnova, stack)
  end.

(** The group of a noun of the second declension: 1 hard, 2 mixed, 3 soft. *)
Definition detect2Group (word : jsstring) : Z :=
  let (osnova, stack) := detect2Group_loop (List.length word) word [] in
  let Last_ := last stack (U "Z") in
  let osnovaEnd := NCLStr.substr osnova (-1) 1 in
  if in_str osnovaEnd neshyplyachi && negb (in_str Last_ myaki) then 1
  else if in_str osnovaEnd shyplyachi && negb (in_str Last_ myaki) then 2
  else 3.

(** [FirstLastVowel(word, vowels)]: the letters at [length - 1] down to 1
    are tried; [None] is [undefined]. *)
Fixpoint FirstLastVowel_from (word vowels : jsstring) (i : nat)
  : option jsstring :=
  match i with
  | O => None
  | S i' =>
      let char := NCLStr.substr word (Z.of_nat i) 1 in
      if in_str char vowels then Some char
      else FirstLastVowel_from word vowels i'
  end.

Definition FirstLastVowel (word vowels : jsstring) : option jsstring :=
  FirstLastVowel_from word vowels (List.length word - 1).

(** The [while] loop of [getOsnova], bounded like that of [detect2Group]. *)
Fixpoint getOsnova_loop (turns : nat) (osnova : jsstring) : jsstring :=
  match turns with
  | O => osnova
  | S turns =>
      if in_str (NCLStr.substr osnova (-1) 1) (vowels ++ U "ь") then
        getOsnova_loop turns
          (NCLStr.substr osnova 0 (NCLStr.strlen osnova - 1))
      else osnova
  end.

Definition getOsnova (word : jsstring) : jsstring :=
  getOsnova_loop (List.length word) word.

(** Names ending in [а] and [я]. *)
Definition manRule1 (c : Core) : Result (bool * Core) :=
  let BeforeLast := Last c 2 1 in
  let invBeforeLast := inverseGKH BeforeLast in
  if str_eqb (Last c 1 0) (U "а") then
    let c := wordForms CaseCount c (workingWord c)
               [BeforeLast ++ U "и"; invBeforeLast ++ U "і";
                BeforeLast ++ U "у"; BeforeLast ++ U "ою";
                invBeforeLast ++ U "і"; BeforeLast ++ U "о"] 2 in
    let c := Rule c 101 in
    Ok (true, c)
  else if str_eqb (Last c 1 0) (U "я") then
    if str_eqb BeforeLast (U "і") then
      let c := wordForms CaseCount c (workingWord c)
                 [U "ї"; U "ї"; U "ю"; U "єю"; U "ї"; U "є"] 1 in
      let c := Rule c 102 in
      Ok (true, c)
    else
      let c := wordForms CaseCount c (workingWord c)
                 [BeforeLast ++ U "і"; invBeforeLast ++ U "і";
                  BeforeLast ++ U "ю"; BeforeLast ++ U "ею";
                  invBeforeLast ++ U "і"; BeforeLast ++ U "е"] 2 in
      let c := Rule c 103 in
      Ok (true, c)
  else Ok (false, c).

(** Names ending in [р]. *)
Definition manRule2 (c : Core) : Result (bool * Core) :=
  if str_eqb (Last c 1 0) (U "р") then
    if inNames (workingWord c) [U "Ігор"; U "Лазар"] then
      let c := wordForms CaseCount c (workingWord c)
                 [U "я"; U "еві"; U "я"; U "ем"; U "еві"; U "е"] 0 in
      let c := Rule c 201 in
      Ok (true, c)
    else
      let osnova := workingWord c in
      let osnova :=
        if str_eqb (NCLStr.substr osnova (-2) 1) (U "і")
        then NCLStr.substr osnova 0 (NCLStr.strlen osnova - 2)
             ++ U "о" ++ NCLStr.substr osnova (-1) 1
        else osnova in
      let c := wordForms CaseCount c osnova
                 [U "а"; U "ові"; U "а"; U "ом"; U "ові"; U "е"] 0 in
      let c := Rule c 202 in
      Ok (true, c)
  else Ok (false, c).

(** Masculine names ending in a consonant and in [о]. *)
Definition manRule3 (c : Core) : Result (bool * Core) :=
  let BeforeLast := Last c 2 1 in
  if in_str (Last c 1 0) (consonant ++ U "оь") then
    let group := detect2Group (workingWord c) in
    let osnova := getOsnova (workingWord c) in
    let osLast := NCLStr.substr osnova (-1) 1 in
    let invOsLast := inverse2 osLast in
    (* the vowel [і] inside turns into [о] *)
    let osnova :=
      if negb (str_eqb osLast (U "й"))
         && str_eqb (NCLStr.substr osnova (-2) 1) (U "і")
         && negb (in_arr (NCLStr.substr (NCLStr.strtolower osnova) (-4) 4)
                         [U "світ"; U "цвіт"])
         && negb (inNames (workingWord c) [U "Гліб"])
         && negb (in_arr (Last c 2 0) [U "ік"; U "іч"])
      then NCLStr.substr osnova 0 (NCLStr.strlen osnova - 2)
           ++ U "о" ++ NCLStr.substr osnova (-1) 1
      else osnova in
    (* the letter [е] is dropped in words like "Орел"; [strrpos] finds the
       [е] that [FirstLastVowel] has just seen *)
    let osnova :=
      if str_eqb (NCLStr.substr osnova 0 1) (U "о")
         && match FirstLastVowel osnova (vowels ++ U "гк") with
            | Some v => str_eqb v (U "е")
            | None => false
            end
         && negb (str_eqb (Last c 2 0) (U "сь"))
      then
        let delim := match NCLStr.strrpos osnova 1077%N with
                     | Some d => d
                     | None => 0
                     end in
        NCLStr.substr osnova 0 delim
        ++ NCLStr.substr osnova (delim + 1) (NCLStr.strlen osnova - delim)
      else osnova in
    if group =? 1 then
      if str_eqb (Last c 2 0) (U "ок")
         && negb (str_eqb (Last c 3 0) (U "оок")) then
        let c := wordForms CaseCount c (workingWord c)
                   [U "ка"; U "кові"; U "ка"; U "ком"; U "кові"; U "че"] 2 in
        let c := Rule c 301 in
        Ok (true, c)
      else if in_arr (Last c 2 0) [U "ов"; U "ев"; U "єв"]
              && negb (inNames (workingWord c) [U "Лев"; U "Остромов"]) then
        let c := wordForms CaseCount c osnova
                   [osLast ++ U "а"; osLast ++ U "у"; osLast ++ U "а";
                    osLast ++ U "им"; osLast ++ U "у"; invOsLast ++ U "е"] 1 in
        let c := Rule c 302 in
        Ok (true, c)
      else if in_arr (Last c 2 0) [U "ін"] then
        let c := wordForms CaseCount c (workingWord c)
                   [U "а"; U "у"; U "а"; U "ом"; U "у"; U "е"] 0 in
        let c := Rule c 303 in
        Ok (true, c)
      else
        let c := wordForms CaseCount c osnova
                   [osLast ++ U "а"; osLast ++ U "ові"; osLast ++ U "а";
                    osLast ++ U "ом"; osLast ++ U "ові"; invOsLast ++ U "е"]
                   1 in
        let c := Rule c 304 in
        Ok (true, c)
    else if group =? 2 then
      let c := wordForms CaseCount c osnova
                 [U "а"; U "еві"; U "а"; U "ем"; U "еві"; U "е"] 0 in
      let c := Rule c 305 in
      Ok (true, c)
    else if group =? 3 then
      if str_eqb (Last c 2 0) (U "ей") && in_str (Last c 3 1) gubni then
        let osnova :=
          NCLStr.substr (workingWord c) 0
                        (NCLStr.strlen (workingWord c) - 2) ++ U "’" in
        let c := wordForms CaseCount c osnova
                   [U "я"; U "єві"; U "я"; U "єм"; U "єві"; U "ю"] 0 in
        let c := Rule c 306 in
        Ok (true, c)
      else if str_eqb (Last c 1 0) (U "й") || str_eqb BeforeLast (U "і") then
        let c := wordForms CaseCount c (workingWord c)
                   [U "я"; U "єві"; U "я"; U "єм"; U "єві"; U "ю"] 1 in
        let c := Rule c 307 in
        Ok (true, c)
      else if str_eqb (workingWord c) (U "швець") then
        let c := wordForms CaseCount c (workingWord c)
                   [U "евця"; U "евцеві"; U "евця"; U "евцем"; U "евцеві";
                    U "евцю"] 4 in
        let c := Rule c 308 in
        Ok (true, c)
      else if str_eqb (Last c 3 0) (U "ець") then
        let c := wordForms CaseCount c (workingWord c)
                   [U "ця"; U "цеві"; U "ця"; U "цем"; U "цеві"; U "цю"] 3 in
        let c := Rule c 309 in
        Ok (true, c)
      else if in_arr (Last c 3 0) [U "єць"; U "яць"] then
        let c := wordForms CaseCount c (workingWord c)
                   [U "йця"; U "йцеві"; U "йця"; U "йцем"; U "йцеві";
                    U "йцю"] 3 in
        let c := Rule c 310 in
        Ok (true, c)
      else
        let c := wordForms CaseCount c osnova
                   [U "я"; U "еві"; U "я"; U "ем"; U "еві"; U "ю"] 0 in
        let c := Rule c 311 in
        Ok (true, c)
    else Ok (false, c)
  else Ok (false, c).

(** A word ending in [і] is declined as a plural. *)
Definition manRule4 (c : Core) : Result (bool * Core) :=
  if str_eqb (Last c 1 0) (U "і") then
    let c := wordForms CaseCount c (workingWord c)
               [U "их"; U "им"; U "их"; U "ими"; U "их"; U "і"] 1 in
    let c := Rule c 4 in
    Ok (true, c)
  else Ok (false, c).

(** A word ending in [ий] or [ой]. *)
Definition manRule5 (c : Core) : Result (bool * Core) :=
  if in_arr (Last c 2 0) [U "ий"; U "ой"] then
    let c := wordForms CaseCount c (workingWord c)
               [U "ого"; U "ому"; U "ого"; U "им"; U "ому"; U "ий"] 2 in
    let c := Rule c 5 in
    Ok (true, c)
  else Ok (false, c).

(** Feminine names ending in [а] and [я]. *)
Definition womanRule1 (c : Core) : Result (bool * Core) :=
  let BeforeLast := Last c 2 1 in
  let invBeforeLast := inverseGKH BeforeLast in
  if str_eqb (Last c 4 0) (U "ніга") then
    let osnova :=
      NCLStr.substr (workingWord c) 0 (NCLStr.strlen (workingWord c) - 3)
      ++ U "о" in
    let c := wordForms CaseCount c osnova
               [U "ги"; U "зі"; U "гу"; U "гою"; U "зі"; U "го"] 0 in
    let c := Rule c 101 in
    Ok (true, c)
  else if str_eqb (Last c 1 0) (U "а") then
    let c := wordForms CaseCount c (workingWord c)
               [BeforeLast ++ U "и"; invBeforeLast ++ U "і";
                BeforeLast ++ U "у"; BeforeLast ++ U "ою";
                invBeforeLast ++ U "і"; BeforeLast ++ U "о"] 2 in
    let c := Rule c 102 in
    Ok (true, c)
  else if str_eqb (Last c 1 0) (U "я") then
    if in_str BeforeLast vowels || isApostrof BeforeLast then
      let c := wordForms CaseCount c (workingWord c)
                 [U "ї"; U "ї"; U "ю"; U "єю"; U "ї"; U "є"] 1 in
      let c := Rule c 103 in
      Ok (true, c)
    else
      let c := wordForms CaseCount c (workingWord c)
                 [BeforeLast ++ U "і"; invBeforeLast ++ U "і";
                  BeforeLast ++ U "ю"; BeforeLast ++ U "ею";
                  invBeforeLast ++ U "і"; BeforeLast ++ U "е"] 2 in
      let c := Rule c 104 in
      Ok (true, c)
  else Ok (false, c).

(** Feminine names ending in a consonant. *)
Definition womanRule2 (c : Core) : Result (bool * Core) :=
  if in_str (Last c 1 0) (consonant ++ U "ь") then
    let osnova := getOsnova (workingWord c) in
    let apostrof := U "" in
    let duplicate := U "" in
    let osLast := NCLStr.substr osnova (-1) 1 in
    let osBeforeLast := NCLStr.substr osnova (-2) 1 in
    let apostrof :=
      if in_str osLast (U "мвпбф") && in_str osBeforeLast vowels
      then U "’" else apostrof in
    let duplicate :=
      if in_str osLast (U "дтзсцлн") then osLast else duplicate in
    if str_eqb (Last c 1 0) (U "ь") then
      let c := wordForms CaseCount c osnova
                 [U "і"; U "і"; U "ь"; duplicate ++ apostrof ++ U "ю"; U "і";
                  U "е"] 0 in
      let c := Rule c 201 in
      Ok (true, c)
    else
      let c := wordForms CaseCount c osnova
                 [U "і"; U "і"; U ""; duplicate ++ apostrof ++ U "ю"; U "і";
                  U "е"] 0 in
      let c := Rule c 202 in
      Ok (true, c)
  else Ok (false, c).

(** Words ending in [ая] and surnames on [ськ]. *)
Definition womanRule3 (c : Core) : Result (bool * Core) :=
  let BeforeLast := Last c 2 1 in
  if str_eqb (Last c 2 0) (U "ая") then
    let c := wordForms CaseCount c (workingWord c)
               [U "ої"; U "ій"; U "ую"; U "ою"; U "ій"; U "ая"] 2 in
    let c := Rule c 301 in
    Ok (true, c)
  else if str_eqb (Last c 1 0) (U "а")
          && (in_str (Last c 2 1) (U "чнв")
              || in_arr (Last c 3 2) [U "ьк"]) then
    let c := wordForms CaseCount c (workingWord c)
               [BeforeLast ++ U "ої"; BeforeLast ++ U "ій";
                BeforeLast ++ U "у"; BeforeLast ++ U "ою";
                BeforeLast ++ U "ій"; BeforeLast ++ U "о"] 2 in
    let c := Rule c 302 in
    Ok (true, c)
  else Ok (false, c).

(** The methods [manRule1] .. [manRule5] and [womanRule1] .. [womanRule3]
    of the class. *)
Definition rules (gender : GenderTag) (ruleID : Z) : option Method :=
  match gender, ruleID with
  | man, 1 => Some manRule1
  | man, 2 => Some manRule2
  | man, 3 => Some manRule3
  | man, 4 => Some manRule4
  | man, 5 => Some manRule5
  | woman, 1 => Some womanRule1
  | woman, 2 => Some womanRule2
  | woman, 3 => Some womanRule3
  | _, _ => None
  end.

Definition manFirstName (c : Core) : Result (bool * Core) :=
  RulesChain rules man [1; 2; 3] c.

Definition womanFirstName (c : Core) : Result (bool * Core) :=
  RulesChain rules woman [1; 2] c.

Definition manSecondName (c : Core) : Result (bool * Core) :=
  RulesChain rules man [5; 1; 2; 3; 4] c.

Definition womanSecondName (c : Core) : Result (bool * Core) :=
  RulesChain rules woman [3; 1] c.

Definition manFatherName (c : Core) : Result (bool * Core) :=
  if in_arr (Last c 2 0) [U "ич"; U "іч"] then
    let c := wordForms CaseCount c (workingWord c)
               [U "а"; U "у"; U "а"; U "ем"; U "у"; U "у"] 0 in
    Ok (true, c)
  else Ok (false, c).

Definition womanFatherName (c : Core) : Result (bool * Core) :=
  if in_arr (Last c 3 0) [U "вна"] then
    let c := wordForms CaseCount c (workingWord c)
               [U "и"; U "і"; U "у"; U "ою"; U "і"; U "о"] 1 in
    Ok (true, c)
  else Ok (false, c).

Definition GenderByFirstName (c : Core) (w : Word) : Core * Word :=
  let c := setWorkingWord c (getWord w) in
  let man_ := nzero in
  let woman_ := nzero in
  let man_ := add_if (str_eqb (Last c 1 0) (U "й")) man_ (nlit 9 1) in
  let man_ := add_if (inNames (workingWord c) [U "Петро"; U "Микола"])
                     man_ (nlit 30 0) in
  let man_ :=
    add_if (in_arr (Last c 2 0)
              [U "он"; U "ов"; U "ав"; U "ам"; U "ол"; U "ан"; U "рд"; U "мп";
               U "ко"; U "ло"])
           man_ (nlit 5 1) in
  let woman_ :=
    add_if (in_arr (Last c 3 0) [U "бов"; U "нка"; U "яра"; U "ила"; U "опа"])
           woman_ (nlit 5 1) in
  let man_ := add_if (in_str (Last c 1 0) consonant) man_ (nlit 1 2) in
  let man_ := add_if (str_eqb (Last c 1 0) (U "ь")) man_ (nlit 2 2) in
  let woman_ := add_if (in_arr (Last c 2 0) [U "дь"]) woman_ (nlit 1 1) in
  let woman_ := add_if (in_arr (Last c 3 0) [U "ель"; U "бов"])
                       woman_ (nlit 4 1) in
  (c, NCLNameCaseWord.setGender w man_ woman_).

Definition GenderBySecondName (c : Core) (w : Word) : Core * Word :=
  let c := setWorkingWord c (getWord w) in
  let man_ := nzero in
  let woman_ := nzero in
  let man_ :=
    add_if (in_arr (Last c 2 0)
              [U "ов"; U "ин"; U "ев"; U "єв"; U "ін"; U "їн"; U "ий"; U "їв";
               U "ів"; U "ой"; U "ей"])
           man_ (nlit 4 1) in
  let woman_ :=
    add_if (in_arr (Last c 3 0)
              [U "ова"; U "ина"; U "ева"; U "єва"; U "іна"; U "мін"])
           woman_ (nlit 4 1) in
  let woman_ := add_if (in_arr (Last c 2 0) [U "ая"]) woman_ (nlit 4 1) in
  (c, NCLNameCaseWord.setGender w man_ woman_).

Definition GenderByFatherName (c : Core) (w : Word) : Core * Word :=
  let c := setWorkingWord c (getWord w) in
  let w := if str_eqb (Last c 2 0) (U "ич")
           then NCLNameCaseWord.setGender w (nlit 10 0) nzero else w in
  let w := if str_eqb (Last c 2 0) (U "на")
           then NCLNameCaseWord.setGender w nzero (nlit 12 0) else w in
  (c, w).

Definition detectNamePart (c : Core) (w : Word) : Core * Word :=
  let namepart := getWord w in
  let c := setWorkingWord c namepart in
  let first := nzero in
  let second := nzero in
  let father := nzero in
  (* similar to a patronymic *)
  let father :=
    add_if (in_arr (Last c 3 0) [U "вна"; U "чна"; U "ліч"]
            || in_arr (Last c 4 0) [U "ьмич"; U "ович"])
           father (nlit 3 0) in
  (* similar to a first name *)
  let first :=
    add_if (in_arr (Last c 3 0) [U "тин"]
            || in_arr (Last c 4 0)
                 [U "ьмич"; U "юбов"; U "івна"; U "явка"; U "орив"; U "кіян"])
           first (nlit 5 1) in
  (* exceptions *)
  let first :=
    add_if (inNames namepart
              [U "Лев"; U "Гаїна"; U "Афіна"; U "Антоніна"; U "Ангеліна";
               U "Альвіна"; U "Альбіна"; U "Аліна"; U "Павло"; U "Олесь";
               U "Микола"; U "Мая"; U "Англеліна"; U "Елькін"; U "Мерлін"])
           first (nlit 10 0) in
  (* similar to a surname *)
  let second :=
    add_if (in_arr (Last c 2 0)
              [U "ов"; U "ін"; U "ев"; U "єв"; U "ий"; U "ин"; U "ой"; U "ко";
               U "ук"; U "як"; U "ца"; U "их"; U "ик"; U "ун"; U "ок"; U "ша";
               U "ая"; U "га"; U "єк"; U "аш"; U "ив"; U "юк"; U "ус"; U "це";
               U "ак"; U "бр"; U "яр"; U "іл"; U "ів"; U "ич"; U "сь"; U "ей";
               U "нс"; U "яс"; U "ер"; U "ай"; U "ян"; U "ах"; U "ць"; U "ющ";
               U "іс"; U "ач"; U "уб"; U "ох"; U "юх"; U "ут"; U "ча"; U "ул";
               U "вк"; U "зь"; U "уц"; U "їн"; U "де"; U "уз"; U "юр"; U "ік";
               U "іч"; U "ро"])
           second (nlit 4 1) in
  let second :=
    add_if (in_arr (Last c 3 0)
              [U "ова"; U "ева"; U "єва"; U "тих"; U "рик"; U "вач"; U "аха";
               U "шен"; U "мей"; U "арь"; U "вка"; U "шир"; U "бан"; U "чий";
               U "іна"; U "їна"; U "ька"; U "ань"; U "ива"; U "аль"; U "ура";
               U "ран"; U "ало"; U "ола"; U "кур"; U "оба"; U "оль"; U "нта";
               U "зій"; U "ґан"; U "іло"; U "шта"; U "юпа"; U "рна"; U "бла";
               U "еїн"; U "има"; U "мар"; U "кар"; U "оха"; U "чур"; U "ниш";
               U "ета"; U "тна"; U "зур"; U "нір"; U "йма"; U "орж"; U "рба";
               U "іла"; U "лас"; U "дід"; U "роз"; U "аба"; U "чан"; U "ган"])
           second (nlit 4 1) in
  let second :=
    add_if (in_arr (Last c 4 0)
              [U "ьник"; U "нчук"; U "тник"; U "кирь"; U "ский"; U "шена";
               U "шина"; U "вина"; U "нина"; U "гана"; U "гана"; U "хній";
               U "зюба"; U "орош"; U "орон"; U "сило"; U "руба"; U "лест";
               U "мара"; U "обка"; U "рока"; U "сика"; U "одна"; U "нчар";
               U "вата"; U "ндар"; U "грій"])
           second (nlit 4 1) in
  let second := add_if (str_eqb (Last c 1 0) (U "і")) second (nlit 2 1) in
  let max := nmax (nmax first second) father in
  if neqb first max then (c, setNamePart w N_)
  else if neqb second max then (c, setNamePart w S_)
  else (c, setNamePart w F_).

(** The class, as the engine sees it. *)
Definition lang : Lang :=
  {| NCLNameCaseCore.CaseCount := CaseCount;
     NCLNameCaseCore.manFirstName := manFirstName;
     NCLNameCaseCore.womanFirstName := womanFirstName;
     NCLNameCaseCore.manSecondName := manSecondName;
     NCLNameCaseCore.womanSecondName := womanSecondName;
     NCLNameCaseCore.manFatherName := manFatherName;
     NCLNameCaseCore.womanFatherName := womanFatherName;
     NCLNameCaseCore.GenderByFirstName := GenderByFirstName;
     NCLNameCaseCore.GenderBySecondName := GenderBySecondName;
     NCLNameCaseCore.GenderByFatherName := GenderByFatherName;
     NCLNameCaseCore.detectNamePart := detectNamePart |}.

End Ua.
End NCLNameCaseUa.

(* ================================================================== *)
(** ** The package: [src/index.js] *)

Import NCLNameCaseWord NCLNameCaseCore.

(** [NCL.setConcreteClasses({ ru: NCLNameCaseRu, ua: NCLNameCaseUa })]. *)
Definition concreteClasses {JN : JSNumber} : NCL.Registry Lang :=
  NCL.setConcreteClasses
    [("ru"%string, NCLNameCaseRu.lang); ("ua"%string, NCLNameCaseUa.lang)].

(** JavaScript numbers are IEEE 754 binary64 values: the engine is run on
    examples with the kernel's floating-point numbers, whose operations
    round to nearest, ties to even, as those of the host do. A decimal
    literal [m * 10^-e] of the source denotes the double nearest to it,
    which is what the correctly rounded quotient of the two integers
    yields (both are exact doubles for the literals of the library). *)
Fixpoint double_of_pos (p : positive) : float :=
  match p with
  | xH => 1%float
  | xO p => PrimFloat.mul 2%float (double_of_pos p)
  | xI p => PrimFloat.add (PrimFloat.mul 2%float (double_of_pos p)) 1%float
  end.

Definition double_of_Z (z : Z) : float :=
  match z with
  | Z0 => 0%float
  | Zpos p => double_of_pos p
  | Zneg p => PrimFloat.opp (double_of_pos p)
  end.

#[export] Instance Double : JSNumber := {|
  num := float;
  nzero := 0%float;
  nadd := PrimFloat.add;
  ngtb := fun a b => PrimFloat.ltb b a;
  ngeb := fun a b => PrimFloat.leb b a;
  neqb := PrimFloat.eqb;
  nlit := fun m e =>
            PrimFloat.div (double_of_Z m) (double_of_Z (10 ^ Z.of_nat e))
|}.

(* ================================================================== *)
(** ** Vocabulary of the statements *)

(** The mask of a word, letter by letter. *)
Definition mask_of (w : jsstring) : list MaskLetter :=
  map (fun c => if NCLStr.isLowerCase [c] then mask_x else mask_X) w.

(** Whether no letter of the word is lower case. *)
Definition all_upper (w : jsstring) : bool :=
  forallb (fun c => negb (NCLStr.isLowerCase [c])) w.

(** The position-by-position reading of mask restoration: over the common
    prefix of mask and form a letter is upper-cased where the mask says
    ['X']; what lies beyond the mask is kept as it is. *)
Fixpoint apply_mask (mask : list MaskLetter) (form : jsstring) : jsstring :=
  match mask, form with
  | mask_X :: ms, c :: cs => upper_unit c :: apply_mask ms cs
  | mask_x :: ms, c :: cs => c :: apply_mask ms cs
  | [], cs => cs
  | _ :: _, [] => []
  end.

(** A text without hyphens, and the number of hyphens of a text. *)
Definition no_hyphen (s : jsstring) : bool :=
  forallb (fun c => negb (c =? hyphen)%N) s.

Definition count_hyphens (s : jsstring) : nat :=
  List.length (filter (fun c => (c =? hyphen)%N) s).

(** The two names whose masculine first-name rule stores a fixed list of
    forms instead of forms built from the working word. *)
Definition fixed_literal (w : jsstring) : bool :=
  inNames w [U "Павел"] || inNames w [U "Лев"].

(** What a declension method may do to the engine: the working word stays,
    and on success the stored forms satisfy [Q] for that working word. *)
Definition keeps {JN : JSNumber}
           (Q : jsstring -> list jsstring -> Prop) (m : Method) : Prop :=
  forall c c' b,
    m c = Ok (b, c') ->
    workingWord c' = workingWord c
    /\ (b = true -> Q (workingWord c) (lastResult c')).

(** Shape of a list of forms for [cc] cases: one form per case, and no
    hyphen in any form when the working word has none. *)
Definition shape (cc : nat) (w : jsstring) (forms : list jsstring) : Prop :=
  List.length forms = cc
  /\ (no_hyphen w = true -> Forall (fun f => no_hyphen f = true) forms).

(** The nominative slot holds the working word. *)
Definition nominative (w : jsstring) (forms : list jsstring) : Prop :=
  nth_error forms 0 = Some w.

(** The nominative slot holds the working word, unless the word is one
    for which [fixed] answers yes. *)
Definition nominative_unless (fixed : jsstring -> bool)
           (w : jsstring) (forms : list jsstring) : Prop :=
  fixed w = false -> nominative w forms.

(** No word is set apart. *)
Definition none_fixed (w : jsstring) : bool := false.

(** [join] with a hyphen, as the first piece followed by each other piece
    behind a hyphen. *)
Definition behind_hyphens (pieces : list jsstring) : jsstring :=
  flat_map (fun piece => hyphen :: piece) pieces.

(** One turn of the second loop of [WordCase]. *)
Definition glue_step {JN : JSNumber}
           (result : list jsstring) (o_ncw : Word) : list jsstring :=
  glue result (getNameCases o_ncw).

(** ** Words and engines used as examples *)

(** A word with its type and gender set, as the setters of the engine and
    [setGender] leave it. *)
Definition a_word {JN : JSNumber} (text : string) (p : Part) (gender : Z)
  : Word :=
  setTrueGender (setNamePart (new (U text)) p) gender.

(** The surname "Петров-Водкин" of a man. *)
Definition petrov_vodkin : Word := a_word "Петров-Водкин" S_ NCL.MAN.


(** The surname "Гюго", which no rule of the masculine chain matches. *)
Definition hugo : Word := a_word "Гюго" S_ NCL.MAN.

(** The first names "павел" and "Тарас" of a man. *)
Definition pavel_lower : Word := a_word "павел" N_ NCL.MAN.
Definition taras : Word := a_word "Тарас" N_ NCL.MAN.

(** A Russian engine after [setFirstName('Тарас')], and one after
    [setFirstName('Саша')]. *)
Definition engine_taras : Core := setFirstName init (U "Тарас").
Definition engine_sasha : Core := setFirstName init (U "Саша").

(** ** Vocabulary of the statements on gender and formatting *)

(** The sum of one of the two rates over the words, in their order. *)
Definition total {JN : JSNumber} (rate : Word -> num) (ws : list Word) : num :=
  fold_left (fun acc w => nadd acc (rate w)) ws nzero.

(** The words after the gender inference of the language has run on each
    of them in turn. *)
Definition inferred {JN : JSNumber} (L : Lang) (c : Core) (ws : list Word)
  : list Word :=
  snd (each_word (prepareGender L) c ws).

(** A case number inside [0, CaseCount). *)
Definition valid_case {JN : JSNumber} (L : Lang) (caseNum : option Z) : Prop :=
  match caseNum with
  | Some n => 0 <= n < Z.of_nat (CaseCount L)
  | None => False
  end.

(** A call that returns one string, and a call that returns a list. *)
Definition returns_string {JN : JSNumber} (r : Result (Core * CaseValue))
  : Prop :=
  exists c s, r = Ok (c, VString s).

Definition returns_list {JN : JSNumber} (r : Result (Core * CaseValue))
  : Prop :=
  exists c cases, r = Ok (c, VArray cases).

(** What the spec says of [getFormatted] at one input: a single string
    exactly for a valid case number, the list of all cases exactly for
    [null] and for a number out of range. *)
Definition formatted_as_specified {JN : JSNumber}
           (L : Lang) (reg : NCL.Registry Lang) (c : Core)
           (caseNum : option Z) (template : jsstring) : Prop :=
  let r := getFormatted L reg c caseNum (FString template) in
  (returns_string r <-> valid_case L caseNum)
  /\ (returns_list r <-> ~ valid_case L caseNum).

(** A memo table of [Last] every entry of which holds what [Last]
    computes for its key. *)
Definition coherent {JN : JSNumber} (w : jsstring) (cache : LastCache) : Prop :=
  forall length stopAfter v,
    cache_get cache length stopAfter = Some v ->
    v = Last_of w length stopAfter.

(** A method that returns for every engine it is run on. *)
Definition always_returns {JN : JSNumber} (m : Method) : Prop :=
  forall c, exists b c', m c = Ok (b, c').

(** The surname "Лотрек" of a man, and the three words of the full name
    "Шевченко Тарас Григорович". *)
Definition lautrec : Word := a_word "Лотрек" S_ NCL.MAN.
Definition shevchenko : Word := a_word "Шевченко" S_ NCL.MAN.
Definition hryhorovych : Word := a_word "Григорович" F_ NCL.MAN.

(** The forms stored for a word, when the declension returns. *)
Definition forms_of {JN : JSNumber} (L : Lang) (w : Word)
  : option (list jsstring) :=
  match WordCase L concreteClasses init w with
  | Ok (_, w') => Some (NameCases w')
  | Err _ => None
  end.

(** *** Vocabulary for the properties of the engine as a whole *)

(** A run of calls of [Last] on one working word, the memo table threaded
    from call to call. *)
Fixpoint Last_calls (w : jsstring) (cache : LastCache) (calls : list (Z * Z))
  : list jsstring :=
  match calls with
  | [] => []
  | (length, stopAfter) :: rest =>
      let (v, cache) := Last_memo w cache length stopAfter in
      v :: Last_calls w cache rest
  end.

(** Whether the word under [key] has the type [p], and the keys of the
    words of type [p], in increasing order. *)
Definition has_part {JN : JSNumber} (p : Part) (ws : list Word) (key : nat)
  : bool :=
  match nth_error ws key with
  | Some w =>
      match namePart w with
      | Some p' => Part_eqb p' p
      | None => false
      end
  | None => false
  end.

Definition keys_of {JN : JSNumber} (p : Part) (ws : list Word) : list nat :=
  filter (has_part p ws) (seq 0 (List.length ws)).

(** An engine holding a name, a surname and a word without a type. *)
Definition engine_untyped : Core :=
  set_words init [setNamePart (new (U "Тарас")) N_;
                  setNamePart (new (U "Шевченко")) S_;
                  new (U "Григорович")].

(** What the preparation of an engine may change of a word: the type,
    when the word had none, the two rates and the solved gender. *)
Definition prepared {JN : JSNumber} (w w' : Word) : Prop :=
  exists (p : Part) (man_ woman_ : num) (gender : Z),
    w' = setTrueGender
           (NCLNameCaseWord.setGender (setNamePart w p) man_ woman_) gender
    /\ gender <> 0
    /\ (namePart w <> None -> namePart w = Some p).

(** A method that leaves the words and the index of the engine alone. *)
Definition frames {JN : JSNumber} (m : Method) : Prop :=
  forall c b c', m c = Ok (b, c') -> index c' = index c /\ words c' = words c.
(** Whether a text ends in the two letters [a], [b]. *)
Definition ends_in (a b : N) (t : jsstring) : bool :=
  match rev t with
  | y :: x :: _ => (x =? a)%N && (y =? b)%N
  | _ => false
  end.

(** A text without white space. *)
Definition no_space (s : jsstring) : bool :=
  forallb (fun c => negb (is_space c)) s.

(** A text that neither starts nor ends with white space, and is not
    empty. *)
Definition trimmed (s : jsstring) : Prop :=
  (exists c rest, s = c :: rest /\ is_space c = false)
  /\ (exists pre c, s = pre ++ [c] /\ is_space c = false).

(** The forms agree with the word on all its letters but the last [n]. *)
Definition same_but_last (n : nat) (w : jsstring) (forms : list jsstring)
  : Prop :=
  Forall (fun form => firstn (List.length w - n) form
                      = firstn (List.length w - n) w) forms.

Definition same_but_last_unless (fixed : jsstring -> bool) (n : nat)
           (w : jsstring) (forms : list jsstring) : Prop :=
  fixed w = false -> same_but_last n w forms.

(** The three markers of a template. *)
Definition is_marker (u : N) : bool := existsb (N.eqb u) (U "SNF").

(** A word that is empty, or whose last letter is none of [alphabet]. *)
Definition unread (alphabet : jsstring) (w : jsstring) : Prop :=
  w = [] \/ exists pre u, w = pre ++ [u]
                          /\ existsb (N.eqb u) alphabet = false.

(** A text that ends in a letter of [alphabet]. *)
Definition ends_in_alphabet (alphabet : jsstring) (t : jsstring) : bool :=
  match rev t with
  | [] => false
  | x :: _ => existsb (N.eqb x) alphabet
  end.

(** The lower-case letters the rules of the two modules test the end of
    the working word against. *)
Definition ru_alphabet : jsstring :=
  NCLNameCaseRu.vowels ++ NCLNameCaseRu.consonant ++ U "ь".
Definition ua_alphabet : jsstring :=
  NCLNameCaseUa.vowels ++ NCLNameCaseUa.consonant ++ U "ь".

(** The names the Russian methods look up before any rule. *)
Definition ru_listed (w : jsstring) : bool :=
  inNames w [U "Старший"; U "Младший"; U "Мариа"; U "Ильич"].

(** Two engines a rule cannot tell apart: the same working word, the
    same rule number and the same stored result. *)
Definition same_view {JN : JSNumber} (c1 c2 : Core) : Prop :=
  workingWord c1 = workingWord c2
  /\ lastRule c1 = lastRule c2
  /\ lastResult c1 = lastResult c2.

(** A method whose outcome depends on nothing else. *)
Definition blind {JN : JSNumber} (m : Method) : Prop :=
  forall c1 c2,
    same_view c1 c2 ->
    match m c1, m c2 with
    | Ok (b1, c1'), Ok (b2, c2') => b1 = b2 /\ same_view c1' c2'
    | Err e1, Err e2 => e1 = e2
    | _, _ => False
    end.

(** What a declension leaves in the word: the forms and the rule number,
    or the error raised. *)
Definition forms_outcome {JN : JSNumber} (r : Result (Core * Word))
  : Result (list jsstring * Z) :=
  match r with
  | Ok (_, w) => Ok (NameCases w, rule w)
  | Err e => Err e
  end.

(** *** Vocabulary for the chain of rules and the fallback *)



(** The gender prefix [WordCase] computes for a word. *)
Definition gender_tag {JN : JSNumber} (w : Word) : GenderTag :=
  if fst (NCLNameCaseWord.gender w) =? NCL.MAN then man else woman.

(** A language class whose classifier changes nothing of a word object
    but its type. *)
Definition classifies_only {JN : JSNumber} (cls : Lang) : Prop :=
  forall c w, exists p, snd (detectNamePart cls c w) = setNamePart w p.


(** *** Vocabulary for the nominative slot *)

(** Whether the first letter of a text is a lower-case one. *)
Definition starts_lower (cur_word : jsstring) : bool :=
  match cur_word with
  | u :: _ => NCLStr.isLowerCase [u]
  | [] => false
  end.

(** The chunks for which the masculine first-name rule of the Russian
    module stores its literal list under a mask that does not restore the
    chunk: the rule is entered (the chunk ends in a lower-case consonant),
    the chunk is "Павел" or "Лев" up to letter case, and its first letter
    is a lower-case one. *)
Definition lower_case_literal (cur_word : jsstring) : bool :=
  in_str (Last_of cur_word 1 0) NCLNameCaseRu.consonant
  && fixed_literal cur_word
  && starts_lower cur_word.

(** The words with such a chunk that the Russian module declines as the
    first name of a man. *)
Definition literal_replaces_the_word {JN : JSNumber} (L : Lang) (w : Word)
  : Prop :=
  L = NCLNameCaseRu.lang
  /\ gender_tag w = man
  /\ namePart w = Some N_
  /\ existsb lower_case_literal (split hyphen (word_orig w)) = true.

(** *** Vocabulary for the chunks of a surname *)

(** Whether a fresh instance of the class types the chunk as a surname. *)
Definition typed_as_surname {JN : JSNumber} (cls : Lang)
           (cur_word : jsstring) : bool :=
  match namePart (snd (detectNamePart cls init (new cur_word))) with
  | Some S_ => true
  | _ => false
  end.

(** How the chunk under key [k] of a surname of [cnt] chunks is treated:
    the last chunk is declined ([true]); a chunk before it is kept as it
    is ([false]) when its lower-case form is "тулуз", and is otherwise
    declined exactly when the class registered under 'ru' types it as a
    surname; without such a class the call is fatal. *)
Definition declines_chunk {JN : JSNumber} (reg : NCL.Registry Lang)
           (cnt k : nat) (cur_word : jsstring) : Result bool :=
  if (k <? cnt - 1)%nat then
    if str_eqb (toLowerCase cur_word) (U "тулуз") then Ok false
    else
      match NCL.getConcreteClass reg "ru" with
      | None => Err (TypeError "cls is not a constructor")
      | Some cls => Ok (typed_as_surname cls cur_word)
      end
  else Ok true.

(** The cases of a chunk declined on its own: the method runs on an
    engine whose working word is the chunk, its forms - or the chunk in
    every case when it reports no match - get the letter case of the
    chunk back. *)
Definition chunk_alone {JN : JSNumber} (L : Lang) (method : Method)
           (cur_word : jsstring) : Result (list jsstring) :=
  r <- method (setWorkingWord init cur_word) ;;
  let forms :=
    if fst r then lastResult (snd r) else repeat cur_word (CaseCount L) in
  Ok (NameCases (setNameCases (new cur_word) forms true)).

Definition chunk_cases {JN : JSNumber} (L : Lang) (reg : NCL.Registry Lang)
           (method : Method) (cnt : nat) (entry : nat * jsstring)
  : Result (list jsstring) :=
  declined <- declines_chunk reg cnt (fst entry) (snd entry) ;;
  if declined then chunk_alone L method (snd entry)
  else Ok (repeat (snd entry) (CaseCount L)).

(** A surname declined chunk by chunk: each chunk on its own, the cases
    of the chunks joined with hyphens, case by case. *)
Definition surname_by_chunks {JN : JSNumber} (L : Lang)
           (reg : NCL.Registry Lang) (method : Method) (text : jsstring)
  : Result (list jsstring) :=
  let cur_words := split hyphen text in
  let cnt := List.length cur_words in
  cases <- map_r (chunk_cases L reg method cnt)
                 (combine (seq 0 cnt) cur_words) ;;
  Ok (map (fun i => join [hyphen] (map (fun c => nth i c []) cases))
          (seq 0 (CaseCount L))).

(** The forms a declension stores, or the error it raises. *)
Definition cases_outcome {JN : JSNumber} (r : Result (Core * Word))
  : Result (list jsstring) :=
  match r with
  | Ok (_, w) => Ok (NameCases w)
  | Err e => Err e
  end.

(** The surname "Коста-Гаврас" of a man, and the engine of the
    formatting test of the repository. *)
Definition costa_gavras : Word := a_word "Коста-Гаврас" S_ NCL.MAN.
Definition engine_shevchenko : Core :=
  setFullName init (U "Шевченко") (U "Тарас") (U "Григорович").

(** *** Vocabulary for formatting with a template *)

(** Whether the symbol of a template is the marker of a part of the name
    of which the engine holds a word, according to its index. *)
Definition marks_held_part {JN : JSNumber} (c : Core) (symbol : N) : bool :=
  let held (keys : list nat) :=
    match keys with
    | [] => false
    | _ :: _ => true
    end in
  (str_eqb [symbol] (U "S") && held (index_S (index c)))
  || (str_eqb [symbol] (U "N") && held (index_N (index c)))
  || (str_eqb [symbol] (U "F") && held (index_F (index c))).

Unset Implicit Arguments.

(* ================================================================== *)
(** * Theorems *)

(** ** Strings *)

Lemma str_eqb_eq (a b : jsstring) : str_eqb a b = true <-> a = b.
Proof.
  unfold str_eqb. destruct (list_eq_dec N.eq_dec a b); split; auto; discriminate.
Qed.

Lemma str_eqb_refl (a : jsstring) : str_eqb a a = true.
Proof. now apply str_eqb_eq. Qed.

Lemma str_eqb_neq (a b : jsstring) : str_eqb a b = false <-> a <> b.
Proof.
  unfold str_eqb. destruct (list_eq_dec N.eq_dec a b); split; auto;
    try discriminate; congruence.
Qed.

(** Decides the comparisons of a goal on code units by arithmetic. *)
Ltac decide_units :=
  repeat match goal with
         | |- context [(?a <=? ?b)%N] =>
             first [ replace (a <=? b)%N with true
                       by (symmetry; apply N.leb_le; lia)
                   | replace (a <=? b)%N with false
                       by (symmetry; apply N.leb_gt; lia) ]
         | |- context [(?a =? ?b)%N] =>
             first [ replace (a =? b)%N with true
                       by (symmetry; apply N.eqb_eq; lia)
                   | replace (a =? b)%N with false
                       by (symmetry; apply N.eqb_neq; lia) ]
         end; cbn [andb].

(** A letter that case folding changes is an upper-case letter, and
    upper-casing leaves it alone. *)
Lemma upper_unit_fixes_upper (c : N) :
  lower_unit c <> c -> upper_unit c = c.
Proof.
  unfold lower_unit.
  destruct ((65 <=? c)%N && (c <=? 90)%N) eqn:E1;
    [| destruct ((1040 <=? c)%N && (c <=? 1071)%N) eqn:E2;
       [| destruct ((1024 <=? c)%N && (c <=? 1039)%N) eqn:E3;
          [| destruct (c =? 1168)%N eqn:E4; [| congruence] ] ] ];
    intros _;
    repeat match goal with
           | E : (_ && _)%bool = true |- _ => apply andb_true_iff in E as [? ?]
           | E : (_ <=? _)%N = true |- _ => apply N.leb_le in E
           | E : (_ =? _)%N = true |- _ => apply N.eqb_eq in E
           | E : _ = false |- _ => clear E
           end;
    unfold upper_unit; decide_units; reflexivity.
Qed.

Lemma isLowerCase_unit (c : N) :
  NCLStr.isLowerCase [c] = (lower_unit c =? c)%N.
Proof.
  unfold NCLStr.isLowerCase, NCLStr.strtolower, toLowerCase. simpl.
  destruct (N.eqb_spec (lower_unit c) c) as [E | E].
  - rewrite E. apply str_eqb_refl.
  - apply str_eqb_neq. congruence.
Qed.

(** ** The letter mask *)

Lemma generateMask_loop_spec (w : jsstring) :
  forall mask upper,
    generateMask_loop (NCLStr.splitLetters w) mask upper
    = (mask ++ mask_of w, upper && all_upper w).
Proof.
  induction w as [| c w IH]; intros mask upper; simpl.
  - now rewrite app_nil_r, andb_true_r.
  - destruct (NCLStr.isLowerCase [c]); rewrite IH; simpl;
      rewrite <- app_assoc; simpl.
    + now rewrite andb_false_r.
    + reflexivity.
Qed.

Lemma generateMask_spec (w : jsstring) :
  generateMask w = (mask_of w, all_upper w).
Proof. unfold generateMask. now rewrite generateMask_loop_spec. Qed.

Lemma new_fields {JN : JSNumber} (w : jsstring) :
  letterMask (new w) = mask_of w /\ isUpperCase (new w) = all_upper w
  /\ word_orig (new w) = w /\ NameCases (new w) = []
  /\ namePart (new w) = None /\ genderSolved (new w) = 0.
Proof. unfold new. rewrite generateMask_spec. simpl. tauto. Qed.


Lemma firstn_succ_snoc {A} (l : list A) :
  forall k x, nth_error l k = Some x -> firstn (S k) l = firstn k l ++ [x].
Proof.
  induction l as [| a l IH]; intros [| k] x H; simpl in *; try discriminate.
  - now inversion H.
  - f_equal. now apply IH.
Qed.

Lemma firstn_one_skipn {A} (l : list A) :
  forall k x, nth_error l k = Some x -> firstn 1 (skipn k l) = [x].
Proof.
  induction l as [| a l IH]; intros [| k] x H; simpl in *; try discriminate.
  - now inversion H.
  - now apply IH.
Qed.

Lemma nth_error_in_range {A} (l : list A) (k : nat) :
  (k < List.length l)%nat -> exists x, nth_error l k = Some x.
Proof.
  intros H. destruct (nth_error l k) eqn:E; eauto.
  apply nth_error_None in E. lia.
Qed.

(** Arithmetic of string ranges: clamps are resolved by [lia], and the two
    bounds of a [range] are then named. *)
Ltac clamp :=
  repeat match goal with
         | |- context [Z.min ?a ?b] =>
             first [ replace (Z.min a b) with a by lia
                   | replace (Z.min a b) with b by lia ]
         | |- context [Z.max ?a ?b] =>
             first [ replace (Z.max a b) with a by lia
                   | replace (Z.max a b) with b by lia ]
         | |- context [?a <? ?b] =>
             first [ replace (a <? b) with true by (symmetry; apply Z.ltb_lt; lia)
                   | replace (a <? b) with false by (symmetry; apply Z.ltb_ge; lia)
                   | destruct (Z.ltb_spec a b) ]
         end; cbv iota.

Ltac range_is from count :=
  match goal with
  | |- context [firstn (Z.to_nat ?e) (skipn (Z.to_nat ?b) _)] =>
      replace (Z.to_nat b) with from by lia;
      replace (Z.to_nat e) with count by lia
  end.

Lemma substr_unit (s : jsstring) (i : nat) :
  NCLStr.substr s (Z.of_nat i) 1 = firstn 1 (skipn i s).
Proof.
  unfold NCLStr.substr, JS.range, JS.strlen.
  set (n := List.length s).
  destruct (Nat.lt_ge_cases i n) as [Hlt | Hge]; clamp.
  - now range_is i 1%nat.
  - range_is n 0%nat.
    rewrite (skipn_all2 s (n:=i)) by (fold n; lia). reflexivity.
Qed.

Lemma substr_tail (s : jsstring) (m : nat) :
  NCLStr.substr s (Z.min (JS.strlen s) (Z.of_nat m)) (JS.strlen s - Z.of_nat m)
  = skipn m s.
Proof.
  unfold NCLStr.substr, JS.range, JS.strlen.
  set (n := List.length s).
  destruct (Nat.lt_ge_cases m n) as [Hlt | Hge]; clamp.
  - range_is m (n - m)%nat.
    rewrite firstn_all2; [reflexivity |].
    rewrite length_skipn. fold n. lia.
  - range_is n 0%nat.
    rewrite (skipn_all2 s (n:=m)) by (fold n; lia). reflexivity.
  - range_is n 0%nat.
    rewrite (skipn_all2 s (n:=m)) by (fold n; lia). reflexivity.
Qed.

Lemma apply_mask_app (m1 m2 : list MaskLetter) (s1 s2 : jsstring) :
  List.length m1 = List.length s1 ->
  apply_mask (m1 ++ m2) (s1 ++ s2) = apply_mask m1 s1 ++ apply_mask m2 s2.
Proof.
  revert s1. induction m1 as [| m m1 IH]; intros [| c s1] H; simpl in *;
    try discriminate; auto.
  destruct m; rewrite IH by lia; reflexivity.
Qed.

Lemma apply_mask_nil_r (m : list MaskLetter) : apply_mask m [] = [].
Proof. destruct m as [| []]; reflexivity. Qed.

Lemma mask_letter_fold (mask : list MaskLetter) (kase : jsstring) :
  forall k, (k <= List.length mask)%nat -> (k <= List.length kase)%nat ->
    fold_left (mask_letter mask kase) (seq 0 k) []
    = apply_mask (firstn k mask) (firstn k kase).
Proof.
  induction k as [| k IH]; intros Hm Hk.
  - reflexivity.
  - rewrite seq_S, fold_left_app, IH by lia.
    cbn [fold_left Nat.add].
    destruct (nth_error_in_range mask k) as [m Em]; [lia |].
    destruct (nth_error_in_range kase k) as [c Ec]; [lia |].
    rewrite (firstn_succ_snoc _ _ _ Em), (firstn_succ_snoc _ _ _ Ec).
    rewrite apply_mask_app
      by (rewrite !length_firstn; lia).
    unfold mask_letter. rewrite substr_unit, Em, (firstn_one_skipn _ _ _ Ec).
    destruct m; reflexivity.
Qed.

(** The loop of [returnMask] computes the position-by-position reading. *)
Lemma returnMask_case_spec (mask : list MaskLetter) (kase : jsstring) :
  returnMask_case mask kase = apply_mask mask kase.
Proof.
  unfold returnMask_case, NCLStr.strlen.
  set (k := Nat.min (List.length kase) (List.length mask)).
  assert (Hk : Z.min (JS.strlen kase) (Z.of_nat (List.length mask)) = Z.of_nat k)
    by (unfold JS.strlen, k; lia).
  rewrite substr_tail. rewrite Hk.
  replace (Z.to_nat (Z.of_nat k)) with k by lia.
  rewrite mask_letter_fold by (unfold k; lia).
  transitivity (apply_mask (firstn k mask ++ skipn k mask)
                           (firstn k kase ++ skipn k kase));
    [| now rewrite !firstn_skipn].
  rewrite apply_mask_app by (rewrite !length_firstn; unfold k; lia).
  f_equal.
  destruct (Nat.le_ge_cases (List.length kase) (List.length mask)) as [H | H].
  - rewrite (skipn_all2 kase (n:=List.length mask)) by lia.
    rewrite (skipn_all2 kase (n:=k)) by (unfold k; lia).
    now rewrite apply_mask_nil_r.
  - replace k with (List.length mask) by (unfold k; lia).
    rewrite (skipn_all2 mask) by lia. reflexivity.
Qed.

Lemma apply_mask_length (mask : list MaskLetter) :
  forall form, List.length (apply_mask mask form) = List.length form.
Proof.
  induction mask as [| m mask IH]; intros [| c form]; simpl; auto.
  - destruct m; reflexivity.
  - destruct m; simpl; now rewrite IH.
Qed.

Lemma apply_mask_nth (mask : list MaskLetter) :
  forall form i c,
    nth_error form i = Some c ->
    nth_error (apply_mask mask form) i
    = Some (match nth_error mask i with
            | Some mask_X => upper_unit c
            | _ => c
            end).
Proof.
  induction mask as [| m mask IH]; intros form i c H.
  - simpl. now destruct i.
  - destruct form as [| d form]; [now destruct i |].
    destruct i as [| i]; simpl in *.
    + inversion H; subst. now destruct m.
    + destruct m; simpl; now apply IH.
Qed.

(** Restoring the mask of a word on the word itself gives the word back. *)
Lemma apply_mask_self (w : jsstring) : apply_mask (mask_of w) w = w.
Proof.
  induction w as [| c w IH]; simpl; auto.
  rewrite isLowerCase_unit.
  destruct (N.eqb_spec (lower_unit c) c) as [E | E]; simpl.
  - now rewrite IH.
  - now rewrite IH, upper_unit_fixes_upper.
Qed.

Lemma toUpperCase_all_upper (w : jsstring) :
  all_upper w = true -> NCLStr.strtoupper w = w.
Proof.
  unfold NCLStr.strtoupper, toUpperCase.
  induction w as [| c w IH]; simpl; auto.
  rewrite isLowerCase_unit. intros H. apply andb_true_iff in H as [H1 H2].
  rewrite IH by assumption. f_equal.
  apply upper_unit_fixes_upper.
  destruct (N.eqb_spec (lower_unit c) c); [discriminate | assumption].
Qed.

Lemma returnMask_cases {JN : JSNumber} (w : Word) :
  NameCases (returnMask w)
  = if isUpperCase w then map NCLStr.strtoupper (NameCases w)
    else map (apply_mask (letterMask w)) (NameCases w).
Proof.
  unfold returnMask. destruct (isUpperCase w); simpl; [reflexivity |].
  apply map_ext. intros. apply returnMask_case_spec.
Qed.

Lemma setNameCases_masked {JN : JSNumber} (w : Word) (forms : list jsstring) :
  NameCases (setNameCases w forms true)
  = if isUpperCase w then map NCLStr.strtoupper forms
    else map (apply_mask (letterMask w)) forms.
Proof. unfold setNameCases. now rewrite returnMask_cases. Qed.

(** Identical forms equal to the token survive mask restoration. *)
Lemma setNameCases_self {JN : JSNumber} (w : jsstring) (n : nat) :
  NameCases (setNameCases (new w) (repeat w n) true) = repeat w n.
Proof.
  rewrite setNameCases_masked.
  destruct (new_fields w) as (-> & -> & _).
  destruct (all_upper w) eqn:E.
  - induction n; simpl; [reflexivity |].
    now rewrite IHn, toUpperCase_all_upper.
  - induction n; simpl; [reflexivity |].
    now rewrite IHn, apply_mask_self.
Qed.

(** C7. After mask restoration of the forms stored for a token: when the
    whole token is upper case, every form is upper-cased as a whole;
    otherwise the mask of the token is applied to each form position by
    position - a letter is upper-cased where the mask has ['X'], up to the
    shorter of form and mask - and the letters of a form beyond the length
    of the mask stay as the declension produced them. *)
Theorem returnMask_restores_letter_case {JN : JSNumber}
        (w : jsstring) (forms : list jsstring) :
  generateMask w = (mask_of w, all_upper w)
  /\ NameCases (setNameCases (new w) forms true)
     = (if all_upper w then map NCLStr.strtoupper forms
        else map (apply_mask (mask_of w)) forms)
  /\ (forall form,
         List.length (apply_mask (mask_of w) form) = List.length form)
  /\ (forall form i c,
         nth_error form i = Some c ->
         nth_error (apply_mask (mask_of w) form) i
         = Some (match nth_error (mask_of w) i with
                 | Some mask_X => upper_unit c
                 | Some mask_x => c
                 | None => c
                 end)).
Proof.
  split; [apply generateMask_spec |].
  split.
  - rewrite setNameCases_masked.
    now destruct (new_fields w) as (-> & -> & _).
  - split; [apply apply_mask_length |].
    intros form i c H. rewrite (apply_mask_nth _ _ _ _ H).
    now destruct (nth_error (mask_of w) i) as [[] |].
Qed.

(** The forms the test suite restores for "Орел". *)
Lemma returnMask_restores_letter_case_witness :
  nth_error (U "орлові") 0 = Some 1086%N
  /\ nth_error (apply_mask (mask_of (U "Орел")) (U "орлові")) 0
     = Some (upper_unit 1086%N)
  /\ apply_mask (mask_of (U "Орел")) (U "орлові") = U "Орлові".
Proof.
  split; [reflexivity |]. split.
  - exact (proj2 (proj2 (proj2
             (returnMask_restores_letter_case (U "Орел") [])))
             (U "орлові") 0%nat 1086%N eq_refl).
  - reflexivity.
Defined.


(** ** Hyphens *)

Lemma forallb_firstn {A} (f : A -> bool) (l : list A) :
  forall n, forallb f l = true -> forallb f (firstn n l) = true.
Proof.
  induction l as [| a l IH]; intros [| n] H; simpl in *; auto.
  apply andb_true_iff in H as [H1 H2]. now rewrite H1, IH.
Qed.

Lemma forallb_skipn {A} (f : A -> bool) (l : list A) :
  forall n, forallb f l = true -> forallb f (skipn n l) = true.
Proof.
  induction l as [| a l IH]; intros [| n] H; simpl in *; auto.
  apply andb_true_iff in H as [H1 H2]. now apply IH.
Qed.

Lemma no_hyphen_app (a b : jsstring) :
  no_hyphen a = true -> no_hyphen b = true -> no_hyphen (a ++ b) = true.
Proof. unfold no_hyphen. intros Ha Hb. now rewrite forallb_app, Ha, Hb. Qed.

Lemma no_hyphen_cons (c : N) (s : jsstring) :
  (c =? hyphen)%N = false -> no_hyphen s = true -> no_hyphen (c :: s) = true.
Proof. unfold no_hyphen. simpl. now intros -> ->. Qed.

Lemma no_hyphen_range (s : jsstring) (b e : Z) :
  no_hyphen s = true -> no_hyphen (JS.range s b e) = true.
Proof.
  unfold no_hyphen, JS.range. intros H.
  now apply forallb_firstn, forallb_skipn.
Qed.

Lemma no_hyphen_substr (s : jsstring) (a b : Z) :
  no_hyphen s = true -> no_hyphen (NCLStr.substr s a b) = true.
Proof. intros. now apply no_hyphen_range. Qed.

Lemma no_hyphen_substring (s : jsstring) (a b : Z) :
  no_hyphen s = true -> no_hyphen (JS.substring s a b) = true.
Proof. intros. now apply no_hyphen_range. Qed.

Lemma no_hyphen_slice (s : jsstring) (a : Z) (b : option Z) :
  no_hyphen s = true -> no_hyphen (JS.slice s a b) = true.
Proof. intros. now apply no_hyphen_range. Qed.

Lemma no_hyphen_Last {JN : JSNumber} (c : Core) (a b : Z) :
  no_hyphen (workingWord c) = true -> no_hyphen (Last c a b) = true.
Proof. intros. now apply no_hyphen_slice. Qed.

Lemma upper_unit_hyphen_iff (c : N) : upper_unit c = hyphen <-> c = hyphen.
Proof.
  unfold upper_unit, hyphen.
  destruct ((97 <=? c)%N && (c <=? 122)%N) eqn:E1;
    [| destruct ((1072 <=? c)%N && (c <=? 1103)%N) eqn:E2;
       [| destruct ((1104 <=? c)%N && (c <=? 1119)%N) eqn:E3;
          [| destruct (c =? 1169)%N eqn:E4 ] ] ];
    repeat match goal with
           | E : (_ && _)%bool = true |- _ => apply andb_true_iff in E as [? ?]
           | E : (_ <=? _)%N = true |- _ => apply N.leb_le in E
           | E : (_ =? _)%N = true |- _ => apply N.eqb_eq in E
           | E : _ = false |- _ => clear E
           end; lia.
Qed.

Lemma upper_unit_hyphen (c : N) :
  (upper_unit c =? hyphen)%N = (c =? hyphen)%N.
Proof.
  pose proof (upper_unit_hyphen_iff c) as H.
  destruct (N.eqb_spec (upper_unit c) hyphen), (N.eqb_spec c hyphen);
    tauto.
Qed.

Lemma count_hyphens_app (a b : jsstring) :
  count_hyphens (a ++ b) = (count_hyphens a + count_hyphens b)%nat.
Proof. unfold count_hyphens. now rewrite filter_app, length_app. Qed.

Lemma count_hyphens_upper (s : jsstring) :
  count_hyphens (NCLStr.strtoupper s) = count_hyphens s.
Proof.
  unfold NCLStr.strtoupper, toUpperCase, count_hyphens.
  induction s as [| c s IH]; simpl; auto.
  rewrite upper_unit_hyphen. destruct (c =? hyphen)%N; simpl; now rewrite IH.
Qed.

Lemma count_hyphens_apply_mask (mask : list MaskLetter) :
  forall s, count_hyphens (apply_mask mask s) = count_hyphens s.
Proof.
  unfold count_hyphens.
  induction mask as [| m mask IH]; intros [| c s]; simpl; auto.
  - now destruct m.
  - destruct m; simpl; rewrite ?upper_unit_hyphen;
      destruct (c =? hyphen)%N; simpl; now rewrite IH.
Qed.

Lemma no_hyphen_count (s : jsstring) :
  no_hyphen s = true <-> count_hyphens s = 0%nat.
Proof.
  unfold no_hyphen, count_hyphens.
  induction s as [| c s IH]; simpl; [tauto |].
  destruct (c =? hyphen)%N; simpl; [split; discriminate | exact IH].
Qed.

(** ** Reading the engine after a rule has written to it *)

Section StateEquations.
Context {JN : JSNumber}.

Lemma lastResult_Rule (c : Core) (i : Z) : lastResult (Rule c i) = lastResult c.
Proof. reflexivity. Qed.

Lemma workingWord_Rule (c : Core) (i : Z) :
  workingWord (Rule c i) = workingWord c.
Proof. reflexivity. Qed.

Lemma lastRule_Rule (c : Core) (i : Z) : lastRule (Rule c i) = i.
Proof. reflexivity. Qed.

Lemma workingWord_wordForms cc (c : Core) w e n :
  workingWord (wordForms cc c w e n) = workingWord c.
Proof. reflexivity. Qed.

Lemma workingWord_makeResultTheSame cc (c : Core) :
  workingWord (makeResultTheSame cc c) = workingWord c.
Proof. reflexivity. Qed.

Lemma lastResult_makeResultTheSame cc (c : Core) :
  lastResult (makeResultTheSame cc c) = repeat (workingWord c) cc.
Proof. reflexivity. Qed.

Lemma workingWord_set_lastResult (c : Core) v :
  workingWord (set_lastResult c v) = workingWord c.
Proof. reflexivity. Qed.

Lemma lastResult_set_lastResult (c : Core) v :
  lastResult (set_lastResult c v) = v.
Proof. reflexivity. Qed.

Lemma workingWord_setWorkingWord (c : Core) w :
  workingWord (setWorkingWord c w) = w.
Proof. reflexivity. Qed.

End StateEquations.

Create Rewrite HintDb engine.
#[export] Hint Rewrite
  @lastResult_Rule @workingWord_Rule @workingWord_wordForms
  @workingWord_makeResultTheSame @lastResult_makeResultTheSame
  @workingWord_set_lastResult @lastResult_set_lastResult
  @workingWord_setWorkingWord : engine.

(** ** The forms a rule stores *)

Section Forms.
Context {JN : JSNumber}.

Lemma shape_repeat (cc : nat) (w : jsstring) : shape cc w (repeat w cc).
Proof.
  split; [apply repeat_length |].
  intros H. apply Forall_forall. intros f Hf.
  now rewrite (repeat_spec _ _ _ Hf).
Qed.

Lemma shape_wordForms (cc : nat) (c : Core) (word : jsstring)
      (endings : list jsstring) (replaceLast : Z) :
  (1 <= cc)%nat ->
  (no_hyphen (workingWord c) = true -> no_hyphen word = true) ->
  (no_hyphen (workingWord c) = true ->
   Forall (fun e => no_hyphen e = true) endings) ->
  shape cc (workingWord c)
        (lastResult (wordForms cc c word endings replaceLast)).
Proof.
  intros Hcc Hword Hend. unfold wordForms.
  rewrite lastResult_set_lastResult. split.
  - simpl. rewrite length_map, length_seq. lia.
  - intros Hw. constructor; [assumption |].
    apply Forall_forall. intros f Hf.
    apply in_map_iff in Hf as (i & <- & _).
    apply no_hyphen_app.
    + apply no_hyphen_substring; auto.
    + destruct (nth_in_or_default (i - 1) endings undefined_text) as [Hin | ->].
      * specialize (Hend Hw). rewrite Forall_forall in Hend. now apply Hend.
      * reflexivity.
Qed.

Lemma nominative_wordForms (cc : nat) (c : Core) (word : jsstring)
      (endings : list jsstring) (replaceLast : Z) :
  nominative (workingWord c)
             (lastResult (wordForms cc c word endings replaceLast)).
Proof. reflexivity. Qed.

Lemma nominative_repeat (cc : nat) (w : jsstring) :
  (1 <= cc)%nat -> nominative w (repeat w cc).
Proof. destruct cc; [lia | reflexivity]. Qed.

(** The literal lists of forms of the Russian rule for "Павел" and "Лев". *)
Lemma shape_literal (cc : nat) (w : jsstring) (forms : list jsstring) :
  List.length forms = cc ->
  forallb no_hyphen forms = true ->
  shape cc w forms.
Proof.
  intros Hl Hf. split; [assumption |]. intros _.
  apply Forall_forall. intros f Hin.
  rewrite forallb_forall in Hf. now apply Hf.
Qed.

End Forms.

(** ** Rule chains *)

Section Chains.
Context {JN : JSNumber}.

Lemma keeps_RulesChain (Q : jsstring -> list jsstring -> Prop)
      (rules : GenderTag -> Z -> option Method) (gender : GenderTag) :
  (forall ruleID m, rules gender ruleID = Some m -> keeps Q m) ->
  forall rulesArray, keeps Q (RulesChain rules gender rulesArray).
Proof.
  intros Hrules rulesArray.
  induction rulesArray as [| ruleID rest IH]; intros c c' b H; simpl in H.
  - inversion H; subst. split; [reflexivity | discriminate].
  - destruct (rules gender ruleID) as [m |] eqn:Em; [| discriminate].
    unfold JS.bind in H.
    destruct (m c) as [[b1 c1] | e] eqn:Emc; [| discriminate].
    destruct (Hrules _ _ Em _ _ _ Emc) as [Hw HQ].
    simpl in H. destruct b1.
    + inversion H; subst. split; [assumption | intros _; now apply HQ].
    + destruct (IH _ _ _ H) as [Hw' HQ'].
      rewrite Hw in Hw'. split; [assumption |].
      intros Hb. rewrite <- Hw. now apply HQ'.
Qed.

End Chains.


(** ** The rules of the two language modules *)

Create HintDb nohyph.
#[export] Hint Resolve no_hyphen_app no_hyphen_substr no_hyphen_substring
  no_hyphen_slice : nohyph.
#[export] Hint Resolve @no_hyphen_Last : nohyph.
#[export] Hint Extern 1 (no_hyphen (U _) = true) => reflexivity : nohyph.
#[export] Hint Extern 1 (no_hyphen (_ :: _) = true) =>
  apply no_hyphen_cons; [reflexivity |] : nohyph.
#[export] Hint Extern 1 (no_hyphen [] = true) => reflexivity : nohyph.

(** Runs a rule symbolically: every test of the body is decided both ways,
    the branches that throw are discarded. *)
Ltac run_rule H :=
  cbv zeta in H;
  repeat first
    [ progress cbn [JS.bind JS.unbound] in H
    | match type of H with
      | context [if ?b then _ else _] => destruct b eqn:?
      end ];
  try discriminate H.

Ltac shape_leaf :=
  first
    [ apply shape_repeat
    | apply shape_wordForms;
      [ cbv; lia
      | intros ?; auto 8 with nohyph
      | intros ?; repeat constructor; auto 8 with nohyph ]
    | apply shape_literal; reflexivity ].

(** A branch ends either in a chain of rules, for which [chain] gives the
    property, or in a state written by the branch itself. *)
Ltac end_of_rule leaf chain H :=
  first
    [ exact (chain _ _ _ _ _ H)
    | inversion H; subst; clear H;
      split;
      [ autorewrite with engine; reflexivity
      | let Hb := fresh "Hb" in
        intros Hb; try discriminate Hb; autorewrite with engine; leaf ] ].

Ltac prove_keeps_with leaf chain :=
  let c := fresh "c" in
  let c' := fresh "c'" in
  let b := fresh "b" in
  let H := fresh "H" in
  intros c c' b H; run_rule H; end_of_rule leaf chain H.

Ltac prove_keeps leaf := prove_keeps_with leaf tt.

(** Picks the rule a table entry names. *)
Ltac table_entry H :=
  match type of H with
  | _ ?g ?id = Some _ =>
      destruct g; destruct id as [| ?p | ?p]; try discriminate H;
      repeat match goal with
             | p : positive |- _ => destruct p; try discriminate H
             end;
      injection H as <-
  end.

Section RuShape.
Context {JN : JSNumber}.
Import NCLNameCaseRu.

Lemma ru_manRule1_shape : keeps (shape CaseCount) manRule1.
Proof. unfold manRule1. prove_keeps shape_leaf. Qed.

Lemma ru_manRule2_shape : keeps (shape CaseCount) manRule2.
Proof. unfold manRule2. prove_keeps shape_leaf. Qed.

Lemma ru_manRule3_shape : keeps (shape CaseCount) manRule3.
Proof. unfold manRule3. prove_keeps shape_leaf. Qed.

Lemma ru_manRule4_shape : keeps (shape CaseCount) manRule4.
Proof. unfold manRule4. prove_keeps shape_leaf. Qed.

Lemma ru_manRule5_shape : keeps (shape CaseCount) manRule5.
Proof. unfold manRule5. prove_keeps shape_leaf. Qed.

Lemma ru_manRule6_shape : keeps (shape CaseCount) manRule6.
Proof. unfold manRule6. prove_keeps shape_leaf. Qed.

Lemma ru_manRule7_shape : keeps (shape CaseCount) manRule7.
Proof. unfold manRule7. prove_keeps shape_leaf. Qed.

Lemma ru_manRule8_shape : keeps (shape CaseCount) manRule8.
Proof. unfold manRule8. prove_keeps shape_leaf. Qed.

Lemma ru_womanRule1_shape : keeps (shape CaseCount) womanRule1.
Proof. unfold womanRule1. prove_keeps shape_leaf. Qed.

Lemma ru_womanRule2_shape : keeps (shape CaseCount) womanRule2.
Proof. unfold womanRule2. prove_keeps shape_leaf. Qed.

Lemma ru_womanRule3_shape : keeps (shape CaseCount) womanRule3.
Proof. unfold womanRule3. prove_keeps shape_leaf. Qed.

Lemma ru_womanRule4_shape : keeps (shape CaseCount) womanRule4.
Proof. unfold womanRule4. prove_keeps shape_leaf. Qed.

Lemma ru_rules_shape gender ruleID m :
  rules gender ruleID = Some m -> keeps (shape CaseCount) m.
Proof.
  intros H. table_entry H;
    match goal with
    | |- keeps _ manRule1 => exact ru_manRule1_shape
    | |- keeps _ manRule2 => exact ru_manRule2_shape
    | |- keeps _ manRule3 => exact ru_manRule3_shape
    | |- keeps _ manRule4 => exact ru_manRule4_shape
    | |- keeps _ manRule5 => exact ru_manRule5_shape
    | |- keeps _ manRule6 => exact ru_manRule6_shape
    | |- keeps _ manRule7 => exact ru_manRule7_shape
    | |- keeps _ manRule8 => exact ru_manRule8_shape
    | |- keeps _ womanRule1 => exact ru_womanRule1_shape
    | |- keeps _ womanRule2 => exact ru_womanRule2_shape
    | |- keeps _ womanRule3 => exact ru_womanRule3_shape
    | |- keeps _ womanRule4 => exact ru_womanRule4_shape
    end.
Qed.

Lemma ru_chain_shape gender rulesArray :
  keeps (shape CaseCount) (RulesChain rules gender rulesArray).
Proof. apply keeps_RulesChain. apply ru_rules_shape. Qed.

Lemma ru_manFirstName_shape : keeps (shape CaseCount) manFirstName.
Proof. unfold manFirstName. prove_keeps_with shape_leaf ru_chain_shape. Qed.

Lemma ru_womanFirstName_shape : keeps (shape CaseCount) womanFirstName.
Proof. apply ru_chain_shape. Qed.

Lemma ru_manSecondName_shape : keeps (shape CaseCount) manSecondName.
Proof. apply ru_chain_shape. Qed.

Lemma ru_womanSecondName_shape : keeps (shape CaseCount) womanSecondName.
Proof. apply ru_chain_shape. Qed.

Lemma ru_manFatherName_shape : keeps (shape CaseCount) manFatherName.
Proof. unfold manFatherName. prove_keeps shape_leaf. Qed.

Lemma ru_womanFatherName_shape : keeps (shape CaseCount) womanFatherName.
Proof. unfold womanFatherName. prove_keeps shape_leaf. Qed.

End RuShape.


Section UaShape.
Context {JN : JSNumber}.
Import NCLNameCaseUa.

Lemma no_hyphen_inverseGKH (letter : jsstring) :
  no_hyphen letter = true -> no_hyphen (inverseGKH letter) = true.
Proof.
  unfold inverseGKH. intros H.
  repeat match goal with
         | |- context [if ?b then _ else _] => destruct b
         end; auto.
Qed.

Lemma no_hyphen_inverse2 (letter : jsstring) :
  no_hyphen letter = true -> no_hyphen (inverse2 letter) = true.
Proof.
  unfold inverse2. intros H.
  repeat match goal with
         | |- context [if ?b then _ else _] => destruct b
         end; auto.
Qed.

Lemma no_hyphen_getOsnova_loop (turns : nat) :
  forall osnova,
    no_hyphen osnova = true -> no_hyphen (getOsnova_loop turns osnova) = true.
Proof.
  induction turns as [| turns IH]; intros osnova H; simpl; auto.
  destruct (in_str _ _); auto using no_hyphen_substr.
Qed.

Lemma no_hyphen_getOsnova (word : jsstring) :
  no_hyphen word = true -> no_hyphen (getOsnova word) = true.
Proof. apply no_hyphen_getOsnova_loop. Qed.

End UaShape.

#[export] Hint Resolve @no_hyphen_inverseGKH @no_hyphen_inverse2
  @no_hyphen_getOsnova : nohyph.

Section UaRules.
Context {JN : JSNumber}.
Import NCLNameCaseUa.

Lemma ua_manRule1_shape : keeps (shape CaseCount) manRule1.
Proof. unfold manRule1. prove_keeps shape_leaf. Qed.

Lemma ua_manRule2_shape : keeps (shape CaseCount) manRule2.
Proof. unfold manRule2. prove_keeps shape_leaf. Qed.

Lemma ua_manRule3_shape : keeps (shape CaseCount) manRule3.
Proof. unfold manRule3. prove_keeps shape_leaf. Qed.

Lemma ua_manRule4_shape : keeps (shape CaseCount) manRule4.
Proof. unfold manRule4. prove_keeps shape_leaf. Qed.

Lemma ua_manRule5_shape : keeps (shape CaseCount) manRule5.
Proof. unfold manRule5. prove_keeps shape_leaf. Qed.

Lemma ua_womanRule1_shape : keeps (shape CaseCount) womanRule1.
Proof. unfold womanRule1. prove_keeps shape_leaf. Qed.

Lemma ua_womanRule2_shape : keeps (shape CaseCount) womanRule2.
Proof. unfold womanRule2. prove_keeps shape_leaf. Qed.

Lemma ua_womanRule3_shape : keeps (shape CaseCount) womanRule3.
Proof. unfold womanRule3. prove_keeps shape_leaf. Qed.

Lemma ua_rules_shape gender ruleID m :
  rules gender ruleID = Some m -> keeps (shape CaseCount) m.
Proof.
  intros H. table_entry H;
    match goal with
    | |- keeps _ manRule1 => exact ua_manRule1_shape
    | |- keeps _ manRule2 => exact ua_manRule2_shape
    | |- keeps _ manRule3 => exact ua_manRule3_shape
    | |- keeps _ manRule4 => exact ua_manRule4_shape
    | |- keeps _ manRule5 => exact ua_manRule5_shape
    | |- keeps _ womanRule1 => exact ua_womanRule1_shape
    | |- keeps _ womanRule2 => exact ua_womanRule2_shape
    | |- keeps _ womanRule3 => exact ua_womanRule3_shape
    end.
Qed.

Lemma ua_chain_shape gender rulesArray :
  keeps (shape CaseCount) (RulesChain rules gender rulesArray).
Proof. apply keeps_RulesChain. apply ua_rules_shape. Qed.

Lemma ua_manFatherName_shape : keeps (shape CaseCount) manFatherName.
Proof. unfold manFatherName. prove_keeps shape_leaf. Qed.

Lemma ua_womanFatherName_shape : keeps (shape CaseCount) womanFatherName.
Proof. unfold womanFatherName. prove_keeps shape_leaf. Qed.

End UaRules.

(** ** Splitting at hyphens and gluing again *)

Lemma split_not_nil (sep : N) (s : jsstring) : split sep s <> [].
Proof.
  induction s as [| c s IH]; simpl; [discriminate |].
  destruct (c =? sep)%N; [discriminate |].
  destruct (split sep s); discriminate.
Qed.

Lemma split_no_hyphen (s : jsstring) :
  Forall (fun piece => no_hyphen piece = true) (split hyphen s).
Proof.
  induction s as [| c s IH]; simpl.
  - repeat constructor.
  - destruct (c =? hyphen)%N eqn:E.
    + constructor; [reflexivity | assumption].
    + destruct (split hyphen s) as [| piece pieces]; inversion IH; subst.
      * repeat constructor. unfold no_hyphen. simpl. now rewrite E.
      * constructor; [| assumption].
        unfold no_hyphen in *. simpl. now rewrite E.
Qed.

Lemma split_length (s : jsstring) :
  List.length (split hyphen s) = S (count_hyphens s).
Proof.
  unfold count_hyphens.
  induction s as [| c s IH]; simpl; [reflexivity |].
  destruct (c =? hyphen)%N eqn:E; simpl.
  - now rewrite IH.
  - destruct (split hyphen s) as [| piece pieces] eqn:Es.
    + now destruct (split_not_nil hyphen s).
    + simpl in *. assumption.
Qed.

Lemma join_hyphen (piece : jsstring) (pieces : list jsstring) :
  join [hyphen] (piece :: pieces) = piece ++ behind_hyphens pieces.
Proof.
  revert piece. induction pieces as [| p pieces IH]; intros piece.
  - simpl. now rewrite app_nil_r.
  - change (join [hyphen] (piece :: p :: pieces))
      with (piece ++ [hyphen] ++ join [hyphen] (p :: pieces)).
    rewrite IH. reflexivity.
Qed.

Lemma join_split (s : jsstring) : join [hyphen] (split hyphen s) = s.
Proof.
  induction s as [| c s IH]; [reflexivity |].
  simpl split. destruct (c =? hyphen)%N eqn:E.
  - apply N.eqb_eq in E. subst c.
    destruct (split hyphen s) as [| piece pieces] eqn:Es.
    + now destruct (split_not_nil hyphen s).
    + change (join [hyphen] ([] :: piece :: pieces))
        with ([] ++ [hyphen] ++ join [hyphen] (piece :: pieces)).
      now rewrite IH.
  - destruct (split hyphen s) as [| piece pieces] eqn:Es.
    + now destruct (split_not_nil hyphen s).
    + rewrite join_hyphen in *. simpl. now rewrite IH.
Qed.

Section Glue.
Context {JN : JSNumber}.

Lemma glue_length (result namecases : list jsstring) :
  List.length result = List.length namecases ->
  List.length (glue result namecases) = List.length namecases.
Proof.
  revert namecases.
  induction result as [| r rs IH]; intros [| n ns] H; simpl in *;
    try discriminate; auto.
Qed.

Lemma glue_Forall (P Q R : jsstring -> Prop) :
  (forall r n, P r -> Q n -> R (r ++ [hyphen] ++ n)) ->
  forall result namecases,
    List.length result = List.length namecases ->
    Forall P result -> Forall Q namecases ->
    Forall R (glue result namecases).
Proof.
  intros HR result.
  induction result as [| r rs IH]; intros [| n ns] Hl HP HQ; simpl in *;
    try discriminate; auto.
  inversion HP; inversion HQ; subst.
  constructor; [now apply HR | apply IH; auto].
Qed.

Lemma glue_first (result namecases : list jsstring) (r n : jsstring) :
  nth_error result 0 = Some r -> nth_error namecases 0 = Some n ->
  nth_error (glue result namecases) 0 = Some (r ++ hyphen :: n).
Proof.
  destruct result, namecases; simpl; try discriminate.
  now intros [= ->] [= ->].
Qed.

Lemma glue_fold_length (cc : nat) (ws : list Word) :
  Forall (fun o => List.length (NameCases o) = cc) ws ->
  forall acc, List.length acc = cc ->
    List.length (fold_left glue_step ws acc) = cc.
Proof.
  induction 1 as [| o ws Ho Hws IH]; intros acc Hacc; simpl; auto.
  apply IH. unfold glue_step, getNameCases.
  rewrite glue_length; congruence.
Qed.

Lemma glue_fold_count (cc : nat) (ws : list Word) :
  Forall (fun o => List.length (NameCases o) = cc
                   /\ Forall (fun f => no_hyphen f = true) (NameCases o)) ws ->
  forall acc k,
    List.length acc = cc ->
    Forall (fun f => count_hyphens f = k) acc ->
    Forall (fun f => count_hyphens f = (k + List.length ws)%nat)
           (fold_left glue_step ws acc).
Proof.
  induction 1 as [| o ws [Hlen Hnh] Hws IH]; intros acc k Hacc Hk; simpl.
  - now rewrite Nat.add_0_r.
  - replace (k + S (List.length ws))%nat with (S k + List.length ws)%nat by lia.
    apply IH.
    + unfold glue_step, getNameCases. rewrite glue_length; congruence.
    + unfold glue_step, getNameCases.
      apply (glue_Forall (fun f => count_hyphens f = k)
                         (fun f => no_hyphen f = true)); auto; [| congruence].
      intros r n Hr Hn. apply no_hyphen_count in Hn.
      rewrite !count_hyphens_app, Hr, Hn. simpl. lia.
Qed.

Lemma glue_fold_first (cur_words : list jsstring) (ws : list Word) :
  Forall2 (fun cw o => nth_error (NameCases o) 0 = Some cw) cur_words ws ->
  forall acc a,
    nth_error acc 0 = Some a ->
    nth_error (fold_left glue_step ws acc) 0
    = Some (a ++ behind_hyphens cur_words).
Proof.
  induction 1 as [| cw o cur_words ws Ho Hws IH]; intros acc a Ha.
  - simpl. now rewrite app_nil_r.
  - cbn [fold_left]. rewrite (IH (glue_step acc o) (a ++ hyphen :: cw)).
    + unfold behind_hyphens. simpl. now rewrite <- app_assoc.
    + now apply glue_first.
Qed.

Lemma glue_all_fold (o : Word) (ws : list Word) :
  glue_all (o :: ws) = fold_left glue_step ws (NameCases o).
Proof. reflexivity. Qed.

End Glue.


(** ** Declining one word *)

Section WordCaseShape.
Context {JN : JSNumber}.

Lemma gender_word (w : Word) :
  word_orig (snd (NCLNameCaseWord.gender w)) = word_orig w
  /\ namePart (snd (NCLNameCaseWord.gender w)) = namePart w
  /\ letterMask (snd (NCLNameCaseWord.gender w)) = letterMask w
  /\ isUpperCase (snd (NCLNameCaseWord.gender w)) = isUpperCase w.
Proof.
  unfold NCLNameCaseWord.gender.
  destruct (genderSolved w =? 0); [destruct (ngeb _ _) |]; simpl; auto.
Qed.

(** The word object of a chunk is the fresh one, or the fresh one after
    the class registered under 'ru' has classified it. *)
Lemma is_norm_rules_word reg npl cnt k cw o o' norm :
  is_norm_rules reg npl cnt k cw o = Ok (o', norm) ->
  o' = o
  \/ exists cls, NCL.getConcreteClass reg "ru" = Some cls
                 /\ o' = snd (detectNamePart cls init o).
Proof.
  unfold is_norm_rules. intros H.
  destruct npl as [[] |]; try (inversion H; now left).
  destruct ((1 <? cnt)%nat && (k <? cnt - 1)%nat);
    [| inversion H; now left].
  destruct (negb _); [| inversion H; now left].
  destruct (NCL.getConcreteClass reg "ru") as [cls |]; [| discriminate].
  inversion H. right. now exists cls.
Qed.

(** What one turn of the first loop leaves: the rule's forms, or the
    chunk itself in every case with the rule number -1. *)
Lemma WordCase_chunk_forms L reg m npl cnt k cw c c' o lr :
  WordCase_chunk L reg m npl cnt k cw c = Ok (c', o, lr) ->
  exists o_ncw norm forms,
    is_norm_rules reg npl cnt k cw (new cw) = Ok (o_ncw, norm)
    /\ o = setNameCases o_ncw forms true
    /\ ((norm = true /\ m (setWorkingWord c cw) = Ok (true, c')
         /\ forms = lastResult c' /\ lr = lastRule c')
        \/ (forms = repeat cw (CaseCount L) /\ lr = -1)).
Proof.
  unfold WordCase_chunk, JS.bind. intros H.
  destruct (is_norm_rules reg npl cnt k cw (new cw)) as [[o_ncw norm] | e];
    [| discriminate].
  exists o_ncw, norm. cbn [fst snd] in H.
  destruct norm.
  - destruct (m (setWorkingWord c cw)) as [[b c1] | e] eqn:Em; [| discriminate].
    cbn [fst snd] in H. destruct b; inversion H; subst; eexists;
      (split; [reflexivity |]); (split; [reflexivity |]); auto.
  - cbn [fst snd] in H. inversion H; subst. eexists.
    split; [reflexivity |]. split; [reflexivity |]. now right.
Qed.

(** Mask restoration keeps the number of forms and their hyphens. *)
Lemma setNameCases_shape (cc : nat) (cw : jsstring) (o : Word)
      (forms : list jsstring) :
  shape cc cw forms -> shape cc cw (NameCases (setNameCases o forms true)).
Proof.
  intros [Hlen Hnh]. rewrite setNameCases_masked. split.
  - destruct (isUpperCase o); now rewrite length_map.
  - intros Hcw. specialize (Hnh Hcw).
    destruct (isUpperCase o); apply Forall_map;
      eapply Forall_impl; try exact Hnh; cbv beta; intros f Hf;
      apply no_hyphen_count; apply no_hyphen_count in Hf.
    + now rewrite count_hyphens_upper.
    + now rewrite count_hyphens_apply_mask.
Qed.

Lemma WordCase_chunk_shape L reg m npl cnt k cw c c' o lr :
  keeps (shape (CaseCount L)) m ->
  WordCase_chunk L reg m npl cnt k cw c = Ok (c', o, lr) ->
  shape (CaseCount L) cw (NameCases o).
Proof.
  intros Hm H.
  destruct (WordCase_chunk_forms _ _ _ _ _ _ _ _ _ _ _ H)
    as (o_ncw & norm & forms & _ & -> & [(_ & Em & -> & _) | [-> _]]).
  - apply setNameCases_shape.
    destruct (Hm _ _ _ Em) as [_ HQ].
    rewrite workingWord_setWorkingWord in HQ. now apply HQ.
  - apply setNameCases_shape, shape_repeat.
Qed.

Lemma WordCase_chunks_shape L reg m npl cnt :
  keeps (shape (CaseCount L)) m ->
  forall cur_words k c lr c' ws lr',
    WordCase_chunks L reg m npl cnt k cur_words c lr = Ok (c', ws, lr') ->
    Forall2 (fun cw o => shape (CaseCount L) cw (NameCases o)) cur_words ws.
Proof.
  intros Hm cur_words.
  induction cur_words as [| cw cur_words IH]; intros k c lr c' ws lr' H;
    simpl in H.
  - inversion H. constructor.
  - unfold JS.bind in H.
    destruct (WordCase_chunk L reg m npl cnt k cw c)
      as [[[c1 o] lr1] | e] eqn:E1; [| discriminate].
    destruct (WordCase_chunks L reg m npl cnt (S k) cur_words c1 lr1)
      as [[[c2 os] lr2] | e] eqn:E2; [| discriminate].
    inversion H; subst. constructor.
    + eapply WordCase_chunk_shape; eauto.
    + eapply IH; eauto.
Qed.

(** The forms [WordCase] stores for a word, from the chunks' word
    objects. *)
Lemma WordCase_result L reg c w c' w' :
  WordCase L reg c w = Ok (c', w') ->
  exists m ws c0 lr,
    declension_method L
      (if fst (NCLNameCaseWord.gender w) =? NCL.MAN then man else woman)
      (namePart w) = Some m
    /\ WordCase_chunks L reg m (namePart w)
         (List.length (split hyphen (word_orig w))) 0
         (split hyphen (word_orig w)) c0 (-1) = Ok (c', ws, lr)
    /\ NameCases w' = glue_all ws
    /\ rule w' = lr
    /\ word_orig w' = word_orig w.
Proof.
  unfold WordCase. intros H.
  destruct (gender_word w) as (Ho & Hp & _).
  destruct (NCLNameCaseWord.gender w) as [g w0]. cbn [fst snd] in *.
  unfold getNamePart, getWordOrig in H. rewrite Ho, Hp in H.
  destruct (declension_method L _ (namePart w)) as [m |] eqn:Em;
    [| discriminate].
  unfold JS.bind in H.
  destruct (WordCase_chunks _ _ _ _ _ _ _ _ _) as [[[c1 ws] lr] | e] eqn:Ec;
    [| discriminate].
  inversion H; subst. exists m, ws, c, lr.
  repeat split; auto.
Qed.

Lemma WordCase_shape L reg :
  (forall g p m, declension_method L g p = Some m ->
                 keeps (shape (CaseCount L)) m) ->
  forall c w c' w',
    WordCase L reg c w = Ok (c', w') ->
    List.length (NameCases w') = CaseCount L
    /\ Forall (fun f => count_hyphens f = count_hyphens (word_orig w))
              (NameCases w').
Proof.
  intros HL c w c' w' H.
  destruct (WordCase_result _ _ _ _ _ _ H) as (m & ws & c0 & lr & Em & Ec & -> & _).
  pose proof (WordCase_chunks_shape L reg m _ _ (HL _ _ _ Em) _ _ _ _ _ _ _ Ec)
    as Hws.
  pose proof (split_no_hyphen (word_orig w)) as Hnh.
  pose proof (split_length (word_orig w)) as Hlen.
  assert (Hall : Forall (fun o => List.length (NameCases o) = CaseCount L
                     /\ Forall (fun f => no_hyphen f = true) (NameCases o)) ws).
  { clear - Hws Hnh. induction Hws as [| cw o cws ws [Hl Hf] _ IH].
    - constructor.
    - inversion Hnh; subst. constructor; auto. }
  pose proof (Forall2_length Hws) as Hcount. rewrite Hlen in Hcount.
  destruct ws as [| o ws]; [discriminate |].
  inversion Hall as [| ? ? [Ho1 Ho2] Hrest]; subst.
  rewrite glue_all_fold. split.
  - apply glue_fold_length; auto.
    eapply Forall_impl; [| exact Hrest]. now intros ? [? _].
  - replace (count_hyphens (word_orig w)) with (0 + List.length ws)%nat
      by (simpl in Hcount; lia).
    apply (glue_fold_count (CaseCount L)); auto.
    eapply Forall_impl; [| exact Ho2]. intros f Hf. now apply no_hyphen_count.
Qed.

End WordCaseShape.


(** ** The two language modules keep the shape of the forms *)

Section LangShape.
Context {JN : JSNumber}.

Lemma ru_lang_shape g p m :
  declension_method NCLNameCaseRu.lang g p = Some m ->
  keeps (shape (CaseCount NCLNameCaseRu.lang)) m.
Proof.
  intros H. destruct g, p as [[] |]; try discriminate H;
    injection H as <-;
    [ exact ru_manFirstName_shape | exact ru_manSecondName_shape
    | exact ru_manFatherName_shape | exact ru_womanFirstName_shape
    | exact ru_womanSecondName_shape | exact ru_womanFatherName_shape ].
Qed.

Lemma ua_lang_shape g p m :
  declension_method NCLNameCaseUa.lang g p = Some m ->
  keeps (shape (CaseCount NCLNameCaseUa.lang)) m.
Proof.
  intros H. destruct g, p as [[] |]; try discriminate H;
    injection H as <-;
    [ exact (ua_chain_shape man [1; 2; 3])
    | exact (ua_chain_shape man [5; 1; 2; 3; 4])
    | exact ua_manFatherName_shape
    | exact (ua_chain_shape woman [1; 2])
    | exact (ua_chain_shape woman [3; 1])
    | exact ua_womanFatherName_shape ].
Qed.

Lemma lang_shape L g p m :
  L = NCLNameCaseRu.lang \/ L = NCLNameCaseUa.lang ->
  declension_method L g p = Some m -> keeps (shape (CaseCount L)) m.
Proof.
  intros [-> | ->]; [apply ru_lang_shape | apply ua_lang_shape].
Qed.

Lemma each_word_r_Forall (P : Word -> Prop)
      (f : Core -> Word -> Result (Core * Word)) :
  (forall c w c' w', f c w = Ok (c', w') -> P w') ->
  forall ws c c' ws',
    each_word_r f c ws = Ok (c', ws') -> Forall P ws'.
Proof.
  intros Hf ws. induction ws as [| w ws IH]; intros c c' ws' H; simpl in H.
  - inversion H. constructor.
  - unfold JS.bind in H.
    destruct (f c w) as [[c1 w1] | e] eqn:E1; [| discriminate].
    cbn [fst snd] in H.
    destruct (each_word_r f c1 ws) as [[c2 ws2] | e] eqn:E2; [| discriminate].
    inversion H; subst. constructor; eauto.
Qed.

End LangShape.

(** C6. Every word that [WordCase] has declined - by a matching rule, by
    the identity fallback or by gluing the chunks of a hyphenated word -
    stores exactly as many forms as the language has cases: 6 in the
    Russian module, 7 in the Ukrainian one; so does every word after
    [AllWordCases] has run. *)
Theorem declined_word_has_CaseCount_forms {JN : JSNumber}
        (L : Lang) (reg : NCL.Registry Lang) :
  L = NCLNameCaseRu.lang \/ L = NCLNameCaseUa.lang ->
  (CaseCount NCLNameCaseRu.lang = 6%nat /\ CaseCount NCLNameCaseUa.lang = 7%nat)
  /\ (forall c w c' w',
         WordCase L reg c w = Ok (c', w') ->
         List.length (NameCases w') = CaseCount L)
  /\ (forall c c',
         finished c = false ->
         AllWordCases L reg c = Ok c' ->
         Forall (fun w => List.length (NameCases w) = CaseCount L) (words c')).
Proof.
  intros HL. split; [split; reflexivity |].
  assert (Hword : forall c w c' w',
             WordCase L reg c w = Ok (c', w') ->
             List.length (NameCases w') = CaseCount L).
  { intros c w c' w' H.
    now destruct (WordCase_shape L reg (fun g p m => lang_shape L g p m HL)
                                 _ _ _ _ H). }
  split; [exact Hword |].
  intros c c' Hfin H. unfold AllWordCases, JS.bind in H. rewrite Hfin in H.
  destruct (prepareEverything L c) as [c1 | e]; [| discriminate].
  destruct (each_word_r (WordCase L reg) c1 (words c1)) as [[c2 ws] | e] eqn:E;
    [| discriminate].
  inversion H; subst. cbn.
  eapply each_word_r_Forall; [| exact E]. exact Hword.
Qed.

Lemma declined_word_has_CaseCount_forms_witness :
  exists c' w',
    WordCase NCLNameCaseRu.lang concreteClasses init petrov_vodkin
    = Ok (c', w')
    /\ List.length (NameCases w') = 6%nat.
Proof.
  destruct (WordCase NCLNameCaseRu.lang concreteClasses init petrov_vodkin)
    as [[c' w'] | e] eqn:E.
  - exists c', w'. split; [reflexivity |].
    exact (proj1 (proj2 (declined_word_has_CaseCount_forms
                           NCLNameCaseRu.lang concreteClasses
                           (or_introl eq_refl)))
                 _ _ _ _ E).
  - vm_compute in E. discriminate E.
Defined.


(** ** The nominative slot *)

Ltac nominative_leaf :=
  let Hfix := fresh "Hfix" in
  unfold nominative_unless; intros Hfix;
  first
    [ apply nominative_wordForms
    | apply nominative_repeat; cbv; lia
    | exfalso; unfold fixed_literal in Hfix;
      apply orb_false_elim in Hfix as [? ?]; congruence ].

Section RuNominative.
Context {JN : JSNumber}.
Import NCLNameCaseRu.

Let Q := nominative_unless fixed_literal.

Lemma ru_rules_nominative gender ruleID m :
  rules gender ruleID = Some m -> keeps Q m.
Proof.
  intros H. table_entry H;
    match goal with
    | |- keeps _ manRule1 => unfold manRule1
    | |- keeps _ manRule2 => unfold manRule2
    | |- keeps _ manRule3 => unfold manRule3
    | |- keeps _ manRule4 => unfold manRule4
    | |- keeps _ manRule5 => unfold manRule5
    | |- keeps _ manRule6 => unfold manRule6
    | |- keeps _ manRule7 => unfold manRule7
    | |- keeps _ manRule8 => unfold manRule8
    | |- keeps _ womanRule1 => unfold womanRule1
    | |- keeps _ womanRule2 => unfold womanRule2
    | |- keeps _ womanRule3 => unfold womanRule3
    | |- keeps _ womanRule4 => unfold womanRule4
    end; unfold Q; prove_keeps nominative_leaf.
Qed.

Lemma ru_chain_nominative gender rulesArray :
  keeps Q (RulesChain rules gender rulesArray).
Proof. apply keeps_RulesChain. apply ru_rules_nominative. Qed.

Lemma ru_lang_nominative g p m :
  declension_method lang g p = Some m -> keeps Q m.
Proof.
  intros H. destruct g, p as [[] |]; try discriminate H; injection H as <-;
    cbn [NCLNameCaseCore.manFirstName NCLNameCaseCore.womanFirstName
         NCLNameCaseCore.manSecondName NCLNameCaseCore.womanSecondName
         NCLNameCaseCore.manFatherName NCLNameCaseCore.womanFatherName lang];
    try apply ru_chain_nominative.
  - unfold manFirstName, Q.
    prove_keeps_with nominative_leaf ru_chain_nominative.
  - unfold manFatherName, Q. prove_keeps nominative_leaf.
  - unfold womanFatherName, Q. prove_keeps nominative_leaf.
Qed.

(** The classifier of the Russian module changes nothing of a word but
    its type. *)
Lemma ru_detectNamePart_sets_part (c : Core) (w : Word) :
  exists p, snd (detectNamePart c w) = setNamePart w p.
Proof.
  unfold detectNamePart. cbv zeta.
  repeat match goal with
         | |- context [let '(_, _) := ?x in _] => destruct x
         end.
  repeat match goal with
         | |- context [if ?b then _ else _] => destruct b
         end; eexists; reflexivity.
Qed.

End RuNominative.


Section UaNominative.
Context {JN : JSNumber}.
Import NCLNameCaseUa.

Let Q := nominative_unless none_fixed.

Lemma ua_rules_nominative gender ruleID m :
  rules gender ruleID = Some m -> keeps Q m.
Proof.
  intros H. table_entry H;
    match goal with
    | |- keeps _ manRule1 => unfold manRule1
    | |- keeps _ manRule2 => unfold manRule2
    | |- keeps _ manRule3 => unfold manRule3
    | |- keeps _ manRule4 => unfold manRule4
    | |- keeps _ manRule5 => unfold manRule5
    | |- keeps _ womanRule1 => unfold womanRule1
    | |- keeps _ womanRule2 => unfold womanRule2
    | |- keeps _ womanRule3 => unfold womanRule3
    end; unfold Q; prove_keeps nominative_leaf.
Qed.

Lemma ua_chain_nominative gender rulesArray :
  keeps Q (RulesChain rules gender rulesArray).
Proof. apply keeps_RulesChain. apply ua_rules_nominative. Qed.

Lemma ua_lang_nominative g p m :
  declension_method lang g p = Some m -> keeps Q m.
Proof.
  intros H. destruct g, p as [[] |]; try discriminate H; injection H as <-;
    cbn [NCLNameCaseCore.manFirstName NCLNameCaseCore.womanFirstName
         NCLNameCaseCore.manSecondName NCLNameCaseCore.womanSecondName
         NCLNameCaseCore.manFatherName NCLNameCaseCore.womanFatherName lang];
    try apply ua_chain_nominative.
  - unfold manFatherName, Q. prove_keeps nominative_leaf.
  - unfold womanFatherName, Q. prove_keeps nominative_leaf.
Qed.

End UaNominative.

Section WordCaseNominative.
Context {JN : JSNumber}.

(** With the registry of the package, the word object of a chunk keeps
    the mask of the chunk, and the registry never fails. *)
Lemma is_norm_rules_package npl cnt k cw :
  exists o_ncw norm,
    is_norm_rules concreteClasses npl cnt k cw (new cw) = Ok (o_ncw, norm)
    /\ letterMask o_ncw = mask_of cw
    /\ isUpperCase o_ncw = all_upper cw.
Proof.
  destruct (new_fields cw) as (Hm & Hu & _).
  unfold is_norm_rules.
  destruct npl as [[] |]; try (do 2 eexists; split; [reflexivity | now split]).
  destruct ((1 <? cnt)%nat && (k <? cnt - 1)%nat);
    [| do 2 eexists; split; [reflexivity | now split] ].
  destruct (negb _); [| do 2 eexists; split; [reflexivity | now split] ].
  change (NCL.getConcreteClass concreteClasses "ru")
    with (Some NCLNameCaseRu.lang).
  cbn [detectNamePart NCLNameCaseRu.lang].
  destruct (ru_detectNamePart_sets_part init (new cw)) as [p ->].
  do 2 eexists. split; [reflexivity |]. now split.
Qed.

(** Restoring the mask of a chunk on forms that start with the chunk
    gives the chunk back in the nominative slot. *)
Lemma setNameCases_nominative (cw : jsstring) (o : Word)
      (forms : list jsstring) :
  letterMask o = mask_of cw -> isUpperCase o = all_upper cw ->
  nominative cw forms ->
  nominative cw (NameCases (setNameCases o forms true)).
Proof.
  unfold nominative. intros Hm Hu Hn.
  rewrite setNameCases_masked, Hm, Hu.
  destruct forms as [| f forms]; [discriminate |].
  injection Hn as ->.
  destruct (all_upper cw) eqn:E; simpl.
  - now rewrite toUpperCase_all_upper.
  - now rewrite apply_mask_self.
Qed.

Lemma WordCase_chunk_nominative L fixed m npl cnt k cw c c' o lr :
  (1 <= CaseCount L)%nat ->
  keeps (nominative_unless fixed) m ->
  fixed cw = false ->
  WordCase_chunk L concreteClasses m npl cnt k cw c = Ok (c', o, lr) ->
  nominative cw (NameCases o).
Proof.
  intros Hcc Hm Hfix H.
  destruct (WordCase_chunk_forms _ _ _ _ _ _ _ _ _ _ _ H)
    as (o_ncw & norm & forms & En & -> & Hforms).
  destruct (is_norm_rules_package npl cnt k cw) as (o1 & n1 & En' & Hmask & Hup).
  rewrite En in En'. injection En' as <- <-.
  apply setNameCases_nominative; auto.
  destruct Hforms as [(_ & Em & -> & _) | [-> _]].
  - destruct (Hm _ _ _ Em) as [_ HQ].
    rewrite workingWord_setWorkingWord in HQ. now apply HQ.
  - now apply nominative_repeat.
Qed.

End WordCaseNominative.


(** ** Hyphenated words, case by case *)

Section Positional.
Context {JN : JSNumber}.

Lemma glue_nth (result : list jsstring) :
  forall namecases i r n,
    nth_error result i = Some r -> nth_error namecases i = Some n ->
    nth_error (glue result namecases) i = Some (r ++ hyphen :: n).
Proof.
  induction result as [| a result IH]; intros [| b namecases] [| i] r n Hr Hn;
    simpl in *; try discriminate.
  - now injection Hr as ->; injection Hn as ->.
  - now apply IH.
Qed.

Lemma glue_fold_nth (cc : nat) (ws : list Word) (i : nat) :
  (i < cc)%nat ->
  Forall (fun o => List.length (NameCases o) = cc) ws ->
  forall acc a,
    nth_error acc i = Some a ->
    nth_error (fold_left glue_step ws acc) i
    = Some (a ++ behind_hyphens (map (fun o => nth i (NameCases o) []) ws)).
Proof.
  intros Hi. induction 1 as [| o ws Ho Hws IH]; intros acc a Ha.
  - simpl. now rewrite app_nil_r.
  - cbn [fold_left map].
    destruct (nth_error_in_range (NameCases o) i) as [n En]; [lia |].
    rewrite (IH (glue_step acc o) (a ++ hyphen :: n)).
    + unfold behind_hyphens. simpl.
      rewrite (nth_error_nth _ _ _ En). now rewrite <- app_assoc.
    + now apply glue_nth.
Qed.

Lemma glue_all_nth (cc : nat) (ws : list Word) (i : nat) :
  (i < cc)%nat -> ws <> [] ->
  Forall (fun o => List.length (NameCases o) = cc) ws ->
  nth_error (glue_all ws) i
  = Some (join [hyphen] (map (fun o => nth i (NameCases o) []) ws)).
Proof.
  intros Hi Hne Hws. destruct ws as [| o ws]; [congruence |].
  inversion Hws; subst.
  destruct (nth_error_in_range (NameCases o) i) as [n En]; [lia |].
  rewrite glue_all_fold.
  rewrite (glue_fold_nth (List.length (NameCases o)) ws i Hi H2 _ _ En).
  cbn [map]. rewrite join_hyphen. now rewrite (nth_error_nth _ _ _ En).
Qed.

(** Each chunk's word object comes from one turn of the first loop. *)
Lemma WordCase_chunks_each L reg m npl cnt :
  forall cur_words k c lr c' ws lr',
    WordCase_chunks L reg m npl cnt k cur_words c lr = Ok (c', ws, lr') ->
    Forall2 (fun cw o =>
               exists i c0 c1 r,
                 WordCase_chunk L reg m npl cnt i cw c0 = Ok (c1, o, r))
            cur_words ws.
Proof.
  intros cur_words.
  induction cur_words as [| cw cur_words IH]; intros k c lr c' ws lr' H;
    simpl in H.
  - inversion H. constructor.
  - unfold JS.bind in H.
    destruct (WordCase_chunk L reg m npl cnt k cw c)
      as [[[c1 o] lr1] | e] eqn:E1; [| discriminate].
    destruct (WordCase_chunks L reg m npl cnt (S k) cur_words c1 lr1)
      as [[[c2 os] lr2] | e] eqn:E2; [| discriminate].
    inversion H; subst. constructor; eauto 6.
Qed.

End Positional.

(** C8. The declension of a surname with [k >= 1] hyphens splits it into
    [k + 1] chunks, declines every chunk on its own - one turn of the loop
    and one word object per chunk - and joins the chunks' forms case by
    case with hyphens; every one of the forms it stores holds exactly [k]
    hyphens. *)
Theorem hyphenated_surname_keeps_its_hyphens {JN : JSNumber}
        (L : Lang) (reg : NCL.Registry Lang) (c c' : Core) (w w' : Word)
        (k : nat) :
  L = NCLNameCaseRu.lang \/ L = NCLNameCaseUa.lang ->
  namePart w = Some S_ ->
  count_hyphens (word_orig w) = k ->
  (1 <= k)%nat ->
  WordCase L reg c w = Ok (c', w') ->
  exists (m : Method) (o_cur_words : list Word),
    List.length (split hyphen (word_orig w)) = S k
    /\ Forall2 (fun cur_word o_ncw =>
                  exists i c0 c1 last_rule,
                    WordCase_chunk L reg m (Some S_) (S k) i cur_word c0
                    = Ok (c1, o_ncw, last_rule))
               (split hyphen (word_orig w)) o_cur_words
    /\ (forall i,
           (i < CaseCount L)%nat ->
           nth_error (NameCases w') i
           = Some (join [hyphen]
                        (map (fun o_ncw => nth i (NameCases o_ncw) [])
                             o_cur_words)))
    /\ List.length (NameCases w') = CaseCount L
    /\ Forall (fun form => count_hyphens form = k) (NameCases w').
Proof.
  intros HL Hp Hk Hk1 H.
  pose proof (split_length (word_orig w)) as Hlen. rewrite Hk in Hlen.
  destruct (WordCase_shape L reg (fun g p m => lang_shape L g p m HL)
                           _ _ _ _ H) as [Hcc Hcount].
  rewrite Hk in Hcount.
  destruct (WordCase_result _ _ _ _ _ _ H)
    as (m & ws & c0 & lr & Em & Ec & Hnc & _).
  rewrite Hp, Hlen in Ec. rewrite Hp in Em.
  exists m, ws. split; [exact Hlen |].
  split; [eapply WordCase_chunks_each; exact Ec |].
  split; [| split; assumption].
  intros i Hi. rewrite Hnc.
  pose proof (WordCase_chunks_shape L reg m _ _ (lang_shape L _ _ m HL Em)
                                    _ _ _ _ _ _ _ Ec) as Hws.
  apply (glue_all_nth (CaseCount L)); auto.
  - pose proof (Forall2_length Hws) as Hl. rewrite Hlen in Hl.
    destruct ws; [discriminate | discriminate].
  - clear - Hws. induction Hws as [| ? ? ? ? [Hl _] _ IH]; constructor; auto.
Qed.

Lemma hyphenated_surname_keeps_its_hyphens_witness :
  exists c' w',
    WordCase NCLNameCaseRu.lang concreteClasses init petrov_vodkin
    = Ok (c', w')
    /\ Forall (fun form => count_hyphens form = 1%nat) (NameCases w')
    /\ nth_error (NameCases w') 4 = Some (U "Петровым-Водкиным").
Proof.
  destruct (WordCase NCLNameCaseRu.lang concreteClasses init petrov_vodkin)
    as [[c' w'] | e] eqn:E.
  - exists c', w'. split; [reflexivity |].
    destruct (hyphenated_surname_keeps_its_hyphens
                NCLNameCaseRu.lang concreteClasses init c' petrov_vodkin w' 1
                (or_introl eq_refl) eq_refl eq_refl (le_n 1) E)
      as (m & ws & _ & _ & _ & _ & Hcount).
    split; [exact Hcount |].
    vm_compute in E. injection E as _ <-. reflexivity.
  - vm_compute in E. discriminate E.
Defined.


(** ** The nominative slot and the fallback *)

Section Fallback.
Context {JN : JSNumber}.


Lemma RulesChain_no_match rules gender rulesArray c :
  (forall ruleID, In ruleID rulesArray ->
                  exists m, rules gender ruleID = Some m
                            /\ m c = Ok (false, c)) ->
  RulesChain rules gender rulesArray c = Ok (false, c).
Proof.
  induction rulesArray as [| ruleID rest IH]; intros H; simpl.
  - reflexivity.
  - destruct (H ruleID (or_introl eq_refl)) as (m & -> & Em).
    unfold JS.bind. rewrite Em. cbn [fst snd].
    apply IH. intros r Hr. apply H. now right.
Qed.

End Fallback.

(** ** The rules see the working word and nothing else *)

Ltac prove_blind :=
  let c1 := fresh "c1" in
  let c2 := fresh "c2" in
  let Hw := fresh "Hw" in
  let Hr := fresh "Hr" in
  let Hres := fresh "Hres" in
  intros c1 c2 (Hw & Hr & Hres);
  unfold Last, wordForms, makeResultTheSame, Rule; cbv zeta;
  rewrite ?Hw;
  repeat first
    [ progress cbn [JS.bind JS.unbound]
    | match goal with
      | |- context [if ?b then _ else _] => destruct b
      end ];
  first
    [ reflexivity
    | split; [reflexivity |]; unfold same_view; cbn;
      rewrite ?Hw, ?Hr, ?Hres; repeat split; reflexivity ].

Section Blind.
Context {JN : JSNumber}.

Lemma blind_RulesChain (rules : GenderTag -> Z -> option Method)
      (gender : GenderTag) :
  (forall ruleID m, rules gender ruleID = Some m -> blind m) ->
  forall rulesArray, blind (RulesChain rules gender rulesArray).
Proof.
  intros Hrules rulesArray.
  induction rulesArray as [| ruleID rest IH]; intros c1 c2 Hv; simpl.
  - now split.
  - destruct (rules gender ruleID) as [m |] eqn:Em; [| reflexivity].
    pose proof (Hrules _ _ Em c1 c2 Hv) as Hm. unfold JS.bind.
    destruct (m c1) as [[b1 c1'] | e1], (m c2) as [[b2 c2'] | e2];
      try contradiction; [| exact Hm].
    destruct Hm as [<- Hv']. cbn [fst snd].
    destruct b1; [now split | apply IH; assumption].
Qed.

Lemma ru_rules_blind gender ruleID m :
  NCLNameCaseRu.rules gender ruleID = Some m -> blind m.
Proof.
  intros H. table_entry H;
    match goal with
    | |- blind NCLNameCaseRu.manRule1 => unfold NCLNameCaseRu.manRule1
    | |- blind NCLNameCaseRu.manRule2 => unfold NCLNameCaseRu.manRule2
    | |- blind NCLNameCaseRu.manRule3 => unfold NCLNameCaseRu.manRule3
    | |- blind NCLNameCaseRu.manRule4 => unfold NCLNameCaseRu.manRule4
    | |- blind NCLNameCaseRu.manRule5 => unfold NCLNameCaseRu.manRule5
    | |- blind NCLNameCaseRu.manRule6 => unfold NCLNameCaseRu.manRule6
    | |- blind NCLNameCaseRu.manRule7 => unfold NCLNameCaseRu.manRule7
    | |- blind NCLNameCaseRu.manRule8 => unfold NCLNameCaseRu.manRule8
    | |- blind NCLNameCaseRu.womanRule1 => unfold NCLNameCaseRu.womanRule1
    | |- blind NCLNameCaseRu.womanRule2 => unfold NCLNameCaseRu.womanRule2
    | |- blind NCLNameCaseRu.womanRule3 => unfold NCLNameCaseRu.womanRule3
    | |- blind NCLNameCaseRu.womanRule4 => unfold NCLNameCaseRu.womanRule4
    end; prove_blind.
Qed.

Lemma ua_rules_blind gender ruleID m :
  NCLNameCaseUa.rules gender ruleID = Some m -> blind m.
Proof.
  intros H. table_entry H;
    match goal with
    | |- blind NCLNameCaseUa.manRule1 => unfold NCLNameCaseUa.manRule1
    | |- blind NCLNameCaseUa.manRule2 => unfold NCLNameCaseUa.manRule2
    | |- blind NCLNameCaseUa.manRule3 => unfold NCLNameCaseUa.manRule3
    | |- blind NCLNameCaseUa.manRule4 => unfold NCLNameCaseUa.manRule4
    | |- blind NCLNameCaseUa.manRule5 => unfold NCLNameCaseUa.manRule5
    | |- blind NCLNameCaseUa.womanRule1 => unfold NCLNameCaseUa.womanRule1
    | |- blind NCLNameCaseUa.womanRule2 => unfold NCLNameCaseUa.womanRule2
    | |- blind NCLNameCaseUa.womanRule3 => unfold NCLNameCaseUa.womanRule3
    end; prove_blind.
Qed.

Lemma lang_blind (L : Lang) g p m :
  L = NCLNameCaseRu.lang \/ L = NCLNameCaseUa.lang ->
  declension_method L g p = Some m -> blind m.
Proof.
  intros [-> | ->] H; destruct g, p as [[] |]; try discriminate H;
    injection H as <-;
    cbn [NCLNameCaseCore.manFirstName NCLNameCaseCore.womanFirstName
         NCLNameCaseCore.manSecondName NCLNameCaseCore.womanSecondName
         NCLNameCaseCore.manFatherName NCLNameCaseCore.womanFatherName
         NCLNameCaseRu.lang NCLNameCaseUa.lang];
    try (apply blind_RulesChain;
         first [apply ru_rules_blind | apply ua_rules_blind]).
  - unfold NCLNameCaseRu.manFirstName.
    intros c1 c2 Hv. pose proof Hv as (Hw & Hr & Hres). rewrite Hw.
    destruct (inNames (workingWord c2) [U "Старший"; U "Младший"]).
    { split; [reflexivity |]. unfold same_view, wordForms. cbn.
      now rewrite Hw, Hr. }
    destruct (inNames (workingWord c2) [U "Мариа"]).
    { split; [reflexivity |]. unfold same_view, wordForms. cbn.
      now rewrite Hw, Hr. }
    exact (blind_RulesChain _ _ (ru_rules_blind man) _ c1 c2 Hv).
  - unfold NCLNameCaseRu.manFatherName. prove_blind.
  - unfold NCLNameCaseRu.womanFatherName. prove_blind.
  - unfold NCLNameCaseUa.manFatherName. prove_blind.
  - unfold NCLNameCaseUa.womanFatherName. prove_blind.
Qed.

Lemma WordCase_chunk_blind L reg m npl cnt k cw (c1 c2 : Core) :
  blind m ->
  match WordCase_chunk L reg m npl cnt k cw c1,
        WordCase_chunk L reg m npl cnt k cw c2 with
  | Ok (_, o1, lr1), Ok (_, o2, lr2) => o1 = o2 /\ lr1 = lr2
  | Err e1, Err e2 => e1 = e2
  | _, _ => False
  end.
Proof.
  intros Hm. unfold WordCase_chunk, JS.bind.
  destruct (is_norm_rules reg npl cnt k cw (new cw)) as [[o norm] | e];
    [| reflexivity].
  cbn [fst snd]. destruct norm; [| now split].
  assert (Hv : same_view (setWorkingWord c1 cw) (setWorkingWord c2 cw))
    by (repeat split).
  pose proof (Hm _ _ Hv) as H.
  destruct (m (setWorkingWord c1 cw)) as [[b1 c1'] | e1],
           (m (setWorkingWord c2 cw)) as [[b2 c2'] | e2];
    try contradiction; [| exact H].
  destruct H as (<- & _ & Hr & Hres). cbn [fst snd].
  destruct b1; [now rewrite Hr, Hres | now split].
Qed.

Lemma WordCase_chunks_blind L reg m npl cnt :
  blind m ->
  forall cur_words k c1 c2 lr,
    match WordCase_chunks L reg m npl cnt k cur_words c1 lr,
          WordCase_chunks L reg m npl cnt k cur_words c2 lr with
    | Ok (_, ws1, lr1), Ok (_, ws2, lr2) => ws1 = ws2 /\ lr1 = lr2
    | Err e1, Err e2 => e1 = e2
    | _, _ => False
    end.
Proof.
  intros Hm cur_words.
  induction cur_words as [| cw cur_words IH]; intros k c1 c2 lr; simpl.
  - now split.
  - pose proof (WordCase_chunk_blind L reg m npl cnt k cw c1 c2 Hm) as H.
    unfold JS.bind.
    destruct (WordCase_chunk L reg m npl cnt k cw c1) as [[[c1' o1] lr1] | e1],
             (WordCase_chunk L reg m npl cnt k cw c2) as [[[c2' o2] lr2] | e2];
      try contradiction; [| exact H].
    destruct H as [<- <-].
    specialize (IH (S k) c1' c2' lr1).
    destruct (WordCase_chunks L reg m npl cnt (S k) cur_words c1' lr1)
      as [[[d1 ws1] l1] | e1],
      (WordCase_chunks L reg m npl cnt (S k) cur_words c2' lr1)
      as [[[d2 ws2] l2] | e2];
      try contradiction; [| exact IH].
    destruct IH as [<- <-]. now split.
Qed.

Lemma WordCase_blind (L : Lang) (reg : NCL.Registry Lang)
      (c1 c2 : Core) (w1 w2 : Word) :
  L = NCLNameCaseRu.lang \/ L = NCLNameCaseUa.lang ->
  word_orig w1 = word_orig w2 ->
  namePart w1 = namePart w2 ->
  fst (NCLNameCaseWord.gender w1) = fst (NCLNameCaseWord.gender w2) ->
  forms_outcome (WordCase L reg c1 w1) = forms_outcome (WordCase L reg c2 w2).
Proof.
  intros HL Ho Hp Hg. unfold WordCase.
  destruct (gender_word w1) as (Ho1 & Hp1 & _).
  destruct (gender_word w2) as (Ho2 & Hp2 & _).
  destruct (NCLNameCaseWord.gender w1) as [g1 v1].
  destruct (NCLNameCaseWord.gender w2) as [g2 v2].
  cbn [fst snd] in *. subst g2.
  unfold getNamePart, getWordOrig. rewrite Hp1, Hp2, Ho1, Ho2, <- Hp, <- Ho.
  destruct (declension_method L _ (namePart w1)) as [m |] eqn:Em;
    [| reflexivity].
  pose proof (WordCase_chunks_blind L reg m (namePart w1)
                (List.length (split hyphen (word_orig w1)))
                (lang_blind L _ _ m HL Em)
                (split hyphen (word_orig w1)) 0%nat c1 c2 (-1)) as H.
  unfold JS.bind.
  destruct (WordCase_chunks L reg m (namePart w1) _ 0 _ c1 (-1))
    as [[[d1 ws1] l1] | e1],
    (WordCase_chunks L reg m (namePart w1) _ 0 _ c2 (-1))
    as [[[d2 ws2] l2] | e2];
    try contradiction.
  - destruct H as [<- <-]. reflexivity.
  - cbn. now rewrite H.
Qed.

End Blind.

(** ** The chain of rules, and the word no rule matches *)

Section ChainOrder.
Context {JN : JSNumber}.




End ChainOrder.

Section WholeWordFallback.
Context {JN : JSNumber}.










End WholeWordFallback.



(** The whole word "Гюго": six times the word, rule number -1. *)
Example hugo_is_left_alone :
  exists c' w',
    WordCase NCLNameCaseRu.lang concreteClasses init hugo = Ok (c', w')
    /\ NameCases w' = repeat (U "Гюго") 6
    /\ rule w' = -1.
Proof.
  destruct (WordCase NCLNameCaseRu.lang concreteClasses init hugo)
    as [[c2 w2] | e] eqn:E.
  - exists c2, w2. split; [reflexivity |].
    vm_compute in E. injection E as _ <-. split; reflexivity.
  - vm_compute in E. discriminate E.
Qed.

(** ** The nominative slot, chunk by chunk *)

Lemma lower_unit_cyrillic (u v : N) :
  lower_unit u = v -> (1072 <= v <= 1103)%N -> u = v \/ u = (v - 32)%N.
Proof.
  unfold lower_unit. intros H Hv.
  destruct (N.leb_spec 65 u), (N.leb_spec u 90); cbn [andb] in H; try lia;
    destruct (N.leb_spec 1040 u), (N.leb_spec u 1071); cbn [andb] in H;
    try lia;
    destruct (N.leb_spec 1024 u), (N.leb_spec u 1039); cbn [andb] in H;
    try lia;
    destruct (N.eqb_spec u 1168); lia.
Qed.

Lemma app_same_length {A} (a b x y : list A) :
  List.length a = List.length b -> a ++ x = b ++ y -> a = b /\ x = y.
Proof.
  revert b. induction a as [| u a IH]; intros [| v b] Hl H; simpl in *;
    try discriminate; auto.
  injection H as -> H. injection Hl as Hl.
  destruct (IH b Hl H) as [-> ->]. auto.
Qed.

Lemma behind_hyphens_same_lengths (xs ys : list jsstring) :
  Forall2 (fun x y => List.length x = List.length y) xs ys ->
  behind_hyphens xs = behind_hyphens ys -> xs = ys.
Proof.
  induction 1 as [| x y xs ys Hl Hrest IH]; intros H; [reflexivity |].
  unfold behind_hyphens in H. cbn [flat_map] in H.
  injection H as H.
  destruct (app_same_length _ _ _ _ Hl H) as [-> H'].
  f_equal. now apply IH.
Qed.

Lemma join_same_lengths (xs ys : list jsstring) :
  Forall2 (fun x y => List.length x = List.length y) xs ys ->
  join [hyphen] xs = join [hyphen] ys -> xs = ys.
Proof.
  intros H. destruct H as [| x y xs ys Hl Hrest]; [reflexivity |].
  rewrite !join_hyphen. intros H.
  destruct (app_same_length _ _ _ _ Hl H) as [-> H'].
  f_equal. now apply behind_hyphens_same_lengths.
Qed.

Section NominativeExactly.
Context {JN : JSNumber}.

(** What is known of the first form of a chunk: it has the length of the
    chunk, and is the chunk unless [exc] sets the chunk apart. *)
Let first_form (exc : jsstring -> bool) (cw : jsstring) (o : Word) : Prop :=
  NameCases o <> []
  /\ List.length (hd [] (NameCases o)) = List.length cw
  /\ (hd [] (NameCases o) = cw <-> exc cw = false).

Lemma first_form_nominative exc cw o :
  exc cw = false -> nominative cw (NameCases o) -> first_form exc cw o.
Proof.
  unfold nominative, first_form. intros He Hn.
  destruct (NameCases o) as [| f forms]; [discriminate |].
  injection Hn as ->. cbn. split; [discriminate |]. split; [reflexivity |].
  tauto.
Qed.

Lemma glue_all_heads (ws : list Word) :
  ws <> [] ->
  Forall (fun o => NameCases o <> []) ws ->
  nth_error (glue_all ws) 0
  = Some (join [hyphen] (map (fun o => hd [] (NameCases o)) ws)).
Proof.
  intros Hne Hall. destruct ws as [| o ws]; [congruence |].
  inversion Hall as [| ? ? Ho Hws]; subst.
  rewrite glue_all_fold. cbn [map]. rewrite join_hyphen.
  apply glue_fold_first.
  - clear - Hws. induction Hws as [| o' ws Ho' _ IH]; cbn [map];
      constructor; auto.
    destruct (NameCases o'); [congruence | reflexivity].
  - destruct (NameCases o); [congruence | reflexivity].
Qed.

Lemma nominative_iff_chunks exc (cur_words : list jsstring) (ws : list Word) :
  Forall2 (first_form exc) cur_words ws ->
  cur_words <> [] ->
  (nth_error (glue_all ws) 0 = Some (join [hyphen] cur_words)
   <-> existsb exc cur_words = false).
Proof.
  intros H Hne.
  assert (Hws : ws <> []) by (destruct H; congruence).
  assert (Hall : Forall (fun o => NameCases o <> []) ws).
  { clear - H. induction H as [| ? ? ? ? [Ho _] _ IH]; constructor; auto. }
  rewrite (glue_all_heads ws Hws Hall).
  assert (Hlen : Forall2 (fun x y => List.length x = List.length y)
                         (map (fun o => hd [] (NameCases o)) ws) cur_words).
  { clear - H. induction H as [| ? ? ? ? (_ & Hl & _) _ IH]; cbn [map];
      constructor; auto. }
  assert (Heq : map (fun o => hd [] (NameCases o)) ws = cur_words
                <-> existsb exc cur_words = false).
  { clear - H. induction H as [| cw o cws ws (_ & _ & Hiff) _ IH];
      cbn [map existsb]; [tauto |].
    rewrite orb_false_iff, <- IH, <- Hiff. split.
    - intros [= -> ->]. auto.
    - intros [-> ->]. reflexivity. }
  rewrite <- Heq. split.
  - intros [= Hj]. now apply join_same_lengths.
  - now intros ->.
Qed.

(** The first forms of the chunks of a word declined by [WordCase]. *)
Lemma WordCase_first_forms L exc c w c' w' :
  (forall m cnt k cw c0 c1 o lr,
      declension_method L (gender_tag w) (namePart w) = Some m ->
      WordCase_chunk L concreteClasses m (namePart w) cnt k cw c0
      = Ok (c1, o, lr) ->
      first_form exc cw o) ->
  WordCase L concreteClasses c w = Ok (c', w') ->
  (nth_error (NameCases w') 0 = Some (word_orig w)
   <-> existsb exc (split hyphen (word_orig w)) = false).
Proof.
  intros Hchunk H.
  destruct (WordCase_result _ _ _ _ _ _ H)
    as (m & ws & c0 & lr & Em & Ec & -> & _).
  pose proof (WordCase_chunks_each _ _ _ _ _ _ _ _ _ _ _ _ Ec) as Heach.
  rewrite <- (join_split (word_orig w)) at 1.
  apply nominative_iff_chunks; [| apply split_not_nil].
  clear - Heach Hchunk Em.
  induction Heach as [| cw o cws ws (i & c0 & c1 & r & Hc) _ IH];
    constructor; auto.
  eapply Hchunk; eauto.
Qed.

End NominativeExactly.

Section RuNominativeExactly.
Context {JN : JSNumber}.
Import NCLNameCaseRu.

Let Q0 := nominative_unless none_fixed.

Lemma keeps_RulesChain_in (Q : jsstring -> list jsstring -> Prop)
      (table : GenderTag -> Z -> option Method) (gender : GenderTag)
      (rulesArray : list Z) :
  (forall ruleID m, In ruleID rulesArray ->
                    table gender ruleID = Some m -> keeps Q m) ->
  keeps Q (RulesChain table gender rulesArray).
Proof.
  induction rulesArray as [| ruleID rest IH]; intros Hrules c c' b H;
    simpl in H.
  - inversion H; subst. split; [reflexivity | discriminate].
  - destruct (table gender ruleID) as [m |] eqn:Em; [| discriminate].
    unfold JS.bind in H.
    destruct (m c) as [[b1 c1] | e] eqn:Emc; [| discriminate].
    destruct (Hrules _ _ (or_introl eq_refl) Em _ _ _ Emc) as [Hw HQ].
    simpl in H. destruct b1.
    + inversion H; subst. split; [assumption | intros _; now apply HQ].
    + assert (Hrest : forall r m', In r rest -> table gender r = Some m' ->
                                   keeps Q m')
        by (intros r m' Hr; apply Hrules; now right).
      destruct (IH Hrest _ _ _ H) as [Hw' HQ'].
      rewrite Hw in Hw'. split; [assumption |].
      intros Hb. rewrite <- Hw. now apply HQ'.
Qed.

(** Every rule but the second masculine one puts the working word in
    the nominative slot. *)
Lemma ru_rules_nominative_but_2 gender ruleID m :
  rules gender ruleID = Some m ->
  (gender = man -> ruleID <> 2) ->
  keeps Q0 m.
Proof.
  intros H Hne. table_entry H;
    try (exfalso; now apply (Hne eq_refl));
    match goal with
    | |- keeps _ manRule1 => unfold manRule1
    | |- keeps _ manRule3 => unfold manRule3
    | |- keeps _ manRule4 => unfold manRule4
    | |- keeps _ manRule5 => unfold manRule5
    | |- keeps _ manRule6 => unfold manRule6
    | |- keeps _ manRule7 => unfold manRule7
    | |- keeps _ manRule8 => unfold manRule8
    | |- keeps _ womanRule1 => unfold womanRule1
    | |- keeps _ womanRule2 => unfold womanRule2
    | |- keeps _ womanRule3 => unfold womanRule3
    | |- keeps _ womanRule4 => unfold womanRule4
    end; unfold Q0; prove_keeps nominative_leaf.
Qed.

Lemma ru_chain_nominative_but_2 gender rulesArray :
  (gender = man -> ~ In 2 rulesArray) ->
  keeps Q0 (RulesChain rules gender rulesArray).
Proof.
  intros Hne. apply keeps_RulesChain_in. intros ruleID m Hin Em.
  apply (ru_rules_nominative_but_2 gender ruleID m Em).
  intros Hg ->. now apply Hne.
Qed.

(** The methods of the Russian module other than the one for the first
    name of a man. *)
Lemma ru_lang_nominative_exact g p m :
  declension_method lang g p = Some m ->
  (g = man -> p <> Some N_) ->
  keeps Q0 m.
Proof.
  intros H Hne. destruct g, p as [[] |]; try discriminate H;
    try (exfalso; now apply (Hne eq_refl));
    injection H as <-;
    cbn [NCLNameCaseCore.manFirstName NCLNameCaseCore.womanFirstName
         NCLNameCaseCore.manSecondName NCLNameCaseCore.womanSecondName
         NCLNameCaseCore.manFatherName NCLNameCaseCore.womanFatherName lang].
  - apply ru_chain_nominative_but_2. intros _ Hin. cbn in Hin.
    repeat destruct Hin as [Hin | Hin]; try discriminate Hin; auto.
  - unfold manFatherName, Q0. prove_keeps nominative_leaf.
  - apply ru_chain_nominative_but_2. discriminate.
  - apply ru_chain_nominative_but_2. discriminate.
  - unfold womanFatherName, Q0. prove_keeps nominative_leaf.
Qed.

(** The chunks that are "Павел" or "Лев" up to letter case. *)
Lemma fixed_literal_spelled (cw : jsstring) :
  fixed_literal cw = true ->
  (exists u1 u2 u3 u4 u5,
      cw = [u1; u2; u3; u4; u5]
      /\ (u1 = 1087 \/ u1 = 1055)%N /\ (u2 = 1072 \/ u2 = 1040)%N
      /\ (u3 = 1074 \/ u3 = 1042)%N /\ (u4 = 1077 \/ u4 = 1045)%N
      /\ (u5 = 1083 \/ u5 = 1051)%N)
  \/ (exists u1 u2 u3,
         cw = [u1; u2; u3]
         /\ (u1 = 1083 \/ u1 = 1051)%N /\ (u2 = 1077 \/ u2 = 1045)%N
         /\ (u3 = 1074 \/ u3 = 1042)%N).
Proof.
  unfold fixed_literal, inNames. cbn [existsb]. rewrite !orb_false_r.
  intros H. apply orb_true_iff in H as [H | H]; apply str_eqb_eq in H.
  - left. change (toLowerCase (U "Павел"))
      with [1087; 1072; 1074; 1077; 1083]%N in H.
    destruct cw as [| u1 [| u2 [| u3 [| u4 [| u5 [| u6 cw]]]]]];
      try discriminate H.
    cbn in H. injection H as H1 H2 H3 H4 H5.
    exists u1, u2, u3, u4, u5. split; [reflexivity |].
    repeat split;
      match goal with
      | |- (?u = _ \/ _)%N =>
          match goal with
          | Hu : lower_unit u = _ |- _ =>
              apply lower_unit_cyrillic in Hu; [exact Hu | lia]
          end
      end.
  - right. change (toLowerCase (U "Лев")) with [1083; 1077; 1074]%N in H.
    destruct cw as [| u1 [| u2 [| u3 [| u4 cw]]]]; try discriminate H.
    cbn in H. injection H as H1 H2 H3.
    exists u1, u2, u3. split; [reflexivity |].
    repeat split;
      match goal with
      | |- (?u = _ \/ _)%N =>
          match goal with
          | Hu : lower_unit u = _ |- _ =>
              apply lower_unit_cyrillic in Hu; [exact Hu | lia]
          end
      end.
Qed.

Ltac literal_chunk H :=
  vm_compute in H; injection H as _ <- _;
  split; [discriminate |];
  split; [reflexivity |];
  vm_compute; split; intros Heq; first [reflexivity | discriminate Heq].

(** The first form stored for such a chunk by the method for the first
    name of a man. *)
Lemma ru_manFirstName_literal_chunk reg cnt k cw c c' o lr :
  fixed_literal cw = true ->
  WordCase_chunk lang reg manFirstName (Some N_) cnt k cw c = Ok (c', o, lr) ->
  NameCases o <> []
  /\ List.length (hd [] (NameCases o)) = List.length cw
  /\ (hd [] (NameCases o) = cw <-> lower_case_literal cw = false).
Proof.
  intros Hfix H.
  destruct (fixed_literal_spelled cw Hfix)
    as [(u1 & u2 & u3 & u4 & u5 & -> & H1 & H2 & H3 & H4 & H5)
       | (u1 & u2 & u3 & -> & H1 & H2 & H3)].
  - destruct H1 as [-> | ->], H2 as [-> | ->], H3 as [-> | ->],
             H4 as [-> | ->], H5 as [-> | ->]; literal_chunk H.
  - destruct H1 as [-> | ->], H2 as [-> | ->], H3 as [-> | ->];
      literal_chunk H.
Qed.

End RuNominativeExactly.

Section NominativeOfTheModules.
Context {JN : JSNumber}.

Lemma modules_differ : NCLNameCaseUa.lang <> NCLNameCaseRu.lang.
Proof. intros H. apply (f_equal CaseCount) in H. discriminate H. Qed.

Lemma lower_case_literal_is_fixed (cw : jsstring) :
  fixed_literal cw = false -> lower_case_literal cw = false.
Proof.
  unfold lower_case_literal. intros ->.
  now rewrite andb_false_r.
Qed.

Lemma WordCase_nominative_exactly (L : Lang) (c c' : Core) (w w' : Word) :
  L = NCLNameCaseRu.lang \/ L = NCLNameCaseUa.lang ->
  WordCase L concreteClasses c w = Ok (c', w') ->
  (nth_error (NameCases w') 0 = Some (word_orig w)
   <-> ~ literal_replaces_the_word L w).
Proof.
  intros HL H.
  assert (Halways :
            (forall m, declension_method L (gender_tag w) (namePart w) = Some m ->
                       keeps (nominative_unless none_fixed) m) ->
            (1 <= CaseCount L)%nat ->
            nth_error (NameCases w') 0 = Some (word_orig w)).
  { intros Hm Hcc.
    apply (WordCase_first_forms L (fun _ => false) c w c' w'); [| exact H |].
    - intros m cnt k cw c0 c1 o lr Em Hc.
      apply (first_form_nominative (fun _ => false) cw o eq_refl).
      eapply (WordCase_chunk_nominative L none_fixed); eauto.
    - clear. induction (split hyphen (word_orig w)); auto. }
  destruct HL as [-> | ->].
  - destruct (gender_tag w) eqn:Eg;
      [destruct (namePart w) as [[] |] eqn:Ep |].
    + (* the first name of a man *)
      rewrite (WordCase_first_forms NCLNameCaseRu.lang lower_case_literal
                 c w c' w'); [| | exact H].
      * unfold literal_replaces_the_word. rewrite Eg, Ep.
        destruct (existsb lower_case_literal (split hyphen (word_orig w))).
        -- split; [discriminate |]. intros Hn. exfalso. apply Hn.
           repeat split; reflexivity.
        -- split; [| reflexivity]. intros _ (_ & _ & _ & Hn).
           discriminate Hn.
      * rewrite Eg, Ep. intros m cnt k cw c0 c1 o lr [= <-] Hc.
        destruct (fixed_literal cw) eqn:Efix.
        -- exact (ru_manFirstName_literal_chunk _ _ _ _ _ _ _ _ Efix Hc).
        -- apply (first_form_nominative lower_case_literal cw o
                      (lower_case_literal_is_fixed cw Efix)).
           apply (WordCase_chunk_nominative NCLNameCaseRu.lang fixed_literal
                    NCLNameCaseRu.manFirstName (Some N_) cnt k cw c0 c1 o lr);
             auto.
           ++ cbv; lia.
           ++ apply (ru_lang_nominative man (Some N_)). reflexivity.
    + split; [| intros _; apply Halways; [| cbv; lia]].
      * intros _ (_ & _ & Hp & _). congruence.
      * intros m Em. apply (ru_lang_nominative_exact _ _ _ Em).
        intros _. discriminate.
    + split; [| intros _; apply Halways; [| cbv; lia]].
      * intros _ (_ & _ & Hp & _). congruence.
      * intros m Em. apply (ru_lang_nominative_exact _ _ _ Em).
        intros _. discriminate.
    + split; [| intros _; apply Halways; [| cbv; lia]].
      * intros _ (_ & _ & Hp & _). congruence.
      * intros m Em. apply (ru_lang_nominative_exact _ _ _ Em).
        intros _. discriminate.
    + split; [| intros _; apply Halways; [| cbv; lia]].
      * intros _ (_ & Hg & _). congruence.
      * intros m Em. apply (ru_lang_nominative_exact _ _ _ Em).
        discriminate.
  - split; [| intros _; apply Halways; [| cbv; lia]].
    + intros _ (Hl & _). now apply modules_differ.
    + intros m Em. exact (ua_lang_nominative _ _ _ Em).
Qed.

End NominativeOfTheModules.

(** C9, as stated, fails. The first form stored for "Тарас" is "Тарас",
    not the lower-cased "тарас"; and the first form stored by the Russian
    module for "павел" is the literal "Павел". *)
Lemma nominative_slot_is_not_the_lowercased_text :
  (exists c' w',
      WordCase NCLNameCaseUa.lang concreteClasses init taras = Ok (c', w')
      /\ word taras = U "тарас"
      /\ nth_error (NameCases w') 0 = Some (U "Тарас")
      /\ nth_error (NameCases w') 0 <> Some (word taras))
  /\ (exists c' w',
         WordCase NCLNameCaseRu.lang concreteClasses init pavel_lower
         = Ok (c', w')
         /\ word pavel_lower = U "павел"
         /\ nth_error (NameCases w') 0 = Some (U "Павел")
         /\ nth_error (NameCases w') 0 <> Some (word pavel_lower)).
Proof.
  split.
  - destruct (WordCase NCLNameCaseUa.lang concreteClasses init taras)
      as [[c' w'] | e] eqn:E; [| vm_compute in E; discriminate E].
    exists c', w'. split; [reflexivity |].
    vm_compute in E. injection E as _ <-.
    split; [reflexivity |]. split; [reflexivity |].
    vm_compute. discriminate.
  - destruct (WordCase NCLNameCaseRu.lang concreteClasses init pavel_lower)
      as [[c' w'] | e] eqn:E; [| vm_compute in E; discriminate E].
    exists c', w'. split; [reflexivity |].
    vm_compute in E. injection E as _ <-.
    split; [reflexivity |]. split; [reflexivity |].
    vm_compute. discriminate.
Qed.

(** C9, amended. The first form stored for a word by the Russian or the
    Ukrainian module is the word's text as it was supplied, letter case
    included, with one exception, and only that one: the Russian module
    declines the word as the first name of a man, and one of its chunks
    is "Павел" or "Лев" written with a lower-case first letter and a
    lower-case last letter ("павел", "лЕв"). For such a chunk the rule
    stores its literal list, whose first form starts with a capital that
    the letter mask of the chunk does not take back. *)
Theorem nominative_slot_is_the_original_text {JN : JSNumber}
        (L : Lang) (c c' : Core) (w w' : Word) :
  L = NCLNameCaseRu.lang \/ L = NCLNameCaseUa.lang ->
  WordCase L concreteClasses c w = Ok (c', w') ->
  (nth_error (NameCases w') 0 = Some (word_orig w)
   <-> ~ literal_replaces_the_word L w).
Proof. apply WordCase_nominative_exactly. Qed.

Lemma nominative_slot_is_the_original_text_witness :
  exists c' w',
    WordCase NCLNameCaseRu.lang concreteClasses init
             (a_word "ПАВЕЛ-Лев" N_ NCL.MAN) = Ok (c', w')
    /\ nth_error (NameCases w') 0 = Some (U "ПАВЕЛ-Лев").
Proof.
  destruct (WordCase NCLNameCaseRu.lang concreteClasses init
                     (a_word "ПАВЕЛ-Лев" N_ NCL.MAN))
    as [[c' w'] | e] eqn:E; [| vm_compute in E; discriminate E].
  exists c', w'. split; [reflexivity |].
  apply (proj2 (nominative_slot_is_the_original_text
                  NCLNameCaseRu.lang init c' _ w' (or_introl eq_refl) E)).
  intros (_ & _ & _ & Hex). vm_compute in Hex. discriminate Hex.
Defined.

(** The exception at work: "пАВЕл" comes back as "ПАВЕл", and the surname
    "павел" of a man, which the rule for first names does not see, as
    "павел". *)
Example nominative_slot_examples :
  forms_of NCLNameCaseRu.lang (a_word "пАВЕл" N_ NCL.MAN)
  = Some [U "ПАВЕл"; U "ПАВЛа"; U "ПАВЛу"; U "ПАВЛа"; U "ПАВЛом"; U "ПАВЛе"]
  /\ option_map (fun forms => nth_error forms 0)
                (forms_of NCLNameCaseRu.lang (a_word "павел" S_ NCL.MAN))
     = Some (Some (U "павел")).
Proof. vm_compute. split; reflexivity. Qed.


(** ** The chunks of a surname, one by one *)

Section SurnameChunks.
Context {JN : JSNumber}.

Lemma before_the_last (cnt k : nat) :
  ((1 <? cnt)%nat && (k <? cnt - 1)%nat) = (k <? cnt - 1)%nat.
Proof.
  destruct (Nat.ltb_spec 1 cnt), (Nat.ltb_spec k (cnt - 1)); cbn; auto; lia.
Qed.

Lemma excluded_test (cur_word : jsstring) :
  arr_includes exclusion (toLowerCase cur_word)
  = str_eqb (toLowerCase cur_word) (U "тулуз").
Proof. unfold arr_includes, exclusion. cbn [existsb]. apply orb_false_r. Qed.

(** Restoring the letter case reads the mask and the upper-case flag of
    the word object, not its type. *)
Lemma setNameCases_typed (w : Word) (p : Part) (forms : list jsstring) :
  NameCases (setNameCases (setNamePart w p) forms true)
  = NameCases (setNameCases w forms true).
Proof. now rewrite !setNameCases_masked. Qed.

(** One turn of the first loop of [WordCase] on a surname, against the
    treatment of the chunk taken on its own. *)
Lemma WordCase_chunk_alone L reg m cnt k cw c :
  blind m ->
  (forall cls, NCL.getConcreteClass reg "ru" = Some cls ->
               classifies_only cls) ->
  match WordCase_chunk L reg m (Some S_) cnt k cw c with
  | Ok (_, o, _) => Ok (NameCases o)
  | Err e => Err e
  end
  = chunk_cases L reg m cnt (k, cw).
Proof.
  intros Hm Hreg.
  unfold WordCase_chunk, is_norm_rules, chunk_cases, declines_chunk,
    chunk_alone, JS.bind.
  cbn [fst snd]. rewrite before_the_last, excluded_test.
  assert (Hv : same_view (setWorkingWord c cw) (setWorkingWord init cw))
    by (repeat split).
  pose proof (Hm _ _ Hv) as Hrun.
  assert (Hdeclined :
            forall o, (exists p, o = setNamePart (new cw) p) \/ o = new cw ->
            match
              match m (setWorkingWord c cw) with
              | Ok a =>
                  Ok (snd a,
                      setNameCases o
                        (if fst a then lastResult (snd a)
                         else repeat cw (CaseCount L)) true,
                      if fst a then lastRule (snd a) else -1)
              | Err e => Err e
              end
            with
            | Ok (_, o', _) => Ok (NameCases o')
            | Err e => Err e
            end
            = match m (setWorkingWord init cw) with
              | Ok a =>
                  Ok (NameCases
                        (setNameCases (new cw)
                           (if fst a then lastResult (snd a)
                            else repeat cw (CaseCount L)) true))
              | Err e => Err e
              end).
  { intros o Ho.
    destruct (m (setWorkingWord c cw)) as [[b1 c1] | e1],
             (m (setWorkingWord init cw)) as [[b2 c2] | e2];
      try contradiction; [| now rewrite Hrun].
    destruct Hrun as (<- & _ & _ & Hres). cbn [fst snd]. rewrite Hres.
    destruct Ho as [[p ->] | ->]; [| reflexivity].
    now rewrite setNameCases_typed. }
  destruct (k <? cnt - 1)%nat.
  - destruct (str_eqb (toLowerCase cw) (U "тулуз")); cbn [negb].
    + cbn [fst snd]. now rewrite setNameCases_self.
    + destruct (NCL.getConcreteClass reg "ru") as [cls |] eqn:Ecls;
        [| reflexivity].
      unfold typed_as_surname.
      destruct (Hreg cls eq_refl init (new cw)) as [p Hp]. rewrite Hp.
      cbn [fst snd]. unfold getNamePart.
      destruct (match namePart (setNamePart (new cw) p) with
                | Some S_ => true
                | _ => false
                end).
      * apply Hdeclined. left. now exists p.
      * cbn [fst snd]. rewrite setNameCases_typed.
        now rewrite setNameCases_self.
  - cbn [fst snd]. apply Hdeclined. now right.
Qed.

Lemma WordCase_chunks_alone L reg m cnt :
  blind m ->
  (forall cls, NCL.getConcreteClass reg "ru" = Some cls ->
               classifies_only cls) ->
  forall cur_words k c lr,
    match WordCase_chunks L reg m (Some S_) cnt k cur_words c lr with
    | Ok (_, ws, _) => Ok (map NameCases ws)
    | Err e => Err e
    end
    = map_r (chunk_cases L reg m cnt)
            (combine (seq k (List.length cur_words)) cur_words).
Proof.
  intros Hm Hreg cur_words.
  induction cur_words as [| cw cur_words IH]; intros k c lr;
    [reflexivity |].
  cbn [WordCase_chunks List.length seq combine map_r]. unfold JS.bind.
  rewrite <- (WordCase_chunk_alone L reg m cnt k cw c Hm Hreg).
  destruct (WordCase_chunk L reg m (Some S_) cnt k cw c)
    as [[[c1 o] lr1] | e]; [| reflexivity].
  rewrite <- (IH (S k) c1 lr1).
  now destruct (WordCase_chunks L reg m (Some S_) cnt (S k) cur_words c1 lr1)
    as [[[c2 ws] lr2] | e].
Qed.

(** The second loop of [WordCase], case by case. *)
Lemma glue_all_by_case (cc : nat) (ws : list Word) :
  ws <> [] ->
  Forall (fun o => List.length (NameCases o) = cc) ws ->
  glue_all ws
  = map (fun i => join [hyphen] (map (fun o => nth i (NameCases o) []) ws))
        (seq 0 cc).
Proof.
  intros Hne Hall. apply nth_error_ext. intros i.
  destruct (Nat.lt_ge_cases i cc) as [Hi | Hi].
  - rewrite (glue_all_nth cc ws i Hi Hne Hall).
    rewrite nth_error_map, nth_error_seq.
    replace (i <? cc)%nat with true by (symmetry; now apply Nat.ltb_lt).
    reflexivity.
  - assert (Hlen : List.length (glue_all ws) = cc).
    { destruct ws as [| o ws]; [congruence |].
      inversion Hall; subst. rewrite glue_all_fold.
      now apply glue_fold_length. }
    replace (nth_error (glue_all ws) i) with (@None jsstring)
      by (symmetry; apply nth_error_None; lia).
    symmetry. apply nth_error_None. rewrite length_map, length_seq. lia.
Qed.

Lemma second_name_method (L : Lang) (gender : GenderTag) :
  declension_method L gender (Some S_)
  = Some (match gender with
          | man => manSecondName L
          | woman => womanSecondName L
          end).
Proof. now destruct gender. Qed.

Lemma WordCase_by_chunks (L : Lang) (reg : NCL.Registry Lang)
      (c : Core) (w : Word) :
  L = NCLNameCaseRu.lang \/ L = NCLNameCaseUa.lang ->
  namePart w = Some S_ ->
  (forall cls, NCL.getConcreteClass reg "ru" = Some cls ->
               classifies_only cls) ->
  cases_outcome (WordCase L reg c w)
  = surname_by_chunks L reg
      (match gender_tag w with
       | man => manSecondName L
       | woman => womanSecondName L
       end)
      (word_orig w).
Proof.
  intros HL Hp Hreg. unfold WordCase, surname_by_chunks, gender_tag.
  destruct (gender_word w) as (Ho & Hp' & _).
  destruct (NCLNameCaseWord.gender w) as [g w0]. cbn [fst snd] in *.
  unfold getNamePart, getWordOrig. rewrite Hp', Ho, Hp, second_name_method.
  set (gender := if g =? NCL.MAN then man else woman).
  set (m := match gender with
            | man => manSecondName L
            | woman => womanSecondName L
            end).
  assert (Em : declension_method L gender (Some S_) = Some m)
    by apply second_name_method.
  assert (Hm : blind m) by exact (lang_blind L gender (Some S_) m HL Em).
  cbv zeta. unfold JS.bind.
  rewrite <- (WordCase_chunks_alone L reg m _ Hm Hreg
                (split hyphen (word_orig w)) 0%nat c (-1)).
  destruct (WordCase_chunks L reg m (Some S_)
              (List.length (split hyphen (word_orig w))) 0
              (split hyphen (word_orig w)) c (-1))
    as [[[c1 ws] lr] | e] eqn:Ec; [| reflexivity].
  cbn [cases_outcome]. f_equal.
  change (glue_all ws
          = map (fun i => join [hyphen]
                            (map (fun cs => nth i cs []) (map NameCases ws)))
                (seq 0 (CaseCount L))).
  pose proof (WordCase_chunks_shape L reg m _ _ (lang_shape L _ _ m HL Em)
                                    _ _ _ _ _ _ _ Ec) as Hws.
  rewrite (glue_all_by_case (CaseCount L) ws).
  - apply map_ext. intros i. now rewrite map_map.
  - pose proof (Forall2_length Hws) as Hl.
    pose proof (split_not_nil hyphen (word_orig w)) as Hne.
    destruct ws; [| discriminate].
    destruct (split hyphen (word_orig w)); [congruence | discriminate Hl].
  - clear - Hws. induction Hws as [| ? ? ? ? [Hl _] _ IH]; constructor; auto.
Qed.

(** Without a class under 'ru', the loop fails at the first chunk before
    the last that is not "тулуз". *)
Lemma WordCase_chunks_unregistered L reg m cnt cw after :
  NCL.getConcreteClass reg "ru" = None ->
  toLowerCase cw <> U "тулуз" ->
  forall before k c lr,
    Forall (fun b => toLowerCase b = U "тулуз") before ->
    (k + List.length before < cnt - 1)%nat ->
    WordCase_chunks L reg m (Some S_) cnt k (before ++ cw :: after) c lr
    = Err (TypeError "cls is not a constructor").
Proof.
  intros Hreg Hcw before.
  induction before as [| b before IH]; intros k c lr Hall Hk;
    cbn [app WordCase_chunks]; unfold JS.bind, WordCase_chunk, is_norm_rules.
  - rewrite before_the_last, excluded_test.
    replace (k <? cnt - 1)%nat with true
      by (symmetry; apply Nat.ltb_lt; cbn in Hk; lia).
    replace (str_eqb (toLowerCase cw) (U "тулуз")) with false
      by (symmetry; now apply str_eqb_neq).
    cbn [negb]. now rewrite Hreg.
  - inversion Hall as [| ? ? Hb Hrest]; subst.
    rewrite before_the_last, excluded_test.
    replace (k <? cnt - 1)%nat with true
      by (symmetry; apply Nat.ltb_lt; cbn in Hk; lia).
    replace (str_eqb (toLowerCase b) (U "тулуз")) with true
      by (symmetry; now apply str_eqb_eq).
    cbn [negb JS.bind fst snd].
    rewrite IH; [reflexivity | assumption | cbn in Hk; lia].
Qed.

Lemma WordCase_unregistered (L : Lang) (reg : NCL.Registry Lang)
      (c : Core) (w : Word) (before after : list jsstring)
      (cur_word : jsstring) :
  namePart w = Some S_ ->
  split hyphen (word_orig w) = before ++ cur_word :: after ->
  after <> [] ->
  Forall (fun b => toLowerCase b = U "тулуз") before ->
  toLowerCase cur_word <> U "тулуз" ->
  NCL.getConcreteClass reg "ru" = None ->
  WordCase L reg c w = Err (TypeError "cls is not a constructor").
Proof.
  intros Hp Hsplit Hafter Hbefore Hcw Hreg. unfold WordCase.
  destruct (gender_word w) as (Ho & Hp' & _).
  destruct (NCLNameCaseWord.gender w) as [g w0]. cbn [fst snd] in *.
  unfold getNamePart, getWordOrig. rewrite Hp', Ho, Hp, second_name_method.
  rewrite Hsplit. unfold JS.bind.
  rewrite (WordCase_chunks_unregistered L reg _ _ cur_word after Hreg Hcw);
    [reflexivity | assumption |].
  rewrite length_app. cbn [List.length].
  destruct after; [congruence | cbn [List.length]; lia].
Qed.

End SurnameChunks.

(** C10. [WordCase] declines a surname chunk by chunk, and treats every
    chunk before the last as follows, whether the engine is the Russian
    or the Ukrainian one: a chunk whose lower-case form is "тулуз" is not
    classified - the registry is not read for it - and is kept as it is in
    every case; any other chunk is classified by a fresh instance of the
    class registered under 'ru', and is declined by the method of the
    engine when that class types it as a surname, and kept as it is in
    every case otherwise. The last chunk is always declined. The forms
    stored for the word are those of the chunks, each declined on its
    own, joined with hyphens case by case, and an error raised for a
    chunk is the error of the call. When no class is registered under
    'ru', the call fails with a [TypeError] as soon as some chunk before
    the last is not "тулуз", whatever the language of the engine. *)
Theorem surname_chunks_are_classified_by_ru {JN : JSNumber} :
  (forall (L : Lang) (reg : NCL.Registry Lang) (c : Core) (w : Word),
      L = NCLNameCaseRu.lang \/ L = NCLNameCaseUa.lang ->
      namePart w = Some S_ ->
      (forall cls, NCL.getConcreteClass reg "ru" = Some cls ->
                   classifies_only cls) ->
      cases_outcome (WordCase L reg c w)
      = surname_by_chunks L reg
          (match gender_tag w with
           | man => manSecondName L
           | woman => womanSecondName L
           end)
          (word_orig w))
  /\ (forall (L : Lang) (reg : NCL.Registry Lang) (c : Core) (w : Word)
             (before after : list jsstring) (cur_word : jsstring),
         namePart w = Some S_ ->
         split hyphen (word_orig w) = before ++ cur_word :: after ->
         after <> [] ->
         Forall (fun b => toLowerCase b = U "тулуз") before ->
         toLowerCase cur_word <> U "тулуз" ->
         NCL.getConcreteClass reg "ru" = None ->
         WordCase L reg c w = Err (TypeError "cls is not a constructor")).
Proof.
  split.
  - intros L reg c w HL Hp Hreg. now apply WordCase_by_chunks.
  - intros L reg c w before after cur_word.
    apply WordCase_unregistered.
Qed.

Lemma surname_chunks_are_classified_by_ru_witness :
  cases_outcome (WordCase NCLNameCaseUa.lang concreteClasses init
                          costa_gavras)
  = Ok [U "Коста-Гаврас"; U "Коста-Гавраса"; U "Коста-Гаврасові";
        U "Коста-Гавраса"; U "Коста-Гаврасом"; U "Коста-Гаврасові";
        U "Коста-Гаврасе"]
  /\ WordCase NCLNameCaseUa.lang None init costa_gavras
     = Err (TypeError "cls is not a constructor").
Proof.
  destruct surname_chunks_are_classified_by_ru as [Hchunks Hfatal].
  split.
  - rewrite (Hchunks NCLNameCaseUa.lang concreteClasses init costa_gavras
                     (or_intror eq_refl) eq_refl).
    + vm_compute. reflexivity.
    + intros cls [= <-] c w. apply ru_detectNamePart_sets_part.
  - apply (Hfatal NCLNameCaseUa.lang None init costa_gavras
                  [] [U "Гаврас"] (U "Коста")).
    + reflexivity.
    + reflexivity.
    + discriminate.
    + constructor.
    + vm_compute. discriminate.
    + reflexivity.
Defined.

(** The same surname in the two engines, with the package's registry and
    with none; and a surname whose first chunk is "Тулуз". *)
Example surname_chunks_examples :
  forms_of NCLNameCaseRu.lang costa_gavras
  = Some [U "Коста-Гаврас"; U "Коста-Гавраса"; U "Коста-Гаврасу";
          U "Коста-Гавраса"; U "Коста-Гаврасом"; U "Коста-Гаврасе"]
  /\ cases_outcome (WordCase NCLNameCaseUa.lang None init costa_gavras)
     = Err (TypeError "cls is not a constructor")
  /\ cases_outcome (WordCase NCLNameCaseRu.lang None init
                             (a_word "Тулуз-Лотрек" S_ NCL.WOMAN))
     = Ok (repeat (U "Тулуз-Лотрек") 6).
Proof. vm_compute. repeat split. Qed.


(** ** The getters *)

Section Getters.
Context {JN : JSNumber}.

Lemma map_r_keys_raise (L : Lang) (number : option Z) (indexArray : list nat) :
  indexArray <> [] ->
  map_r (fun word => getWordCase L (ArgKey word) number) indexArray
  = Err (Error "word should be of class NCLNameCaseWord").
Proof. destruct indexArray; [congruence | reflexivity]. Qed.

Lemma getCasesConnected_keys (L : Lang) (number : option Z)
      (indexArray : list nat) :
  getCasesConnected L indexArray number
  = match indexArray with
    | [] => Ok (VString [])
    | _ :: _ => Err (Error "word should be of class NCLNameCaseWord")
    end.
Proof. destruct indexArray; reflexivity. Qed.

End Getters.

(** C1, on the code. A per-part getter first runs the declension pass;
    then it hands the entries of the part index - keys of the word list,
    not word objects - to [getWordCase], which rejects every one of them:
    the getter returns the empty string when the engine holds no word of
    that part, and raises "word should be of class NCLNameCaseWord" as
    soon as it holds one, for every case number and for [null]. *)
Theorem part_getter_raises_on_index_keys {JN : JSNumber}
        (L : Lang) (reg : NCL.Registry Lang) (c c' : Core)
        (number : option Z) (sel : Index -> list nat) :
  AllWordCases L reg c = Ok c' ->
  (forall key, getWordCase L (ArgKey key) number
               = Err (Error "word should be of class NCLNameCaseWord"))
  /\ getPartCase sel L reg c number
     = match sel (index c') with
       | [] => Ok (c', VString [])
       | _ :: _ => Err (Error "word should be of class NCLNameCaseWord")
       end.
Proof.
  intros H. split; [reflexivity |].
  unfold getPartCase, JS.bind. rewrite H, getCasesConnected_keys.
  now destruct (sel (index c')).
Qed.

Lemma part_getter_raises_on_index_keys_witness :
  (exists c', AllWordCases NCLNameCaseRu.lang concreteClasses engine_taras
              = Ok c'
              /\ index_N (index c') = [0%nat])
  /\ getFirstNameCase NCLNameCaseRu.lang concreteClasses engine_taras (Some 1)
     = Err (Error "word should be of class NCLNameCaseWord")
  /\ getFirstNameCase NCLNameCaseRu.lang concreteClasses engine_taras None
     = Err (Error "word should be of class NCLNameCaseWord").
Proof.
  destruct (AllWordCases NCLNameCaseRu.lang concreteClasses engine_taras)
    as [c' | e] eqn:E; [| vm_compute in E; discriminate E].
  pose proof (part_getter_raises_on_index_keys
                NCLNameCaseRu.lang concreteClasses engine_taras c'
                (Some 1) index_N E) as [_ H1].
  pose proof (part_getter_raises_on_index_keys
                NCLNameCaseRu.lang concreteClasses engine_taras c'
                None index_N E) as [_ H2].
  assert (Hix : index_N (index c') = [0%nat])
    by (vm_compute in E; injection E as <-; reflexivity).
  rewrite Hix in H1, H2.
  split; [exists c'; split; [reflexivity | exact Hix] |].
  split; [exact H1 | exact H2].
Defined.

(** C3, on the code. [splitFullName] calls [trim], which nothing in the
    file binds: for every engine and every text it raises a
    [ReferenceError] before a single word is appended. *)
Theorem splitFullName_raises_ReferenceError {JN : JSNumber}
        (L : Lang) (c : Core) (fullname : jsstring) :
  splitFullName L c fullname = Err (ReferenceError "trim").
Proof. reflexivity. Qed.

(** The full name of the test suite. *)
Example splitFullName_oblogin :
  splitFullName NCLNameCaseRu.lang init (U "Облогин Денис")
  = Err (ReferenceError "trim").
Proof. reflexivity. Qed.

(** ** Formatting *)

Section Formatting.
Context {JN : JSNumber}.

Lemma not_specified_iff (caseNum : option Z) :
  not_specified caseNum = true <-> caseNum = None \/ caseNum = Some 0.
Proof.
  destruct caseNum as [n |]; simpl.
  - rewrite Z.eqb_eq. split.
    + intros ->. now right.
    + intros [H | H]; [discriminate | now injection H].
  - split; auto.
Qed.

End Formatting.

Section FormattedValue.
Context {JN : JSNumber}.

Lemma AllWordCases_finished (L : Lang) (reg : NCL.Registry Lang)
      (c c' : Core) :
  AllWordCases L reg c = Ok c' ->
  finished c' = true /\ AllWordCases L reg c' = Ok c'.
Proof.
  intros H.
  assert (Hf : finished c' = true).
  { unfold AllWordCases, JS.bind in H.
    destruct (finished c) eqn:Ef; [now inversion H; subst |].
    destruct (prepareEverything L c); [| discriminate].
    destruct (each_word_r _ _ _); [| discriminate].
    now inversion H. }
  split; [exact Hf |]. unfold AllWordCases. now rewrite Hf.
Qed.

Lemma marker_test (symbol : N) (letter : string) (u : N) :
  U letter = [u] -> str_eqb [symbol] (U letter) = (symbol =? u)%N.
Proof.
  intros ->. destruct (N.eqb_spec symbol u) as [-> | Hne].
  - apply str_eqb_refl.
  - apply str_eqb_neq. congruence.
Qed.

(** On a finished engine a part getter hands back the empty string when
    the engine holds no word of the part, and raises otherwise. *)
Lemma getPartCase_finished (sel : Index -> list nat) (L : Lang)
      (reg : NCL.Registry Lang) (c : Core) (number : option Z) :
  finished c = true ->
  getPartCase sel L reg c number
  = match sel (index c) with
    | [] => Ok (c, VString [])
    | _ :: _ => Err (Error "word should be of class NCLNameCaseWord")
    end.
Proof.
  intros Hf. unfold getPartCase, AllWordCases, JS.bind.
  rewrite Hf, getCasesConnected_keys. now destruct (sel (index c)).
Qed.

Lemma is_marker_test (symbol : N) :
  is_marker symbol
  = str_eqb [symbol] (U "S") || str_eqb [symbol] (U "N")
    || str_eqb [symbol] (U "F").
Proof.
  rewrite (marker_test symbol "S" 83 eq_refl),
          (marker_test symbol "N" 78 eq_refl),
          (marker_test symbol "F" 70 eq_refl).
  unfold is_marker. change (U "SNF") with [83%N; 78%N; 70%N].
  cbn [existsb]. now rewrite orb_false_r, orb_assoc.
Qed.

(** The loop of [getFormatted] on a finished engine. *)
Lemma getFormatted_loop_finished (L : Lang) (reg : NCL.Registry Lang)
      (caseNum : Z) (c : Core) :
  finished c = true ->
  forall format result,
    getFormatted_loop L reg caseNum format c result
    = if existsb (marks_held_part c) format
      then Err (Error "word should be of class NCLNameCaseWord")
      else Ok (c, result ++ filter (fun u => negb (is_marker u)) format).
Proof.
  intros Hf format.
  induction format as [| symbol rest IH]; intros result.
  - cbn. now rewrite app_nil_r.
  - cbn [getFormatted_loop existsb filter].
    unfold getSecondNameCase, getFirstNameCase, getFatherNameCase.
    rewrite !(getPartCase_finished _ L reg c (Some caseNum) Hf).
    rewrite is_marker_test. unfold marks_held_part at 1. cbv zeta.
    destruct (str_eqb [symbol] (U "S")) eqn:ES; cbn [andb orb negb].
    { destruct (index_S (index c)); cbn [JS.bind fst snd concat_text];
        [| reflexivity].
      assert (EN : str_eqb [symbol] (U "N") = false).
      { apply str_eqb_eq in ES. injection ES as ->. reflexivity. }
      assert (EF : str_eqb [symbol] (U "F") = false).
      { apply str_eqb_eq in ES. injection ES as ->. reflexivity. }
      rewrite EN, EF. cbn [andb orb]. rewrite app_nil_r. apply IH. }
    destruct (str_eqb [symbol] (U "N")) eqn:EN; cbn [andb orb negb].
    { destruct (index_N (index c)); cbn [JS.bind fst snd concat_text];
        [| reflexivity].
      assert (EF : str_eqb [symbol] (U "F") = false).
      { apply str_eqb_eq in EN. injection EN as ->. reflexivity. }
      rewrite EF. cbn [andb orb]. rewrite app_nil_r. apply IH. }
    destruct (str_eqb [symbol] (U "F")) eqn:EF; cbn [andb orb negb].
    { destruct (index_F (index c)); cbn [JS.bind fst snd concat_text];
        [| reflexivity].
      rewrite app_nil_r. apply IH. }
    cbn [JS.bind fst snd]. rewrite IH, <- app_assoc. reflexivity.
Qed.

(** [getFormatted] with a template string, in full. *)
Lemma getFormatted_template (L : Lang) (reg : NCL.Registry Lang)
      (c : Core) (caseNum : option Z) (template : jsstring) :
  getFormatted L reg c caseNum (FString template)
  = match AllWordCases L reg c with
    | Err e => Err e
    | Ok c' =>
        if not_specified caseNum then Err (ReferenceError "index")
        else if existsb (marks_held_part c') template
        then Err (Error "word should be of class NCLNameCaseWord")
        else Ok (c', VString (filter (fun u => negb (is_marker u)) template))
    end.
Proof.
  unfold getFormatted, JS.bind.
  destruct (AllWordCases L reg c) as [c' |] eqn:E; [| reflexivity].
  destruct (not_specified caseNum); [reflexivity |].
  destruct (AllWordCases_finished L reg c c' E) as [Hf _].
  rewrite (getFormatted_loop_finished L reg _ c' Hf).
  now destruct (existsb (marks_held_part c') template).
Qed.

Lemma as_specified_only_inside (L : Lang) (reg : NCL.Registry Lang)
      (c : Core) (caseNum : option Z) (template : jsstring) :
  formatted_as_specified L reg c caseNum template ->
  returns_string (getFormatted L reg c caseNum (FString template))
  /\ exists n, caseNum = Some n /\ 1 <= n < Z.of_nat (CaseCount L).
Proof.
  unfold formatted_as_specified. cbv zeta. intros [Hs Hl].
  assert (Hnolist : ~ returns_list
                      (getFormatted L reg c caseNum (FString template))).
  { rewrite getFormatted_template. intros (c1 & cases & H).
    destruct (AllWordCases L reg c); [| discriminate].
    destruct (not_specified caseNum); [discriminate |].
    destruct (existsb _ _); discriminate. }
  assert (Hv : valid_case L caseNum).
  { destruct caseNum as [n |]; cbn in *.
    - destruct (Z_le_dec 0 n) as [H0 |];
        [destruct (Z_lt_dec n (Z.of_nat (CaseCount L))) as [H1 |] |].
      + lia.
      + exfalso. apply Hnolist, Hl. lia.
      + exfalso. apply Hnolist, Hl. lia.
    - apply Hnolist, Hl. tauto. }
  pose proof (proj2 Hs Hv) as Hr. split; [exact Hr |].
  destruct caseNum as [n |]; [| contradiction].
  exists n. split; [reflexivity |].
  destruct Hr as (c1 & s & Hr). rewrite getFormatted_template in Hr.
  destruct (AllWordCases L reg c); [| discriminate].
  destruct (not_specified (Some n)) eqn:En; [discriminate |].
  cbn in En, Hv. apply Z.eqb_neq in En. lia.
Qed.

End FormattedValue.

(** C2, on the code. Called with a template string, [getFormatted] never
    returns the list of all cases. After the declension pass, the case
    numbers [null] and 0 - the two values the guard
    [caseNum == null || !caseNum] sends to [getFormattedArray] - raise a
    [ReferenceError]: the string branch of that function reads the
    identifier [index], which nothing binds. Every other case number, in
    range or not, runs the loop over the symbols of the template: it
    raises at the first marker S, N or F of which the engine holds a word,
    and otherwise returns one string, the template without its markers.
    So the behaviour the spec describes - one string exactly for a number
    in [0, CaseCount), the list exactly for [null] and for a number out of
    range - can hold only where the call returns and the case number lies
    in [1, CaseCount): never for [null], 0, a negative number or a number
    from [CaseCount] on. *)
Theorem getFormatted_with_a_template_never_returns_the_list
        {JN : JSNumber} (L : Lang) (reg : NCL.Registry Lang) (c : Core)
        (caseNum : option Z) (template : jsstring) :
  getFormatted L reg c caseNum (FString template)
  = match AllWordCases L reg c with
    | Err e => Err e
    | Ok c' =>
        if not_specified caseNum then Err (ReferenceError "index")
        else if existsb (marks_held_part c') template
        then Err (Error "word should be of class NCLNameCaseWord")
        else Ok (c', VString (filter (fun u => negb (is_marker u)) template))
    end
  /\ (not_specified caseNum = true <-> caseNum = None \/ caseNum = Some 0)
  /\ ~ returns_list (getFormatted L reg c caseNum (FString template))
  /\ (formatted_as_specified L reg c caseNum template ->
      returns_string (getFormatted L reg c caseNum (FString template))
      /\ exists n, caseNum = Some n /\ 1 <= n < Z.of_nat (CaseCount L)).
Proof.
  split; [apply getFormatted_template |].
  split; [apply not_specified_iff |].
  split; [| apply as_specified_only_inside].
  rewrite getFormatted_template. intros (c1 & cases & H).
  destruct (AllWordCases L reg c); [| discriminate].
  destruct (not_specified caseNum); [discriminate |].
  destruct (existsb _ _); discriminate.
Qed.

Lemma getFormatted_with_a_template_never_returns_the_list_witness :
  formatted_as_specified NCLNameCaseUa.lang concreteClasses init (Some 1)
                         (U "N F S")
  /\ returns_string
       (getFormatted NCLNameCaseUa.lang concreteClasses init (Some 1)
                     (FString (U "N F S"))).
Proof.
  assert (E : getFormatted NCLNameCaseUa.lang concreteClasses init (Some 1)
                           (FString (U "N F S"))
              = Ok (set_finished
                      (set_words (set_ready (set_index init empty_index) true)
                                 []) true,
                    VString (U "  "))) by (vm_compute; reflexivity).
  assert (Hspec : formatted_as_specified NCLNameCaseUa.lang concreteClasses
                                         init (Some 1) (U "N F S")).
  { unfold formatted_as_specified. cbv zeta. rewrite E. split; split.
    - intros _. cbn. lia.
    - intros _. now do 2 eexists.
    - intros (c1 & cases & H). discriminate H.
    - intros H. exfalso. apply H. cbn. lia. }
  split; [exact Hspec |].
  exact (proj1 (proj2 (proj2 (proj2
           (getFormatted_with_a_template_never_returns_the_list
              NCLNameCaseUa.lang concreteClasses init (Some 1) (U "N F S"))))
           Hspec)).
Defined.

(** The formatting test of the repository expects the seven lines of all
    cases from [getFormatted(-1, 'N F S')] on the full name "Шевченко
    Тарас Григорович"; the call runs the loop over the template and
    raises at its first marker. With the case number 0 it raises on
    [index]; and an out-of-range number with a template that names no
    part comes back as one string. *)
Example getFormatted_of_the_test_suite :
  getFormatted NCLNameCaseUa.lang concreteClasses engine_shevchenko
               (Some (-1)) (FString (U "N F S"))
  = Err (Error "word should be of class NCLNameCaseWord")
  /\ getFormatted NCLNameCaseUa.lang concreteClasses engine_shevchenko
                  (Some 0) (FString (U "N F S"))
     = Err (ReferenceError "index")
  /\ getFormatted NCLNameCaseUa.lang concreteClasses engine_shevchenko
                  (Some 7) (FString (U "-"))
     = (c' <- AllWordCases NCLNameCaseUa.lang concreteClasses
                           engine_shevchenko ;;
        Ok (c', VString (U "-"))).
Proof. vm_compute. repeat split. Qed.


(** ** Gender resolution *)

Section Gender.
Context {JN : JSNumber}.

Lemma solveGender_sum_spec (L : Lang) (ws : list Word) :
  forall c man_ woman_,
    solveGender_sum L c ws man_ woman_
    = (fst (each_word (prepareGender L) c ws),
       inferred L c ws,
       fold_left (fun acc w => nadd acc (genderMan w))
                 (inferred L c ws) man_,
       fold_left (fun acc w => nadd acc (genderWoman w))
                 (inferred L c ws) woman_).
Proof.
  unfold inferred.
  induction ws as [| w ws IH]; intros c man_ woman_; simpl; [reflexivity |].
  destruct (prepareGender L c w) as [c1 w1]. rewrite IH.
  destruct (each_word (prepareGender L) c1 ws) as [c2 ws']. reflexivity.
Qed.

Lemma each_word_length (f : Core -> Word -> Core * Word) (ws : list Word) :
  forall c, List.length (snd (each_word f c ws)) = List.length ws.
Proof.
  induction ws as [| w ws IH]; intros c; simpl; [reflexivity |].
  destruct (f c w) as [c1 w1]. specialize (IH c1).
  destruct (each_word f c1 ws). simpl in *. now rewrite IH.
Qed.

Lemma gender_of_solved (w : Word) :
  isGenderSolved w = true ->
  fst (NCLNameCaseWord.gender w) = genderSolved w.
Proof.
  unfold isGenderSolved, NCLNameCaseWord.gender.
  now destruct (genderSolved w =? 0).
Qed.

End Gender.

(** C4. When some word already carries a solved gender, [solveGender]
    gives the gender of the first such word to every word. Otherwise it
    runs the gender inference of the language on every word - by the
    word's type - adds up the masculine rates and the feminine rates of
    all words, and gives every word the gender [MAN] when the masculine
    total is strictly greater than the feminine total and [WOMAN]
    otherwise, a tie included. *)
Theorem solveGender_resolves_one_gender {JN : JSNumber}
        (L : Lang) (c : Core) :
  words (solveGender L c)
  = match find isGenderSolved (words c) with
    | Some solved =>
        map (fun w => setTrueGender w (genderSolved solved)) (words c)
    | None =>
        let ws := inferred L c (words c) in
        let gender :=
          if ngtb (total genderMan ws) (total genderWoman ws)
          then NCL.MAN else NCL.WOMAN in
        map (fun w => setTrueGender w gender) ws
    end
  /\ (forall c0 w,
         isGenderSolved w = false ->
         prepareGender L c0 w
         = match getNamePart w with
           | Some N_ => GenderByFirstName L c0 w
           | Some F_ => GenderByFatherName L c0 w
           | Some S_ => GenderBySecondName L c0 w
           | None => (c0, w)
           end)
  /\ (forall a b, ngtb a b = false ->
                  (if ngtb a b then NCL.MAN else NCL.WOMAN) = NCL.WOMAN)
  /\ List.length (inferred L c (words c)) = List.length (words c).
Proof.
  split.
  - unfold solveGender.
    destruct (find isGenderSolved (words c)) as [solved |] eqn:Ef.
    + apply find_some in Ef as [_ Hs].
      now rewrite (gender_of_solved _ Hs).
    + rewrite solveGender_sum_spec. cbv zeta. unfold total.
      now destruct (ngtb _ _).
  - split.
    + intros c0 w Hw. unfold prepareGender. now rewrite Hw.
    + split; [now intros a b -> |].
      apply each_word_length.
Qed.

Lemma solveGender_resolves_one_gender_witness :
  find isGenderSolved (words engine_sasha) = None
  /\ map genderSolved
         (words (solveGender NCLNameCaseRu.lang engine_sasha)) = [NCL.WOMAN].
Proof.
  split; [reflexivity |].
  rewrite (proj1 (solveGender_resolves_one_gender
                    NCLNameCaseRu.lang engine_sasha)).
  vm_compute. reflexivity.
Defined.

(** "Тарас": masculine total 0.01 against 0. "Саша": 0 against 0, a tie,
    which resolves to [WOMAN]. *)
Example solveGender_taras_sasha :
  map genderSolved
      (words (solveGender NCLNameCaseRu.lang engine_taras)) = [NCL.MAN]
  /\ map genderSolved
         (words (solveGender NCLNameCaseRu.lang engine_sasha)) = [NCL.WOMAN]
  /\ map (fun w => (genderMan w, genderWoman w))
         (inferred NCLNameCaseRu.lang engine_sasha (words engine_sasha))
     = [(0%float, 0%float)].
Proof. vm_compute. repeat split. Qed.

(** The rates are doubles: the sum of 0.2 and 0.4 is not 0.6 but the
    double next above it. *)
Example rates_are_doubles :
  ngtb (nadd (nlit 2 1) (nlit 4 1)) (nlit 6 1) = true
  /\ neqb (nadd (nlit 1 1) (nlit 2 1)) (nlit 3 1) = false
  /\ neqb (nlit 25 2) (nadd (nlit 125 3) (nlit 125 3)) = true.
Proof. repeat split. Qed.

(** ** The memo table of [Last] *)

Section LastMemo.
Context {JN : JSNumber}.

Lemma coherent_empty (w : jsstring) : coherent w [].
Proof. intros l s v H. discriminate H. Qed.

(** The table is never observable: a coherent table answers as [Last]
    does, and stays coherent. *)
Lemma Last_memo_spec (w : jsstring) (cache : LastCache) (length stopAfter : Z) :
  coherent w cache ->
  fst (Last_memo w cache length stopAfter) = Last_of w length stopAfter
  /\ coherent w (snd (Last_memo w cache length stopAfter)).
Proof.
  intros Hc. unfold Last_memo.
  destruct (cache_get cache length stopAfter) as [v |] eqn:E; simpl.
  - split; [now apply Hc | assumption].
  - split; [reflexivity |].
    intros l s v H. simpl in H.
    destruct ((length =? l) && (stopAfter =? s)) eqn:Ek.
    + apply andb_true_iff in Ek as [E1 E2].
      apply Z.eqb_eq in E1, E2. subst. now injection H as <-.
    + now apply Hc.
Qed.

End LastMemo.


(** ** The loops of the Ukrainian module end within their bound *)

Section UaLoops.
Context {JN : JSNumber}.
Import NCLNameCaseUa.

Lemma substr_init_length (s : jsstring) :
  List.length (NCLStr.substr s 0 (NCLStr.strlen s - 1))
  = (List.length s - 1)%nat.
Proof.
  unfold NCLStr.substr, NCLStr.strlen, JS.range, JS.strlen.
  set (n := List.length s).
  destruct (Nat.eq_dec n 0) as [E | E].
  - assert (s = []) by (now apply length_zero_iff_nil). subst s. reflexivity.
  - clamp. range_is 0%nat (n - 1)%nat.
    rewrite length_firstn. simpl. fold n. lia.
Qed.

Lemma substr_last_of_empty : NCLStr.substr [] (-1) 1 = [].
Proof. reflexivity. Qed.

(** One more turn than the length of the word changes nothing. *)
Lemma getOsnova_loop_bound (turns : nat) :
  forall osnova,
    (List.length osnova <= turns)%nat ->
    getOsnova_loop (S turns) osnova = getOsnova_loop turns osnova.
Proof.
  induction turns as [| turns IH]; intros osnova H.
  - assert (osnova = []) by (apply length_zero_iff_nil; lia). subst.
    reflexivity.
  - change (getOsnova_loop (S (S turns)) osnova)
      with (if in_str (NCLStr.substr osnova (-1) 1) (vowels ++ U "ь")
            then getOsnova_loop (S turns)
                   (NCLStr.substr osnova 0 (NCLStr.strlen osnova - 1))
            else osnova).
    change (getOsnova_loop (S turns) osnova)
      with (if in_str (NCLStr.substr osnova (-1) 1) (vowels ++ U "ь")
            then getOsnova_loop turns
                   (NCLStr.substr osnova 0 (NCLStr.strlen osnova - 1))
            else osnova).
    destruct (in_str _ _); [| reflexivity].
    apply IH. rewrite substr_init_length. lia.
Qed.

Lemma getOsnova_any_bound (word : jsstring) (extra : nat) :
  getOsnova_loop (List.length word + extra) word = getOsnova word.
Proof.
  unfold getOsnova. induction extra as [| extra IH].
  - now rewrite Nat.add_0_r.
  - rewrite Nat.add_succ_r, getOsnova_loop_bound by lia. exact IH.
Qed.

Lemma detect2Group_loop_bound (turns : nat) :
  forall osnova stack,
    (List.length osnova <= turns)%nat ->
    detect2Group_loop (S turns) osnova stack
    = detect2Group_loop turns osnova stack.
Proof.
  induction turns as [| turns IH]; intros osnova stack H.
  - assert (osnova = []) by (apply length_zero_iff_nil; lia). subst.
    reflexivity.
  - change (detect2Group_loop (S (S turns)) osnova stack)
      with (if in_str (NCLStr.substr osnova (-1) 1) (vowels ++ U "ь")
            then detect2Group_loop (S turns)
                   (NCLStr.substr osnova 0 (NCLStr.strlen osnova - 1))
                   (stack ++ [NCLStr.substr osnova (-1) 1])
            else (osnova, stack)).
    change (detect2Group_loop (S turns) osnova stack)
      with (if in_str (NCLStr.substr osnova (-1) 1) (vowels ++ U "ь")
            then detect2Group_loop turns
                   (NCLStr.substr osnova 0 (NCLStr.strlen osnova - 1))
                   (stack ++ [NCLStr.substr osnova (-1) 1])
            else (osnova, stack)).
    destruct (in_str _ _); [| reflexivity].
    apply IH. rewrite substr_init_length. lia.
Qed.

End UaLoops.

(** ** The Ukrainian declension always returns *)

Ltac returns_leaf :=
  intros ?; cbv zeta;
  repeat match goal with
         | |- context [if ?b then _ else _] => destruct b
         end;
  do 2 eexists; reflexivity.

Section UaReturns.
Context {JN : JSNumber}.
Import NCLNameCaseUa.

Lemma RulesChain_returns rules gender rulesArray :
  Forall (fun ruleID => exists m, rules gender ruleID = Some m
                                  /\ always_returns m) rulesArray ->
  always_returns (RulesChain rules gender rulesArray).
Proof.
  induction 1 as [| ruleID rest (m & Em & Hm) _ IH]; intros c; simpl.
  - now exists false, c.
  - rewrite Em. unfold JS.bind.
    destruct (Hm c) as (b & c1 & ->). cbn [fst snd].
    destruct b; [now exists true, c1 | apply IH].
Qed.

Lemma ua_rules_return gender ruleID m :
  rules gender ruleID = Some m -> always_returns m.
Proof.
  intros H. table_entry H;
    match goal with
    | |- always_returns manRule1 => unfold manRule1
    | |- always_returns manRule2 => unfold manRule2
    | |- always_returns manRule3 => unfold manRule3
    | |- always_returns manRule4 => unfold manRule4
    | |- always_returns manRule5 => unfold manRule5
    | |- always_returns womanRule1 => unfold womanRule1
    | |- always_returns womanRule2 => unfold womanRule2
    | |- always_returns womanRule3 => unfold womanRule3
    end; returns_leaf.
Qed.

Lemma ua_chain_returns gender rulesArray :
  Forall (fun ruleID => rules gender ruleID <> None) rulesArray ->
  always_returns (RulesChain rules gender rulesArray).
Proof.
  intros H. apply RulesChain_returns.
  eapply Forall_impl; [| exact H]. cbv beta. intros ruleID Hr.
  destruct (rules gender ruleID) as [m |] eqn:Em; [| congruence].
  exists m. split; [reflexivity |]. eapply ua_rules_return; eassumption.
Qed.

Lemma ua_lang_returns g p m :
  declension_method lang g p = Some m -> always_returns m.
Proof.
  intros H. destruct g, p as [[] |]; try discriminate H; injection H as <-;
    cbn [NCLNameCaseCore.manFirstName NCLNameCaseCore.womanFirstName
         NCLNameCaseCore.manSecondName NCLNameCaseCore.womanSecondName
         NCLNameCaseCore.manFatherName NCLNameCaseCore.womanFatherName lang];
    try (apply ua_chain_returns; repeat constructor; discriminate).
  - unfold manFatherName. returns_leaf.
  - unfold womanFatherName. returns_leaf.
Qed.

Lemma WordCase_chunks_return L m npl cnt :
  always_returns m ->
  forall cur_words k c lr,
    exists c' ws lr',
      WordCase_chunks L concreteClasses m npl cnt k cur_words c lr
      = Ok (c', ws, lr').
Proof.
  intros Hm cur_words.
  induction cur_words as [| cw cur_words IH]; intros k c lr; simpl.
  - now exists c, [], lr.
  - unfold WordCase_chunk, JS.bind.
    destruct (is_norm_rules_package npl cnt k cw) as (o & norm & -> & _).
    cbn [fst snd].
    destruct norm.
    + destruct (Hm (setWorkingWord c cw)) as (b & c1 & ->). cbn [fst snd].
      match goal with
      | |- context [WordCase_chunks L concreteClasses m npl cnt (S k)
                                    cur_words ?c2 ?r] =>
          destruct (IH (S k) c2 r) as (c3 & ws & lr3 & ->)
      end.
      now do 3 eexists.
    + cbn [fst snd].
      match goal with
      | |- context [WordCase_chunks L concreteClasses m npl cnt (S k)
                                    cur_words ?c2 ?r] =>
          destruct (IH (S k) c2 r) as (c3 & ws & lr3 & ->)
      end.
      now do 3 eexists.
Qed.

(** With the registry of the package, the Ukrainian engine declines every
    word that has a type. *)
Lemma ua_WordCase_returns (c : Core) (w : Word) :
  namePart w <> None ->
  exists c' w', WordCase lang concreteClasses c w = Ok (c', w').
Proof.
  intros Hp. unfold WordCase.
  destruct (gender_word w) as (_ & Hpart & _).
  destruct (NCLNameCaseWord.gender w) as [g w0]. cbn [snd] in Hpart.
  unfold getNamePart. rewrite Hpart.
  destruct (declension_method lang _ (namePart w)) as [m |] eqn:Em.
  - destruct (WordCase_chunks_return lang m (namePart w)
                (List.length (split hyphen (getWordOrig w0)))
                (ua_lang_returns _ _ _ Em)
                (split hyphen (getWordOrig w0)) 0%nat c (-1))
      as (c' & ws & lr & E).
    unfold JS.bind. rewrite E. now do 2 eexists.
  - destruct (namePart w) as [[] |]; [| | | congruence];
      destruct (g =? NCL.MAN); discriminate Em.
Qed.

End UaReturns.

(** ** The scenarios of the test suite, word by word *)

(** "Шевченко Тарас Григорович" in Ukrainian: the genitive is
    "Шевченка Тараса Григоровича", the vocative "Шевченче Тарасе
    Григоровичу". *)
Example ua_shevchenko_taras_hryhorovych :
  forms_of NCLNameCaseUa.lang shevchenko
  = Some [U "Шевченко"; U "Шевченка"; U "Шевченкові"; U "Шевченка";
          U "Шевченком"; U "Шевченкові"; U "Шевченче"]
  /\ forms_of NCLNameCaseUa.lang taras
     = Some [U "Тарас"; U "Тараса"; U "Тарасові"; U "Тараса"; U "Тарасом";
             U "Тарасові"; U "Тарасе"]
  /\ forms_of NCLNameCaseUa.lang hryhorovych
     = Some [U "Григорович"; U "Григоровича"; U "Григоровичу";
             U "Григоровича"; U "Григоровичем"; U "Григоровичу";
             U "Григоровичу"].
Proof. vm_compute. repeat split. Qed.

(** "Облогин Денис" in Russian: the genitive is "Облогина Дениса". *)
Example ru_oblogin_denis :
  forms_of NCLNameCaseRu.lang (a_word "Облогин" S_ NCL.MAN)
  = Some [U "Облогин"; U "Облогина"; U "Облогину"; U "Облогина";
          U "Облогиным"; U "Облогине"]
  /\ forms_of NCLNameCaseRu.lang (a_word "Денис" N_ NCL.MAN)
     = Some [U "Денис"; U "Дениса"; U "Денису"; U "Дениса"; U "Денисом";
             U "Денисе"].
Proof. vm_compute. repeat split. Qed.

(** The Russian rule for masculine surnames in [к] reaches [in_array],
    which the file does not bind, for a surname in [ек]. *)
Example ru_lautrec_raises :
  WordCase NCLNameCaseRu.lang concreteClasses init lautrec
  = Err (ReferenceError "in_array").
Proof. vm_compute. reflexivity. Qed.


(** ** The unit tests of the repository, on the model *)

(** [test/testNCLNameCaseCore.js]: [Last(9)] and [Last(9, 7)]. *)
Example test_Last :
  Last_of (U "ЧерезТинНогуЗадерищенко") 9 0 = U "дерищенко"
  /\ Last_of (U "ЧерезТинНогуЗадерищенко") 9 7 = U "дерищен".
Proof. vm_compute. split; reflexivity. Qed.

(** The word tests: the fields of a fresh word, and [returnMask] on the
    forms of "Орел". *)
Example test_word_fields :
  word (new (U "Тарас")) = U "тарас"
  /\ word_orig (new (U "Тарас")) = U "Тарас"
  /\ letterMask (new (U "Тарас")) = [mask_X; mask_x; mask_x; mask_x; mask_x]
  /\ isUpperCase (new (U "Тарас")) = false
  /\ NameCases (new (U "Тарас")) = [].
Proof. vm_compute. repeat split. Qed.

Example test_setNameCases :
  NameCases (setNameCases (new (U "Орел"))
               [U "орел"; U "орла"; U "орлові"; U "орла"; U "орлом";
                U "орлові"; U "орле"] true)
  = [U "Орел"; U "Орла"; U "Орлові"; U "Орла"; U "Орлом"; U "Орлові";
     U "Орле"].
Proof. vm_compute. reflexivity. Qed.

(** The tests of the Ukrainian helpers. Of the words listed for the soft
    group, "армія" is left out: the code puts it in group 1. *)
Example test_detect2Group :
  map (fun s => NCLNameCaseUa.detect2Group (U s))
      ["береза"; "дорога"; "Дніпро"; "шлях"; "віз"; "село"; "яблуко"]%string
  = [1; 1; 1; 1; 1; 1; 1]
  /\ map (fun s => NCLNameCaseUa.detect2Group (U s))
         ["пожежа"; "пуща"; "тиша"; "алича"; "вуж"; "кущ"; "плющ"; "ключ";
          "плече"; "прізвище"]%string
     = [2; 2; 2; 2; 2; 2; 2; 2; 2; 2]
  /\ map (fun s => NCLNameCaseUa.detect2Group (U s))
         ["земля"; "зоря"; "сім’я"; "серпень"; "фахівець"; "трамвай";
          "сузір’я"; "насіння"; "узвишшя"]%string
     = [3; 3; 3; 3; 3; 3; 3; 3; 3].
Proof. vm_compute. repeat split. Qed.

Example test_getOsnova :
  map (fun s => NCLNameCaseUa.getOsnova (U s))
      ["батечку"; "матінко"; "цілую"; "ваші"; "руки"]%string
  = [U "батечк"; U "матінк"; U "ціл"; U "ваш"; U "рук"].
Proof. vm_compute. reflexivity. Qed.

Example test_FirstLastVowel :
  map (fun s => NCLNameCaseUa.FirstLastVowel (U s) NCLNameCaseUa.vowels)
      ["береза"; "море"; "мати"; "яблуко"; "любчику"]%string
  = [Some (U "а"); Some (U "е"); Some (U "и"); Some (U "о"); Some (U "у")].
Proof. vm_compute. reflexivity. Qed.

Example test_isApostrof :
  forallb (fun c => negb (NCLNameCaseUa.isApostrof [c]))
          (U " бвгджзйклмнпрстфхцчшщаеиоуіїєюя") = true
  /\ forallb (fun c => NCLNameCaseUa.isApostrof [c]) (U "ґь") = true.
Proof. vm_compute. split; reflexivity. Qed.

Example test_inverseGKH :
  map NCLNameCaseUa.inverseGKH [U "г"; U "к"; U "х"] = [U "з"; U "ц"; U "с"].
Proof. vm_compute. reflexivity. Qed.

Example rule_name_example : rule_name man 9 = "manRule9"%string.
Proof. reflexivity. Qed.

(* ================================================================== *)
(** * Further properties of the code *)

(** ** [Last]: the letters at the end of the working word *)

Section LastSuffix.

Lemma Last_of_suffix (pre suf : jsstring) :
  suf <> [] -> Last_of (pre ++ suf) (JS.strlen suf) 0 = suf.
Proof.
  intros Hs. unfold Last_of, slice, JS.range, JS.strlen.
  rewrite length_app.
  assert (0 < List.length suf)%nat by (destruct suf; simpl; [congruence | lia]).
  cbn [Z.gtb Z.compare]. clamp.
  range_is (List.length pre) (List.length suf).
  rewrite skipn_app, skipn_all, Nat.sub_diag. simpl.
  apply firstn_all.
Qed.

Lemma Last_of_suffix_cut (pre suf : jsstring) (k : Z) :
  suf <> [] -> 0 < k ->
  Last_of (pre ++ suf) (JS.strlen suf) k = firstn (Z.to_nat k) suf.
Proof.
  intros Hs Hk. unfold Last_of, slice, JS.range, JS.strlen.
  rewrite length_app.
  assert (0 < List.length suf)%nat by (destruct suf; simpl; [congruence | lia]).
  replace (k >? 0) with true by (symmetry; apply Z.gtb_lt; lia).
  clamp.
  range_is (List.length pre) (Nat.min (Z.to_nat k) (List.length suf)).
  rewrite skipn_app, skipn_all, Nat.sub_diag. simpl.
  now rewrite <- firstn_firstn, firstn_all.
Qed.

Lemma Last_of_whole (w : jsstring) (n : Z) :
  n = 0 \/ JS.strlen w <= n -> Last_of w n 0 = w.
Proof.
  intros H. unfold Last_of, slice, JS.range, JS.strlen in *.
  cbn [Z.gtb Z.compare].
  destruct H as [-> | H].
  - simpl. clamp. rewrite Z.sub_0_r, Nat2Z.id. apply firstn_all.
  - destruct (Z.ltb_spec (- n) 0).
    + clamp. rewrite Z.sub_0_r, Nat2Z.id. apply firstn_all.
    + assert (List.length w = 0%nat) by lia.
      assert (w = []) by (now apply length_zero_iff_nil). subst. 
      now destruct (Z.to_nat _), (Z.to_nat _).
Qed.

End LastSuffix.

(** X1. [Last(length, stopAfter)] reads the end of the working word: for
    a word [pre ++ suf] and [length] the number of letters of [suf],
    [Last(length)] is [suf], and [Last(length, stopAfter)] with a positive
    [stopAfter] is made of the first [stopAfter] letters of [suf]; a
    [length] of 0, or one that is not smaller than the word, yields the
    whole word. *)
Theorem Last_reads_the_end_of_the_word {JN : JSNumber}
        (c : Core) (pre suf : jsstring) :
  workingWord c = pre ++ suf -> suf <> [] ->
  Last c (JS.strlen suf) 0 = suf
  /\ (forall stopAfter, 0 < stopAfter ->
        Last c (JS.strlen suf) stopAfter = firstn (Z.to_nat stopAfter) suf)
  /\ (forall length, length = 0 \/ JS.strlen (workingWord c) <= length ->
        Last c length 0 = workingWord c).
Proof.
  intros Hw Hs. unfold Last. rewrite Hw. split.
  - now apply Last_of_suffix.
  - split.
    + intros k Hk. now apply Last_of_suffix_cut.
    + intros n Hn. now apply Last_of_whole.
Qed.

Lemma Last_reads_the_end_of_the_word_witness :
  Last (setWorkingWord init (U "abcdef")) 3 0 = U "def"
  /\ Last (setWorkingWord init (U "abcdef")) 3 2 = U "de"
  /\ Last (setWorkingWord init (U "abcdef")) 0 0 = U "abcdef".
Proof.
  destruct (Last_reads_the_end_of_the_word
              (setWorkingWord init (U "abcdef")) (U "abc") (U "def")
              eq_refl ltac:(discriminate)) as (H1 & H2 & H3).
  split; [exact H1 |]. split.
  - exact (H2 2 eq_refl).
  - apply H3. now left.
Defined.

(** ** The memo table of [Last] is not observable *)

Lemma Last_calls_coherent (w : jsstring) (calls : list (Z * Z)) :
  forall cache,
    coherent w cache ->
    Last_calls w cache calls
    = map (fun call => Last_of w (fst call) (snd call)) calls.
Proof.
  induction calls as [| [l s] calls IH]; intros cache Hc; simpl.
  - reflexivity.
  - destruct (Last_memo_spec w cache l s Hc) as [Hv Hc'].
    destruct (Last_memo w cache l s) as [v cache']. simpl in *.
    now rewrite Hv, IH.
Qed.

(** X2. Whatever calls of [Last] follow [setWorkingWord] - which empties
    the memo table - each of them returns what the uncached computation
    gives: the table is never stale. *)
Theorem Last_memo_is_transparent (w : jsstring) (calls : list (Z * Z)) :
  Last_calls w [] calls
  = map (fun call => Last_of w (fst call) (snd call)) calls.
Proof. apply Last_calls_coherent. intros l s v H. discriminate H. Qed.

(** ** The letter mask undoes the case folding of the constructor *)

Section MaskRoundTrip.

Lemma upper_lower_unit (c : N) :
  lower_unit c <> c -> upper_unit (lower_unit c) = c.
Proof.
  unfold lower_unit.
  destruct ((65 <=? c)%N && (c <=? 90)%N) eqn:E1;
    [| destruct ((1040 <=? c)%N && (c <=? 1071)%N) eqn:E2;
       [| destruct ((1024 <=? c)%N && (c <=? 1039)%N) eqn:E3;
          [| destruct (c =? 1168)%N eqn:E4; [| congruence] ] ] ];
    intros _;
    repeat match goal with
           | E : (_ && _)%bool = true |- _ => apply andb_true_iff in E as [? ?]
           | E : (_ <=? _)%N = true |- _ => apply N.leb_le in E
           | E : (_ =? _)%N = true |- _ => apply N.eqb_eq in E
           | E : _ = false |- _ => clear E
           end;
    unfold upper_unit; decide_units; lia.
Qed.

Lemma apply_mask_lowered (w : jsstring) :
  apply_mask (mask_of w) (toLowerCase w) = w.
Proof.
  induction w as [| c w IH]; simpl; auto.
  rewrite isLowerCase_unit.
  destruct (N.eqb_spec (lower_unit c) c) as [E | E]; simpl.
  - now rewrite IH, E.
  - now rewrite IH, upper_lower_unit.
Qed.

Lemma toUpperCase_lowered (w : jsstring) :
  all_upper w = true -> toUpperCase (toLowerCase w) = w.
Proof.
  unfold toUpperCase, toLowerCase.
  induction w as [| c w IH]; simpl; auto.
  rewrite isLowerCase_unit. intros H. apply andb_true_iff in H as [H1 H2].
  rewrite IH by assumption. f_equal.
  apply upper_lower_unit.
  destruct (N.eqb_spec (lower_unit c) c); [discriminate | assumption].
Qed.

Lemma mask_of_length (w : jsstring) : List.length (mask_of w) = List.length w.
Proof. unfold mask_of. now rewrite length_map. Qed.

End MaskRoundTrip.

(** X3. The constructor of a word keeps the token as supplied, stores its
    lower-cased text and a mask with one entry per letter; restoring the
    mask on the lower-cased text - as [setNameCases] does for every form -
    gives back the token with its original letter case. *)
Theorem mask_restores_the_lowercased_word {JN : JSNumber}
        (w : jsstring) (n : nat) :
  word_orig (new w) = w
  /\ word (new w) = NCLStr.strtolower w
  /\ List.length (letterMask (new w)) = List.length w
  /\ NameCases (setNameCases (new w) (repeat (word (new w)) n) true)
     = repeat w n.
Proof.
  destruct (new_fields w) as (Hm & Hu & Ho & _).
  split; [exact Ho |].
  assert (Hword : word (new w) = NCLStr.strtolower w).
  { unfold new. now destruct (generateMask w). }
  split; [exact Hword |].
  split; [rewrite Hm; apply mask_of_length |].
  rewrite setNameCases_masked, Hm, Hu, Hword.
  unfold NCLStr.strtolower, NCLStr.strtoupper.
  destruct (all_upper w) eqn:E; rewrite map_repeat; f_equal.
  - now apply toUpperCase_lowered.
  - apply apply_mask_lowered.
Qed.

(** ** Setters *)

(** X4. [setFullName(secondName, firstName, fatherName)] appends the
    words in the order first name, surname, patronymic, each with its
    type, and skips the empty ones; a setter called with the empty string
    leaves the engine as it is, and one called with a name clears both
    flags. *)
Theorem setFullName_appends_name_surname_patronymic {JN : JSNumber}
        (c : Core) (secondName firstName fatherName : jsstring) :
  words (setFullName c secondName firstName fatherName)
  = words c
    ++ map (fun e => setNamePart (new (fst e)) (snd e))
           (filter (fun e => negb (str_eqb (fst e) []))
                   [(firstName, N_); (secondName, S_); (fatherName, F_)])
  /\ (setFirstName c [] = c /\ setSecondName c [] = c
      /\ setFatherName c [] = c)
  /\ (forall name,
         name <> [] ->
         Forall (fun c' => ready c' = false /\ finished c' = false
                           /\ index c' = index c)
                [setFirstName c name; setSecondName c name;
                 setFatherName c name; setName c name; setLastName c name;
                 setSirName c name]).
Proof.
  split; [| split].
  - unfold setFullName, setFatherName, setSecondName, setFirstName, addWord.
    destruct firstName, secondName, fatherName; cbn;
      rewrite <- ?app_assoc, ?app_nil_r; reflexivity.
  - repeat split.
  - intros name Hn. destruct name; [congruence |].
    repeat constructor.
Qed.

Lemma setFullName_appends_name_surname_patronymic_witness :
  map word_orig
      (words (setFullName init (U "Шевченко") (U "Тарас") (U "Григорович")))
  = [U "Тарас"; U "Шевченко"; U "Григорович"]
  /\ map word_orig (words (setFullName init (U "Шевченко") [] []))
     = [U "Шевченко"]
  /\ ready (setFirstName init (U "Тарас")) = false.
Proof.
  split; [| split].
  - rewrite (proj1 (setFullName_appends_name_surname_patronymic
                      init (U "Шевченко") (U "Тарас") (U "Григорович"))).
    reflexivity.
  - rewrite (proj1 (setFullName_appends_name_surname_patronymic
                      init (U "Шевченко") [] [])).
    reflexivity.
  - pose proof (proj2 (proj2 (setFullName_appends_name_surname_patronymic
                                init [] [] []))
                      (U "Тарас") ltac:(discriminate)) as H.
    inversion H as [| ? ? [Hr _] _]. exact Hr.
Defined.

(** ** An explicit gender *)

Section ExplicitGender.
Context {JN : JSNumber}.

Lemma map_setTrueGender_twice (ws : list Word) (g : Z) :
  map (fun w => setTrueGender w g) (map (fun w => setTrueGender w g) ws)
  = map (fun w => setTrueGender w g) ws.
Proof. rewrite map_map. reflexivity. Qed.

End ExplicitGender.

(** X5. A gender set by [setGender] - any value but 0 - is never
    overridden by the detection: [solveGender] leaves the engine exactly
    as [setGender] left it, every word carrying that gender. *)
Theorem explicit_gender_is_kept {JN : JSNumber}
        (L : Lang) (c : Core) (gender : Z) :
  gender <> 0 ->
  solveGender L (setGender c gender) = setGender c gender
  /\ Forall (fun w => genderSolved w = gender) (words (setGender c gender)).
Proof.
  intros Hg. split.
  - unfold solveGender, setGender at 1 2.
    destruct c as [r f ws ww lr lres ix]. cbn [words set_words].
    destruct ws as [| w ws].
    + cbn. destruct (ngtb nzero nzero); reflexivity.
    + cbn [map find]. unfold isGenderSolved at 1. cbn [genderSolved setTrueGender].
      replace (gender =? 0) with false by (symmetry; now apply Z.eqb_neq).
      cbn [negb]. unfold NCLNameCaseWord.gender.
      cbn [genderSolved setTrueGender].
      replace (gender =? 0) with false by (symmetry; now apply Z.eqb_neq).
      cbn [fst]. unfold setGender. cbn [words set_words map].
      unfold set_words. cbn. f_equal.
      f_equal. rewrite map_map. reflexivity.
  - unfold setGender. destruct c; cbn. apply Forall_map.
    apply Forall_forall. intros w _. reflexivity.
Qed.

Lemma explicit_gender_is_kept_witness :
  map genderSolved
      (words (solveGender NCLNameCaseRu.lang (setGender engine_sasha NCL.MAN)))
  = [NCL.MAN].
Proof.
  rewrite (proj1 (explicit_gender_is_kept NCLNameCaseRu.lang engine_sasha
                    NCL.MAN ltac:(discriminate))).
  reflexivity.
Defined.

(** ** The index of the words by type *)

Section IndexKeys.
Context {JN : JSNumber}.

Lemma filter_map_S (f : nat -> bool) (l : list nat) :
  filter f (map S l) = map S (filter (fun k => f (S k)) l).
Proof.
  induction l as [| a l IH]; simpl; [reflexivity |].
  destruct (f (S a)); simpl; now rewrite IH.
Qed.

Lemma keys_of_cons (p : Part) (w : Word) (ws : list Word) :
  keys_of p (w :: ws)
  = (if has_part p [w] 0 then [0%nat] else []) ++ map S (keys_of p ws).
Proof.
  unfold keys_of. cbn [List.length seq filter].
  rewrite <- seq_shift, filter_map_S.
  replace (has_part p (w :: ws) 0) with (has_part p [w] 0) by reflexivity.
  destruct (has_part p [w] 0); reflexivity.
Qed.

Lemma map_add_S (key : nat) (l : list nat) :
  map (Nat.add key) (map S l) = map (Nat.add (S key)) l.
Proof. rewrite map_map. apply map_ext. intros. lia. Qed.

Lemma generateIndex_loop_keys (ws : list Word) :
  Forall (fun w => namePart w <> None) ws ->
  forall key ix,
    generateIndex_loop ws key ix
    = Ok (mkIndex (index_N ix ++ map (Nat.add key) (keys_of N_ ws))
                  (index_S ix ++ map (Nat.add key) (keys_of S_ ws))
                  (index_F ix ++ map (Nat.add key) (keys_of F_ ws))).
Proof.
  induction 1 as [| w ws Hw _ IH]; intros key ix.
  - simpl. rewrite !app_nil_r. now destruct ix.
  - cbn [generateIndex_loop]. unfold getNamePart.
    rewrite !keys_of_cons. unfold has_part. cbn [nth_error].
    destruct (namePart w) as [[] |]; [| | | congruence];
      rewrite IH; cbn [index_N index_S index_F Part_eqb app map];
      rewrite !map_add_S, <- ?app_assoc; cbn [app];
      rewrite ?Nat.add_0_r; reflexivity.
Qed.

Lemma generateIndex_loop_untyped (ws : list Word) :
  Exists (fun w => namePart w = None) ws ->
  forall key ix,
    generateIndex_loop ws key ix
    = Err (TypeError "Cannot read properties of undefined (reading 'push')").
Proof.
  induction ws as [| w ws IH]; intros H key ix.
  - inversion H.
  - cbn [generateIndex_loop]. unfold getNamePart.
    destruct (namePart w) as [[] |] eqn:E; try reflexivity;
      apply IH; inversion H; subst; auto; congruence.
Qed.

End IndexKeys.

(** X6. [generateIndex] rebuilds the index from nothing: when every word
    has a type, the entry of each type lists the keys of the words of
    that type in increasing order, whatever the index held before; when
    some word has no type, the call raises a [TypeError]. *)
Theorem generateIndex_lists_the_keys_by_type {JN : JSNumber} (c : Core) :
  (Forall (fun w => namePart w <> None) (words c) ->
   generateIndex c
   = Ok (set_index c (mkIndex (keys_of N_ (words c)) (keys_of S_ (words c))
                              (keys_of F_ (words c)))))
  /\ (Exists (fun w => namePart w = None) (words c) ->
      generateIndex c
      = Err (TypeError
               "Cannot read properties of undefined (reading 'push')")).
Proof.
  unfold generateIndex. split; intros H.
  - rewrite generateIndex_loop_keys by assumption. cbn.
    rewrite !map_id. reflexivity.
  - now rewrite generateIndex_loop_untyped.
Qed.

Lemma generateIndex_lists_the_keys_by_type_witness :
  (exists c', generateIndex
                (setFullName init (U "Шевченко") (U "Тарас") (U "Григорович"))
              = Ok c'
              /\ index c' = mkIndex [0%nat] [1%nat] [2%nat])
  /\ generateIndex engine_untyped
     = Err (TypeError "Cannot read properties of undefined (reading 'push')").
Proof.
  split.
  - eexists. split.
    + apply (proj1 (generateIndex_lists_the_keys_by_type
                      (setFullName init (U "Шевченко") (U "Тарас")
                                   (U "Григорович")))).
      repeat constructor; discriminate.
    + reflexivity.
  - apply (proj2 (generateIndex_lists_the_keys_by_type engine_untyped)).
    do 2 apply Exists_cons_tl. apply Exists_cons_hd. reflexivity.
Defined.

(** ** Declension is done once *)

(** X7. After [AllWordCases] has returned the engine is finished, and a
    second call changes nothing. [setGender] does not clear the flags: on
    a finished engine it changes the gender of the words, but a further
    [AllWordCases] leaves their forms as they were; the setters of words
    do clear the flags. *)
Theorem declension_is_done_once {JN : JSNumber}
        (L : Lang) (reg : NCL.Registry Lang) (c c' : Core) :
  AllWordCases L reg c = Ok c' ->
  finished c' = true
  /\ AllWordCases L reg c' = Ok c'
  /\ (forall gender,
         AllWordCases L reg (setGender c' gender) = Ok (setGender c' gender)
         /\ map NameCases (words (setGender c' gender))
            = map NameCases (words c'))
  /\ (forall name,
         name <> [] ->
         finished (setFirstName c' name) = false
         /\ finished (setSecondName c' name) = false
         /\ finished (setFatherName c' name) = false).
Proof.
  intros H.
  assert (Hf : finished c' = true).
  { unfold AllWordCases, JS.bind in H.
    destruct (finished c) eqn:Ef; [now inversion H; subst |].
    destruct (prepareEverything L c); [| discriminate].
    destruct (each_word_r _ _ _); [| discriminate].
    now inversion H. }
  split; [exact Hf |]. split; [| split].
  - unfold AllWordCases. now rewrite Hf.
  - intros gender. split.
    + unfold AllWordCases.
      replace (finished (setGender c' gender)) with true
        by (symmetry; destruct c'; exact Hf).
      reflexivity.
    + unfold setGender. destruct c'; cbn. rewrite map_map. reflexivity.
  - intros name Hn. destruct name; [congruence | repeat split].
Qed.

Lemma declension_is_done_once_witness :
  exists c',
    AllWordCases NCLNameCaseUa.lang concreteClasses engine_taras = Ok c'
    /\ AllWordCases NCLNameCaseUa.lang concreteClasses c' = Ok c'
    /\ map NameCases (words (setGender c' NCL.WOMAN))
       = [[U "Тарас"; U "Тараса"; U "Тарасові"; U "Тараса"; U "Тарасом";
           U "Тарасові"; U "Тарасе"]].
Proof.
  destruct (AllWordCases NCLNameCaseUa.lang concreteClasses engine_taras)
    as [c' | e] eqn:E; [| vm_compute in E; discriminate E].
  exists c'.
  destruct (declension_is_done_once NCLNameCaseUa.lang concreteClasses
              engine_taras c' E) as (_ & H2 & H3 & _).
  split; [reflexivity |]. split; [exact H2 |].
  rewrite (proj2 (H3 NCL.WOMAN)).
  vm_compute in E. injection E as <-. reflexivity.
Defined.

(** ** Preparation: types, gender, index *)

Section Preparation.
Context {JN : JSNumber}.

Lemma ua_detectNamePart_sets_part (c : Core) (w : Word) :
  exists p, snd (NCLNameCaseUa.detectNamePart c w) = setNamePart w p.
Proof.
  unfold NCLNameCaseUa.detectNamePart. cbv zeta.
  repeat match goal with
         | |- context [if ?b then _ else _] => destruct b
         end; eexists; reflexivity.
Qed.

Lemma lang_detectNamePart (L : Lang) (c : Core) (w : Word) :
  L = NCLNameCaseRu.lang \/ L = NCLNameCaseUa.lang ->
  exists p, snd (detectNamePart L c w) = setNamePart w p.
Proof.
  intros [-> | ->];
    [apply ru_detectNamePart_sets_part | apply ua_detectNamePart_sets_part].
Qed.

Lemma setGender_own_rates (w : Word) :
  w = NCLNameCaseWord.setGender w (genderMan w) (genderWoman w).
Proof. now destruct w. Qed.

Lemma setNamePart_own_part (w : Word) (p : Part) :
  namePart w = Some p -> w = setNamePart w p.
Proof. destruct w; simpl. now intros ->. Qed.

Ltac rates_leaf :=
  cbv zeta;
  repeat match goal with
         | |- context [if ?b then _ else _] => destruct b
         end;
  first [ do 2 eexists; reflexivity | do 2 eexists; apply setGender_own_rates ].

Lemma lang_gender_rates (L : Lang) (c : Core) (w : Word) :
  L = NCLNameCaseRu.lang \/ L = NCLNameCaseUa.lang ->
  (exists m f, snd (GenderByFirstName L c w) = NCLNameCaseWord.setGender w m f)
  /\ (exists m f,
         snd (GenderBySecondName L c w) = NCLNameCaseWord.setGender w m f)
  /\ (exists m f,
         snd (GenderByFatherName L c w) = NCLNameCaseWord.setGender w m f).
Proof.
  intros [-> | ->];
    cbn [GenderByFirstName GenderBySecondName GenderByFatherName
         NCLNameCaseRu.lang NCLNameCaseUa.lang];
    (split; [| split]).
  - unfold NCLNameCaseRu.GenderByFirstName. do 2 eexists. reflexivity.
  - unfold NCLNameCaseRu.GenderBySecondName. do 2 eexists. reflexivity.
  - unfold NCLNameCaseRu.GenderByFatherName. rates_leaf.
  - unfold NCLNameCaseUa.GenderByFirstName. do 2 eexists. reflexivity.
  - unfold NCLNameCaseUa.GenderBySecondName. do 2 eexists. reflexivity.
  - unfold NCLNameCaseUa.GenderByFatherName. rates_leaf.
Qed.

Lemma each_word_Forall2 (R : Word -> Word -> Prop)
      (f : Core -> Word -> Core * Word) :
  (forall c w, R w (snd (f c w))) ->
  forall ws c, Forall2 R ws (snd (each_word f c ws)).
Proof.
  intros Hf ws. induction ws as [| w ws IH]; intros c; simpl.
  - constructor.
  - specialize (Hf c w). destruct (f c w) as [c1 w1].
    specialize (IH c1). destruct (each_word f c1 ws) as [c2 ws'].
    simpl in *. now constructor.
Qed.

Lemma prepareNamePart_typed (L : Lang) (c : Core) (w : Word) :
  L = NCLNameCaseRu.lang \/ L = NCLNameCaseUa.lang ->
  exists p, snd (prepareNamePart L c w) = setNamePart w p
            /\ (namePart w <> None -> namePart w = Some p).
Proof.
  intros HL. unfold prepareNamePart, getNamePart.
  destruct (namePart w) as [p |] eqn:E.
  - exists p. split; [now apply setNamePart_own_part | reflexivity].
  - destruct (lang_detectNamePart L c w HL) as [p Hp].
    exists p. split; [exact Hp | congruence].
Qed.

Lemma prepareGender_rates (L : Lang) (c : Core) (w : Word) :
  L = NCLNameCaseRu.lang \/ L = NCLNameCaseUa.lang ->
  exists m f, snd (prepareGender L c w) = NCLNameCaseWord.setGender w m f.
Proof.
  intros HL. unfold prepareGender, getNamePart.
  destruct (lang_gender_rates L c w HL) as (H1 & H2 & H3).
  destruct (negb (isGenderSolved w));
    [| do 2 eexists; apply setGender_own_rates].
  destruct (namePart w) as [[] |]; auto.
  do 2 eexists; apply setGender_own_rates.
Qed.

(** The words [solveGender] leaves: one gender, not 0, for all of them. *)
Lemma solveGender_words (L : Lang) (c : Core) :
  L = NCLNameCaseRu.lang \/ L = NCLNameCaseUa.lang ->
  exists gender ws,
    gender <> 0
    /\ Forall2 (fun w w' => exists m f,
                    w' = NCLNameCaseWord.setGender w m f) (words c) ws
    /\ words (solveGender L c) = map (fun w => setTrueGender w gender) ws.
Proof.
  intros HL. unfold solveGender.
  destruct (find isGenderSolved (words c)) as [solved |] eqn:Ef.
  - apply find_some in Ef as [_ Hs].
    exists (fst (NCLNameCaseWord.gender solved)), (words c).
    split; [| split].
    + rewrite (gender_of_solved _ Hs). unfold isGenderSolved in Hs.
      destruct (Z.eqb_spec (genderSolved solved) 0); [discriminate | assumption].
    + clear. induction (words c); constructor; auto.
      do 2 eexists. apply setGender_own_rates.
    + now destruct c.
  - rewrite solveGender_sum_spec. cbv zeta.
    exists (if ngtb (fold_left (fun acc w => nadd acc (genderMan w))
                               (inferred L c (words c)) nzero)
                    (fold_left (fun acc w => nadd acc (genderWoman w))
                               (inferred L c (words c)) nzero)
            then NCL.MAN else NCL.WOMAN), (inferred L c (words c)).
    split; [| split].
    + destruct (ngtb _ _); discriminate.
    + unfold inferred. apply each_word_Forall2.
      intros c0 w. now apply prepareGender_rates.
    + now destruct (ngtb _ _).
Qed.

Lemma Forall2_compose {A B C} (R1 : A -> B -> Prop) (R2 : B -> C -> Prop)
      (l1 : list A) (l2 : list B) :
  Forall2 R1 l1 l2 ->
  forall l3, Forall2 R2 l2 l3 ->
             Forall2 (fun a c => exists b, R1 a b /\ R2 b c) l1 l3.
Proof.
  induction 1; intros l3 H3; inversion H3; subst; constructor; eauto.
Qed.

Lemma prepared_typed (ws ws' : list Word) :
  Forall2 prepared ws ws' -> Forall (fun w => namePart w <> None) ws'.
Proof.
  induction 1 as [| w w' ws ws' (p & m & f & g & -> & _) _ IH];
    constructor; [discriminate | assumption].
Qed.

(** The engine after the first three steps of [prepareEverything]. *)
Lemma prepare_words (L : Lang) (c : Core) :
  L = NCLNameCaseRu.lang \/ L = NCLNameCaseUa.lang ->
  Forall2 prepared (words c)
          (words (solveGender L (prepareAllNameParts L c))).
Proof.
  intros HL.
  destruct (solveGender_words L (prepareAllNameParts L c) HL)
    as (g & ws2 & Hg & H2 & ->).
  assert (H1 : Forall2 (fun w w1 =>
                          exists p, w1 = setNamePart w p
                                    /\ (namePart w <> None ->
                                        namePart w = Some p))
                       (words c) (words (prepareAllNameParts L c))).
  { unfold prepareAllNameParts.
    pose proof (each_word_Forall2
                  (fun w w1 => exists p, w1 = setNamePart w p
                                         /\ (namePart w <> None ->
                                             namePart w = Some p))
                  (prepareNamePart L)
                  (fun c0 w => prepareNamePart_typed L c0 w HL)
                  (words c) c) as H.
    destruct (each_word (prepareNamePart L) c (words c)) as [c1 ws1].
    now destruct c1. }
  pose proof (Forall2_compose _ _ _ _ H1 _ H2) as H.
  clear H1 H2. revert H. generalize (words c). 
  induction ws2 as [| w2 ws2 IH]; intros ws H; inversion H; subst; simpl;
    constructor; auto.
  destruct H3 as (w1 & (p & -> & Hp) & (m & f & ->)).
  now exists p, m, f, g.
Qed.

Lemma prepareEverything_known (L : Lang) (c : Core) :
  L = NCLNameCaseRu.lang \/ L = NCLNameCaseUa.lang ->
  ready c = false ->
  exists c',
    prepareEverything L c = Ok c'
    /\ ready c' = true
    /\ finished c' = finished (solveGender L (prepareAllNameParts L c))
    /\ Forall2 prepared (words c) (words c')
    /\ index c' = mkIndex (keys_of N_ (words c')) (keys_of S_ (words c'))
                          (keys_of F_ (words c')).
Proof.
  intros HL Hr. unfold prepareEverything. rewrite Hr.
  pose proof (prepare_words L c HL) as Hw.
  set (c2 := solveGender L (prepareAllNameParts L c)) in *.
  unfold generateIndex.
  rewrite (generateIndex_loop_keys _ (prepared_typed _ _ Hw)).
  cbn [JS.bind empty_index index_N index_S index_F app].
  rewrite !map_id.
  eexists. split; [reflexivity |].
  destruct c2; cbn. auto.
Qed.

(** For every language, preparation keeps the number of words. *)
Lemma solveGender_length (L : Lang) (c : Core) :
  List.length (words (solveGender L c)) = List.length (words c).
Proof.
  unfold solveGender.
  destruct (find isGenderSolved (words c)).
  - destruct c; cbn. apply length_map.
  - rewrite solveGender_sum_spec. cbv zeta.
    destruct (ngtb _ _); cbn; rewrite length_map; apply each_word_length.
Qed.

Lemma prepareAllNameParts_length (L : Lang) (c : Core) :
  List.length (words (prepareAllNameParts L c)) = List.length (words c).
Proof.
  unfold prepareAllNameParts.
  pose proof (each_word_length (prepareNamePart L) (words c) c) as H.
  destruct (each_word (prepareNamePart L) c (words c)) as [c1 ws1].
  now destruct c1.
Qed.

Lemma prepareEverything_length (L : Lang) (c c' : Core) :
  prepareEverything L c = Ok c' ->
  List.length (words c') = List.length (words c).
Proof.
  unfold prepareEverything, generateIndex, JS.bind.
  destruct (ready c); [now intros [= <-] |].
  destruct (generateIndex_loop _ _ _) as [ix |]; [| discriminate].
  intros [= <-]. cbn.
  now rewrite solveGender_length, prepareAllNameParts_length.
Qed.

End Preparation.

(** X8. On an engine that is not ready, the preparation of the Russian
    and of the Ukrainian module always succeeds: it keeps the words in
    place, changing of a word only its type - when it had none - its two
    rates and its solved gender, which is not 0 afterwards; it lists the
    keys of the words in the index by type and sets the ready flag, so
    that a second call changes nothing. *)
Theorem preparation_always_succeeds {JN : JSNumber} (L : Lang) (c : Core) :
  L = NCLNameCaseRu.lang \/ L = NCLNameCaseUa.lang ->
  ready c = false ->
  exists c',
    prepareEverything L c = Ok c'
    /\ prepareEverything L c' = Ok c'
    /\ ready c' = true
    /\ Forall2 prepared (words c) (words c')
    /\ index c' = mkIndex (keys_of N_ (words c')) (keys_of S_ (words c'))
                          (keys_of F_ (words c')).
Proof.
  intros HL Hr.
  destruct (prepareEverything_known L c HL Hr) as (c' & E & Hr' & _ & Hw & Hi).
  exists c'. repeat split; auto.
  unfold prepareEverything. now rewrite Hr'.
Qed.

Lemma preparation_always_succeeds_witness :
  exists c',
    prepareEverything NCLNameCaseUa.lang
      (set_words init [new (U "Шевченко"); new (U "Тарас");
                       new (U "Григорович")]) = Ok c'
    /\ map namePart (words c') = [Some S_; Some N_; Some F_]
    /\ index c' = mkIndex [1%nat] [0%nat] [2%nat].
Proof.
  destruct (preparation_always_succeeds NCLNameCaseUa.lang
              (set_words init [new (U "Шевченко"); new (U "Тарас");
                               new (U "Григорович")])
              (or_intror eq_refl) eq_refl) as (c' & E & _).
  exists c'. split; [exact E |].
  vm_compute in E. injection E as <-. split; reflexivity.
Defined.

(** ** The rules write the result and nothing else *)

Ltac prove_frames :=
  let c := fresh "c" in
  let c' := fresh "c'" in
  let b := fresh "b" in
  let H := fresh "H" in
  intros c b c' H; run_rule H; inversion H; subst; split; reflexivity.

Section Frames.
Context {JN : JSNumber}.

Lemma frames_RulesChain (rules : GenderTag -> Z -> option Method)
      (gender : GenderTag) :
  (forall ruleID m, rules gender ruleID = Some m -> frames m) ->
  forall rulesArray, frames (RulesChain rules gender rulesArray).
Proof.
  intros Hrules rulesArray.
  induction rulesArray as [| ruleID rest IH]; intros c b c' H; simpl in H.
  - inversion H; subst. split; reflexivity.
  - destruct (rules gender ruleID) as [m |] eqn:Em; [| discriminate].
    unfold JS.bind in H.
    destruct (m c) as [[b1 c1] | e] eqn:Emc; [| discriminate].
    destruct (Hrules _ _ Em _ _ _ Emc) as [Hi Hw].
    simpl in H. destruct b1.
    + inversion H; subst. now split.
    + destruct (IH _ _ _ H) as [Hi' Hw'].
      rewrite Hi', Hw'. now split.
Qed.

Lemma ru_rules_frame gender ruleID m :
  NCLNameCaseRu.rules gender ruleID = Some m -> frames m.
Proof.
  intros H. table_entry H;
    match goal with
    | |- frames NCLNameCaseRu.manRule1 => unfold NCLNameCaseRu.manRule1
    | |- frames NCLNameCaseRu.manRule2 => unfold NCLNameCaseRu.manRule2
    | |- frames NCLNameCaseRu.manRule3 => unfold NCLNameCaseRu.manRule3
    | |- frames NCLNameCaseRu.manRule4 => unfold NCLNameCaseRu.manRule4
    | |- frames NCLNameCaseRu.manRule5 => unfold NCLNameCaseRu.manRule5
    | |- frames NCLNameCaseRu.manRule6 => unfold NCLNameCaseRu.manRule6
    | |- frames NCLNameCaseRu.manRule7 => unfold NCLNameCaseRu.manRule7
    | |- frames NCLNameCaseRu.manRule8 => unfold NCLNameCaseRu.manRule8
    | |- frames NCLNameCaseRu.womanRule1 => unfold NCLNameCaseRu.womanRule1
    | |- frames NCLNameCaseRu.womanRule2 => unfold NCLNameCaseRu.womanRule2
    | |- frames NCLNameCaseRu.womanRule3 => unfold NCLNameCaseRu.womanRule3
    | |- frames NCLNameCaseRu.womanRule4 => unfold NCLNameCaseRu.womanRule4
    end; prove_frames.
Qed.

Lemma ua_rules_frame gender ruleID m :
  NCLNameCaseUa.rules gender ruleID = Some m -> frames m.
Proof.
  intros H. table_entry H;
    match goal with
    | |- frames NCLNameCaseUa.manRule1 => unfold NCLNameCaseUa.manRule1
    | |- frames NCLNameCaseUa.manRule2 => unfold NCLNameCaseUa.manRule2
    | |- frames NCLNameCaseUa.manRule3 => unfold NCLNameCaseUa.manRule3
    | |- frames NCLNameCaseUa.manRule4 => unfold NCLNameCaseUa.manRule4
    | |- frames NCLNameCaseUa.manRule5 => unfold NCLNameCaseUa.manRule5
    | |- frames NCLNameCaseUa.womanRule1 => unfold NCLNameCaseUa.womanRule1
    | |- frames NCLNameCaseUa.womanRule2 => unfold NCLNameCaseUa.womanRule2
    | |- frames NCLNameCaseUa.womanRule3 => unfold NCLNameCaseUa.womanRule3
    end; prove_frames.
Qed.

Lemma lang_frames (L : Lang) g p m :
  L = NCLNameCaseRu.lang \/ L = NCLNameCaseUa.lang ->
  declension_method L g p = Some m -> frames m.
Proof.
  intros [-> | ->] H; destruct g, p as [[] |]; try discriminate H;
    injection H as <-;
    cbn [NCLNameCaseCore.manFirstName NCLNameCaseCore.womanFirstName
         NCLNameCaseCore.manSecondName NCLNameCaseCore.womanSecondName
         NCLNameCaseCore.manFatherName NCLNameCaseCore.womanFatherName
         NCLNameCaseRu.lang NCLNameCaseUa.lang];
    try (apply frames_RulesChain; first [apply ru_rules_frame | apply ua_rules_frame]).
  - unfold NCLNameCaseRu.manFirstName.
    intros c b c' H.
    destruct (inNames (workingWord c) [U "Старший"; U "Младший"]);
      [inversion H; subst; split; reflexivity |].
    destruct (inNames (workingWord c) [U "Мариа"]);
      [inversion H; subst; split; reflexivity |].
    exact (frames_RulesChain _ _ (ru_rules_frame man) _ _ _ _ H).
  - unfold NCLNameCaseRu.manFatherName. prove_frames.
  - unfold NCLNameCaseRu.womanFatherName. prove_frames.
  - unfold NCLNameCaseUa.manFatherName. prove_frames.
  - unfold NCLNameCaseUa.womanFatherName. prove_frames.
Qed.

Lemma WordCase_chunks_frame L reg m npl cnt :
  frames m ->
  forall cur_words k c lr c' ws lr',
    WordCase_chunks L reg m npl cnt k cur_words c lr = Ok (c', ws, lr') ->
    index c' = index c /\ words c' = words c.
Proof.
  intros Hm cur_words.
  induction cur_words as [| cw cur_words IH]; intros k c lr c' ws lr' H;
    simpl in H.
  - inversion H. now split.
  - unfold JS.bind in H.
    destruct (WordCase_chunk L reg m npl cnt k cw c)
      as [[[c1 o] lr1] | e] eqn:E1; [| discriminate].
    destruct (WordCase_chunks L reg m npl cnt (S k) cur_words c1 lr1)
      as [[[c2 os] lr2] | e] eqn:E2; [| discriminate].
    inversion H; subst.
    destruct (IH _ _ _ _ _ _ E2) as [Hi Hw]. rewrite Hi, Hw.
    clear - E1 Hm. unfold WordCase_chunk, JS.bind in E1.
    destruct (is_norm_rules _ _ _ _ _ _) as [[o1 norm] |]; [| discriminate].
    cbn [fst snd] in E1. destruct norm.
    + destruct (m (setWorkingWord c cw)) as [[b c0] |] eqn:Em; [| discriminate].
      cbn [fst snd] in E1. inversion E1; subst.
      destruct (Hm _ _ _ Em) as [Hi Hw]. rewrite Hi, Hw. now destruct c.
    + cbn [fst snd] in E1. inversion E1; subst. now destruct c.
Qed.

Lemma WordCase_frame L reg c w c' w' :
  L = NCLNameCaseRu.lang \/ L = NCLNameCaseUa.lang ->
  WordCase L reg c w = Ok (c', w') ->
  index c' = index c /\ words c' = words c.
Proof.
  intros HL H.
  destruct (WordCase_result _ _ _ _ _ _ H) as (m & ws & c0 & lr & Em & _).
  unfold WordCase in H.
  destruct (NCLNameCaseWord.gender w) as [g w0] eqn:Eg.
  cbn [fst] in Em.
  destruct (gender_word w) as (_ & Hp & _). rewrite Eg in Hp. cbn in Hp.
  unfold getNamePart in H. rewrite Hp, Em in H.
  unfold JS.bind in H.
  destruct (WordCase_chunks _ _ _ _ _ _ _ _ _) as [[[c1 ws1] lr1] |] eqn:Ec;
    [| discriminate].
  inversion H; subst.
  eapply WordCase_chunks_frame; [| exact Ec].
  eapply lang_frames; eassumption.
Qed.

Lemma each_WordCase_frame L reg :
  L = NCLNameCaseRu.lang \/ L = NCLNameCaseUa.lang ->
  forall ws c c' ws',
    each_word_r (WordCase L reg) c ws = Ok (c', ws') ->
    index c' = index c
    /\ Forall2 (fun w w' => word_orig w' = word_orig w
                            /\ namePart w' = namePart w) ws ws'.
Proof.
  intros HL ws. induction ws as [| w ws IH]; intros c c' ws' H; simpl in H.
  - inversion H. split; [reflexivity | constructor].
  - unfold JS.bind in H.
    destruct (WordCase L reg c w) as [[c1 w1] | e] eqn:E1; [| discriminate].
    cbn [fst snd] in H.
    destruct (each_word_r (WordCase L reg) c1 ws) as [[c2 ws2] | e] eqn:E2;
      [| discriminate].
    inversion H; subst. cbn [fst snd].
    destruct (IH _ _ _ E2) as [Hi Hw].
    destruct (WordCase_frame _ _ _ _ _ _ HL E1) as [Hi1 _].
    split; [congruence |]. constructor; [| assumption].
    destruct (WordCase_result _ _ _ _ _ _ E1) as (_ & _ & _ & _ & _ & _ & _ & _ & Ho).
    split; [exact Ho |].
    clear - E1. unfold WordCase in E1.
    destruct (gender_word w) as (_ & Hp & _).
    destruct (NCLNameCaseWord.gender w) as [g w0]. cbn in Hp.
    destruct (declension_method _ _ _); [| discriminate].
    unfold JS.bind in E1.
    destruct (WordCase_chunks _ _ _ _ _ _ _ _ _) as [[[c2 ws2] lr2] |];
      [| discriminate].
    inversion E1; subst. cbn. exact Hp.
Qed.

End Frames.

(** ** The declension pass as a whole *)

Section WholePass.
Context {JN : JSNumber}.

Lemma AllWordCases_index (L : Lang) (reg : NCL.Registry Lang) (c c' : Core) :
  L = NCLNameCaseRu.lang \/ L = NCLNameCaseUa.lang ->
  ready c = false -> finished c = false ->
  AllWordCases L reg c = Ok c' ->
  exists ws1,
    Forall2 prepared (words c) ws1
    /\ index c' = mkIndex (keys_of N_ ws1) (keys_of S_ ws1) (keys_of F_ ws1)
    /\ Forall2 (fun w w' => word_orig w' = word_orig w
                            /\ namePart w' = namePart w) ws1 (words c').
Proof.
  intros HL Hr Hf H. unfold AllWordCases in H. rewrite Hf in H.
  destruct (prepareEverything_known L c HL Hr) as (c1 & E & _ & _ & Hw & Hi).
  rewrite E in H. unfold JS.bind in H.
  destruct (each_word_r (WordCase L reg) c1 (words c1)) as [[c2 ws2] |] eqn:E2;
    [| discriminate].
  inversion H; subst. cbn.
  destruct (each_WordCase_frame L reg HL _ _ _ _ E2) as [Hi2 Hw2].
  exists (words c1). repeat split; auto. congruence.
Qed.

Lemma prepared_word_orig (ws ws' : list Word) :
  Forall2 prepared ws ws' -> map word_orig ws' = map word_orig ws.
Proof.
  induction 1 as [| w w' ws ws' (p & m & f & g & -> & _) _ IH]; simpl;
    [reflexivity | now rewrite IH].
Qed.

Lemma same_word_orig (ws ws' : list Word) :
  Forall2 (fun w w' => word_orig w' = word_orig w
                       /\ namePart w' = namePart w) ws ws' ->
  map word_orig ws' = map word_orig ws.
Proof.
  induction 1 as [| w w' ws ws' [Ho _] _ IH]; simpl;
    [reflexivity | now rewrite IH, Ho].
Qed.

Lemma ua_each_WordCase_returns (ws : list Word) :
  Forall (fun w => namePart w <> None) ws ->
  forall c, exists c' ws',
      each_word_r (WordCase NCLNameCaseUa.lang concreteClasses) c ws
      = Ok (c', ws').
Proof.
  induction 1 as [| w ws Hw _ IH]; intros c; simpl.
  - now exists c, [].
  - destruct (ua_WordCase_returns c w Hw) as (c1 & w1 & ->).
    unfold JS.bind. cbn [fst snd].
    destruct (IH c1) as (c2 & ws2 & ->). now do 2 eexists.
Qed.

Lemma ua_AllWordCases_returns (c : Core) :
  (ready c = true -> Forall (fun w => namePart w <> None) (words c)) ->
  exists c',
    AllWordCases NCLNameCaseUa.lang concreteClasses c = Ok c'
    /\ map word_orig (words c') = map word_orig (words c).
Proof.
  intros Hready. unfold AllWordCases.
  destruct (finished c); [now exists c |].
  assert (H1 : exists c1,
             prepareEverything NCLNameCaseUa.lang c = Ok c1
             /\ Forall (fun w => namePart w <> None) (words c1)
             /\ map word_orig (words c1) = map word_orig (words c)).
  { destruct (ready c) eqn:Er.
    - exists c. unfold prepareEverything. rewrite Er. auto.
    - destruct (prepareEverything_known NCLNameCaseUa.lang c
                  (or_intror eq_refl) Er) as (c1 & E & _ & _ & Hw & _).
      exists c1. split; [exact E |]. split.
      + eapply prepared_typed; eassumption.
      + now apply prepared_word_orig. }
  destruct H1 as (c1 & -> & Ht & Ho). unfold JS.bind.
  destruct (ua_each_WordCase_returns _ Ht c1) as (c2 & ws2 & E2).
  rewrite E2. eexists. split; [reflexivity |]. cbn.
  destruct (each_WordCase_frame NCLNameCaseUa.lang concreteClasses
              (or_intror eq_refl) _ _ _ _ E2) as [_ Hw2].
  rewrite <- Ho. now apply same_word_orig.
Qed.

End WholePass.

(** X9. With the registry of the package, the declension pass of the
    Ukrainian engine never raises: whatever words the engine holds, with
    or without a type, with or without hyphens, [AllWordCases] returns,
    marks the engine finished and keeps the words, with their original
    text, in place; every word it has declined holds seven forms. *)
Theorem ukrainian_declension_always_returns {JN : JSNumber} (c : Core) :
  (ready c = true -> Forall (fun w => namePart w <> None) (words c)) ->
  exists c',
    AllWordCases NCLNameCaseUa.lang concreteClasses c = Ok c'
    /\ finished c' = true
    /\ map word_orig (words c') = map word_orig (words c)
    /\ (finished c = false ->
        Forall (fun w => List.length (NameCases w) = 7%nat) (words c')).
Proof.
  intros Hready.
  destruct (ua_AllWordCases_returns c Hready) as (c' & E & Ho).
  exists c'. split; [exact E |]. split; [| split; [exact Ho |]].
  - unfold AllWordCases, JS.bind in E.
    destruct (finished c) eqn:Ef; [now inversion E; subst |].
    destruct (prepareEverything _ c); [| discriminate].
    destruct (each_word_r _ _ _); [| discriminate].
    now inversion E.
  - intros Hf. unfold AllWordCases, JS.bind in E. rewrite Hf in E.
    destruct (prepareEverything _ c) as [c1 |]; [| discriminate].
    destruct (each_word_r _ c1 (words c1)) as [[c2 ws2] |] eqn:E2;
      [| discriminate].
    inversion E; subst. cbn.
    eapply each_word_r_Forall; [| exact E2].
    intros c0 w c0' w' H.
    now destruct (WordCase_shape NCLNameCaseUa.lang concreteClasses
                    ua_lang_shape _ _ _ _ H).
Qed.

Lemma ukrainian_declension_always_returns_witness :
  exists c',
    AllWordCases NCLNameCaseUa.lang concreteClasses
      (setFullName init (U "Шевченко") (U "Тарас") (U "Григорович")) = Ok c'
    /\ map word_orig (words c')
       = [U "Тарас"; U "Шевченко"; U "Григорович"].
Proof.
  destruct (ukrainian_declension_always_returns
              (setFullName init (U "Шевченко") (U "Тарас") (U "Григорович"))
              ltac:(discriminate)) as (c' & E & _ & Ho & _).
  exists c'. split; [exact E | exact Ho].
Defined.

(** ** The one-word entry points *)

Section OneWord.
Context {JN : JSNumber}.

Lemma keys_of_single (p : Part) (w : Word) :
  namePart w = Some p -> keys_of p [w] = [0%nat].
Proof.
  intros H. unfold keys_of, has_part. cbn. rewrite H.
  now destruct p.
Qed.

Lemma with_gender_word (c : Core) (gender : Z) (w : Word) :
  words c = [w] -> ready c = false -> finished c = false ->
  exists w', words (with_gender c gender) = [w']
             /\ namePart w' = namePart w
             /\ ready (with_gender c gender) = false
             /\ finished (with_gender c gender) = false.
Proof.
  intros Hw Hr Hf. unfold with_gender.
  destruct (gender =? 0); [now exists w |].
  exists (setTrueGender w gender). destruct c; cbn in *. subst. auto.
Qed.

Lemma one_word_getter_raises (L : Lang) (reg : NCL.Registry Lang) (c : Core)
      (p : Part) (sel : Index -> list nat) (w : Word) (number : option Z) :
  L = NCLNameCaseRu.lang \/ L = NCLNameCaseUa.lang ->
  (forall ws, sel (mkIndex (keys_of N_ ws) (keys_of S_ ws) (keys_of F_ ws))
              = keys_of p ws) ->
  words c = [w] -> namePart w = Some p ->
  ready c = false -> finished c = false ->
  match getPartCase sel L reg c number with
  | Ok _ => False
  | Err e =>
      forall c', AllWordCases L reg c = Ok c' ->
                 e = Error "word should be of class NCLNameCaseWord"
  end.
Proof.
  intros HL Hsel Hw Hp Hr Hf. unfold getPartCase, JS.bind.
  destruct (AllWordCases L reg c) as [c' | e] eqn:E; [| discriminate].
  destruct (AllWordCases_index L reg c c' HL Hr Hf E) as (ws1 & H1 & Hi & _).
  rewrite Hw in H1. inversion H1 as [| ? w1 ? ? Hprep Hnil]; subst.
  inversion Hnil; subst.
  rewrite getCasesConnected_keys, Hi, Hsel.
  rewrite keys_of_single; [now intros c0 _ |].
  destruct Hprep as (p' & m & f & g & -> & _ & Hp'). cbn.
  rewrite Hp in Hp'. symmetry. apply Hp'. discriminate.
Qed.

Lemma empty_getter_returns (L : Lang) (reg : NCL.Registry Lang) (c : Core)
      (sel : Index -> list nat) (number : option Z) (gender : Z) :
  sel empty_index = [] ->
  exists c',
    getPartCase sel L reg (with_gender (fullReset c) gender) number
    = Ok (c', VString []).
Proof.
  intros Hsel. unfold getPartCase, AllWordCases, prepareEverything, with_gender.
  destruct (gender =? 0); cbn; destruct (ngtb nzero nzero); cbn;
    rewrite Hsel; eexists; reflexivity.
Qed.

End OneWord.

(** X10. The three one-word entry points never return a declined name.
    For the Russian and the Ukrainian engine, whatever the registry, the
    case number and the gender, [qFirstName], [qSecondName] and
    [qFatherName] raise for every name that is not empty - with the error
    "word should be of class NCLNameCaseWord" whenever the declension pass
    itself has gone through - and return the empty string for the empty
    name. *)
Theorem one_word_entry_points_never_return_a_name {JN : JSNumber}
        (L : Lang) (reg : NCL.Registry Lang) (c : Core)
        (name : jsstring) (CaseNumber : option Z) (gender : Z) :
  L = NCLNameCaseRu.lang \/ L = NCLNameCaseUa.lang ->
  (name <> [] ->
   (exists e, qFirstName L reg c name CaseNumber gender = Err e)
   /\ (exists e, qSecondName L reg c name CaseNumber gender = Err e)
   /\ (exists e, qFatherName L reg c name CaseNumber gender = Err e)
   /\ ((exists c', AllWordCases L reg
                     (with_gender (setFirstName (fullReset c) name) gender)
                   = Ok c') ->
       qFirstName L reg c name CaseNumber gender
       = Err (Error "word should be of class NCLNameCaseWord")))
  /\ (name = [] ->
      exists c1 c2 c3,
        qFirstName L reg c name CaseNumber gender = Ok (c1, VString [])
        /\ qSecondName L reg c name CaseNumber gender = Ok (c2, VString [])
        /\ qFatherName L reg c name CaseNumber gender = Ok (c3, VString [])).
Proof.
  intros HL. split.
  - intros Hn.
    assert (Hone : forall p sel,
               (forall ws, sel (mkIndex (keys_of N_ ws) (keys_of S_ ws)
                                        (keys_of F_ ws)) = keys_of p ws) ->
               match getPartCase sel L reg
                       (with_gender (addWord (fullReset c) name p) gender)
                       CaseNumber with
               | Ok _ => False
               | Err e =>
                   forall c',
                     AllWordCases L reg
                       (with_gender (addWord (fullReset c) name p) gender)
                     = Ok c' ->
                     e = Error "word should be of class NCLNameCaseWord"
               end).
    { intros p sel Hsel.
      assert (Hw : words (addWord (fullReset c) name p)
                   = [setNamePart (new name) p])
        by (destruct name; [congruence | reflexivity]).
      assert (Hr : ready (addWord (fullReset c) name p) = false)
        by (destruct name; reflexivity).
      assert (Hf : finished (addWord (fullReset c) name p) = false)
        by (destruct name; reflexivity).
      destruct (with_gender_word _ gender _ Hw Hr Hf)
        as (w' & Hw' & Hp' & Hr' & Hf').
      eapply one_word_getter_raises; eauto. }
    pose proof (Hone N_ index_N (fun ws => eq_refl)) as HN.
    pose proof (Hone S_ index_S (fun ws => eq_refl)) as HS.
    pose proof (Hone F_ index_F (fun ws => eq_refl)) as HF.
    unfold qFirstName, qSecondName, qFatherName,
      getFirstNameCase, getSecondNameCase, getFatherNameCase,
      setFirstName, setSecondName, setFatherName. cbv zeta.
    destruct (getPartCase index_N _ _ _ _) as [| eN]; [contradiction |].
    destruct (getPartCase index_S _ _ _ _) as [| eS]; [contradiction |].
    destruct (getPartCase index_F _ _ _ _) as [| eF]; [contradiction |].
    repeat split; eauto.
    intros [c' E]. now rewrite (HN c' E).
  - intros ->.
    unfold qFirstName, qSecondName, qFatherName,
      getFirstNameCase, getSecondNameCase, getFatherNameCase,
      setFirstName, setSecondName, setFatherName, addWord. cbv zeta.
    destruct (empty_getter_returns L reg c index_N CaseNumber gender eq_refl)
      as [c1 E1].
    destruct (empty_getter_returns L reg c index_S CaseNumber gender eq_refl)
      as [c2 E2].
    destruct (empty_getter_returns L reg c index_F CaseNumber gender eq_refl)
      as [c3 E3].
    exists c1, c2, c3. auto.
Qed.

Lemma one_word_entry_points_never_return_a_name_witness :
  qFirstName NCLNameCaseUa.lang concreteClasses init (U "Тарас") (Some 1)
             NCL.MAN
  = Err (Error "word should be of class NCLNameCaseWord")
  /\ exists c1,
       qFirstName NCLNameCaseUa.lang concreteClasses init [] (Some 1) NCL.MAN
       = Ok (c1, VString []).
Proof.
  destruct (one_word_entry_points_never_return_a_name
              NCLNameCaseUa.lang concreteClasses init (U "Тарас") (Some 1)
              NCL.MAN (or_intror eq_refl)) as [H _].
  destruct (H ltac:(discriminate)) as (_ & _ & _ & Hexact).
  split.
  - apply Hexact.
    destruct (AllWordCases _ _ _) as [c' | e] eqn:E;
      [now exists c' | vm_compute in E; discriminate E].
  - destruct (one_word_entry_points_never_return_a_name
                NCLNameCaseUa.lang concreteClasses init [] (Some 1)
                NCL.MAN (or_intror eq_refl)) as [_ H0].
    destruct (H0 eq_refl) as (c1 & _ & _ & E & _). now exists c1.
Defined.

(** ** The entry points on a whole name *)

(** X11. [genderAutoDetect] never names a gender: on an engine without
    words it returns -1, and on an engine with words it calls [getGender]
    on [undefined] as soon as the preparation has gone through - as it
    always does for the Russian and the Ukrainian engine. *)
Theorem genderAutoDetect_never_names_a_gender {JN : JSNumber}
        (L : Lang) (c : Core) :
  (forall c' gender,
      genderAutoDetect L c = Ok (c', gender) -> gender = -1 /\ words c = [])
  /\ (words c = [] -> exists c', genderAutoDetect L c = Ok (c', -1))
  /\ (L = NCLNameCaseRu.lang \/ L = NCLNameCaseUa.lang ->
      ready c = false -> words c <> [] ->
      genderAutoDetect L c
      = Err (TypeError
               "Cannot read properties of undefined (reading 'getGender')")).
Proof.
  split; [| split].
  - intros c' g H. unfold genderAutoDetect, JS.bind in H.
    destruct (prepareEverything L c) as [c1 |] eqn:E; [| discriminate].
    pose proof (prepareEverything_length L c c1 E) as Hl.
    destruct (words c1); [| discriminate].
    inversion H; subst. split; [reflexivity |].
    now apply length_zero_iff_nil.
  - intros Hw. unfold genderAutoDetect, prepareEverything.
    destruct c as [r f ws ww lr lres ix]. cbn in Hw. subst ws.
    destruct r; cbn; [eexists; reflexivity |].
    destruct (ngtb nzero nzero); cbn; eexists; reflexivity.
  - intros HL Hr Hw. unfold genderAutoDetect.
    destruct (prepareEverything_known L c HL Hr) as (c1 & E & _).
    rewrite E. cbn [JS.bind].
    pose proof (prepareEverything_length L c c1 E) as Hl.
    destruct (words c1); [| reflexivity].
    destruct (words c); [congruence | discriminate].
Qed.

Lemma genderAutoDetect_never_names_a_gender_witness :
  (exists c', genderAutoDetect NCLNameCaseRu.lang init = Ok (c', -1))
  /\ genderAutoDetect NCLNameCaseRu.lang engine_taras
     = Err (TypeError
              "Cannot read properties of undefined (reading 'getGender')").
Proof.
  destruct (genderAutoDetect_never_names_a_gender NCLNameCaseRu.lang init)
    as (_ & H & _).
  destruct (genderAutoDetect_never_names_a_gender NCLNameCaseRu.lang
              engine_taras) as (_ & _ & H').
  split; [now apply H |].
  apply H'; [now left | reflexivity | discriminate].
Defined.

(** X12. The entry points that take the whole name as one text - [q],
    [genderDetect] and [getFullNameFormat] - go through [splitFullName]
    and raise its [ReferenceError] for every input, whatever the
    language, the case number and the gender. *)
Theorem whole_name_entry_points_raise {JN : JSNumber}
        (L : Lang) (reg : NCL.Registry Lang) (c : Core)
        (fullname : jsstring) (caseNum gender : option Z) :
  q L reg c fullname caseNum gender = Err (ReferenceError "trim")
  /\ genderDetect L c fullname = Err (ReferenceError "trim")
  /\ getFullNameFormat L c fullname = Err (ReferenceError "trim").
Proof. repeat split. Qed.

(** ** Where the Russian declension raises *)

Section RuRaises.
Context {JN : JSNumber}.
Import NCLNameCaseRu.

Lemma RulesChain_raises (Q : jsstring -> list jsstring -> Prop)
      (rules : GenderTag -> Z -> option Method) (gender : GenderTag) :
  (forall ruleID m, rules gender ruleID = Some m -> keeps Q m) ->
  forall rulesArray c e,
    RulesChain rules gender rulesArray c = Err e ->
    exists ruleID,
      In ruleID rulesArray
      /\ match rules gender ruleID with
         | None => True
         | Some m => exists c0, workingWord c0 = workingWord c /\ m c0 = Err e
         end.
Proof.
  intros Hk rulesArray.
  induction rulesArray as [| ruleID rest IH]; intros c e H; simpl in H.
  - discriminate.
  - destruct (rules gender ruleID) as [m |] eqn:Em.
    + unfold JS.bind in H.
      destruct (m c) as [[b c1] | e1] eqn:Emc.
      * cbn [fst snd] in H. destruct b; [discriminate |].
        destruct (IH _ _ H) as (id & Hin & Hid).
        exists id. split; [now right |].
        destruct (rules gender id) as [m' |]; [| exact I].
        destruct Hid as (c0 & Hw & He). exists c0. split; [| exact He].
        destruct (Hk _ _ Em _ _ _ Emc) as [Hw1 _]. congruence.
      * inversion H; subst. exists ruleID. split; [now left |].
        rewrite Em. now exists c.
    + exists ruleID. split; [now left |]. now rewrite Em.
Qed.

Lemma ru_rules_return_but_5 gender ruleID m :
  rules gender ruleID = Some m ->
  (gender, ruleID) <> (man, 5) -> always_returns m.
Proof.
  intros H Hne. table_entry H; try congruence;
    match goal with
    | |- always_returns manRule1 => unfold manRule1
    | |- always_returns manRule2 => unfold manRule2
    | |- always_returns manRule3 => unfold manRule3
    | |- always_returns manRule4 => unfold manRule4
    | |- always_returns manRule6 => unfold manRule6
    | |- always_returns manRule7 => unfold manRule7
    | |- always_returns manRule8 => unfold manRule8
    | |- always_returns womanRule1 => unfold womanRule1
    | |- always_returns womanRule2 => unfold womanRule2
    | |- always_returns womanRule3 => unfold womanRule3
    | |- always_returns womanRule4 => unfold womanRule4
    end; returns_leaf.
Qed.

Lemma ru_chain_returns gender rulesArray :
  Forall (fun ruleID => rules gender ruleID <> None
                        /\ (gender, ruleID) <> (man, 5)) rulesArray ->
  always_returns (RulesChain rules gender rulesArray).
Proof.
  intros H. apply RulesChain_returns.
  eapply Forall_impl; [| exact H]. cbv beta. intros ruleID [Hr Hne].
  destruct (rules gender ruleID) as [m |] eqn:Em; [| congruence].
  exists m. split; [reflexivity |]. eapply ru_rules_return_but_5; eassumption.
Qed.

(** When the fifth rule raises. *)
Lemma ru_manRule5_raises (c : Core) (e : JSError) :
  manRule5 c = Err e ->
  e = ReferenceError "in_array"
  /\ Last c 1 0 = U "к" /\ Last c 2 1 = U "е".
Proof.
  unfold manRule5. intros H.
  destruct (str_eqb (Last c 1 0) (U "к")) eqn:E1; [| discriminate].
  destruct (str_eqb (Last c 4 0) (U "енок") || str_eqb (Last c 4 0) (U "ёнок"));
    [discriminate |].
  destruct (str_eqb (Last c 2 1) (U "е")) eqn:E2.
  - cbn in H. inversion H; subst.
    apply str_eqb_eq in E1, E2. auto.
  - cbn in H. discriminate.
Qed.

Lemma two_last_letters (w : jsstring) (a b : N) :
  Last_of w 1 0 = [a] -> Last_of w 2 1 = [b] ->
  exists stem, w = stem ++ [b; a].
Proof.
  destruct w as [| x w] using rev_ind; [discriminate |].
  destruct w as [| y w _] using rev_ind; [discriminate |].
  intros H1 H2. rewrite <- app_assoc in *. cbn [app] in *.
  pose proof (Last_of_suffix (w ++ [y]) [x] ltac:(discriminate)) as Hx.
  rewrite <- app_assoc in Hx. cbn in Hx. rewrite Hx in H1.
  pose proof (Last_of_suffix_cut w [y; x] 1 ltac:(discriminate) eq_refl) as Hy.
  cbn in Hy. rewrite Hy in H2.
  inversion H1; inversion H2; subst. now exists w.
Qed.

(** The texts [Last] returns for a word in [ек]. *)
Lemma ends_in_ek_Last (stem : jsstring) (n : Z) :
  2 <= n ->
  exists pre, Last_of (stem ++ U "ек") n 0 = pre ++ U "ек".
Proof.
  intros Hn. change (U "ек") with [1077%N; 1082%N].
  unfold Last_of, slice, JS.range, JS.strlen.
  cbn [Z.gtb Z.compare]. rewrite length_app. cbn [List.length].
  replace (- n <? 0) with true by (symmetry; apply Z.ltb_lt; lia).
  set (len := (List.length stem + 2)%nat).
  set (from := Z.max (Z.of_nat len + - n) 0).
  rewrite firstn_all2
    by (rewrite length_skipn, length_app; cbn; unfold from, len; lia).
  rewrite skipn_app.
  replace (Z.to_nat from - List.length stem)%nat with 0%nat
    by (unfold from, len; lia).
  eexists. reflexivity.
Qed.

Lemma ends_in_two (pre t : jsstring) (a b : N) :
  t = pre ++ [a; b] -> ends_in a b t = true.
Proof.
  intros ->. unfold ends_in. rewrite rev_app_distr. cbn.
  now rewrite !N.eqb_refl.
Qed.

Lemma not_in_ek (s pre : jsstring) (a b : N) (targets : list jsstring) :
  s = pre ++ [a; b] ->
  forallb (fun t => negb (ends_in a b t)) targets = true ->
  in_arr s targets = false.
Proof.
  intros Hs H. unfold in_arr.
  destruct s as [| x s]; [reflexivity |].
  unfold arr_includes.
  induction targets as [| t targets IH]; [reflexivity |].
  cbn [forallb] in H. apply andb_true_iff in H as [Ht H].
  cbn [existsb]. rewrite (IH H), orb_false_r.
  apply str_eqb_neq. intros <-.
  rewrite (ends_in_two _ _ _ _ Hs) in Ht. discriminate.
Qed.

Lemma not_eq_ek (s pre : jsstring) (a b : N) (t : jsstring) :
  s = pre ++ [a; b] -> ends_in a b t = false -> str_eqb s t = false.
Proof.
  intros Hs H. apply str_eqb_neq. intros <-.
  rewrite (ends_in_two _ _ _ _ Hs) in H. discriminate.
Qed.

Lemma ru_manSecondName_ek (c : Core) (stem : jsstring) :
  workingWord c = stem ++ U "ек" ->
  manSecondName c = Err (ReferenceError "in_array").
Proof.
  intros Hw.
  assert (H1 : Last c 1 0 = U "к").
  { unfold Last. rewrite Hw.
    replace (stem ++ U "ек") with ((stem ++ U "е") ++ U "к")
      by (now rewrite <- app_assoc).
    apply (Last_of_suffix (stem ++ U "е") (U "к")). discriminate. }
  assert (H21 : Last c 2 1 = U "е").
  { unfold Last. rewrite Hw.
    apply (Last_of_suffix_cut stem (U "ек") 1); [discriminate | reflexivity]. }
  destruct (ends_in_ek_Last stem 2 ltac:(lia)) as [p2 H2].
  destruct (ends_in_ek_Last stem 3 ltac:(lia)) as [p3 H3].
  destruct (ends_in_ek_Last stem 4 ltac:(lia)) as [p4 H4].
  fold (Last_of (workingWord c) 2 0) in H2.
  unfold manSecondName. cbn [RulesChain rules JS.bind].
  unfold manRule8 at 1. unfold Last at 1 2. rewrite Hw.
  rewrite (not_in_ek _ _ _ _ ovo H3 eq_refl).
  rewrite (not_in_ek _ _ _ _ ih H2 eq_refl).
  cbn [orb JS.bind fst snd].
  unfold manRule4 at 1. rewrite H1.
  change (in_str (U "к") (U "ьй")) with false.
  cbn [JS.bind fst snd].
  unfold manRule5 at 1. rewrite H1, H21.
  unfold Last at 1 2. rewrite Hw.
  rewrite (not_eq_ek _ _ _ _ (U "енок") H4 eq_refl).
  rewrite (not_eq_ek _ _ _ _ (U "ёнок") H4 eq_refl).
  reflexivity.
Qed.

Lemma ru_manSecondName_raises (c : Core) (e : JSError) :
  manSecondName c = Err e ->
  e = ReferenceError "in_array"
  /\ exists stem, workingWord c = stem ++ U "ек".
Proof.
  intros H. unfold manSecondName in H.
  destruct (RulesChain_raises _ rules man (ru_rules_shape man) _ _ _ H)
    as (id & Hin & Hid).
  destruct (Z.eq_dec id 5) as [-> | Hne].
  - cbn in Hid. destruct Hid as (c0 & Hw & He).
    destruct (ru_manRule5_raises _ _ He) as (-> & H1 & H2).
    split; [reflexivity |].
    unfold Last in H1, H2. rewrite Hw in H1, H2.
    exact (two_last_letters _ _ _ H1 H2).
  - destruct (rules man id) as [m |] eqn:Em.
    + destruct Hid as (c0 & _ & He).
      assert (Hr : always_returns m).
      { eapply ru_rules_return_but_5; [exact Em | congruence]. }
      destruct (Hr c0) as (b & c1 & E). congruence.
    + cbn in Hin.
      repeat (destruct Hin as [<- | Hin]; [discriminate Em |]).
      contradiction.
Qed.

Lemma ru_other_methods_return :
  always_returns manFirstName /\ always_returns womanFirstName
  /\ always_returns womanSecondName
  /\ always_returns manFatherName /\ always_returns womanFatherName.
Proof.
  repeat split.
  - intros c. unfold manFirstName.
    destruct (inNames _ _); [now do 2 eexists |].
    destruct (inNames _ _); [now do 2 eexists |].
    apply ru_chain_returns. repeat constructor; discriminate.
  - apply ru_chain_returns. repeat constructor; discriminate.
  - apply ru_chain_returns. repeat constructor; discriminate.
  - unfold manFatherName. returns_leaf.
  - unfold womanFatherName. returns_leaf.
Qed.

End RuRaises.

(** X13. Of the six declension methods of the Russian module only
    [manSecondName] can raise, and it raises exactly when the working word
    ends in the two letters "ек": its fifth rule then calls [in_array],
    which nothing binds. *)
Theorem russian_surname_in_ek_raises {JN : JSNumber} (c : Core) :
  ((exists stem, workingWord c = stem ++ U "ек")
   <-> exists e, NCLNameCaseRu.manSecondName c = Err e)
  /\ (forall e, NCLNameCaseRu.manSecondName c = Err e ->
                e = ReferenceError "in_array")
  /\ always_returns NCLNameCaseRu.manFirstName
  /\ always_returns NCLNameCaseRu.womanFirstName
  /\ always_returns NCLNameCaseRu.womanSecondName
  /\ always_returns NCLNameCaseRu.manFatherName
  /\ always_returns NCLNameCaseRu.womanFatherName.
Proof.
  split; [split |].
  - intros [stem Hw]. eexists. eapply ru_manSecondName_ek. exact Hw.
  - intros [e He]. now destruct (ru_manSecondName_raises c e He).
  - split; [| exact ru_other_methods_return].
    intros e He. now destruct (ru_manSecondName_raises c e He).
Qed.

Lemma russian_surname_in_ek_raises_witness :
  NCLNameCaseRu.manSecondName (setWorkingWord init (U "Лотрек"))
  = Err (ReferenceError "in_array").
Proof.
  destruct (russian_surname_in_ek_raises (setWorkingWord init (U "Лотрек")))
    as ([H _] & He & _).
  destruct (H (ex_intro _ (U "Лотр") eq_refl)) as [e E].
  rewrite E. f_equal. exact (He e E).
Defined.

(** ** Formatting an array of words *)

Section HardFormatting.
Context {JN : JSNumber}.

Lemma trimmed_no_space (s : jsstring) :
  s <> [] -> no_space s = true -> trimmed s.
Proof.
  intros Hne Hs. unfold no_space in Hs. rewrite forallb_forall in Hs. split.
  - destruct s as [| c rest]; [congruence |].
    exists c, rest. split; [reflexivity |].
    apply negb_true_iff, Hs. now left.
  - destruct s as [| c pre _] using rev_ind; [congruence |].
    exists pre, c. split; [reflexivity |].
    apply negb_true_iff, Hs. apply in_or_app. right. now left.
Qed.

Lemma trimmed_app (x y : jsstring) :
  trimmed x -> trimmed y -> trimmed (x ++ U " " ++ y).
Proof.
  intros [(c & rest & -> & Hc) _] [_ (pre & d & -> & Hd)]. split.
  - now exists c, (rest ++ U " " ++ pre ++ [d]).
  - exists ((c :: rest) ++ U " " ++ pre), d. split; [| exact Hd].
    now rewrite <- !app_assoc.
Qed.

Lemma trim_trimmed (s : jsstring) : trimmed s -> JS.trim (s ++ U " ") = s.
Proof.
  intros [(c & rest & -> & Hc) (pre & d & E & Hd)]. unfold JS.trim.
  change (U " ") with [32%N].
  cbn [app trim_start]. rewrite Hc.
  change (c :: rest ++ [32%N]) with ((c :: rest) ++ [32%N]).
  rewrite E, !rev_app_distr. cbn [rev app trim_start].
  change (is_space 32%N) with true. cbv iota. rewrite Hd.
  cbn [rev]. now rewrite rev_involutive.
Qed.

Lemma join_trimmed (x : jsstring) (xs : list jsstring) :
  Forall trimmed (x :: xs) -> trimmed (join (U " ") (x :: xs)).
Proof.
  revert x. induction xs as [| y xs IH]; intros x H; inversion H; subst.
  - assumption.
  - change (join (U " ") (x :: y :: xs))
      with (x ++ U " " ++ join (U " ") (y :: xs)).
    apply trimmed_app; auto.
Qed.

Lemma concat_cells (x : jsstring) (xs : list jsstring) :
  List.concat (map (fun cell => cell ++ U " ") (x :: xs))
  = join (U " ") (x :: xs) ++ U " ".
Proof.
  revert x. induction xs as [| y xs IH]; intros x.
  - cbn [map List.concat join]. now rewrite app_nil_r.
  - change (join (U " ") (x :: y :: xs))
      with (x ++ U " " ++ join (U " ") (y :: xs)).
    change (List.concat (map (fun cell => cell ++ U " ") (x :: y :: xs)))
      with ((x ++ U " ")
            ++ List.concat (map (fun cell => cell ++ U " ") (y :: xs))).
    rewrite IH. now rewrite <- !app_assoc.
Qed.

Lemma hard_line_join (cases : list (list jsstring)) (i : nat) :
  Forall (fun value => trimmed (nth i value undefined_text)) cases ->
  hard_line cases (Some i)
  = join (U " ") (map (fun value => nth i value undefined_text) cases).
Proof.
  intros H. unfold hard_line.
  set (f := fun value : list jsstring => nth i value undefined_text) in *.
  rewrite <- (map_map f (fun cell => cell ++ U " ")).
  destruct cases as [| v cases]; [reflexivity |].
  change (map f (v :: cases)) with (f v :: map f cases).
  rewrite concat_cells. apply trim_trimmed.
  apply join_trimmed.
  change (Forall trimmed (map f (v :: cases))).
  now apply Forall_map.
Qed.

End HardFormatting.

(** X14. The two formatters of an array of words agree: the list
    [getFormattedArrayHard] returns has one line per case, and its line
    [n] is what [getFormattedHard(n, format)] returns. A line is made of
    the forms of that case joined by single spaces, when every word has a
    form for the case that is not empty and holds no white space; a word
    that has not been declined contributes the text "undefined". *)
Theorem hard_formatting_joins_the_forms {JN : JSNumber}
        (L : Lang) (format : list Word) :
  List.length (getFormattedArrayHard L format) = CaseCount L
  /\ (forall n, 0 <= n < Z.of_nat (CaseCount L) ->
        nth_error (getFormattedArrayHard L format) (Z.to_nat n)
        = Some (getFormattedHard n format))
  /\ (forall n, 0 <= n ->
        Forall (fun w => exists form,
                    nth_error (NameCases w) (Z.to_nat n) = Some form
                    /\ form <> [] /\ no_space form = true) format ->
        getFormattedHard n format
        = join (U " ")
               (map (fun w => nth (Z.to_nat n) (NameCases w) []) format))
  /\ (forall n, 0 <= n ->
        Forall (fun w => NameCases w = []) format ->
        getFormattedHard n format
        = join (U " ") (map (fun _ => undefined_text) format)).
Proof.
  split; [| split; [| split]].
  - unfold getFormattedArrayHard. now rewrite length_map, length_seq.
  - intros n Hn. unfold getFormattedArrayHard, getFormattedHard.
    replace (n <? 0) with false by (symmetry; apply Z.ltb_ge; lia).
    rewrite nth_error_map.
    rewrite nth_error_nth' with (d := 0%nat) by (rewrite length_seq; lia).
    rewrite seq_nth by lia. reflexivity.
  - intros n Hn H. unfold getFormattedHard.
    replace (n <? 0) with false by (symmetry; apply Z.ltb_ge; lia).
    rewrite hard_line_join.
    + rewrite map_map. f_equal. apply map_ext_in. intros w Hw.
      rewrite Forall_forall in H. destruct (H w Hw) as (form & E & _).
      unfold getNameCases.
      now rewrite (nth_error_nth _ _ _ E), (nth_error_nth _ _ _ E).
    + apply Forall_map. eapply Forall_impl; [| exact H]. cbv beta.
      intros w (form & E & Hne & Hs). unfold getNameCases.
      rewrite (nth_error_nth _ _ _ E). now apply trimmed_no_space.
  - intros n Hn H. unfold getFormattedHard.
    replace (n <? 0) with false by (symmetry; apply Z.ltb_ge; lia).
    rewrite hard_line_join.
    + rewrite map_map. f_equal. apply map_ext_in. intros w Hw.
      rewrite Forall_forall in H. unfold getNameCases. rewrite (H w Hw).
      now destruct (Z.to_nat n).
    + apply Forall_map. eapply Forall_impl; [| exact H]. cbv beta.
      intros w E. unfold getNameCases. rewrite E.
      replace (nth (Z.to_nat n) [] undefined_text) with undefined_text
        by (now destruct (Z.to_nat n)).
      apply trimmed_no_space; [discriminate | reflexivity].
Qed.

Lemma hard_formatting_joins_the_forms_witness :
  getFormattedHard 1
    [setNameCases (new (U "Тарас")) [U "Тарас"; U "Тараса"] false;
     setNameCases (new (U "Шевченко")) [U "Шевченко"; U "Шевченка"] false]
  = U "Тараса Шевченка"
  /\ getFormattedHard 1 [new (U "Тарас"); new (U "Шевченко")]
     = U "undefined undefined".
Proof.
  destruct (hard_formatting_joins_the_forms NCLNameCaseUa.lang
              [setNameCases (new (U "Тарас")) [U "Тарас"; U "Тараса"] false;
               setNameCases (new (U "Шевченко"))
                            [U "Шевченко"; U "Шевченка"] false])
    as (_ & _ & H & _).
  destruct (hard_formatting_joins_the_forms NCLNameCaseUa.lang
              [new (U "Тарас"); new (U "Шевченко")]) as (_ & _ & _ & H').
  split.
  - rewrite (H 1 ltac:(lia)); [reflexivity |].
    repeat constructor; eexists; (split; [reflexivity |]);
      (split; [discriminate | reflexivity]).
  - rewrite (H' 1 ltac:(lia)); [reflexivity |].
    repeat constructor.
Defined.

(** ** Reading the forms of a declined word *)

(** X15. For a word that the Russian or the Ukrainian engine has
    declined, the two readers of a single form agree on every case number
    from 0 to [CaseCount - 1]: [getWordCase(word, n)] and
    [word.getNameCase(n)] return the same text. Outside that range
    [getWordCase] hands back the whole list and [getNameCase] returns
    [false]; with its default argument [null], [getWordCase] returns
    [undefined]. *)
Theorem readers_of_a_declined_word {JN : JSNumber}
        (L : Lang) (reg : NCL.Registry Lang) (c c' : Core) (w w' : Word) :
  L = NCLNameCaseRu.lang \/ L = NCLNameCaseUa.lang ->
  WordCase L reg c w = Ok (c', w') ->
  (forall n, 0 <= n < Z.of_nat (CaseCount L) ->
     exists form,
       getWordCase L (ArgWord w') (Some n) = Ok (VString form)
       /\ getNameCase w' n = Some form)
  /\ (forall n, n < 0 \/ Z.of_nat (CaseCount L) <= n ->
        getWordCase L (ArgWord w') (Some n) = Ok (VArray (NameCases w'))
        /\ getNameCase w' n = None)
  /\ getWordCase L (ArgWord w') None = Ok VUndefined.
Proof.
  intros HL H.
  destruct (WordCase_shape L reg (fun g p m => lang_shape L g p m HL)
                           _ _ _ _ H) as [Hlen _].
  assert (Hcc : (1 <= CaseCount L)%nat)
    by (clear - HL; destruct HL as [-> | ->];
        [change (1 <= 6)%nat | change (1 <= 7)%nat]; lia).
  split; [| split].
  - intros n Hn.
    destruct (nth_error_in_range (NameCases w') (Z.to_nat n)) as [form E];
      [lia |].
    exists form. unfold getWordCase, getNameCase, getNameCases.
    replace (n <? 0) with false by (symmetry; apply Z.ltb_ge; lia).
    replace (n >? Z.of_nat (CaseCount L) - 1) with false
      by (rewrite Z.gtb_ltb; symmetry; apply Z.ltb_ge; lia).
    cbn [orb]. now rewrite E.
  - intros n Hn. unfold getWordCase, getNameCase, getNameCases. split.
    + destruct Hn as [Hn | Hn].
      * replace (n <? 0) with true by (symmetry; apply Z.ltb_lt; lia).
        reflexivity.
      * replace (n >? Z.of_nat (CaseCount L) - 1) with true
          by (rewrite Z.gtb_ltb; symmetry; apply Z.ltb_lt; lia).
        now rewrite orb_true_r.
    + destruct (Z.ltb_spec n 0); [reflexivity |].
      apply nth_error_None. lia.
  - unfold getWordCase.
    replace (0 >? Z.of_nat (CaseCount L) - 1) with false
      by (rewrite Z.gtb_ltb; symmetry; apply Z.ltb_ge; lia).
    reflexivity.
Qed.

Lemma readers_of_a_declined_word_witness :
  exists c' w',
    WordCase NCLNameCaseUa.lang concreteClasses init taras = Ok (c', w')
    /\ getWordCase NCLNameCaseUa.lang (ArgWord w') (Some 6)
       = Ok (VString (U "Тарасе"))
    /\ getNameCase w' 6 = Some (U "Тарасе")
    /\ getNameCase w' 7 = None.
Proof.
  destruct (WordCase NCLNameCaseUa.lang concreteClasses init taras)
    as [[c' w'] | e] eqn:E; [| vm_compute in E; discriminate E].
  exists c', w'. split; [reflexivity |].
  destruct (readers_of_a_declined_word NCLNameCaseUa.lang concreteClasses
              init c' taras w' (or_intror eq_refl) E) as (H1 & H2 & _).
  destruct (H1 6 ltac:(cbn; lia)) as (form & Hw & Hn).
  assert (form = U "Тарасе").
  { vm_compute in E. injection E as _ <-. vm_compute in Hn.
    now injection Hn as <-. }
  subst form. split; [exact Hw |]. split; [exact Hn |].
  exact (proj2 (H2 7 ltac:(right; cbn; lia))).
Defined.

(** ** Formatting the words of the engine itself *)

Section OwnWords.
Context {JN : JSNumber}.

End OwnWords.

(** X16. Handing [getFormatted] the word array of the engine itself -
    the one [getWordsArray] gives out - avoids the per-part getters: the
    call runs the declension pass and formats the words in the order they
    were added, as one line for a case number other than 0 and as the
    list of all lines for 0 and for [null]. For the Ukrainian engine with
    the registry of the package it always returns. *)
Theorem formatting_the_words_of_the_engine {JN : JSNumber}
        (L : Lang) (reg : NCL.Registry Lang) (c : Core) (caseNum : option Z) :
  getFormatted_words L reg c caseNum
  = (c' <- AllWordCases L reg c ;;
     Ok (c',
         if not_specified caseNum
         then VArray (getFormattedArrayHard L (getWordsArray c'))
         else VString (getFormattedHard
                         (match caseNum with Some n => n | None => 0 end)
                         (getWordsArray c'))))
  /\ (L = NCLNameCaseUa.lang -> reg = concreteClasses ->
      (ready c = true -> Forall (fun w => namePart w <> None) (words c)) ->
      exists c' v, getFormatted_words L reg c caseNum = Ok (c', v)).
Proof.
  assert (Heq : getFormatted_words L reg c caseNum
                = (c' <- AllWordCases L reg c ;;
                   Ok (c',
                       if not_specified caseNum
                       then VArray (getFormattedArrayHard L (getWordsArray c'))
                       else VString
                              (getFormattedHard
                                 (match caseNum with
                                  | Some n => n
                                  | None => 0
                                  end)
                                 (getWordsArray c'))))).
  { unfold getFormatted_words, JS.bind.
    destruct (AllWordCases L reg c) as [c' |] eqn:E; [| reflexivity].
    destruct (AllWordCases_finished L reg c c' E) as [_ E'].
    unfold getFormatted, JS.bind. rewrite E'.
    now destruct (not_specified caseNum). }
  split; [exact Heq |].
  intros -> -> Hready. rewrite Heq.
  destruct (ua_AllWordCases_returns c Hready) as (c' & -> & _).
  cbn [JS.bind]. now do 2 eexists.
Qed.

Lemma formatting_the_words_of_the_engine_witness :
  exists c',
    getFormatted_words NCLNameCaseUa.lang concreteClasses
      (setFullName init (U "Шевченко") (U "Тарас") (U "Григорович")) (Some 1)
    = Ok (c', VString (U "Тараса Шевченка Григоровича")).
Proof.
  destruct (formatting_the_words_of_the_engine
              NCLNameCaseUa.lang concreteClasses
              (setFullName init (U "Шевченко") (U "Тарас") (U "Григорович"))
              (Some 1)) as [_ H].
  destruct (H eq_refl eq_refl ltac:(discriminate)) as (c' & v & E).
  exists c'. rewrite E. vm_compute in E. injection E as _ <-. reflexivity.
Defined.

(** ** When the registry of classes is read *)

Section Registry.
Context {JN : JSNumber}.

Lemma is_norm_rules_any_registry (reg reg' : NCL.Registry Lang)
      (npl : option Part) (cnt k : nat) (cw : jsstring) (o : Word) :
  npl <> Some S_ \/ (cnt <= 1)%nat ->
  is_norm_rules reg npl cnt k cw o = is_norm_rules reg' npl cnt k cw o.
Proof.
  intros H. unfold is_norm_rules.
  destruct npl as [[] |]; try reflexivity.
  destruct H as [H | H]; [congruence |].
  replace (1 <? cnt)%nat with false
    by (symmetry; apply Nat.ltb_ge; lia).
  reflexivity.
Qed.

Lemma WordCase_chunks_any_registry (L : Lang) (reg reg' : NCL.Registry Lang)
      (m : Method) (npl : option Part) (cnt : nat) :
  npl <> Some S_ \/ (cnt <= 1)%nat ->
  forall cur_words k c lr,
    WordCase_chunks L reg m npl cnt k cur_words c lr
    = WordCase_chunks L reg' m npl cnt k cur_words c lr.
Proof.
  intros H cur_words.
  induction cur_words as [| cw cur_words IH]; intros k c lr; simpl;
    [reflexivity |].
  unfold WordCase_chunk.
  rewrite (is_norm_rules_any_registry reg reg' _ _ _ _ _ H).
  unfold JS.bind.
  destruct (is_norm_rules reg' npl cnt k cw (new cw)) as [[o norm] |];
    [| reflexivity].
  cbn [fst snd].
  destruct (if norm then m (setWorkingWord c cw)
            else Ok (false, setWorkingWord c cw)) as [[b c1] |];
    [| reflexivity].
  cbn [fst snd]. now rewrite IH.
Qed.

Lemma split_first_chunk (first rest : jsstring) :
  no_hyphen first = true ->
  split hyphen (first ++ hyphen :: rest) = first :: split hyphen rest.
Proof.
  induction first as [| c first IH]; intros H.
  - simpl. reflexivity.
  - cbn [no_hyphen forallb] in H. apply andb_true_iff in H as [Hc H].
    change ((c :: first) ++ hyphen :: rest)
      with (c :: (first ++ hyphen :: rest)).
    cbn [split]. apply negb_true_iff in Hc. rewrite Hc.
    now rewrite (IH H).
Qed.

End Registry.

(** X17. The registry of concrete classes is read only for a surname
    that holds a hyphen: for every other word the declension is the same
    whatever the registry holds. For a surname with a hyphen, an engine
    used before any class has been registered raises a [TypeError],
    unless the first chunk is on the exclusion list. *)
Theorem registry_is_read_for_hyphenated_surnames_only {JN : JSNumber}
        (L : Lang) (c : Core) (w : Word) :
  (forall reg reg',
      namePart w <> Some S_ \/ count_hyphens (word_orig w) = 0%nat ->
      WordCase L reg c w = WordCase L reg' c w)
  /\ (forall first rest,
         namePart w = Some S_ ->
         word_orig w = first ++ hyphen :: rest ->
         no_hyphen first = true ->
         arr_includes exclusion (toLowerCase first) = false ->
         WordCase L None c w = Err (TypeError "cls is not a constructor")).
Proof.
  split.
  - intros reg reg' H. unfold WordCase.
    destruct (gender_word w) as (Ho & Hp & _).
    destruct (NCLNameCaseWord.gender w) as [g w0]. cbn [snd] in Ho, Hp.
    unfold getNamePart, getWordOrig. rewrite Ho, Hp.
    destruct (declension_method L _ (namePart w)) as [m |]; [| reflexivity].
    rewrite (WordCase_chunks_any_registry L reg reg'); [reflexivity |].
    destruct H as [H | H]; [now left | right].
    rewrite split_length. lia.
  - intros first rest Hp Hw Hf Hex. unfold WordCase.
    destruct (gender_word w) as (Ho & Hp' & _).
    destruct (NCLNameCaseWord.gender w) as [g w0]. cbn [snd] in Ho, Hp'.
    unfold getNamePart, getWordOrig. rewrite Ho, Hp', Hp, Hw.
    rewrite (split_first_chunk _ _ Hf).
    assert (Hm : exists m,
               declension_method L (if g =? NCL.MAN then man else woman)
                                 (Some S_) = Some m)
      by (destruct (g =? NCL.MAN); eexists; reflexivity).
    destruct Hm as [m ->].
    pose proof (split_not_nil hyphen rest) as Hne.
    destruct (split hyphen rest) as [| r rs] eqn:Er; [congruence |].
    cbn [WordCase_chunks List.length]. unfold WordCase_chunk, is_norm_rules.
    cbn [Nat.ltb Nat.leb Nat.sub andb]. rewrite Hex. reflexivity.
Qed.

Lemma registry_is_read_for_hyphenated_surnames_only_witness :
  WordCase NCLNameCaseUa.lang None init taras
  = WordCase NCLNameCaseUa.lang concreteClasses init taras
  /\ WordCase NCLNameCaseUa.lang None init petrov_vodkin
     = Err (TypeError "cls is not a constructor").
Proof.
  destruct (registry_is_read_for_hyphenated_surnames_only
              NCLNameCaseUa.lang init taras) as [H _].
  destruct (registry_is_read_for_hyphenated_surnames_only
              NCLNameCaseUa.lang init petrov_vodkin) as [_ H'].
  split.
  - apply H. left. discriminate.
  - apply (H' (U "Петров") (U "Водкин")); reflexivity.
Defined.

(** ** The stem of a Ukrainian noun *)

Section UaStem.
Context {JN : JSNumber}.
Import NCLNameCaseUa.

Lemma substr_last (pre : jsstring) (u : N) :
  NCLStr.substr (pre ++ [u]) (-1) 1 = [u].
Proof.
  unfold NCLStr.substr, JS.range, JS.strlen. rewrite length_app.
  cbn [List.length Z.ltb Z.compare]. clamp.
  range_is (List.length pre) 1%nat.
  rewrite skipn_app, skipn_all, Nat.sub_diag. reflexivity.
Qed.

Lemma substr_init (pre : jsstring) (u : N) :
  NCLStr.substr (pre ++ [u]) 0 (NCLStr.strlen (pre ++ [u]) - 1) = pre.
Proof.
  unfold NCLStr.substr, NCLStr.strlen, JS.range, JS.strlen. rewrite length_app.
  cbn [List.length Z.ltb Z.compare]. clamp.
  range_is 0%nat (List.length pre).
  cbn [skipn]. rewrite firstn_app, Nat.sub_diag, firstn_all. cbn.
  apply app_nil_r.
Qed.

(** The loop cuts off a tail of vowels and soft signs, and stops in front
    of a letter that is neither. *)
Lemma getOsnova_loop_tail (turns : nat) :
  forall osnova,
    (List.length osnova <= turns)%nat ->
    exists tail,
      osnova = getOsnova_loop turns osnova ++ tail
      /\ Forall (fun u => in_str [u] (vowels ++ U "ь") = true) tail
      /\ in_str (NCLStr.substr (getOsnova_loop turns osnova) (-1) 1)
                (vowels ++ U "ь") = false.
Proof.
  induction turns as [| turns IH]; intros osnova H.
  - assert (osnova = []) by (apply length_zero_iff_nil; lia). subst.
    exists []. repeat split; constructor.
  - change (getOsnova_loop (S turns) osnova)
      with (if in_str (NCLStr.substr osnova (-1) 1) (vowels ++ U "ь")
            then getOsnova_loop turns
                   (NCLStr.substr osnova 0 (NCLStr.strlen osnova - 1))
            else osnova).
    destruct (in_str (NCLStr.substr osnova (-1) 1) (vowels ++ U "ь")) eqn:E.
    + destruct osnova as [| u pre _] using rev_ind; [discriminate E |].
      rewrite substr_last in E. rewrite substr_init.
      rewrite length_app in H. cbn in H.
      destruct (IH pre ltac:(lia)) as (tail & Hpre & Htail & Hstop).
      exists (tail ++ [u]). split; [| split].
      * rewrite app_assoc. now rewrite <- Hpre.
      * apply Forall_app. split; [assumption | now constructor].
      * assumption.
    + exists []. rewrite app_nil_r. repeat split; [constructor | exact E].
Qed.

Lemma getOsnova_loop_stops (turns : nat) (osnova : jsstring) :
  in_str (NCLStr.substr osnova (-1) 1) (vowels ++ U "ь") = false ->
  getOsnova_loop turns osnova = osnova.
Proof.
  intros H. destruct turns; [reflexivity |].
  change (getOsnova_loop (S turns) osnova)
    with (if in_str (NCLStr.substr osnova (-1) 1) (vowels ++ U "ь")
          then getOsnova_loop turns
                 (NCLStr.substr osnova 0 (NCLStr.strlen osnova - 1))
          else osnova).
  now rewrite H.
Qed.

(** The loop of [detect2Group] cuts the same tail, and pushes its
    letters from the last one to the first. *)
Lemma detect2Group_loop_tail (turns : nat) :
  forall osnova stack,
    (List.length osnova <= turns)%nat ->
    exists tail,
      osnova = getOsnova_loop turns osnova ++ tail
      /\ detect2Group_loop turns osnova stack
         = (getOsnova_loop turns osnova,
            stack ++ map (fun u => [u]) (rev tail)).
Proof.
  induction turns as [| turns IH]; intros osnova stack H.
  - assert (osnova = []) by (apply length_zero_iff_nil; lia). subst.
    exists []. cbn. now rewrite app_nil_r.
  - change (getOsnova_loop (S turns) osnova)
      with (if in_str (NCLStr.substr osnova (-1) 1) (vowels ++ U "ь")
            then getOsnova_loop turns
                   (NCLStr.substr osnova 0 (NCLStr.strlen osnova - 1))
            else osnova).
    change (detect2Group_loop (S turns) osnova stack)
      with (if in_str (NCLStr.substr osnova (-1) 1) (vowels ++ U "ь")
            then detect2Group_loop turns
                   (NCLStr.substr osnova 0 (NCLStr.strlen osnova - 1))
                   (stack ++ [NCLStr.substr osnova (-1) 1])
            else (osnova, stack)).
    destruct (in_str (NCLStr.substr osnova (-1) 1) (vowels ++ U "ь")) eqn:E.
    + destruct osnova as [| u pre _] using rev_ind; [discriminate E |].
      rewrite substr_last, substr_init.
      rewrite length_app in H. cbn in H.
      destruct (IH pre (stack ++ [[u]]) ltac:(lia)) as (tail & Hpre & Hloop).
      exists (tail ++ [u]). split.
      * rewrite app_assoc. now rewrite <- Hpre.
      * etransitivity; [exact Hloop |].
        rewrite rev_app_distr. cbn. now rewrite <- app_assoc.
    + exists []. cbn. now rewrite !app_nil_r.
Qed.

Lemma last_of_pushes (tail : jsstring) :
  last (map (fun u => [u]) (rev tail)) (U "Z")
  = match tail with
    | [] => U "Z"
    | u :: _ => [u]
    end.
Proof.
  destruct tail as [| u tail]; [reflexivity |].
  cbn [rev]. rewrite map_app. cbn [map]. apply last_last.
Qed.

End UaStem.

(** X18. [getOsnova] returns the word without its final run of vowels
    and soft signs: the word is the stem followed by letters that are all
    vowels or soft signs, the stem is empty or ends in a letter that is
    neither, and taking the stem of a stem changes nothing. *)
Theorem getOsnova_cuts_the_final_vowels {JN : JSNumber} (word : jsstring) :
  exists tail,
    word = NCLNameCaseUa.getOsnova word ++ tail
    /\ Forall (fun u => in_str [u] (NCLNameCaseUa.vowels ++ U "ь") = true)
              tail
    /\ in_str (NCLStr.substr (NCLNameCaseUa.getOsnova word) (-1) 1)
              (NCLNameCaseUa.vowels ++ U "ь") = false
    /\ NCLNameCaseUa.getOsnova (NCLNameCaseUa.getOsnova word)
       = NCLNameCaseUa.getOsnova word.
Proof.
  destruct (getOsnova_loop_tail (List.length word) word (Nat.le_refl _))
    as (tail & Hw & Htail & Hstop).
  exists tail. unfold NCLNameCaseUa.getOsnova at 1 2 3 5.
  repeat split; auto.
  unfold NCLNameCaseUa.getOsnova at 1. now apply getOsnova_loop_stops.
Qed.

(** X19. The group [detect2Group] gives a noun depends on two letters
    only: the last letter of the stem and the letter that follows the stem
    in the word. The group is 1 when the stem ends in a hard consonant
    that is not a sibilant, 2 when it ends in a sibilant, in both cases
    provided the next letter - if there is one - is not one of [ь], [ю],
    [я], [є], [ї]; otherwise it is 3. *)
Theorem detect2Group_reads_two_letters {JN : JSNumber} (word : jsstring) :
  let osnova := NCLNameCaseUa.getOsnova word in
  let osnovaEnd := NCLStr.substr osnova (-1) 1 in
  let next := match nth_error word (List.length osnova) with
              | Some u => [u]
              | None => U "Z"
              end in
  NCLNameCaseUa.detect2Group word
  = (if in_str osnovaEnd NCLNameCaseUa.neshyplyachi
        && negb (in_str next NCLNameCaseUa.myaki) then 1
     else if in_str osnovaEnd NCLNameCaseUa.shyplyachi
             && negb (in_str next NCLNameCaseUa.myaki) then 2
     else 3).
Proof.
  cbv zeta. unfold NCLNameCaseUa.detect2Group, NCLNameCaseUa.getOsnova.
  destruct (detect2Group_loop_tail (List.length word) word []
                                   (Nat.le_refl _)) as (tail & Hw & Hloop).
  rewrite Hloop.
  set (G := NCLNameCaseUa.getOsnova_loop (List.length word) word) in *.
  clearbody G. subst word.
  cbn [app]. rewrite last_of_pushes.
  rewrite nth_error_app2 by lia. rewrite Nat.sub_diag.
  now destruct tail.
Qed.

(** ** The last vowel of a word *)

Section UaVowel.
Context {JN : JSNumber}.
Import NCLNameCaseUa.

Lemma FirstLastVowel_from_spec (word vowels_ : jsstring) (i : nat) :
  (i < List.length word)%nat ->
  match FirstLastVowel_from word vowels_ i with
  | Some char =>
      exists k u,
        (1 <= k <= i)%nat /\ nth_error word k = Some u /\ char = [u]
        /\ in_str [u] vowels_ = true
        /\ forall j v, (k < j <= i)%nat -> nth_error word j = Some v ->
                       in_str [v] vowels_ = false
  | None =>
      forall j v, (1 <= j <= i)%nat -> nth_error word j = Some v ->
                  in_str [v] vowels_ = false
  end.
Proof.
  induction i as [| i IH]; intros Hi.
  - cbn. intros j v Hj. lia.
  - cbn [FirstLastVowel_from].
    destruct (nth_error_in_range word (S i) Hi) as [u Eu].
    rewrite substr_unit, (firstn_one_skipn _ _ _ Eu).
    destruct (in_str [u] vowels_) eqn:E.
    + exists (S i), u. repeat split; auto; lia.
    + specialize (IH ltac:(lia)).
      destruct (FirstLastVowel_from word vowels_ i) as [char |].
      * destruct IH as (k & u' & Hk & Ek & -> & Hin & Hafter).
        exists k, u'. repeat split; auto; try lia.
        intros j v Hj Ej.
        destruct (Nat.eq_dec j (S i)) as [-> | Hne].
        -- rewrite Eu in Ej. now injection Ej as <-.
        -- apply (Hafter j v); [lia | assumption].
      * intros j v Hj Ej.
        destruct (Nat.eq_dec j (S i)) as [-> | Hne].
        -- rewrite Eu in Ej. now injection Ej as <-.
        -- apply (IH j v); [lia | assumption].
Qed.

End UaVowel.

(** X20. [FirstLastVowel] returns the last letter of the word that is in
    the given list, looking from the end down to the second letter: the
    first letter of the word is never examined, and the result is
    [undefined] when no letter after the first is in the list - for every
    word of one letter, in particular. *)
Theorem FirstLastVowel_never_reads_the_first_letter {JN : JSNumber}
        (word vowels : jsstring) :
  match NCLNameCaseUa.FirstLastVowel word vowels with
  | Some char =>
      exists k u,
        (1 <= k)%nat /\ nth_error word k = Some u /\ char = [u]
        /\ in_str [u] vowels = true
        /\ forall j v, (k < j)%nat -> nth_error word j = Some v ->
                       in_str [v] vowels = false
  | None =>
      forall j v, (1 <= j)%nat -> nth_error word j = Some v ->
                  in_str [v] vowels = false
  end.
Proof.
  unfold NCLNameCaseUa.FirstLastVowel.
  destruct word as [| c word].
  - cbn. intros j v _ H. now destruct j.
  - pose proof (FirstLastVowel_from_spec (c :: word) vowels
                  (List.length (c :: word) - 1) ltac:(cbn; lia)) as H.
    destruct (NCLNameCaseUa.FirstLastVowel_from _ _ _) as [char |].
    + destruct H as (k & u & Hk & Ek & -> & Hin & Hafter).
      exists k, u. repeat split; auto; try lia.
      intros j v Hj Ej. apply (Hafter j v); [| assumption].
      assert (j < List.length (c :: word))%nat
        by (apply nth_error_Some; congruence).
      lia.
    + intros j v Hj Ej. apply (H j v); [| assumption].
      assert (j < List.length (c :: word))%nat
        by (apply nth_error_Some; congruence).
      lia.
Qed.

Lemma FirstLastVowel_never_reads_the_first_letter_witness :
  NCLNameCaseUa.FirstLastVowel (U "ад") NCLNameCaseUa.vowels = None
  /\ in_str (U "д") NCLNameCaseUa.vowels = false.
Proof.
  pose proof (FirstLastVowel_never_reads_the_first_letter
                (U "ад") NCLNameCaseUa.vowels) as H.
  assert (E : NCLNameCaseUa.FirstLastVowel (U "ад") NCLNameCaseUa.vowels
              = None) by reflexivity.
  rewrite E in H. split; [exact E |].
  exact (H 1%nat 1076%N (Nat.le_refl 1) eq_refl).
Defined.

(** ** The Russian rules change the end of the word only *)

Section TwoLetters.
Context {JN : JSNumber}.

Lemma substring_prefix (w : jsstring) (r : Z) :
  0 <= r ->
  substring w 0 (JS.strlen w - r) = firstn (List.length w - Z.to_nat r) w.
Proof.
  intros Hr. unfold substring, JS.range, JS.strlen.
  set (n := List.length w).
  replace (Z.min (Z.max 0 0) (Z.of_nat n)) with 0 by lia.
  set (e := Z.min (Z.max (Z.of_nat n - r) 0) (Z.of_nat n)).
  replace (Z.to_nat (Z.min 0 e)) with 0%nat by (unfold e; lia).
  replace (Z.to_nat (Z.max 0 e - Z.min 0 e)) with (n - Z.to_nat r)%nat
    by (unfold e; lia).
  reflexivity.
Qed.

Lemma same_wordForms (cc : nat) (c : Core) (endings : list jsstring) (r : Z) :
  0 <= r <= 2 ->
  same_but_last 2 (workingWord c)
                (lastResult (wordForms cc c (workingWord c) endings r)).
Proof.
  intros Hr. unfold wordForms. rewrite lastResult_set_lastResult.
  constructor; [reflexivity |].
  apply Forall_forall. intros f Hf.
  apply in_map_iff in Hf as (i & <- & _).
  rewrite substring_prefix by lia.
  set (w := workingWord c). set (n := List.length w).
  rewrite firstn_app, firstn_firstn, length_firstn.
  replace (n - 2 - Nat.min (n - Z.to_nat r) (List.length w))%nat with 0%nat
    by (fold n; lia).
  replace (Nat.min (n - 2) (n - Z.to_nat r)) with (n - 2)%nat by lia.
  cbn [firstn]. apply app_nil_r.
Qed.

Lemma same_repeat (cc n : nat) (w : jsstring) :
  same_but_last n w (repeat w cc).
Proof.
  apply Forall_forall. intros f Hf. now rewrite (repeat_spec _ _ _ Hf).
Qed.

End TwoLetters.

Ltac two_letters_leaf :=
  let Hfix := fresh "Hfix" in
  unfold same_but_last_unless; intros Hfix;
  first
    [ apply same_wordForms; lia
    | apply same_repeat
    | exfalso; unfold fixed_literal in Hfix;
      apply orb_false_elim in Hfix as [? ?]; congruence ].

Section RuTwoLetters.
Context {JN : JSNumber}.
Import NCLNameCaseRu.

Let Q := same_but_last_unless fixed_literal 2.

Lemma ru_rules_two_letters gender ruleID m :
  rules gender ruleID = Some m -> keeps Q m.
Proof.
  intros H. table_entry H;
    match goal with
    | |- keeps _ manRule1 => unfold manRule1
    | |- keeps _ manRule2 => unfold manRule2
    | |- keeps _ manRule3 => unfold manRule3
    | |- keeps _ manRule4 => unfold manRule4
    | |- keeps _ manRule5 => unfold manRule5
    | |- keeps _ manRule6 => unfold manRule6
    | |- keeps _ manRule7 => unfold manRule7
    | |- keeps _ manRule8 => unfold manRule8
    | |- keeps _ womanRule1 => unfold womanRule1
    | |- keeps _ womanRule2 => unfold womanRule2
    | |- keeps _ womanRule3 => unfold womanRule3
    | |- keeps _ womanRule4 => unfold womanRule4
    end; unfold Q; prove_keeps two_letters_leaf.
Qed.

Lemma ru_chain_two_letters gender rulesArray :
  keeps Q (RulesChain rules gender rulesArray).
Proof. apply keeps_RulesChain. apply ru_rules_two_letters. Qed.

Lemma ru_lang_two_letters g p m :
  declension_method lang g p = Some m -> keeps Q m.
Proof.
  intros H. destruct g, p as [[] |]; try discriminate H; injection H as <-;
    cbn [NCLNameCaseCore.manFirstName NCLNameCaseCore.womanFirstName
         NCLNameCaseCore.manSecondName NCLNameCaseCore.womanSecondName
         NCLNameCaseCore.manFatherName NCLNameCaseCore.womanFatherName lang];
    try apply ru_chain_two_letters.
  - unfold manFirstName, Q.
    prove_keeps_with two_letters_leaf ru_chain_two_letters.
  - unfold manFatherName, Q. prove_keeps two_letters_leaf.
  - unfold womanFatherName, Q. prove_keeps two_letters_leaf.
Qed.

Lemma apply_mask_firstn (k : nat) :
  forall mask form,
    firstn k (apply_mask mask form)
    = apply_mask (firstn k mask) (firstn k form).
Proof.
  induction k as [| k IH]; intros mask form.
  - now destruct mask.
  - destruct mask as [| m mask], form as [| u form]; try reflexivity.
    + now destruct m.
    + destruct m; cbn; now rewrite IH.
Qed.

Lemma masked_prefix (w form : jsstring) (k : nat) :
  firstn k form = firstn k w ->
  firstn k (apply_mask (mask_of w) form) = firstn k w.
Proof.
  intros H. rewrite apply_mask_firstn, H, <- apply_mask_firstn.
  now rewrite apply_mask_self.
Qed.

Lemma upper_prefix (w form : jsstring) (k : nat) :
  all_upper w = true ->
  firstn k form = firstn k w ->
  firstn k (NCLStr.strtoupper form) = firstn k w.
Proof.
  intros Hu H. unfold NCLStr.strtoupper, toUpperCase.
  rewrite firstn_map, H, <- firstn_map.
  f_equal. now apply toUpperCase_all_upper.
Qed.

Lemma split_single (s : jsstring) :
  count_hyphens s = 0%nat -> split hyphen s = [s].
Proof.
  unfold count_hyphens. induction s as [| u s IH]; intros H; [reflexivity |].
  cbn [filter] in H. cbn [split].
  destruct (u =? hyphen)%N; [discriminate H |].
  now rewrite (IH H).
Qed.

Lemma ru_WordCase_two_letters reg c c' w w' :
  WordCase lang reg c w = Ok (c', w') ->
  count_hyphens (word_orig w) = 0%nat ->
  fixed_literal (word_orig w) = false ->
  same_but_last 2 (word_orig w) (NameCases w').
Proof.
  intros H Hh Hfix.
  destruct (WordCase_result _ _ _ _ _ _ H)
    as (m & ws & c0 & lr & Em & Ec & -> & _).
  rewrite (split_single _ Hh) in Ec.
  cbn [WordCase_chunks List.length] in Ec. unfold JS.bind in Ec.
  destruct (WordCase_chunk lang reg m (namePart w) 1 0 (word_orig w) c0)
    as [[[c1 o] lr1] |] eqn:E1; [| discriminate].
  inversion Ec; subst. clear Ec.
  destruct (WordCase_chunk_forms _ _ _ _ _ _ _ _ _ _ _ E1)
    as (o_ncw & norm & forms & En & -> & Hforms).
  assert (Ho : o_ncw = new (word_orig w)).
  { unfold is_norm_rules in En. destruct (namePart w) as [[] |];
      cbn in En; now inversion En. }
  subst o_ncw. unfold glue_all. cbn [fold_left glue getNameCases].
  assert (Hf : same_but_last 2 (word_orig w) forms).
  { destruct Hforms as [(_ & Emc & -> & _) | [-> _]].
    - destruct (ru_lang_two_letters _ _ _ Em _ _ _ Emc) as [_ HQ].
      rewrite workingWord_setWorkingWord in HQ. now apply HQ.
    - apply same_repeat. }
  rewrite setNameCases_masked.
  destruct (new_fields (word_orig w)) as (-> & -> & _).
  unfold same_but_last in *.
  destruct (all_upper (word_orig w)) eqn:Eu; apply Forall_map;
    (eapply Forall_impl; [| exact Hf]); cbv beta; intros f E.
  - now apply upper_prefix.
  - now apply masked_prefix.
Qed.

End RuTwoLetters.

(** X21. The Russian declension changes the end of a word only: every
    form stored for a word without a hyphen agrees with the word, letter
    case included, on all its letters except the last two. The two first
    names with a fixed list of forms, "Павел" and "Лев", are set apart. *)
Theorem russian_declension_changes_the_last_two_letters {JN : JSNumber}
        (reg : NCL.Registry Lang) (c c' : Core) (w w' : Word) :
  WordCase NCLNameCaseRu.lang reg c w = Ok (c', w') ->
  count_hyphens (word_orig w) = 0%nat ->
  fixed_literal (word_orig w) = false ->
  same_but_last 2 (word_orig w) (NameCases w').
Proof. apply ru_WordCase_two_letters. Qed.

Lemma russian_declension_changes_the_last_two_letters_witness :
  exists c' w',
    WordCase NCLNameCaseRu.lang concreteClasses init
             (a_word "Облогин" S_ NCL.MAN) = Ok (c', w')
    /\ Forall (fun form => firstn 5 form = U "Облог") (NameCases w').
Proof.
  destruct (WordCase NCLNameCaseRu.lang concreteClasses init
                     (a_word "Облогин" S_ NCL.MAN))
    as [[c' w'] | e] eqn:E; [| vm_compute in E; discriminate E].
  exists c', w'. split; [reflexivity |].
  exact (russian_declension_changes_the_last_two_letters
           concreteClasses init c' (a_word "Облогин" S_ NCL.MAN) w' E
           eq_refl eq_refl).
Defined.

(** ** Formatting with a template *)

Section Template.
Context {JN : JSNumber}.

Lemma getPartCase_returns (sel : Index -> list nat) (L : Lang)
      (reg : NCL.Registry Lang) (c : Core) (number : option Z)
      (r : Core * CaseValue) :
  getPartCase sel L reg c number = Ok r -> snd r = VString [].
Proof.
  unfold getPartCase, JS.bind.
  destruct (AllWordCases L reg c) as [c' |]; [| discriminate].
  rewrite getCasesConnected_keys.
  destruct (sel (index c')); [| discriminate].
  now intros [= <-].
Qed.

Lemma getFormatted_loop_returns (L : Lang) (reg : NCL.Registry Lang)
      (caseNum : Z) (format : jsstring) :
  forall c result r,
    getFormatted_loop L reg caseNum format c result = Ok r ->
    snd r = result ++ filter (fun u => negb (is_marker u)) format.
Proof.
  induction format as [| symbol rest IH]; intros c result r H.
  - cbn in H. inversion H. cbn. now rewrite app_nil_r.
  - cbn [getFormatted_loop] in H.
    rewrite (marker_test symbol "S" 83 eq_refl),
            (marker_test symbol "N" 78 eq_refl),
            (marker_test symbol "F" 70 eq_refl) in H.
    cbn [filter]. unfold is_marker at 1.
    change (U "SNF") with [83%N; 78%N; 70%N]. cbn [existsb].
    unfold JS.bind in H.
    destruct (symbol =? 83)%N.
    + unfold getSecondNameCase in H.
      destruct (getPartCase index_S L reg c (Some caseNum)) as [p |] eqn:E;
        [| discriminate].
      rewrite (getPartCase_returns _ _ _ _ _ _ E) in H. cbn in H.
      rewrite app_nil_r in H. exact (IH _ _ _ H).
    + destruct (symbol =? 78)%N.
      * unfold getFirstNameCase in H.
        destruct (getPartCase index_N L reg c (Some caseNum)) as [p |] eqn:E;
          [| discriminate].
        rewrite (getPartCase_returns _ _ _ _ _ _ E) in H. cbn in H.
        rewrite app_nil_r in H. exact (IH _ _ _ H).
      * destruct (symbol =? 70)%N.
        -- unfold getFatherNameCase in H.
           destruct (getPartCase index_F L reg c (Some caseNum)) as [p |] eqn:E;
             [| discriminate].
           rewrite (getPartCase_returns _ _ _ _ _ _ E) in H. cbn in H.
           rewrite app_nil_r in H. exact (IH _ _ _ H).
        -- cbn in H. rewrite (IH _ _ _ H), <- app_assoc. reflexivity.
Qed.

Lemma getFormatted_template_returns (L : Lang) (reg : NCL.Registry Lang)
      (c : Core) (caseNum : option Z) (template : jsstring)
      (r : Core * CaseValue) :
  getFormatted L reg c caseNum (FString template) = Ok r ->
  not_specified caseNum = false
  /\ snd r = VString (filter (fun u => negb (is_marker u)) template).
Proof.
  unfold getFormatted, JS.bind. intros H.
  destruct (AllWordCases L reg c) as [c1 |]; [| discriminate].
  destruct (not_specified caseNum); [discriminate H |].
  split; [reflexivity |].
  destruct (getFormatted_loop _ _ _ _ _ _) as [p |] eqn:E; [| discriminate].
  inversion H; subst. cbn.
  now rewrite (getFormatted_loop_returns _ _ _ _ _ _ _ E).
Qed.

End Template.

(** X22. Formatting with a template string never shows a declined form.
    Whatever the language and the words, [getFormatted] and [qFullName]
    called with a template either raise or return the template with its
    markers S, N and F taken out: a marker whose part is held by the
    engine makes the call raise, and with the case number 0 or [null] the
    call raises in every case. *)
Theorem template_formatting_never_shows_a_form {JN : JSNumber}
        (L : Lang) (reg : NCL.Registry Lang) (c : Core)
        (caseNum : option Z) (template : jsstring) :
  (forall r,
      getFormatted L reg c caseNum (FString template) = Ok r ->
      not_specified caseNum = false
      /\ snd r = VString (filter (fun u => negb (is_marker u)) template))
  /\ (forall secondName firstName fatherName gender r,
         qFullName L reg c secondName firstName fatherName gender caseNum
                   (FString template) = Ok r ->
         not_specified caseNum = false
         /\ snd r = VString (filter (fun u => negb (is_marker u)) template)).
Proof.
  split.
  - intros r. apply getFormatted_template_returns.
  - intros s n f g r. unfold qFullName.
    apply getFormatted_template_returns.
Qed.

Lemma template_formatting_never_shows_a_form_witness :
  exists c',
    qFullName NCLNameCaseUa.lang concreteClasses init [] [] [] 0 (Some 1)
              (FString (U "S N F")) = Ok (c', VString (U "  ")).
Proof.
  destruct (qFullName NCLNameCaseUa.lang concreteClasses init [] [] [] 0
                      (Some 1) (FString (U "S N F")))
    as [[c' v] | e] eqn:E; [| vm_compute in E; discriminate E].
  destruct (proj2 (template_formatting_never_shows_a_form
                     NCLNameCaseUa.lang concreteClasses init (Some 1)
                     (U "S N F")) [] [] [] 0 (c', v) E) as [_ Hv].
  cbn [snd] in Hv. subst v. now exists c'.
Defined.

(** ** Where the Russian declension returns *)

Section RuReturns.
Context {JN : JSNumber}.
Import NCLNameCaseRu.

Lemma WordCase_chunks_return_on L m npl cnt :
  forall cur_words,
    Forall (fun cw => forall c, exists b c',
                m (setWorkingWord c cw) = Ok (b, c')) cur_words ->
    forall k c lr,
    exists c' ws lr',
      WordCase_chunks L concreteClasses m npl cnt k cur_words c lr
      = Ok (c', ws, lr').
Proof.
  induction 1 as [| cw cur_words Hm _ IH]; intros k c lr; simpl.
  - now exists c, [], lr.
  - unfold WordCase_chunk, JS.bind.
    destruct (is_norm_rules_package npl cnt k cw) as (o & norm & -> & _).
    cbn [fst snd].
    destruct norm.
    + destruct (Hm c) as (b & c1 & ->). cbn [fst snd].
      match goal with
      | |- context [WordCase_chunks L concreteClasses m npl cnt (S k)
                                    cur_words ?c2 ?r] =>
          destruct (IH (S k) c2 r) as (c3 & ws & lr3 & ->)
      end.
      now do 3 eexists.
    + cbn [fst snd].
      match goal with
      | |- context [WordCase_chunks L concreteClasses m npl cnt (S k)
                                    cur_words ?c2 ?r] =>
          destruct (IH (S k) c2 r) as (c3 & ws & lr3 & ->)
      end.
      now do 3 eexists.
Qed.

Lemma ru_method_returns_on g p m (cw : jsstring) :
  declension_method lang g p = Some m ->
  (forall stem, cw <> stem ++ U "ек") ->
  forall c, exists b c', m (setWorkingWord c cw) = Ok (b, c').
Proof.
  intros H Hcw c.
  destruct ru_other_methods_return as (H1 & H2 & H3 & H4 & H5).
  destruct g, p as [[] |]; try discriminate H; injection H as <-;
    cbn [NCLNameCaseCore.manFirstName NCLNameCaseCore.womanFirstName
         NCLNameCaseCore.manSecondName NCLNameCaseCore.womanSecondName
         NCLNameCaseCore.manFatherName NCLNameCaseCore.womanFatherName lang];
    auto.
  destruct (manSecondName (setWorkingWord c cw)) as [[b c'] | e] eqn:E;
    [now exists b, c' |].
  destruct (ru_manSecondName_raises _ _ E) as [_ [stem Hs]].
  rewrite workingWord_setWorkingWord in Hs. now destruct (Hcw stem).
Qed.

Lemma ru_WordCase_returns (c : Core) (w : Word) :
  namePart w <> None ->
  Forall (fun chunk => forall stem, chunk <> stem ++ U "ек")
         (split hyphen (word_orig w)) ->
  exists c' w', WordCase lang concreteClasses c w = Ok (c', w').
Proof.
  intros Hp Hek. unfold WordCase.
  destruct (gender_word w) as (Ho & Hpart & _).
  destruct (NCLNameCaseWord.gender w) as [g w0]. cbn [snd] in Ho, Hpart.
  unfold getNamePart, getWordOrig. rewrite Hpart, Ho.
  destruct (declension_method lang _ (namePart w)) as [m |] eqn:Em.
  - destruct (WordCase_chunks_return_on lang m (namePart w)
                (List.length (split hyphen (word_orig w)))
                (split hyphen (word_orig w))) with (k := 0%nat) (c := c)
                                                   (lr := -1)
      as (c' & ws & lr & E).
    + eapply Forall_impl; [| exact Hek]. cbv beta. intros cw Hcw.
      eapply ru_method_returns_on; eassumption.
    + unfold JS.bind. rewrite E. now do 2 eexists.
  - destruct (namePart w) as [[] |]; [| | | congruence];
      destruct (g =? NCL.MAN); discriminate Em.
Qed.

Lemma ru_each_WordCase_returns (ws : list Word) :
  Forall (fun w => namePart w <> None
                   /\ Forall (fun chunk => forall stem,
                                  chunk <> stem ++ U "ек")
                             (split hyphen (word_orig w))) ws ->
  forall c, exists c' ws',
      each_word_r (WordCase lang concreteClasses) c ws = Ok (c', ws').
Proof.
  induction 1 as [| w ws [Hw Hek] _ IH]; intros c; simpl.
  - now exists c, [].
  - destruct (ru_WordCase_returns c w Hw Hek) as (c1 & w1 & ->).
    unfold JS.bind. cbn [fst snd].
    destruct (IH c1) as (c2 & ws2 & ->). now do 2 eexists.
Qed.

Lemma not_in_ek_by_test (chunk : jsstring) :
  ends_in 1077 1082 chunk = false ->
  forall stem, chunk <> stem ++ U "ек".
Proof.
  intros H stem E.
  rewrite (ends_in_two stem chunk 1077 1082 E) in H. discriminate H.
Qed.

Lemma Forall_by_word_orig (P : jsstring -> Prop) (ws ws' : list Word) :
  map word_orig ws' = map word_orig ws ->
  Forall (fun w => P (word_orig w)) ws ->
  Forall (fun w => P (word_orig w)) ws'.
Proof.
  revert ws'. induction ws as [| w ws IH]; intros [| w' ws'] E H;
    try discriminate; constructor; inversion H; subst;
    cbn in E; injection E as E1 E2.
  - now rewrite E1.
  - now apply IH.
Qed.

End RuReturns.

(** X23. With the registry of the package, the declension pass of the
    Russian engine returns for every set of words none of whose
    hyphen-separated chunks ends in the two letters "ек", and then every
    word it has declined holds six forms. *)
Theorem russian_declension_returns_without_ek {JN : JSNumber} (c : Core) :
  (ready c = true -> Forall (fun w => namePart w <> None) (words c)) ->
  Forall (fun w => Forall (fun chunk => forall stem, chunk <> stem ++ U "ек")
                          (split hyphen (word_orig w))) (words c) ->
  exists c',
    AllWordCases NCLNameCaseRu.lang concreteClasses c = Ok c'
    /\ map word_orig (words c') = map word_orig (words c)
    /\ (finished c = false ->
        Forall (fun w => List.length (NameCases w) = 6%nat) (words c')).
Proof.
  intros Hready Hek. unfold AllWordCases.
  destruct (finished c) eqn:Ef; [exists c; repeat split; discriminate |].
  assert (H1 : exists c1,
             prepareEverything NCLNameCaseRu.lang c = Ok c1
             /\ Forall (fun w => namePart w <> None) (words c1)
             /\ map word_orig (words c1) = map word_orig (words c)).
  { destruct (ready c) eqn:Er.
    - exists c. unfold prepareEverything. rewrite Er. auto.
    - destruct (prepareEverything_known NCLNameCaseRu.lang c
                  (or_introl eq_refl) Er) as (c1 & E & _ & _ & Hw & _).
      exists c1. split; [exact E |]. split.
      + eapply prepared_typed; eassumption.
      + now apply prepared_word_orig. }
  destruct H1 as (c1 & -> & Ht & Ho). unfold JS.bind.
  pose proof (Forall_by_word_orig
                (fun o => Forall (fun chunk => forall stem,
                                      chunk <> stem ++ U "ек")
                                 (split hyphen o)) _ _ Ho Hek) as Hek1.
  assert (Hall : Forall (fun w => namePart w <> None
                   /\ Forall (fun chunk => forall stem,
                                  chunk <> stem ++ U "ек")
                             (split hyphen (word_orig w))) (words c1)).
  { clear - Ht Hek1. induction Ht; inversion Hek1; subst; constructor; auto. }
  destruct (ru_each_WordCase_returns _ Hall c1) as (c2 & ws2 & E2).
  rewrite E2. eexists. split; [reflexivity |]. cbn. split.
  - destruct (each_WordCase_frame NCLNameCaseRu.lang concreteClasses
                (or_introl eq_refl) _ _ _ _ E2) as [_ Hw2].
    rewrite <- Ho. now apply same_word_orig.
  - intros _. eapply each_word_r_Forall; [| exact E2].
    intros c0 w c0' w' H.
    now destruct (WordCase_shape NCLNameCaseRu.lang concreteClasses
                    ru_lang_shape _ _ _ _ H).
Qed.

Lemma russian_declension_returns_without_ek_witness :
  exists c',
    AllWordCases NCLNameCaseRu.lang concreteClasses
      (setFullName init (U "Облогин") (U "Денис") []) = Ok c'
    /\ map word_orig (words c') = [U "Денис"; U "Облогин"].
Proof.
  destruct (russian_declension_returns_without_ek
              (setFullName init (U "Облогин") (U "Денис") []))
    as (c' & E & Ho & _).
  - discriminate.
  - apply Forall_cons; [| apply Forall_cons; [| apply Forall_nil]].
    + change (Forall (fun chunk => forall stem, chunk <> stem ++ U "ек")
                     [U "Денис"]).
      apply Forall_cons; [apply not_in_ek_by_test; reflexivity
                         | apply Forall_nil].
    + change (Forall (fun chunk => forall stem, chunk <> stem ++ U "ек")
                     [U "Облогин"]).
      apply Forall_cons; [apply not_in_ek_by_test; reflexivity
                         | apply Forall_nil].
  - exists c'. split; [exact E | exact Ho].
Defined.

(** ** Words the rules do not read *)

Section Unread.
Context {JN : JSNumber}.
Variable alphabet : jsstring.

Lemma Last_of_nil (n k : Z) : Last_of [] n k = [].
Proof.
  unfold Last_of, slice, JS.range.
  match goal with
  | |- firstn ?a (skipn ?b []) = [] => now destruct a, b
  end.
Qed.

Lemma Last_of_ends (pre : jsstring) (u : N) (n : Z) :
  1 <= n -> exists pre', Last_of (pre ++ [u]) n 0 = pre' ++ [u].
Proof.
  intros Hn. unfold Last_of, slice, JS.range, JS.strlen.
  cbn [Z.gtb Z.compare]. rewrite length_app. cbn [List.length].
  replace (- n <? 0) with true by (symmetry; apply Z.ltb_lt; lia).
  set (len := (List.length pre + 1)%nat).
  set (from := Z.max (Z.of_nat len + - n) 0).
  rewrite firstn_all2
    by (rewrite length_skipn, length_app; cbn; unfold from, len; lia).
  rewrite skipn_app.
  replace (Z.to_nat from - List.length pre)%nat with 0%nat
    by (unfold from, len; lia).
  eexists. reflexivity.
Qed.

Lemma includes_single (hay : jsstring) (u : N) :
  includes hay [u] = existsb (N.eqb u) hay.
Proof.
  induction hay as [| h hay IH]; [reflexivity |].
  cbn [includes starts_with existsb]. rewrite IH.
  destruct hay; now rewrite andb_true_r.
Qed.

Lemma outside (u x : N) (set : jsstring) :
  existsb (N.eqb u) alphabet = false ->
  forallb (fun x => existsb (N.eqb x) alphabet) set = true ->
  existsb (N.eqb u) set = false.
Proof.
  intros Hu Hset. induction set as [| y set IH]; [reflexivity |].
  cbn in *. apply andb_true_iff in Hset as [Hy Hset].
  rewrite (IH Hset), orb_false_r.
  destruct (N.eqb_spec u y) as [-> | Hne]; [congruence | reflexivity].
Qed.

Lemma no_match_eq (c : Core) (n : Z) (lit : jsstring) :
  unread alphabet (workingWord c) -> 1 <= n ->
  ends_in_alphabet alphabet lit = true ->
  str_eqb (Last c n 0) lit = false.
Proof.
  intros Hw Hn Hlit. unfold Last. apply str_eqb_neq. intros E.
  unfold ends_in_alphabet in Hlit.
  destruct Hw as [Hw | (pre & u & Hw & Hu)]; rewrite Hw in E.
  - rewrite Last_of_nil in E. subst lit. discriminate Hlit.
  - destruct (Last_of_ends pre u n Hn) as [pre' E'].
    rewrite E' in E. subst lit.
    rewrite rev_app_distr in Hlit. cbn in Hlit. congruence.
Qed.

Lemma no_match_in_arr (c : Core) (n : Z) (lits : list jsstring) :
  unread alphabet (workingWord c) -> 1 <= n ->
  forallb (ends_in_alphabet alphabet) lits = true ->
  in_arr (Last c n 0) lits = false.
Proof.
  intros Hw Hn Hlits. unfold in_arr.
  destruct (Last c n 0) eqn:E; [reflexivity |]. rewrite <- E. clear E.
  unfold arr_includes.
  induction lits as [| lit lits IH]; [reflexivity |].
  cbn [forallb] in Hlits. apply andb_true_iff in Hlits as [Hlit Hlits].
  cbn [existsb]. rewrite (IH Hlits), orb_false_r.
  now apply no_match_eq.
Qed.

Lemma no_match_in_str (c : Core) (set : jsstring) :
  unread alphabet (workingWord c) ->
  forallb (fun x => existsb (N.eqb x) alphabet) set = true ->
  in_str (Last c 1 0) set = false.
Proof.
  intros Hw Hset. unfold Last.
  destruct Hw as [Hw | (pre & u & Hw & Hu)]; rewrite Hw.
  - now rewrite Last_of_nil.
  - replace (Last_of (pre ++ [u]) 1 0) with [u]
      by (symmetry; apply (Last_of_suffix pre [u]); discriminate).
    unfold in_str. rewrite includes_single.
    now apply (outside u u).
Qed.

End Unread.

(** Decides every test of a rule on the end of the working word. *)
Ltac unread_rule Hw :=
  cbv zeta;
  repeat first
    [ rewrite (no_match_eq _ _ _ _ Hw) by (first [lia | reflexivity])
    | rewrite (no_match_in_arr _ _ _ _ Hw) by (first [lia | reflexivity])
    | rewrite (no_match_in_str _ _ _ Hw) by reflexivity ];
  reflexivity.

Section UnreadRules.
Context {JN : JSNumber}.

Lemma ua_rules_unread gender ruleID m (c : Core) :
  NCLNameCaseUa.rules gender ruleID = Some m ->
  unread ua_alphabet (workingWord c) ->
  m c = Ok (false, c).
Proof.
  intros H Hw. table_entry H;
    match goal with
    | |- NCLNameCaseUa.manRule1 _ = _ => unfold NCLNameCaseUa.manRule1
    | |- NCLNameCaseUa.manRule2 _ = _ => unfold NCLNameCaseUa.manRule2
    | |- NCLNameCaseUa.manRule3 _ = _ => unfold NCLNameCaseUa.manRule3
    | |- NCLNameCaseUa.manRule4 _ = _ => unfold NCLNameCaseUa.manRule4
    | |- NCLNameCaseUa.manRule5 _ = _ => unfold NCLNameCaseUa.manRule5
    | |- NCLNameCaseUa.womanRule1 _ = _ => unfold NCLNameCaseUa.womanRule1
    | |- NCLNameCaseUa.womanRule2 _ = _ => unfold NCLNameCaseUa.womanRule2
    | |- NCLNameCaseUa.womanRule3 _ = _ => unfold NCLNameCaseUa.womanRule3
    end; unread_rule Hw.
Qed.

Lemma ru_rules_unread gender ruleID m (c : Core) :
  NCLNameCaseRu.rules gender ruleID = Some m ->
  unread ru_alphabet (workingWord c) ->
  m c = Ok (false, c).
Proof.
  intros H Hw. table_entry H;
    match goal with
    | |- NCLNameCaseRu.manRule1 _ = _ => unfold NCLNameCaseRu.manRule1
    | |- NCLNameCaseRu.manRule2 _ = _ => unfold NCLNameCaseRu.manRule2
    | |- NCLNameCaseRu.manRule3 _ = _ => unfold NCLNameCaseRu.manRule3
    | |- NCLNameCaseRu.manRule4 _ = _ => unfold NCLNameCaseRu.manRule4
    | |- NCLNameCaseRu.manRule5 _ = _ => unfold NCLNameCaseRu.manRule5
    | |- NCLNameCaseRu.manRule6 _ = _ => unfold NCLNameCaseRu.manRule6
    | |- NCLNameCaseRu.manRule7 _ = _ => unfold NCLNameCaseRu.manRule7
    | |- NCLNameCaseRu.manRule8 _ = _ => unfold NCLNameCaseRu.manRule8
    | |- NCLNameCaseRu.womanRule1 _ = _ => unfold NCLNameCaseRu.womanRule1
    | |- NCLNameCaseRu.womanRule2 _ = _ => unfold NCLNameCaseRu.womanRule2
    | |- NCLNameCaseRu.womanRule3 _ = _ => unfold NCLNameCaseRu.womanRule3
    | |- NCLNameCaseRu.womanRule4 _ = _ => unfold NCLNameCaseRu.womanRule4
    end; unread_rule Hw.
Qed.

Lemma chain_unread (rules : GenderTag -> Z -> option Method)
      (gender : GenderTag) (rulesArray : list Z) (c : Core) :
  (forall ruleID m, rules gender ruleID = Some m -> m c = Ok (false, c)) ->
  Forall (fun ruleID => rules gender ruleID <> None) rulesArray ->
  RulesChain rules gender rulesArray c = Ok (false, c).
Proof.
  intros Hr Hall. apply RulesChain_no_match.
  intros ruleID Hin. rewrite Forall_forall in Hall. specialize (Hall _ Hin).
  destruct (rules gender ruleID) as [m |] eqn:Em; [| congruence].
  exists m. split; [reflexivity |]. now apply (Hr ruleID).
Qed.

Lemma ua_methods_unread g p m (c : Core) :
  declension_method NCLNameCaseUa.lang g p = Some m ->
  unread ua_alphabet (workingWord c) ->
  m c = Ok (false, c).
Proof.
  intros H Hw.
  destruct g, p as [[] |]; try discriminate H; injection H as <-;
    cbn [NCLNameCaseCore.manFirstName NCLNameCaseCore.womanFirstName
         NCLNameCaseCore.manSecondName NCLNameCaseCore.womanSecondName
         NCLNameCaseCore.manFatherName NCLNameCaseCore.womanFatherName
         NCLNameCaseUa.lang];
    try (apply chain_unread;
         [ intros ruleID m Hm; now apply (ua_rules_unread _ _ _ _ Hm)
         | repeat constructor; discriminate ]).
  - unfold NCLNameCaseUa.manFatherName. unread_rule Hw.
  - unfold NCLNameCaseUa.womanFatherName. unread_rule Hw.
Qed.

Lemma inNames_sublist (w : jsstring) (names listed : list jsstring) :
  inNames w listed = false -> incl names listed -> inNames w names = false.
Proof.
  unfold inNames. intros H Hincl.
  destruct (existsb _ names) eqn:E; [| reflexivity].
  apply existsb_exists in E as (x & Hx & Hxe).
  assert (existsb (fun name => str_eqb (toLowerCase w) (toLowerCase name))
                  listed = true)
    by (apply existsb_exists; exists x; split; auto).
  congruence.
Qed.

Lemma ru_methods_unread g p m (c : Core) :
  declension_method NCLNameCaseRu.lang g p = Some m ->
  unread ru_alphabet (workingWord c) ->
  ru_listed (workingWord c) = false ->
  m c = Ok (false, c).
Proof.
  intros H Hw Hl.
  assert (H1 : inNames (workingWord c) [U "Старший"; U "Младший"] = false)
    by (apply (inNames_sublist _ _ _ Hl); intros x [<- | [<- | []]];
        cbn; auto).
  assert (H2 : inNames (workingWord c) [U "Мариа"] = false)
    by (apply (inNames_sublist _ _ _ Hl); intros x [<- | []]; cbn; auto).
  assert (H3 : inNames (workingWord c) [U "Ильич"] = false)
    by (apply (inNames_sublist _ _ _ Hl); intros x [<- | []]; cbn; auto 6).
  destruct g, p as [[] |]; try discriminate H; injection H as <-;
    cbn [NCLNameCaseCore.manFirstName NCLNameCaseCore.womanFirstName
         NCLNameCaseCore.manSecondName NCLNameCaseCore.womanSecondName
         NCLNameCaseCore.manFatherName NCLNameCaseCore.womanFatherName
         NCLNameCaseRu.lang];
    try (apply chain_unread;
         [ intros ruleID m Hm; now apply (ru_rules_unread _ _ _ _ Hm)
         | repeat constructor; discriminate ]).
  - unfold NCLNameCaseRu.manFirstName. rewrite H1, H2.
    apply chain_unread;
      [ intros ruleID m Hm; now apply (ru_rules_unread _ _ _ _ Hm)
      | repeat constructor; discriminate ].
  - unfold NCLNameCaseRu.manFatherName. rewrite H3. unread_rule Hw.
  - unfold NCLNameCaseRu.womanFatherName. unread_rule Hw.
Qed.

Lemma unread_WordCase (L : Lang) (reg : NCL.Registry Lang) (c : Core)
      (w : Word) :
  (forall g p m c0,
      declension_method L g p = Some m ->
      workingWord c0 = word_orig w -> m c0 = Ok (false, c0)) ->
  namePart w <> None ->
  count_hyphens (word_orig w) = 0%nat ->
  exists c' w',
    WordCase L reg c w = Ok (c', w')
    /\ NameCases w' = repeat (word_orig w) (CaseCount L)
    /\ rule w' = -1.
Proof.
  intros Hm Hp Hh. unfold WordCase.
  destruct (gender_word w) as (Ho & Hpart & _).
  destruct (NCLNameCaseWord.gender w) as [g w0]. cbn [snd] in Ho, Hpart.
  unfold getNamePart, getWordOrig. rewrite Hpart, Ho.
  destruct (declension_method L _ (namePart w)) as [m |] eqn:Em.
  - rewrite (split_single _ Hh).
    cbn [WordCase_chunks List.length]. unfold WordCase_chunk.
    assert (En : is_norm_rules reg (namePart w) 1 0 (word_orig w)
                               (new (word_orig w))
                 = Ok (new (word_orig w), true))
      by (unfold is_norm_rules; now destruct (namePart w) as [[] |]).
    rewrite En. cbn [JS.bind fst snd].
    rewrite (Hm _ _ _ (setWorkingWord c (word_orig w)) Em eq_refl).
    cbn [JS.bind fst snd]. do 2 eexists. split; [reflexivity |].
    cbn [rule setRule NameCases setNameCases set_NameCases].
    split; [| reflexivity].
    unfold glue_all. cbn [fold_left glue getNameCases].
    apply setNameCases_self.
  - destruct (namePart w) as [[] |]; [| | | congruence];
      destruct (g =? NCL.MAN); discriminate Em.
Qed.

End UnreadRules.

(** X24. The rules test the end of a word, as it was supplied, against
    lower-case letters. A word that does not end in a lower-case letter
    of the language - a word in capital letters, an empty word, a word in
    another script - matches no rule of the Ukrainian module, and none of
    the Russian module unless it is one of the four names the Russian
    methods look up first; when it holds no hyphen, its declension stores
    the word unchanged in every case, with the rule number -1. *)
Theorem words_not_ending_in_lower_case_are_left_alone {JN : JSNumber}
        (reg : NCL.Registry Lang) (c : Core) (w : Word) :
  (forall g p m c0,
      declension_method NCLNameCaseUa.lang g p = Some m ->
      unread ua_alphabet (workingWord c0) -> m c0 = Ok (false, c0))
  /\ (forall g p m c0,
         declension_method NCLNameCaseRu.lang g p = Some m ->
         unread ru_alphabet (workingWord c0) ->
         ru_listed (workingWord c0) = false -> m c0 = Ok (false, c0))
  /\ (namePart w <> None -> count_hyphens (word_orig w) = 0%nat ->
      unread ua_alphabet (word_orig w) ->
      exists c' w',
        WordCase NCLNameCaseUa.lang reg c w = Ok (c', w')
        /\ NameCases w' = repeat (word_orig w) 7 /\ rule w' = -1)
  /\ (namePart w <> None -> count_hyphens (word_orig w) = 0%nat ->
      unread ru_alphabet (word_orig w) -> ru_listed (word_orig w) = false ->
      exists c' w',
        WordCase NCLNameCaseRu.lang reg c w = Ok (c', w')
        /\ NameCases w' = repeat (word_orig w) 6 /\ rule w' = -1).
Proof.
  split; [| split; [| split]].
  - intros g p m c0. apply ua_methods_unread.
  - intros g p m c0. apply ru_methods_unread.
  - intros Hp Hh Hw.
    apply (unread_WordCase NCLNameCaseUa.lang); auto.
    intros g p m c0 Hm Hc0. apply (ua_methods_unread g p); auto.
    now rewrite Hc0.
  - intros Hp Hh Hw Hl.
    apply (unread_WordCase NCLNameCaseRu.lang); auto.
    intros g p m c0 Hm Hc0. apply (ru_methods_unread g p); auto;
      now rewrite Hc0.
Qed.

Lemma words_not_ending_in_lower_case_are_left_alone_witness :
  exists c' w',
    WordCase NCLNameCaseUa.lang concreteClasses init
             (a_word "ТАРАС" N_ NCL.MAN) = Ok (c', w')
    /\ NameCases w' = repeat (U "ТАРАС") 7.
Proof.
  destruct (words_not_ending_in_lower_case_are_left_alone
              concreteClasses init (a_word "ТАРАС" N_ NCL.MAN))
    as (_ & _ & H & _).
  destruct H as (c' & w' & E & Hn & _).
  - discriminate.
  - reflexivity.
  - right. exists (U "ТАРА"), 1057%N. split; reflexivity.
  - now exists c', w'.
Defined.

(** ** What the stored forms depend on *)

(** X25. What the Russian or the Ukrainian declension stores for a word -
    the forms and the rule number, or the error it raises - depends only
    on the original text of the word, its type and its gender: not on the
    state of the engine, nor on what was declined before, nor on the forms
    the word already holds. *)
Theorem declension_depends_on_the_word_only {JN : JSNumber}
        (L : Lang) (reg : NCL.Registry Lang) (c1 c2 : Core) (w1 w2 : Word) :
  L = NCLNameCaseRu.lang \/ L = NCLNameCaseUa.lang ->
  word_orig w1 = word_orig w2 ->
  namePart w1 = namePart w2 ->
  fst (NCLNameCaseWord.gender w1) = fst (NCLNameCaseWord.gender w2) ->
  forms_outcome (WordCase L reg c1 w1) = forms_outcome (WordCase L reg c2 w2).
Proof. apply WordCase_blind. Qed.

Lemma declension_depends_on_the_word_only_witness :
  forms_outcome (WordCase NCLNameCaseUa.lang concreteClasses engine_sasha
                          (setNameCases taras [U "x"] false))
  = forms_outcome (WordCase NCLNameCaseUa.lang concreteClasses init taras).
Proof.
  apply (declension_depends_on_the_word_only
           NCLNameCaseUa.lang concreteClasses engine_sasha init
           (setNameCases taras [U "x"] false) taras
           (or_intror eq_refl)); reflexivity.
Defined.
